(** * Large Model Support (LMS): a shallow embedding of [lms.py]

    The graph rewriter of [tensorflow_large_model_support/lms.py] inserts
    swap-out / swap-in identity operations between the forward and the
    backward phase of a dataflow graph.  This file embeds the class [LMS]
    function by function and proves properties of the embedding.

    Conventions of the embedding.
    - A [tf.Operation] is identified by its position in the graph's list of
      operations ([OpId]); operations are never removed, new ones are appended.
    - A Python [set] of operations is a duplicate-free list; the iteration
      order of a Python set is unspecified, the embedding iterates in list
      order.
    - The graph is the caller's object, mutated in place: it lives in the
      state as [heap_graph]; [self._graph] is a reference to it or [None].
    - Methods of [LMS] are computations in the monad [M] (state and
      exceptions); loops without a syntactic bound take fuel.
    - Logging ([_log_info], [_print_configuration], timing) has no effect on
      the graph or on the object and is left out.
    - What [lms.py] takes from outside the repository and from the context
      of the call is a parameter of the embedding (the class [Env]): the
      regular expressions of Python's [re], the name scope the graph is in
      when [run] is called, and the device names of TensorFlow. *)

From Stdlib Require Import List ZArith Lia Bool String Ascii Arith PeanoNat.
From Stdlib Require Import DecimalString Decimal Sorted.
Import ListNotations.
Open Scope string_scope.
Open Scope list_scope.
Open Scope Z_scope.

Set Implicit Arguments.

(* ================================================================== *)
(** ** Strings and finite sets *)

(** Python's [sub in s] on strings. *)
Fixpoint contains (sub s : string) : bool :=
  String.prefix sub s ||
  match s with
  | EmptyString => false
  | String _ s' => contains sub s'
  end.

Definition mem_str (x : string) (l : list string) : bool :=
  existsb (String.eqb x) l.

Definition mem (x : nat) (l : list nat) : bool := existsb (Nat.eqb x) l.

(** [set.add] *)
Definition set_add (x : nat) (l : list nat) : list nat :=
  if mem x l then l else l ++ [x].

(** [a | b] *)
Definition set_union (a b : list nat) : list nat := fold_left (fun acc x => set_add x acc) b a.

(** [a & b] *)
Definition set_inter (a b : list nat) : list nat := filter (fun x => mem x b) a.

(** [a - b] *)
Definition set_diff (a b : list nat) : list nat := filter (fun x => negb (mem x b)) a.

(** [set(l)] *)
Definition to_set (l : list nat) : list nat := set_union [] l.

Definition str_add (x : string) (l : list string) : list string :=
  if mem_str x l then l else l ++ [x].

Definition str_union (a b : list string) : list string :=
  fold_left (fun acc x => str_add x acc) b a.

Definition str_diff (a b : list string) : list string :=
  filter (fun x => negb (mem_str x b)) a.

(** Truth value of a Python container. *)
Definition nonempty {A} (l : list A) : bool :=
  match l with [] => false | _ => true end.

(** [range(lo, hi)] on integers. *)
Definition zrange (lo hi : Z) : list Z :=
  map (fun k => lo + Z.of_nat k) (seq 0 (Z.to_nat (hi - lo))).

(* ================================================================== *)
(** ** The graph model (TensorFlow / graph editor side) *)

Abbreviation OpId := nat.

(** A tensor is an output slot of its producer. *)
Abbreviation Tensor := (nat * nat)%type.

Definition tensor_eqb (a b : Tensor) : bool :=
  Nat.eqb (fst a) (fst b) && Nat.eqb (snd a) (snd b).

Record Node := mkNode {
  name : string;
  type : string;
  inputs : list Tensor;
  control_inputs : list OpId;
  n_outputs : nat;
  device : string
}.

Definition Graph := list Node.

Definition empty_node : Node := mkNode "" "" [] [] 0 "".

Definition node (g : Graph) (op : OpId) : Node := nth op g empty_node.

Definition op_name (g : Graph) (op : OpId) : string := name (node g op).
Definition op_type (g : Graph) (op : OpId) : string := type (node g op).

(** [op.outputs] *)
Definition outputs (g : Graph) (op : OpId) : list Tensor :=
  map (fun k => (op, k)) (seq 0 (n_outputs (node g op))).

Definition mem_tensor (t : Tensor) (l : list Tensor) : bool :=
  existsb (tensor_eqb t) l.

(** What the methods of [LMS] take from outside [lms.py].

    - [re_compile pattern] is [re.compile(pattern)]: [None] when Python
      raises [re.error] (the pattern is not a regular expression), and
      otherwise the test [regex.search(s) is not None] of the compiled
      expression.
    - [name_stack] is the name scope of the graph at the time of the call
      ([''] at the root, ['outer'] inside [with tf.name_scope('outer')]).
    - [device_name dev] is the device that TensorFlow records in an
      operation created under [with tf.device(dev)] in the context of the
      call. *)
Class Env := {
  re_compile : string -> option (string -> bool);
  name_stack : string;
  device_name : string -> string
}.

Module ge.

(** [ge.make_list_of_op(graph)] / [graph.get_operations()] *)
Definition make_list_of_op (g : Graph) : list OpId := seq 0 (List.length g).

(** [ge.filter_ops_from_regex(ops, regex)]: the operations of [ops] in whose
    name the regular expression finds a match; [None] is the [re.error] of
    [re.compile]. *)
Definition filter_ops_from_regex `{Env} (g : Graph) (ops : list OpId)
           (regex : string) : option (list OpId) :=
  match re_compile regex with
  | Some search => Some (filter (fun op => search (op_name g op)) ops)
  | None => None
  end.

(** [if scope and scope[-1] == '/': scope = scope[:-1]] *)
Definition strip_slash (scope : string) : string :=
  let n := String.length scope in
  match n with
  | O => scope
  | S k => if String.eqb (substring k 1 scope) "/" then substring 0 k scope
           else scope
  end.

(** The pattern of a name scope: the scope, alone or followed by a slash
    and anything, between the anchors of start and end. *)
Definition name_scope_regex (scope : string) : string :=
  ("^" ++ scope ++ "(/.*" ++ ")?$")%string.

(** [ge.get_name_scope_ops(ops, scope)]: [filter_ops_from_regex] with the
    pattern of the scope, after a trailing slash of the scope is removed. *)
Definition get_name_scope_ops `{Env} (g : Graph) (ops : list OpId)
           (scope : string) : option (list OpId) :=
  filter_ops_from_regex g ops (name_scope_regex (strip_slash scope)).

(** [ge.util.get_consuming_ops(t)] *)
Definition get_consuming_ops (g : Graph) (t : Tensor) : list OpId :=
  filter (fun op => mem_tensor t (inputs (node g op))) (make_list_of_op g).

(** Consumers of any output of [op] that lie within [within]. *)
Definition successors (g : Graph) (within : OpId -> bool) (op : OpId)
  : list OpId :=
  filter within (flat_map (get_consuming_ops g) (outputs g op)).

Fixpoint walk (g : Graph) (within : OpId -> bool) (n : nat)
         (acc : list OpId) : list OpId :=
  match n with
  | O => acc
  | S n' => walk g within n'
              (set_union acc (flat_map (successors g within) acc))
  end.

(** [ge.get_forward_walk_ops(op)]: every operation reachable from [op]
    through producer-consumer edges, [op] included. *)
Definition get_forward_walk_ops (g : Graph) (op : OpId) : list OpId :=
  walk g (fun _ => true) (List.length g) [op].

(** [ge.get_forward_walk_ops(op, within_ops=w, inclusive=False)] *)
Definition get_forward_walk_ops_within (g : Graph) (op : OpId)
           (w : list OpId) : list OpId :=
  let seeds := filter (fun o => mem o w) [op] in
  set_diff (walk g (fun o => mem o w) (List.length g) seeds) seeds.

(** A subgraph view of one operation: its distinct input tensors and its
    output tensors. *)
Record SubGraphView := mkSgv {
  sgv_op : OpId;
  sgv_inputs : list Tensor;
  sgv_outputs : list Tensor
}.

Fixpoint dedup (l : list Tensor) (seen : list Tensor) : list Tensor :=
  match l with
  | [] => []
  | t :: r => if mem_tensor t seen then dedup r seen
              else t :: dedup r (t :: seen)
  end.

Definition sgv (g : Graph) (op : OpId) : SubGraphView :=
  mkSgv op (dedup (inputs (node g op)) []) (outputs g op).

Fixpoint index_of (t : Tensor) (l : list Tensor) : option nat :=
  match l with
  | [] => None
  | x :: r => if tensor_eqb t x then Some O
              else option_map S (index_of t r)
  end.

Definition input_index (v : SubGraphView) (t : Tensor) : option nat :=
  index_of t (sgv_inputs v).

Definition output_index (v : SubGraphView) (t : Tensor) : option nat :=
  index_of t (sgv_outputs v).

Definition remap_inputs (v : SubGraphView) (idx : nat)
  : option SubGraphView :=
  option_map (fun t => mkSgv (sgv_op v) [t] (sgv_outputs v))
             (nth_error (sgv_inputs v) idx).

Definition remap_outputs (v : SubGraphView) (idx : nat)
  : option SubGraphView :=
  option_map (fun t => mkSgv (sgv_op v) (sgv_inputs v) [t])
             (nth_error (sgv_outputs v) idx).

Definition set_inputs (n : Node) (ins : list Tensor) : Node :=
  mkNode (name n) (type n) ins (control_inputs n) (n_outputs n) (device n).

Definition set_control_inputs (n : Node) (cs : list OpId) : Node :=
  mkNode (name n) (type n) (inputs n) cs (n_outputs n) (device n).

Fixpoint update (g : Graph) (op : OpId) (f : Node -> Node) : Graph :=
  match g, op with
  | [], _ => []
  | n :: r, O => f n :: r
  | n :: r, S k => n :: update r k f
  end.

(** [ge.connect(sgv0, sgv1)]: every input slot of the operation of [sgv1]
    that reads the i-th input tensor of the view now reads the i-th output
    tensor of [sgv0]; the two lists must have the same length. *)
Definition reroute (outs ins : list Tensor) (t : Tensor) : Tensor :=
  match index_of t ins with
  | Some i => nth i outs t
  | None => t
  end.

Definition connect (g : Graph) (v0 v1 : SubGraphView) : option Graph :=
  if Nat.eqb (List.length (sgv_outputs v0)) (List.length (sgv_inputs v1)) then
    Some (update g (sgv_op v1)
            (fun n => set_inputs n
               (map (reroute (sgv_outputs v0) (sgv_inputs v1)) (inputs n))))
  else None.

(** [ge.add_control_inputs(op, cop)]; an error when [cop] is already a
    control input of [op]. *)
Definition add_control_inputs (g : Graph) (op cop : OpId) : option Graph :=
  if mem cop (control_inputs (node g op)) then None
  else Some (update g op
               (fun n => set_control_inputs n (control_inputs n ++ [cop]))).

End ge.

Module tf.

Definition name_in_use (g : Graph) (nm : string) : bool :=
  existsb (fun n => String.eqb nm (name n)) g.

Definition string_of_nat (n : nat) : string :=
  NilEmpty.string_of_uint (Nat.to_uint n).

Definition suffixed (base : string) (k : nat) : string :=
  (base ++ "_" ++ string_of_nat k)%string.

(** [graph.unique_name(base)]: [base], or [base_k] for the first free
    [k >= 1]. *)
Definition unique_name (g : Graph) (base : string) : string :=
  if name_in_use g base then
    match find (fun k => negb (name_in_use g (suffixed base k)))
               (seq 1 (S (List.length g))) with
    | Some k => suffixed base k
    | None => suffixed base (S (S (List.length g)))
    end
  else base.

(** The prefix that the current name scope puts before the name asked for
    a new operation: nothing at the root, ['outer/'] inside the scope
    ['outer']. *)
Definition scope_prefix `{Env} : string :=
  if String.eqb name_stack "" then "" else (name_stack ++ "/")%string.

Definition scoped `{Env} (base : string) : string :=
  (scope_prefix ++ base)%string.

(** [with tf.device(dev): tf.identity(t, name=base)]: a new operation of
    type Identity reading [t], appended to the graph; its name is made
    unique from [base] inside the current name scope, its device is the
    one TensorFlow records for [dev]. *)
Definition identity `{Env} (g : Graph) (t : Tensor) (base dev : string)
  : Graph * OpId :=
  (g ++ [mkNode (unique_name g (scoped base)) "Identity" [t] [] 1
                (device_name dev)],
   List.length g).

End tf.

(* ================================================================== *)
(** ** The topological leveler *)

Module topos.

(** Modelled from the spec: the module [topos] (class [TOPOS]) is imported
    by [lms.py] but is not among the sources.  Section 4.2 of the
    specification gives its interface: [level(op) -> int] ([-1] if
    unordered), [opsAtLevel(i) -> set<Operation>], [size] (number of
    levels) and [bwStartingOrder].  The order is built once per run and
    only read afterwards. *)
Record TOPOS := mkTOPOS {
  get_order : OpId -> Z;
  get_ops : Z -> list OpId;
  size : Z;
  bw_starting_order : Z
}.

End topos.
Import topos.

(* ================================================================== *)
(** ** The LMS object and the monad of its methods *)

Inductive CTRLD_Strategy := CHAIN_RULE | DIRECT_ORDER.

(** Operations with these types will be excluded from swapping. *)
Definition ATOMIC_TYPES : list string :=
  ["Const"; "Mul"; "Add"; "Identity"; "Assign"; "VariableV2";
   "Reshape"; "Shape"; "ShapeN"; "Placeholder"].

(** A reference to the one graph object of the caller. *)
Inductive GraphRef := the_graph.

(** The keyword arguments of [LMS.__init__] ([debug] and [debug_level] only
    steer logging). *)
Record Args := mkArgs {
  optimizer_scopes : list string;
  graph : option GraphRef;
  starting_scope : option string;
  starting_op_names : option (list string);
  excl_scopes : list string;
  incl_scopes : list string;
  excl_types : list string;
  incl_types : list string;
  lb : Z;
  ub : Z;
  n_tensors : Z;
  fuse_swapins : bool;
  ctrld_strategy : string;
  swap_branches : bool;
  branch_threshold : Z;
  cpu_device : string
}.

Record LMS := mkLMS {
  _graph : option GraphRef;
  _optimizer_scopes : list string;
  _excl_scopes : list string;
  _incl_scopes : list string;
  _excl_types : list string;
  _incl_types : list string;
  _starting_scope : option string;
  _starting_op_names : option (list string);
  _lb : Z;
  _ub : Z;
  _n_tensors : Z;
  _fuse_swapins : bool;
  _ctrld_strategy : CTRLD_Strategy;
  _swap_branches : bool;
  _branch_threshold : Z;
  _excl_ops : list OpId;
  _incl_ops : list OpId;
  _grad_ops : list OpId;
  _cpu_device : string;
  _incpu_count : Z;
  _ops_dict : list (OpId * list OpId)
}.

Definition set_graph (v : option GraphRef) (o : LMS) : LMS :=
  mkLMS v (_optimizer_scopes o) (_excl_scopes o) (_incl_scopes o)
    (_excl_types o) (_incl_types o) (_starting_scope o) (_starting_op_names o)
    (_lb o) (_ub o) (_n_tensors o) (_fuse_swapins o) (_ctrld_strategy o)
    (_swap_branches o) (_branch_threshold o) (_excl_ops o) (_incl_ops o)
    (_grad_ops o) (_cpu_device o) (_incpu_count o) (_ops_dict o).

Definition set_n_tensors (v : Z) (o : LMS) : LMS :=
  mkLMS (_graph o) (_optimizer_scopes o) (_excl_scopes o) (_incl_scopes o)
    (_excl_types o) (_incl_types o) (_starting_scope o) (_starting_op_names o)
    (_lb o) (_ub o) v (_fuse_swapins o) (_ctrld_strategy o)
    (_swap_branches o) (_branch_threshold o) (_excl_ops o) (_incl_ops o)
    (_grad_ops o) (_cpu_device o) (_incpu_count o) (_ops_dict o).

Definition set_excl_ops (v : list OpId) (o : LMS) : LMS :=
  mkLMS (_graph o) (_optimizer_scopes o) (_excl_scopes o) (_incl_scopes o)
    (_excl_types o) (_incl_types o) (_starting_scope o) (_starting_op_names o)
    (_lb o) (_ub o) (_n_tensors o) (_fuse_swapins o) (_ctrld_strategy o)
    (_swap_branches o) (_branch_threshold o) v (_incl_ops o)
    (_grad_ops o) (_cpu_device o) (_incpu_count o) (_ops_dict o).

Definition set_incl_ops (v : list OpId) (o : LMS) : LMS :=
  mkLMS (_graph o) (_optimizer_scopes o) (_excl_scopes o) (_incl_scopes o)
    (_excl_types o) (_incl_types o) (_starting_scope o) (_starting_op_names o)
    (_lb o) (_ub o) (_n_tensors o) (_fuse_swapins o) (_ctrld_strategy o)
    (_swap_branches o) (_branch_threshold o) (_excl_ops o) v
    (_grad_ops o) (_cpu_device o) (_incpu_count o) (_ops_dict o).

Definition set_grad_ops (v : list OpId) (o : LMS) : LMS :=
  mkLMS (_graph o) (_optimizer_scopes o) (_excl_scopes o) (_incl_scopes o)
    (_excl_types o) (_incl_types o) (_starting_scope o) (_starting_op_names o)
    (_lb o) (_ub o) (_n_tensors o) (_fuse_swapins o) (_ctrld_strategy o)
    (_swap_branches o) (_branch_threshold o) (_excl_ops o) (_incl_ops o)
    v (_cpu_device o) (_incpu_count o) (_ops_dict o).

Definition set_incpu_count (v : Z) (o : LMS) : LMS :=
  mkLMS (_graph o) (_optimizer_scopes o) (_excl_scopes o) (_incl_scopes o)
    (_excl_types o) (_incl_types o) (_starting_scope o) (_starting_op_names o)
    (_lb o) (_ub o) (_n_tensors o) (_fuse_swapins o) (_ctrld_strategy o)
    (_swap_branches o) (_branch_threshold o) (_excl_ops o) (_incl_ops o)
    (_grad_ops o) (_cpu_device o) v (_ops_dict o).

Definition set_ops_dict (v : list (OpId * list OpId)) (o : LMS) : LMS :=
  mkLMS (_graph o) (_optimizer_scopes o) (_excl_scopes o) (_incl_scopes o)
    (_excl_types o) (_incl_types o) (_starting_scope o) (_starting_op_names o)
    (_lb o) (_ub o) (_n_tensors o) (_fuse_swapins o) (_ctrld_strategy o)
    (_swap_branches o) (_branch_threshold o) (_excl_ops o) (_incl_ops o)
    (_grad_ops o) (_cpu_device o) (_incpu_count o) v.

(** Exceptions: the [ValueError]s raised by [lms.py] itself, the [re.error]
    of a scope or name that is not a regular expression, and errors raised
    inside the graph editor. *)
Inductive exn :=
| ValueError (msg : string)
| ReError
| GraphEditorError.

Inductive outcome (A : Type) :=
| Ret (a : A)
| Raise (e : exn)
| OutOfFuel.
Arguments Ret {A} a.
Arguments Raise {A} e.
Arguments OutOfFuel {A}.

(** The state: the caller's graph and the LMS object. *)
Definition St := (Graph * LMS)%type.

Definition M (A : Type) := St -> outcome A * St.

Definition ret {A} (a : A) : M A := fun s => (Ret a, s).

Definition bind {A B} (m : M A) (k : A -> M B) : M B :=
  fun s => match m s with
           | (Ret a, s') => k a s'
           | (Raise e, s') => (Raise e, s')
           | (OutOfFuel, s') => (OutOfFuel, s')
           end.

Definition raise {A} (e : exn) : M A := fun s => (Raise e, s).
Definition out_of_fuel {A} : M A := fun s => (OutOfFuel, s).
Definition get_graph : M Graph := fun s => (Ret (fst s), s).
Definition put_graph (g : Graph) : M unit := fun s => (Ret tt, (g, snd s)).
Definition self : M LMS := fun s => (Ret (snd s), s).
Definition modify (f : LMS -> LMS) : M unit :=
  fun s => (Ret tt, (fst s, f (snd s))).

(** A graph editor call that may fail. *)
Definition lift_ge {A} (o : option A) : M A :=
  match o with Some a => ret a | None => raise GraphEditorError end.

(** A search by regular expression; it fails when the pattern does not
    compile. *)
Definition lift_re {A} (o : option A) : M A :=
  match o with Some a => ret a | None => raise ReError end.

Notation "x <- m ;; k" := (bind m (fun x => k))
  (at level 61, m at next level, right associativity).
Notation "m ;;; k" := (bind m (fun _ => k))
  (at level 61, right associativity).

(** Control of a loop body: go on with the next element, or leave the loop
    ([break], or a [return] that ends the method). *)
Inductive ctl := Next | Stop.

Fixpoint for_each {A} (l : list A) (body : A -> M ctl) : M ctl :=
  match l with
  | [] => ret Next
  | x :: r => c <- body x ;;
              match c with
              | Next => for_each r body
              | Stop => ret Stop
              end
  end.

(** A set comprehension whose condition is a method call. *)
Fixpoint filterM {A} (p : A -> M bool) (l : list A) : M (list A) :=
  match l with
  | [] => ret []
  | x :: r => b <- p x ;;
              r' <- filterM p r ;;
              ret (if b then x :: r' else r')
  end.

(* ================================================================== *)
(** ** The class [LMS] *)

Section Methods.

Context {env : Env}.

Definition truthy (s : option string) : bool :=
  match s with
  | Some v => negb (String.eqb v "")
  | None => false
  end.

Definition parse_strategy (s : string) : CTRLD_Strategy :=
  if String.eqb s "chain_rule" then CHAIN_RULE
  else if String.eqb s "direct_order" then DIRECT_ORDER
  else CHAIN_RULE.

(** [LMS.__init__] *)
Definition __init__ (a : Args) : outcome LMS :=
  if negb (nonempty (optimizer_scopes a)) then
    Raise (ValueError "A least one optimizer scope is required.")
  else
    Ret (mkLMS (graph a) (optimizer_scopes a) (excl_scopes a) (incl_scopes a)
           (str_union (excl_types a) ATOMIC_TYPES) (incl_types a)
           (starting_scope a) (starting_op_names a)
           (lb a) (ub a) (n_tensors a) (fuse_swapins a)
           (parse_strategy (ctrld_strategy a))
           (swap_branches a) (branch_threshold a)
           [] [] [] (cpu_device a) 0 []).

(** The body of the loop of [_build_gradient_ops]. *)
Definition build_gradient_ops_body (scope : string) : M ctl :=
  g <- get_graph ;;
  ops <- lift_re (ge.filter_ops_from_regex g (ge.make_list_of_op g)
                    ("^" ++ scope)) ;;
  let ops_for_scope := to_set ops in
  if negb (nonempty ops_for_scope) then
    raise (ValueError
      ("No operations were found with optimizer scope " ++ scope ++ "."))
  else
    modify (fun o => set_grad_ops (set_union (_grad_ops o) ops_for_scope) o) ;;;
    ret Next.

(** [LMS._build_gradient_ops] *)
Definition _build_gradient_ops : M unit :=
  o <- self ;;
  for_each (_optimizer_scopes o) build_gradient_ops_body ;;;
  ret tt.

Fixpoint seed_names (g : Graph) (ops : list OpId) (names : list string)
         (seed_ops : list OpId) : M (list OpId) :=
  match names with
  | [] => ret seed_ops
  | nm :: r =>
      found <- lift_re (ge.filter_ops_from_regex g ops ("^" ++ nm ++ "$")) ;;
      let name_ops := to_set found in
      if negb (nonempty name_ops) then
        raise (ValueError
          ("No starting operation was found with name " ++ nm ++ "."))
      else seed_names g ops r (set_union seed_ops name_ops)
  end.

(** The automatic search of [_get_seed_ops]. *)
Definition auto_seed_ops (g : Graph) (grad_ops : list OpId) : list OpId :=
  let non_grad_ops :=
    filter (fun op => negb (mem op grad_ops)) (ge.make_list_of_op g) in
  let candidates :=
    filter (fun op =>
              existsb (fun t =>
                         nonempty (set_inter (to_set (ge.get_consuming_ops g t))
                                             grad_ops))
                      (outputs g op))
           non_grad_ops in
  let scored :=
    map (fun op =>
           (op, Z.of_nat (List.length
                  (set_inter
                     (to_set (ge.get_forward_walk_ops_within g op non_grad_ops))
                     candidates))))
        candidates in
  let tmp_dict := filter (fun kv => 0 <? snd kv) scored in
  let max_nelems :=
    fold_left (fun m kv => if snd kv >? m then snd kv else m) tmp_dict (-1) in
  map fst (filter (fun kv => snd kv =? max_nelems) tmp_dict).

(** [LMS._get_seed_ops] *)
Definition _get_seed_ops : M (list OpId) :=
  o <- self ;;
  g <- get_graph ;;
  let ops := ge.make_list_of_op g in
  seed_ops <-
    (if truthy (_starting_scope o) then
       let scope := match _starting_scope o with Some v => v | None => "" end in
       found <- lift_re (ge.filter_ops_from_regex g ops ("^" ++ scope)) ;;
       let scope_ops := to_set found in
       if negb (nonempty scope_ops) then
         raise (ValueError
           ("No operations were found in starting scope " ++ scope ++ "."))
       else ret (set_union [] scope_ops)
     else ret []) ;;
  seed_ops <-
    (match _starting_op_names o with
     | Some names => seed_names g ops names seed_ops
     | None => ret seed_ops
     end) ;;
  if nonempty seed_ops then ret seed_ops
  else ret (auto_seed_ops g (_grad_ops o)).

Fixpoint scope_ops (g : Graph) (within_ops : list OpId) (scopes : list string)
         (ret_ops : list OpId) : M (list OpId) :=
  match scopes with
  | [] => ret ret_ops
  | scope :: r =>
      found <- lift_re (ge.get_name_scope_ops g within_ops scope) ;;
      let ops := to_set found in
      if negb (nonempty ops) then
        raise (ValueError
          ("No operations were found with scope " ++ scope ++ "."))
      else scope_ops g within_ops r (set_union ret_ops ops)
  end.

(** [LMS._filter_scopes_and_types] *)
Definition _filter_scopes_and_types (within_ops : list OpId)
           (scopes types : list string) : M (list OpId) :=
  g <- get_graph ;;
  ret_ops <- scope_ops g within_ops scopes [] ;;
  let type_ops :=
    to_set (filter (fun op => mem_str (op_type g op) types) within_ops) in
  let found_types := str_union [] (map (op_type g) type_ops) in
  let missing_types := str_diff (str_diff types found_types) ATOMIC_TYPES in
  if nonempty missing_types then
    raise (ValueError
      ("No operations were found with types: " ++ String.concat ", " missing_types
       ++ "."))
  else ret (set_union ret_ops type_ops).

Definition lookup (d : list (OpId * list OpId)) (op : OpId)
  : option (list OpId) :=
  option_map snd (find (fun kv => Nat.eqb (fst kv) op) d).

(** [LMS._get_forward_walk_ops]: the forward walk of an operation is computed
    once and kept in [_ops_dict]. *)
Definition _get_forward_walk_ops (op : OpId) (inclusive : bool)
  : M (list OpId) :=
  o <- self ;;
  match lookup (_ops_dict o) op with
  | Some l => ret (if inclusive then l else set_diff (to_set l) [op])
  | None =>
      g <- get_graph ;;
      let r := ge.get_forward_walk_ops g op in
      modify (fun o => set_ops_dict ((op, r) :: _ops_dict o) o) ;;;
      ret (if inclusive then r else set_diff (to_set r) [op])
  end.

(** [LMS._swapped_max_tensors] *)
Definition _swapped_max_tensors (o : LMS) : bool :=
  (_n_tensors o >? 0) && (_incpu_count o >=? _n_tensors o).

(** [LMS._connect_ops] *)
Definition _connect_ops (src_op dest_op : OpId)
           (remap_inputs remap_outputs : bool) (idx : option nat) : M unit :=
  g <- get_graph ;;
  let src_sgv := ge.sgv g src_op in
  let dest_sgv := ge.sgv g dest_op in
  src_sgv <-
    (if remap_outputs then
       lift_ge (match idx with
                | Some i => ge.remap_outputs src_sgv i
                | None => None
                end)
     else ret src_sgv) ;;
  dest_sgv <-
    (if remap_inputs then
       lift_ge (match idx with
                | Some i => ge.remap_inputs dest_sgv i
                | None => None
                end)
     else ret dest_sgv) ;;
  g' <- lift_ge (ge.connect g src_sgv dest_sgv) ;;
  put_graph g'.

(** [LMS._add_swapout] *)
Definition _add_swapout (src_op : OpId) (ts0 : Tensor) : M OpId :=
  o <- self ;;
  g <- get_graph ;;
  let swap_out := tf.identity g ts0 "lms/swapout" (_cpu_device o) in
  put_graph (fst swap_out) ;;;
  g <- get_graph ;;
  src_out_idx <- lift_ge (ge.output_index (ge.sgv g src_op) ts0) ;;
  _connect_ops src_op (snd swap_out) false true (Some src_out_idx) ;;;
  modify (fun o => set_excl_ops (set_add (snd swap_out) (_excl_ops o)) o) ;;;
  ret (snd swap_out).

(** [LMS._add_swapin] *)
Definition _add_swapin (swapout_op : option OpId) (dest_op : OpId)
           (ts0 : Tensor) : M OpId :=
  o <- self ;;
  g <- get_graph ;;
  let swap_in := tf.identity g ts0 "lms/swapin" (_cpu_device o) in
  put_graph (fst swap_in) ;;;
  so <- lift_ge swapout_op ;;
  _connect_ops so (snd swap_in) false false None ;;;
  g <- get_graph ;;
  input_idx <- lift_ge (ge.input_index (ge.sgv g dest_op) ts0) ;;
  _connect_ops (snd swap_in) dest_op true false (Some input_idx) ;;;
  modify (fun o => set_excl_ops (set_add (snd swap_in) (_excl_ops o)) o) ;;;
  ret (snd swap_in).

(** The methods below read [self._topo_sort], which [run] sets before it
    calls any of them; they take it as the argument [topo]. *)

(** The levels scanned by [_do_direct_order]:
    [reversed(range(range_lb, range_ub))]. *)
Definition direct_order_levels (fw_order src_order lower_b upper_b : Z)
  : list Z :=
  let range_ub := src_order - lower_b in
  let range_lb := Z.max (src_order - upper_b) fw_order + 1 in
  List.rev (zrange range_lb range_ub).

(** The [for] loop of [_do_direct_order]; the result is the pair
    [(result_ops, ctrld_order)] at its exit. *)
Fixpoint direct_order_scan (topo : TOPOS) (src_op : OpId) (levels : list Z)
  : M (list OpId * Z) :=
  match levels with
  | [] => ret ([], -1)
  | i :: r =>
      g <- get_graph ;;
      candidates <-
        filterM (fun op => l <- _get_forward_walk_ops op true ;;
                           ret (mem src_op (to_set l)))
                (get_ops topo i) ;;
      let candidates :=
        filter (fun op => negb (contains "/cond/" (op_name g op))) candidates in
      if nonempty candidates then ret (set_union [] candidates, i)
      else direct_order_scan topo src_op r
  end.

(** [LMS._do_direct_order] *)
Definition _do_direct_order (topo : TOPOS) (fw_op src_op : OpId)
           (lower_b upper_b : Z) : M (option OpId * Z) :=
  let fw_order := get_order topo fw_op in
  let src_order := get_order topo src_op in
  re <- direct_order_scan topo src_op
          (direct_order_levels fw_order src_order lower_b upper_b) ;;
  match fst re with
  | ctrld_op :: _ => ret (Some ctrld_op, snd re)
  | [] => ret (None, -1)
  end.

(** The consumers of all outputs of an operation. *)
Definition all_consuming_ops (g : Graph) (op : OpId) : list OpId :=
  fold_left (fun acc t => set_union acc (to_set (ge.get_consuming_ops g t)))
            (outputs g op) [].

(** [for op in next_ops: if op in closed_set: continue;
     if op not in q.queue: q.put(op)] *)
Definition enqueue_new (closed_set next_ops q : list OpId) : list OpId :=
  fold_left (fun q op => if mem op closed_set then q
                         else if mem op q then q else q ++ [op])
            next_ops q.

(** The [while] loop of [_do_chain_rule]; [None] when the fuel runs out. *)
Fixpoint chain_rule_loop (fuel : nat) (g : Graph) (grad_ops : list OpId)
         (topo : TOPOS) (fw_order bw_order : Z)
         (open_set1 open_set2 closed_set result_ops : list OpId)
         (lower_b upper_b : Z) : option (list OpId) :=
  match open_set1 with
  | [] => Some result_ops
  | src_op :: open_rest =>
      if (upper_b =? 0) || (lower_b >? upper_b) then Some result_ops
      else
        match fuel with
        | O => None
        | S fuel' =>
            let total_consumming_ops := all_consuming_ops g src_op in
            let result_ops :=
              if lower_b <=? 0 then
                set_union result_ops
                  (filter (fun op => negb (contains "/cond/" (op_name g op)))
                     (filter (fun op => get_order topo op <? bw_order)
                        (filter (fun op => get_order topo op >? fw_order)
                           (set_inter total_consumming_ops grad_ops))))
              else result_ops in
            let next_ops := set_diff total_consumming_ops grad_ops in
            let open_set2 := enqueue_new closed_set next_ops open_set2 in
            let closed_set := set_add src_op closed_set in
            match open_rest with
            | [] =>
                if nonempty result_ops then Some result_ops
                else chain_rule_loop fuel' g grad_ops topo fw_order bw_order
                       open_set2 [] closed_set result_ops
                       (lower_b - 1) (upper_b - 1)
            | _ => chain_rule_loop fuel' g grad_ops topo fw_order bw_order
                     open_rest open_set2 closed_set result_ops lower_b upper_b
            end
        end
  end.

(** [LMS._do_chain_rule] *)
Definition _do_chain_rule (fuel : nat) (topo : TOPOS) (fw_op bw_op : OpId)
           (lower_b upper_b : Z) : M (option OpId * Z) :=
  let fw_order := get_order topo fw_op in
  let bw_order := get_order topo bw_op in
  if bw_order - lower_b <? bw_starting_order topo then
    _do_direct_order topo fw_op bw_op lower_b upper_b
  else
    g <- get_graph ;;
    o <- self ;;
    match chain_rule_loop fuel g (_grad_ops o) topo fw_order bw_order
            [fw_op] [] [] [] lower_b upper_b with
    | None => out_of_fuel
    | Some (ctrld_op :: _) => ret (Some ctrld_op, get_order topo ctrld_op)
    | Some [] => ret (None, -1)
    end.

(** The strategy call of [_add_control_dependency]: the pair [re]. *)
Definition resolve_control_dependency (fuel : nat) (topo : TOPOS)
           (fw_op bw_op : OpId) : M (option OpId * Z) :=
  o <- self ;;
  let lb := if get_order topo bw_op - _lb o <=? get_order topo fw_op
            then 1 else _lb o in
  if mem fw_op (_grad_ops o) then
    _do_direct_order topo fw_op bw_op lb (_ub o)
  else
    match _ctrld_strategy o with
    | CHAIN_RULE => _do_chain_rule fuel topo fw_op bw_op lb (_ub o)
    | DIRECT_ORDER => _do_direct_order topo fw_op bw_op lb (_ub o)
    end.

(** [LMS._add_control_dependency] *)
Definition _add_control_dependency (fuel : nat) (topo : TOPOS)
           (fw_op bw_op swapin_op : OpId) : M unit :=
  re <- resolve_control_dependency fuel topo fw_op bw_op ;;
  match fst re with
  | Some ctrld_op =>
      g <- get_graph ;;
      g' <- lift_ge (ge.add_control_inputs g swapin_op ctrld_op) ;;
      put_graph g'
  | None => ret tt
  end.

(** The [while] loop of [_find_new_src_op]. *)
Fixpoint find_new_src_loop (fuel : nat) (g : Graph) (topo : TOPOS)
         (open_set closed_set src_ops : list OpId) : option (list OpId) :=
  match open_set with
  | [] => Some src_ops
  | src_op :: open_rest =>
      match fuel with
      | O => None
      | S fuel' =>
          let frontier_ops := all_consuming_ops g src_op in
          let has_order_ops :=
            filter (fun op => get_order topo op >? bw_starting_order topo)
                   frontier_ops in
          let src_ops := if nonempty has_order_ops then set_add src_op src_ops
                         else src_ops in
          let next_ops := set_diff frontier_ops has_order_ops in
          find_new_src_loop fuel' g topo
            (enqueue_new closed_set next_ops open_rest)
            (set_add src_op closed_set) src_ops
      end
  end.

(** [LMS._find_new_src_op] *)
Definition _find_new_src_op (fuel : nat) (topo : TOPOS) (original_op : OpId)
  : M (list OpId) :=
  g <- get_graph ;;
  match find_new_src_loop fuel g topo [original_op] [] [] with
  | Some src_ops => ret src_ops
  | None => out_of_fuel
  end.

(** [LMS._get_branch_ops] *)
Definition _get_branch_ops (topo : TOPOS) (within_ops : list OpId)
           (threshold : Z) : list OpId :=
  match map (get_order topo) within_ops with
  | [] => []
  | x :: r =>
      let min_order := fold_left Z.min r x + threshold in
      filter (fun op => get_order topo op >? min_order) within_ops
  end.

(** The search of the earliest operation in [_fuse_swapin_ops]. *)
Definition earliest (topo : TOPOS) (ops : list OpId) : option OpId :=
  snd (fold_left (fun me op =>
                    if get_order topo op <? fst me
                    then (get_order topo op, Some op) else me)
                 ops (size topo + 1, None)).

(** [LMS._fuse_swapin_ops] *)
Definition _fuse_swapin_ops (fuel : nat) (topo : TOPOS) (src_op : OpId)
           (swapout_op : OpId) (bw_frontier_ops : list OpId) (ts0 : Tensor)
  : M (list OpId) :=
  let fuse_bw_frontier_ops :=
    filter (fun op => get_order topo op >? 0) bw_frontier_ops in
  if (2 <=? List.length fuse_bw_frontier_ops)%nat then
    o <- self ;;
    g <- get_graph ;;
    let swap_in := tf.identity g ts0 "lms/swapin" (_cpu_device o) in
    put_graph (fst swap_in) ;;;
    _connect_ops swapout_op (snd swap_in) false false None ;;;
    modify (fun o => set_excl_ops (set_add (snd swap_in) (_excl_ops o)) o) ;;;
    for_each fuse_bw_frontier_ops (fun op =>
      g <- get_graph ;;
      input_idx <- lift_ge (ge.input_index (ge.sgv g op) ts0) ;;
      _connect_ops (snd swap_in) op true false (Some input_idx) ;;;
      ret Next) ;;;
    match earliest topo fuse_bw_frontier_ops with
    | Some earliest_op =>
        _add_control_dependency fuel topo src_op earliest_op (snd swap_in)
    | None => ret tt
    end ;;;
    ret (set_diff bw_frontier_ops fuse_bw_frontier_ops)
  else ret bw_frontier_ops.

(** [LMS._insert_swap_nodes]; the fuel bounds the depth of its recursion. *)
Fixpoint _insert_swap_nodes (fuel : nat) (topo : TOPOS) (src_op : OpId)
  : M unit :=
  match fuel with
  | O => out_of_fuel
  | S fuel' =>
      o <- self ;;
      if mem src_op (_excl_ops o) then ret tt
      else if nonempty (_incl_ops o) && negb (mem src_op (_incl_ops o))
      then ret tt
      else
        g <- get_graph ;;
        for_each (outputs g src_op) (fun t =>
          o <- self ;;
          if _swapped_max_tensors o then ret Stop
          else
            g <- get_graph ;;
            let frontier_ops := to_set (ge.get_consuming_ops g t) in
            let bw_frontier_ops := set_inter frontier_ops (_grad_ops o) in
            let bw_frontier_ops :=
              if _swap_branches o then
                set_union bw_frontier_ops
                  (_get_branch_ops topo
                     (set_diff frontier_ops (_grad_ops o))
                     (_branch_threshold o))
              else bw_frontier_ops in
            bw_frontier_ops <-
              filterM (fun op => l <- _get_forward_walk_ops op false ;;
                                 ret (nonempty (to_set l)))
                      bw_frontier_ops ;;
            if negb (nonempty bw_frontier_ops) then ret Next
            else
              swapout_op <-
                (if existsb (fun op => get_order topo op >=? 0) bw_frontier_ops
                 then
                   so <- _add_swapout src_op t ;;
                   modify (fun o => set_incpu_count (_incpu_count o + 1) o) ;;;
                   ret (Some so)
                 else ret None) ;;
              bw_frontier_ops <-
                (match swapout_op with
                 | Some so =>
                     if _fuse_swapins o
                     then _fuse_swapin_ops fuel topo src_op so bw_frontier_ops t
                     else ret bw_frontier_ops
                 | None => ret bw_frontier_ops
                 end) ;;
              for_each bw_frontier_ops (fun dest_op =>
                if get_order topo dest_op <? 0 then
                  o <- self ;;
                  if mem src_op (_grad_ops o) then ret Next
                  else
                    new_src_ops <- _find_new_src_op fuel topo dest_op ;;
                    for_each new_src_ops (fun op =>
                      _insert_swap_nodes fuel' topo op ;;; ret Next)
                else
                  swapin_op <- _add_swapin swapout_op dest_op t ;;
                  _add_control_dependency fuel topo src_op dest_op swapin_op ;;;
                  ret Next) ;;;
              ret Next) ;;;
        ret tt
  end.

(** The [while] loop of [_do_action]; [n] bounds its iterations. *)
Fixpoint do_action_loop (n fuel : nat) (topo : TOPOS)
         (open_set closed_set : list OpId) : M unit :=
  match open_set with
  | [] => ret tt
  | src_op :: open_rest =>
      match n with
      | O => out_of_fuel
      | S n' =>
          g <- get_graph ;;
          o <- self ;;
          let next_ops :=
            fold_left (fun acc t =>
                         set_union acc
                           (set_diff (to_set (ge.get_consuming_ops g t))
                                     (_grad_ops o)))
                      (outputs g src_op) [] in
          _insert_swap_nodes fuel topo src_op ;;;
          o <- self ;;
          if _swapped_max_tensors o then ret tt
          else
            do_action_loop n' fuel topo
              (enqueue_new closed_set next_ops open_rest)
              (set_add src_op closed_set)
      end
  end.

(** [LMS._do_action] *)
Definition _do_action (fuel : nat) (topo : TOPOS) (src_ops : list OpId)
  : M unit :=
  do_action_loop fuel fuel topo src_ops [].

Section Run.

(** [topos.TOPOS(seed_ops, grad_ops)] followed by [build()]: the
    construction of the order is the business of the module [topos]. *)
Variable TOPOS_build : Graph -> list OpId -> list OpId -> TOPOS.

(** [for seed_op in seed_ops:
       reachable_ops |= set(self._get_forward_walk_ops(seed_op))] *)
Fixpoint reachable_from (seed_ops acc : list OpId) : M (list OpId) :=
  match seed_ops with
  | [] => ret acc
  | seed_op :: r =>
      l <- _get_forward_walk_ops seed_op true ;;
      reachable_from r (set_union acc (to_set l))
  end.

(** [for seed_op in seed_ops:
       new_reachable_ops |= set(ge.get_forward_walk_ops(seed_op))] *)
Definition new_reachable_from (g : Graph) (seed_ops : list OpId)
  : list OpId :=
  fold_left (fun acc seed_op =>
               set_union acc (to_set (ge.get_forward_walk_ops g seed_op)))
            seed_ops [].

(** [LMS.run].  The result [None] is Python's [None] (a bare [return]);
    [Some ops] is a returned set. *)
Definition run (fuel : nat) (graph : option GraphRef)
  : M (option (list OpId)) :=
  match graph with
  | Some r => modify (set_graph (Some r))
  | None => ret tt
  end ;;;
  o <- self ;;
  if _n_tensors o =? 0 then ret None
  else
    (if _n_tensors o <? 0 then modify (set_n_tensors 0) else ret tt) ;;;
    o <- self ;;
    match _graph o with
    | None =>
        raise (ValueError
          "The dataflow graph is required but has not been provided.")
    | Some _ =>
        _build_gradient_ops ;;;
        seed_ops <- _get_seed_ops ;;
        reachable_ops <- reachable_from seed_ops [] ;;
        g <- get_graph ;;
        if existsb (fun op => contains "lms/swap" (op_name g op))
                   reachable_ops
        then ret None
        else
          o <- self ;;
          excl <- _filter_scopes_and_types reachable_ops
                    (_excl_scopes o) (_excl_types o) ;;
          modify (set_excl_ops excl) ;;;
          incl <- _filter_scopes_and_types reachable_ops
                    (_incl_scopes o) (_incl_types o) ;;
          modify (set_incl_ops incl) ;;;
          o <- self ;;
          let reachable_ops := set_diff reachable_ops (_grad_ops o) in
          let topo := TOPOS_build g seed_ops (_grad_ops o) in
          _do_action fuel topo seed_ops ;;;
          g <- get_graph ;;
          o <- self ;;
          let new_reachable_ops :=
            set_diff (new_reachable_from g seed_ops) (_grad_ops o) in
          ret (Some (set_diff new_reachable_ops reachable_ops))
    end.

End Run.

End Methods.


(* ================================================================== *)
(** ** Descriptions of the analysis phase of [run]

    The first half of [run] only reads the graph.  The definitions below
    say, without the monad, which inputs let it pass and what it computes;
    the lemmas further down relate them to the methods. *)

Section Descriptions.

Context {env : Env}.

(** [regex] compiles. *)
Definition is_regex (regex : string) : bool :=
  match re_compile regex with Some _ => true | None => false end.

(** [re.compile(regex).search(s)] finds a match; [false] also when [regex]
    does not compile. *)
Definition re_search (regex s : string) : bool :=
  match re_compile regex with Some search => search s | None => false end.

(** The operations that [ge.filter_ops_from_regex] returns, and none when
    it raises. *)
Definition regex_ops (g : Graph) (ops : list OpId) (regex : string)
  : list OpId :=
  match ge.filter_ops_from_regex g ops regex with
  | Some l => l
  | None => []
  end.

(** The three patterns that [lms.py] and the graph editor build. *)
Definition scope_pattern (scope : string) : string := "^" ++ scope.
Definition name_pattern (nm : string) : string := "^" ++ nm ++ "$".
Definition name_scope_pattern (scope : string) : string :=
  ge.name_scope_regex (ge.strip_slash scope).

(** The operations found for an optimizer scope or a starting scope, for a
    starting name, and for an exclude or include scope. *)
Definition filter_ops_prefix (g : Graph) (ops : list OpId) (scope : string)
  : list OpId :=
  regex_ops g ops (scope_pattern scope).

Definition filter_ops_exact (g : Graph) (ops : list OpId) (nm : string)
  : list OpId :=
  regex_ops g ops (name_pattern nm).

Definition name_scope_ops (g : Graph) (ops : list OpId) (scope : string)
  : list OpId :=
  regex_ops g ops (name_scope_pattern scope).

(** The patterns of all the scopes, names or name scopes compile. *)
Definition scopes_compile (scopes : list string) : bool :=
  forallb (fun sc => is_regex (scope_pattern sc)) scopes.

Definition names_compile (names : list string) : bool :=
  forallb (fun nm => is_regex (name_pattern nm)) names.

Definition name_scopes_compile (scopes : list string) : bool :=
  forallb (fun sc => is_regex (name_scope_pattern sc)) scopes.

Definition is_value_error (e : exn) : bool :=
  match e with ValueError _ => true | _ => false end.

(** The pattern of [scope] compiles and finds an operation of the graph. *)
Definition prefix_matches (g : Graph) (scope : string) : bool :=
  nonempty (filter_ops_prefix g (ge.make_list_of_op g) scope).

(** The pattern of the name [nm] compiles and finds an operation of the
    graph. *)
Definition name_matches (g : Graph) (nm : string) : bool :=
  nonempty (filter_ops_exact g (ge.make_list_of_op g) nm).

(** The backward-phase operations collected by [_build_gradient_ops]. *)
Definition grad_ops_of (g : Graph) (scopes : list string) (acc : list OpId)
  : list OpId :=
  fold_left (fun acc scope =>
               set_union acc
                 (to_set (filter_ops_prefix g (ge.make_list_of_op g) scope)))
            scopes acc.

Definition start_scope_matches (g : Graph) (sc : option string) : bool :=
  match sc with
  | Some v => if truthy sc then prefix_matches g v else true
  | None => true
  end.

Definition start_names_match (g : Graph) (names : option (list string))
  : bool :=
  match names with
  | Some l => forallb (name_matches g) l
  | None => true
  end.

(** The patterns of the starting scope and of the starting names
    compile. *)
Definition start_compile (sc : option string) (names : option (list string))
  : bool :=
  match sc with
  | Some v => if truthy sc then is_regex (scope_pattern v) else true
  | None => true
  end
  && match names with
     | Some l => names_compile l
     | None => true
     end.

(** The patterns of all the scopes and names of the object compile. *)
Definition patterns_compile (o : LMS) : bool :=
  scopes_compile (_optimizer_scopes o)
  && start_compile (_starting_scope o) (_starting_op_names o)
  && name_scopes_compile (_excl_scopes o)
  && name_scopes_compile (_incl_scopes o).

(** The seed operations found by [_get_seed_ops] when every starting scope
    and name matches. *)
Definition seed_ops_of (g : Graph) (o : LMS) : list OpId :=
  let ops := ge.make_list_of_op g in
  let s1 := match _starting_scope o with
            | Some v => if truthy (_starting_scope o)
                        then set_union [] (to_set (filter_ops_prefix g ops v))
                        else []
            | None => []
            end in
  let s2 := match _starting_op_names o with
            | Some l =>
                fold_left (fun acc nm =>
                             set_union acc (to_set (filter_ops_exact g ops nm)))
                          l s1
            | None => s1
            end in
  if nonempty s2 then s2 else auto_seed_ops g (_grad_ops o).

(** The table [_ops_dict] agrees with the graph: every stored walk is the
    forward walk of its key in [g]. *)
Definition memo_consistent (g : Graph) (o : LMS) : Prop :=
  forall op l, lookup (_ops_dict o) op = Some l ->
               l = ge.get_forward_walk_ops g op.

(** The name marker of an operation created by an earlier run. *)
Definition already_rewritten (g : Graph) (ops : list OpId) : bool :=
  existsb (fun op => contains "lms/swap" (op_name g op)) ops.

(** The pattern of the name scope [scope] compiles and finds an operation
    among [within]. *)
Definition scope_matches (g : Graph) (within : list OpId) (scope : string)
  : bool :=
  nonempty (name_scope_ops g within scope).

(** Some operation among [within] has type [ty]. *)
Definition type_matches (g : Graph) (within : list OpId) (ty : string) : bool :=
  existsb (fun op => String.eqb ty (op_type g op)) within.

(** The object once [run] has stored the graph argument and normalised a
    negative [_n_tensors]. *)
Definition run_entry (graph : option GraphRef) (o : LMS) : LMS :=
  let o1 := match graph with
            | Some r => set_graph (Some r) o
            | None => o
            end in
  if _n_tensors o1 <? 0 then set_n_tensors 0 o1 else o1.

(** [Args] with another strategy string. *)
Definition with_strategy (s : string) (a : Args) : Args :=
  mkArgs (optimizer_scopes a) (graph a) (starting_scope a)
    (starting_op_names a) (excl_scopes a) (incl_scopes a) (excl_types a)
    (incl_types a) (lb a) (ub a) (n_tensors a) (fuse_swapins a) s
    (swap_branches a) (branch_threshold a) (cpu_device a).

(** The types that [_filter_scopes_and_types] reports as missing. *)
Definition missing_types_of (g : Graph) (within : list OpId)
           (types : list string) : list string :=
  let type_ops :=
    to_set (filter (fun op => mem_str (op_type g op) types) within) in
  let found_types := str_union [] (map (op_type g) type_ops) in
  str_diff (str_diff types found_types) ATOMIC_TYPES.

(** The operations selected by [_filter_scopes_and_types] when it does not
    raise. *)
Definition filtered_ops_of (g : Graph) (within : list OpId)
           (scopes types : list string) : list OpId :=
  set_union
    (fold_left (fun acc scope =>
                  set_union acc (to_set (name_scope_ops g within scope)))
               scopes [])
    (to_set (filter (fun op => mem_str (op_type g op) types) within)).

(** The forward walk of [op] as [_get_forward_walk_ops] answers it: the
    stored walk when there is one, the walk in the graph otherwise. *)
Definition memo_walk (g : Graph) (o : LMS) (op : OpId) : list OpId :=
  match lookup (_ops_dict o) op with
  | Some l => l
  | None => ge.get_forward_walk_ops g op
  end.

(** The object after [_get_forward_walk_ops] was asked for [op]. *)
Definition memo_store (g : Graph) (o : LMS) (op : OpId) : LMS :=
  match lookup (_ops_dict o) op with
  | Some _ => o
  | None => set_ops_dict ((op, ge.get_forward_walk_ops g op) :: _ops_dict o) o
  end.

(** The set [reachable_ops] of [run] before the rewrite. *)
Definition reachable_ops_of (g : Graph) (o : LMS) (seed_ops : list OpId)
  : list OpId :=
  fold_left (fun acc seed_op => set_union acc (to_set (memo_walk g o seed_op)))
            seed_ops [].

(** What [run] computes for [self._grad_ops], for [seed_ops] and for
    [reachable_ops] when no error stops it. *)
Definition run_grad_ops (g : Graph) (o : LMS) : list OpId :=
  grad_ops_of g (_optimizer_scopes o) (_grad_ops o).

Definition run_seed_ops (g : Graph) (o : LMS) : list OpId :=
  seed_ops_of g (set_grad_ops (run_grad_ops g o) o).

Definition run_reachable_ops (g : Graph) (o : LMS) : list OpId :=
  reachable_ops_of g o (run_seed_ops g o).

(** [run] gets a graph: as its argument, or from the constructor. *)
Definition graph_given (graph : option GraphRef) (o : LMS) : bool :=
  match graph, _graph o with
  | None, None => false
  | _, _ => true
  end.

(** The optimizer scopes and the starting points all match operations. *)
Definition seeds_resolve (g : Graph) (o : LMS) : bool :=
  forallb (prefix_matches g) (_optimizer_scopes o)
  && start_scope_matches g (_starting_scope o)
  && start_names_match g (_starting_op_names o).

Section RunParts.

Variable TOPOS_build : Graph -> list OpId -> list OpId -> TOPOS.

(** The part of [run] from the exclusion filter to the end. *)
Definition run_rewrite (fuel : nat) (g : Graph)
           (seed_ops reachable_ops : list OpId) : M (option (list OpId)) :=
  o <- self ;;
  excl <- _filter_scopes_and_types reachable_ops
            (_excl_scopes o) (_excl_types o) ;;
  modify (set_excl_ops excl) ;;;
  incl <- _filter_scopes_and_types reachable_ops
            (_incl_scopes o) (_incl_types o) ;;
  modify (set_incl_ops incl) ;;;
  o <- self ;;
  let reachable_ops := set_diff reachable_ops (_grad_ops o) in
  let topo := TOPOS_build g seed_ops (_grad_ops o) in
  _do_action fuel topo seed_ops ;;;
  g <- get_graph ;;
  o <- self ;;
  let new_reachable_ops :=
    set_diff (new_reachable_from g seed_ops) (_grad_ops o) in
  ret (Some (set_diff new_reachable_ops reachable_ops)).

End RunParts.

(** The object when [run] has computed [reachable_ops]. *)
Definition analysed (graph : option GraphRef) (g : Graph) (o : LMS) : LMS :=
  fold_left (memo_store g) (run_seed_ops g o)
            (set_grad_ops (run_grad_ops g o) (run_entry graph o)).

(** [op] is an operation of the graph. *)
Definition valid (g : Graph) (op : OpId) : Prop := (op < List.length g)%nat.

(** The lower bound used by [_add_control_dependency]: [_lb], reset to 1
    when it is out of range. *)
Definition effective_lb (topo : TOPOS) (o : LMS) (fw_op bw_op : OpId) : Z :=
  if get_order topo bw_op - _lb o <=? get_order topo fw_op then 1 else _lb o.

(** The candidates of [_do_direct_order] at level [i]: the operations of the
    level whose forward walk, as [_get_forward_walk_ops] answers it, holds
    [src_op], and whose name has no '/cond/'. *)
Definition direct_candidates (g : Graph) (o : LMS) (topo : TOPOS)
           (src_op : OpId) (i : Z) : list OpId :=
  filter (fun op => negb (contains "/cond/" (op_name g op)))
         (filter (fun op => mem src_op (to_set (memo_walk g o op)))
                 (get_ops topo i)).

(** An operation with a level: [get_order] answers [-1] for an operation
    that the order does not hold. *)
Definition leveled (topo : TOPOS) (op : OpId) : bool :=
  get_order topo op >=? 0.

(** The contract of the leveler for data dependencies (section 4.2 of the
    specification): an operation that reads a value of another is at a
    higher level, whenever both have a level. *)
Definition levels_respect (g : Graph) (topo : TOPOS) : Prop :=
  forall c t, valid g c -> In t (inputs (node g c)) ->
    leveled topo (fst t) = true -> leveled topo c = true ->
    get_order topo (fst t) < get_order topo c.

(** The levels [top], [top - 1], ..., [bottom]; none when
    [top < bottom]. *)
Definition levels_down (top bottom : Z) : list Z :=
  map (fun k => top - Z.of_nat k) (seq 0 (Z.to_nat (top - bottom + 1))).

(** The start of a list up to its first member with [f]; the whole list
    when there is none. *)
Fixpoint upto_first (f : Z -> bool) (l : list Z) : list Z :=
  match l with
  | [] => []
  | i :: r => if f i then [i] else i :: upto_first f r
  end.

(** The object after [_get_forward_walk_ops] was asked for every operation
    of the levels, level by level. *)
Definition walks_asked (g : Graph) (topo : TOPOS) (levels : list Z) (o : LMS)
  : LMS :=
  fold_left (memo_store g) (flat_map (get_ops topo) levels) o.

End Descriptions.

(* ================================================================== *)
(** ** The environment of the examples

    The examples run at the root name scope, with the device names of
    TensorFlow for the device strings they use, and with a small engine
    for regular expressions. *)

Module rx.

(** Regular expressions; [Dot] is any character but a newline. *)
Inductive re :=
| Void
| Eps
| Chr (c : ascii)
| Dot
| Cat (a b : re)
| Alt (a b : re)
| Star (a : re).

Fixpoint nullable (r : re) : bool :=
  match r with
  | Void | Chr _ | Dot => false
  | Eps | Star _ => true
  | Cat a b => nullable a && nullable b
  | Alt a b => nullable a || nullable b
  end.

Definition cat (a b : re) : re :=
  match a, b with
  | Void, _ | _, Void => Void
  | Eps, _ => b
  | _, Eps => a
  | _, _ => Cat a b
  end.

Definition alt (a b : re) : re :=
  match a, b with
  | Void, _ => b
  | _, Void => a
  | _, _ => Alt a b
  end.

Definition newline : ascii := ascii_of_nat 10.

(** The expression for what may follow the character [c]. *)
Fixpoint deriv (c : ascii) (r : re) : re :=
  match r with
  | Void | Eps => Void
  | Chr d => if Ascii.eqb c d then Eps else Void
  | Dot => if Ascii.eqb c newline then Void else Eps
  | Cat a b => alt (cat (deriv c a) b) (if nullable a then deriv c b else Void)
  | Alt a b => alt (deriv c a) (deriv c b)
  | Star a => cat (deriv c a) (Star a)
  end.

(** ['$'] matches at the end of the string and before a newline that ends
    it. *)
Definition at_end (s : string) : bool :=
  match s with
  | EmptyString => true
  | String c EmptyString => Ascii.eqb c newline
  | _ => false
  end.

(** A match of [r] starts at the beginning of [s]; with [eol] it must stop
    at the end. *)
Fixpoint match_here (eol : bool) (r : re) (s : string) : bool :=
  (nullable r && (negb eol || at_end s))
  || match s with
     | EmptyString => false
     | String c s' => match_here eol (deriv c r) s'
     end.

Fixpoint match_anywhere (eol : bool) (r : re) (s : string) : bool :=
  match_here eol r s
  || match s with
     | EmptyString => false
     | String _ s' => match_anywhere eol r s'
     end.

Definition is_one_of (c : ascii) (chars : string) : bool :=
  existsb (Ascii.eqb c) (list_ascii_of_string chars).

Definition is_alnum (c : ascii) : bool :=
  let n := nat_of_ascii c in
  ((48 <=? n) && (n <=? 57) || (65 <=? n) && (n <=? 90)
   || (97 <=? n) && (n <=? 122))%nat.

(** A repetition sign after an item, with the ['?'] of a lazy repetition;
    [None] for a second repetition sign. *)
Definition repetition (a : re) (s : string) : option (re * string) :=
  match s with
  | String q s' =>
      if is_one_of q "*+?" then
        let r := if Ascii.eqb q "*" then Star a
                 else if Ascii.eqb q "+" then Cat a (Star a)
                 else Alt a Eps in
        let s'' := match s' with
                   | String l t => if Ascii.eqb l "?" then t else s'
                   | EmptyString => s'
                   end in
        match s'' with
        | String n _ => if is_one_of n "*+?{" then None else Some (r, s'')
        | EmptyString => Some (r, s'')
        end
      else if Ascii.eqb q "{" then None
      else Some (a, s)
  | EmptyString => Some (a, s)
  end.

(** The syntax: a sequence of items; an item is a character, ['.'], a
    backslash before a sign, or a group of alternatives in brackets, and
    may be repeated with ['*'], ['+'] or ['?'].  [seq] reads a sequence up
    to a ['|'], a [')'] or a last ['$']; [group] reads the alternatives of
    a group up to its [')'].  [None]: the pattern is outside this syntax. *)
Fixpoint seq (n : nat) (acc : re) (s : string) : option (re * string) :=
  match n with
  | O => None
  | S n' =>
      match s with
      | EmptyString => Some (acc, s)
      | String c s' =>
          if is_one_of c "|)" then Some (acc, s)
          else if Ascii.eqb c "$" then
            match s' with EmptyString => Some (acc, s) | _ => None end
          else
            let item :=
              if Ascii.eqb c "(" then
                match s' with
                | String c' _ => if Ascii.eqb c' "?" then None
                                 else group n' s'
                | EmptyString => None
                end
              else if Ascii.eqb c "." then Some (Dot, s')
              else if Ascii.eqb c "\" then
                match s' with
                | String c' t => if is_alnum c' then None
                                 else Some (Chr c', t)
                | EmptyString => None
                end
              else if is_one_of c "*+?{[^" then None
              else Some (Chr c, s') in
            match item with
            | Some (a, rest) =>
                match repetition a rest with
                | Some (r, rest') => seq n' (cat acc r) rest'
                | None => None
                end
            | None => None
            end
      end
  end
with group (n : nat) (s : string) : option (re * string) :=
  match n with
  | O => None
  | S n' =>
      match seq n' Eps s with
      | Some (r, String c s') =>
          if Ascii.eqb c "|" then
            match group n' s' with
            | Some (r2, rest) => Some (Alt r r2, rest)
            | None => None
            end
          else if Ascii.eqb c ")" then Some (r, s')
          else None
      | _ => None
      end
  end.

(** [compile pattern]: an optional ['^'], a sequence, an optional ['$']. *)
Definition compile (pattern : string) : option (string -> bool) :=
  let bol := match pattern with
             | String c _ => Ascii.eqb c "^"
             | EmptyString => false
             end in
  let body := if bol then substring 1 (String.length pattern) pattern
              else pattern in
  match seq (2 * String.length pattern + 2) Eps body with
  | Some (r, EmptyString) =>
      Some (if bol then match_here false r else match_anywhere false r)
  | Some (r, String c EmptyString) =>
      if Ascii.eqb c "$"
      then Some (if bol then match_here true r else match_anywhere true r)
      else None
  | _ => None
  end.

End rx.

(** The device names of the device strings of the examples. *)
Definition ex_device_name (dev : string) : string :=
  if String.eqb dev "/cpu:0" then "/device:CPU:0" else dev.

(** Regular expressions are those of [rx]: Python's on the patterns that
    [rx.compile] accepts, which are all the examples need. *)
#[global] Instance ex_env : Env := {
  re_compile := rx.compile;
  name_stack := "";
  device_name := ex_device_name
}.

(** The same environment inside the name scope 'outer'. *)
Definition ex_env_outer : Env :=
  {| re_compile := rx.compile;
     name_stack := "outer";
     device_name := ex_device_name |}.


(* ================================================================== *)
(** ** A small model: [A -> B], both read by the backward phase

    Operation [A] feeds [B]; the backward operation [grad/C] reads the
    outputs of both and feeds [grad/D]. *)

Definition ex_graph : Graph :=
  [ mkNode "A" "Conv2D" [] [] 1 "";
    mkNode "B" "Relu" [(0, 0)%nat] [] 1 "";
    mkNode "grad/C" "ReluGrad" [(0, 0)%nat; (1, 0)%nat] [] 1 "";
    mkNode "grad/D" "ApplyGradientDescent" [(2, 0)%nat] [] 1 "" ].

(** An order for the four operations of [ex_graph]: one per level. *)
Definition ex_topos (g : Graph) (seed_ops grad_ops : list OpId) : TOPOS :=
  mkTOPOS (fun op => if (op <? 4)%nat then Z.of_nat op else -1)
          (fun i => if (0 <=? i) && (i <? 4) then [Z.to_nat i] else [])
          4 2.

Definition ex_args : Args :=
  mkArgs ["grad"] None None (Some ["A"]) [] [] [] [] 1 10000 (-1) false
         "chain_rule" false 0 "/cpu:0".

Definition lms_of (a : Args) : LMS :=
  match __init__ a with
  | Ret o => o
  | _ => mkLMS None [] [] [] [] [] None None 0 0 0 false CHAIN_RULE false 0
               [] [] [] "" 0 []
  end.

Definition ex_lms : LMS := lms_of ex_args.

(** The same configuration with LMS turned off. *)
Definition ex_args_off : Args :=
  mkArgs ["grad"] None None (Some ["A"]) [] [] [] [] 1 10000 0 false
         "chain_rule" false 0 "/cpu:0".

(** [ex_graph] after one run of [ex_lms]. *)
Definition ex_graph_rewritten : Graph :=
  Eval vm_compute in fst (snd (run ex_topos 10 (Some the_graph) (ex_graph, ex_lms))).

(** An optimizer scope that matches no operation of [ex_graph], with LMS
    turned off and with LMS turned on. *)
Definition ex_args_off_nosuch : Args :=
  mkArgs ["nosuch"] None None None [] [] [] [] 1 10000 0 false "chain_rule"
         false 0 "/cpu:0".

Definition ex_args_nosuch : Args :=
  mkArgs ["nosuch"] None None None [] [] [] [] 1 10000 (-1) false "chain_rule"
         false 0 "/cpu:0".


(** An exclude scope that matches nothing. *)
Definition ex_args_excl_nosuch : Args :=
  mkArgs ["grad"] None None (Some ["A"]) ["nosuch"] [] [] [] 1 10000 (-1)
         false "chain_rule" false 0 "/cpu:0".

(** An optimizer scope with a sign of regular expressions: 'gr.d' is the
    start of no operation name, and as a pattern it finds [grad/C] and
    [grad/D]. *)
Definition ex_args_dot : Args :=
  mkArgs ["gr.d"] None None (Some ["A"]) [] [] [] [] 1 10000 (-1) false
         "chain_rule" false 0 "/cpu:0".

(** An optimizer scope that is not a regular expression. *)
Definition ex_args_bracket : Args :=
  mkArgs ["("] None None (Some ["A"]) [] [] [] [] 1 10000 (-1) false
         "chain_rule" false 0 "/cpu:0".

(** The configuration of [ex_args] with a limit of five tensors: the
    object is not turned off by its first run. *)
Definition ex_args_five : Args :=
  mkArgs ["grad"] None None (Some ["A"]) [] [] [] [] 1 10000 5 false
         "chain_rule" false 0 "/cpu:0".

(** An order for [ex_graph] and for the graph that a run makes of it:
    in the rewritten graph [A] is at level 0, [B] and the swap-out of [A]
    at level 1, the swap-in of [A] and the swap-out of [B] at level 2, the
    swap-in of [B] at level 3, [grad/C] at level 4 and [grad/D] at
    level 5. *)
Definition ex_topos_both (g : Graph) (seed_ops grad_ops : list OpId)
  : TOPOS :=
  if (List.length g =? 4)%nat then ex_topos g seed_ops grad_ops
  else
    let levels := [0; 1; 4; 5; 1; 2; 2; 3] in
    mkTOPOS (fun op => nth op levels (-1))
            (fun i => filter (fun op => nth op levels (-1) =? i) (seq 0 8))
            6 4.

(** The state after the first run of an object with a limit of five. *)
Definition ex_state_five : St :=
  Eval vm_compute in
    snd (run ex_topos_both 10 (Some the_graph) (ex_graph, lms_of ex_args_five)).


(** The order of [ex_graph], and [ex_lms] once it knows the backward
    operations [grad/C] and [grad/D]. *)
Definition ex_order : TOPOS := ex_topos ex_graph [0%nat] [2%nat; 3%nat].

Definition ex_lms_grad : LMS := set_grad_ops [2%nat; 3%nat] ex_lms.

(** [ex_graph] with an operation of an atomic type: [B] is an [Add]. *)
Definition ex_graph_atomic : Graph :=
  [ mkNode "A" "Conv2D" [] [] 1 "";
    mkNode "B" "Add" [(0, 0)%nat] [] 1 "";
    mkNode "grad/C" "ReluGrad" [(0, 0)%nat; (1, 0)%nat] [] 1 "";
    mkNode "grad/D" "ApplyGradientDescent" [(2, 0)%nat] [] 1 "" ].

Definition ex_graph_atomic_rewritten : Graph :=
  Eval vm_compute in
    fst (snd (run ex_topos 10 (Some the_graph) (ex_graph_atomic, ex_lms))).

(** A value with two backward consumers: [grad/C1] and [grad/C2] both read
    the output of [A]; [grad/C2] also reads [grad/C1], and [grad/D] reads
    [grad/C2]. *)
Definition ex_graph_fuse : Graph :=
  [ mkNode "A" "Conv2D" [] [] 1 "";
    mkNode "grad/C1" "ReluGrad" [(0, 0)%nat] [] 1 "";
    mkNode "grad/C2" "ReluGrad" [(0, 0)%nat; (1, 0)%nat] [] 1 "";
    mkNode "grad/D" "ApplyGradientDescent" [(2, 0)%nat] [] 1 "" ].

(** An order for the four operations of [ex_graph_fuse], one per level;
    the backward phase starts at level 1. *)
Definition ex_topos_fuse (g : Graph) (seed_ops grad_ops : list OpId)
  : TOPOS :=
  mkTOPOS (fun op => if (op <? 4)%nat then Z.of_nat op else -1)
          (fun i => if (0 <=? i) && (i <? 4) then [Z.to_nat i] else [])
          4 1.

Definition ex_args_fuse : Args :=
  mkArgs ["grad"] None None (Some ["A"]) [] [] [] [] 1 10000 (-1) true
         "chain_rule" false 0 "/cpu:0".

(* ================================================================== *)
(** ** A program logic for the methods, and the invariant of a run *)

Section InvariantDefs.

Context {env : Env}.

(** [triple P m Q E]: from a state with [P], the computation [m] ends with
    a result and a state with [Q], or stops (an exception, no fuel left) in
    a state with [E]. *)
Definition triple {A} (P : St -> Prop) (m : M A) (Q : A -> St -> Prop)
           (E : St -> Prop) : Prop :=
  forall s, P s ->
    match m s with
    | (Ret a, s') => Q a s'
    | (_, s') => E s'
    end.

Definition atomic_type (g : Graph) (op : OpId) : bool :=
  mem_str (op_type g op) ATOMIC_TYPES.

(** Every input of an operation is an output slot of an operation of the
    graph. *)
Definition well_formed (g : Graph) : Prop :=
  forall c t, valid g c -> In t (inputs (node g c)) ->
              valid g (fst t) /\ (snd t < n_outputs (node g (fst t)))%nat.

(** The name of a swap-out operation: the name that [_add_swapout] asks
    for, in the name scope of the call. *)
Definition swapout_named (g : Graph) (op : OpId) : bool :=
  String.prefix (tf.scoped "lms/swapout") (op_name g op).

Section Invariant.

(** The graph [g0] at the start of the rewrite, the operations [R] reachable
    from the seed operations in [g0], and the backward operations [G]. *)
Variable g0 : Graph.
Variable R : list OpId.
Variable G : list OpId.

(** An operation created during the rewrite. *)
Definition is_new (g : Graph) (op : OpId) : Prop :=
  (List.length g0 <= op < List.length g)%nat.

(** The operations the planner may come across: those of [R], and those
    created during the rewrite. *)
Definition visitable (op : OpId) : Prop :=
  In op R \/ (List.length g0 <= op)%nat.

Record graph_inv (g : Graph) : Prop := mk_graph_inv {
  gi_length : (List.length g0 <= List.length g)%nat;
  gi_frame : forall c, valid g0 c ->
    name (node g c) = name (node g0 c)
    /\ type (node g c) = type (node g0 c)
    /\ n_outputs (node g c) = n_outputs (node g0 c);
  gi_untouched : forall c, valid g0 c -> ~ In c R -> node g c = node g0 c;
  gi_swapout : forall so t,
    is_new g so -> swapout_named g so = true ->
    In t (inputs (node g so)) ->
    In (fst t) R /\ atomic_type g0 (fst t) = false
}.

(** [pend]: an operation just created and not yet recorded in
    [_excl_ops]. *)
Definition obj_inv (pend : option OpId) (g : Graph) (o : LMS) : Prop :=
  (forall op, is_new g op -> In op (_excl_ops o) \/ pend = Some op)
  /\ (forall op, In op R -> atomic_type g0 op = true -> In op (_excl_ops o))
  /\ _grad_ops o = G.

Definition Inv (pend : option OpId) (s : St) : Prop :=
  graph_inv (fst s) /\ obj_inv pend (fst s) (snd s).

(** What a stopped run still guarantees. *)
Definition Stopped (s : St) : Prop := graph_inv (fst s).

(** Facts on [g0], [R] and [G] that hold throughout. *)
Record static : Prop := mk_static {
  st_wf : well_formed g0;
  st_R_valid : forall op, In op R -> valid g0 op;
  st_R_closed : forall c t, valid g0 c -> In t (inputs (node g0 c)) ->
                            In (fst t) R -> In c R;
  st_G_valid : forall op, In op G -> valid g0 op
}.

End Invariant.

(** The order knows the operations of the graph it was built for: any other
    operation has no level. *)
Definition levels_within (g : Graph) (topo : TOPOS) : Prop :=
  forall op, ~ valid g op -> get_order topo op < 0.

(** A set of operations that holds the successors of its members. *)
Definition closed (g : Graph) (w : OpId -> bool) (acc : list OpId) : Prop :=
  forall a x, In a acc -> In x (ge.successors g w a) -> In x acc.

(** The operations of the graph that a walk has not reached yet. *)
Definition unreached (g : Graph) (acc : list OpId) : list OpId :=
  filter (fun x => negb (mem x acc)) (ge.make_list_of_op g).

(** An operation whose input slots that read [ts0] are rewired to the
    output of the operation [si]. *)
Definition rewire (ts0 : Tensor) (si : OpId) (n : Node) : Node :=
  ge.set_inputs n
    (map (fun t => if tensor_eqb t ts0 then (si, 0%nat) else t) (inputs n)).

End InvariantDefs.

Arguments gi_length {env g0 R g} _.
Arguments gi_frame {env g0 R g} _ c _.
Arguments gi_untouched {env g0 R g} _ c _ _.
Arguments gi_swapout {env g0 R g} _ so t _ _ _.
Arguments st_wf {g0 R G} _ c t _ _.
Arguments st_R_valid {g0 R G} _ op _.
Arguments st_R_closed {g0 R G} _ c t _ _ _.
Arguments st_G_valid {g0 R G} _ op _.
(* ================================================================== *)
(** ** Notions used to describe single methods *)

Section ExtraDefs.

Context {env : Env}.

(** [op] lies in the name scope [scope]: the test of
    [ge.get_name_scope_ops], a search of the pattern of the scope in the
    name of [op]. *)
Definition in_name_scope (g : Graph) (scope : string) (op : OpId) : bool :=
  re_search (name_scope_pattern scope) (op_name g op).

(** The pattern of an optimizer scope or of the starting scope,
    ['^' + scope], is found in the name of [op]; and the pattern of a
    starting name, ['^' + name + '$']. *)
Definition scope_found (g : Graph) (scope : string) (op : OpId) : bool :=
  re_search (scope_pattern scope) (op_name g op).

Definition name_found (g : Graph) (nm : string) (op : OpId) : bool :=
  re_search (name_pattern nm) (op_name g op).

(** [c] reads an output of [b]. *)
Definition consumes (g : Graph) (b c : OpId) : Prop :=
  exists t, In t (outputs g b) /\ valid g c /\ In t (inputs (node g c)).

(** [x] is [op], or is reached from [op] through producer-consumer
    edges. *)
Inductive reaches (g : Graph) (op : OpId) : OpId -> Prop :=
| reaches_refl : reaches g op op
| reaches_step b c : reaches g op b -> consumes g b c -> reaches g op c.

(** The candidates of the automatic seed search: the operations outside the
    backward phase with an output read by a backward operation. *)
Definition feeds_backward (g : Graph) (grad_ops : list OpId) (op : OpId)
  : bool :=
  existsb (fun t => nonempty (set_inter (to_set (ge.get_consuming_ops g t))
                                        grad_ops))
          (outputs g op).

Definition seed_candidates (g : Graph) (grad_ops : list OpId) : list OpId :=
  filter (feeds_backward g grad_ops)
         (filter (fun op => negb (mem op grad_ops)) (ge.make_list_of_op g)).

(** [nelems] of a candidate: how many candidates its forward walk outside
    the backward phase covers. *)
Definition seed_score (g : Graph) (grad_ops : list OpId) (op : OpId) : Z :=
  Z.of_nat (List.length
    (set_inter
       (to_set (ge.get_forward_walk_ops_within g op
                  (filter (fun op => negb (mem op grad_ops))
                          (ge.make_list_of_op g))))
       (seed_candidates g grad_ops))).

(** The number of swap-out operations of a graph: the operations with the
    name that [_add_swapout] asks for, in the name scope of the call. *)
Definition count_swapout (g : Graph) : nat :=
  List.length
    (filter (fun n => String.prefix (tf.scoped "lms/swapout") (name n)) g).

(** What holds of every candidate of the chain rule: a backward operation
    of the graph, reached from [fw_op], with a level strictly between
    [fw_order] and [bw_order] and a name without '/cond/'. *)
Definition chain_candidate (g : Graph) (grad_ops : list OpId) (topo : TOPOS)
           (fw_op : OpId) (fw_order bw_order : Z) (c : OpId) : Prop :=
  In c grad_ops /\ valid g c
  /\ fw_order < get_order topo c < bw_order
  /\ contains "/cond/" (op_name g c) = false
  /\ reaches g fw_op c.

(** What holds of every operation returned by [_find_new_src_op]: it is
    reached from [original_op], and an output of it is read by an operation
    above the starting level of the backward phase. *)
Definition new_src (g : Graph) (topo : TOPOS) (original_op x : OpId) : Prop :=
  reaches g original_op x
  /\ exists c, consumes g x c /\ get_order topo c > bw_starting_order topo.

(** [t] is an output slot of an operation of the graph. *)
Definition valid_tensor (g : Graph) (t : Tensor) : Prop :=
  valid g (fst t) /\ (snd t < n_outputs (node g (fst t)))%nat.

Section Counting.

(** [W]: whether the graph is known to be well formed.  The value [n] of
    [_n_tensors] during the rewrite, and the number [K] of swap-out
    operations of the graph that [_incpu_count] does not count.  [V]:
    whether the sources of the swap-out operations are followed; then [g0]
    is the graph at the start of the rewrite and [P] holds of the
    operations whose outputs may be swapped out. *)
Variable W V : Prop.
Variable n K : Z.
Variable g0 : Graph.
Variable P : OpId -> Prop.

(** Every swap-out operation created since [g0] reads outputs of
    operations with [P]. *)
Definition swap_sources_ok (g : Graph) : Prop :=
  (List.length g0 <= List.length g)%nat
  /\ forall so t,
       (List.length g0 <= so < List.length g)%nat ->
       swapout_named g so = true ->
       In t (inputs (node g so)) -> P (fst t).

(** A swap operation as [_add_swapout], [_add_swapin] and
    [_fuse_swapin_ops] create it: an Identity with one input and one
    output, named from 'lms/swapout' or 'lms/swapin' in the name scope of
    the call. *)
Definition swap_op (nd : Node) : Prop :=
  type nd = "Identity" /\ n_outputs nd = 1%nat
  /\ List.length (inputs nd) = 1%nat
  /\ (String.prefix (tf.scoped "lms/swapout") (name nd) = true
      \/ String.prefix (tf.scoped "lms/swapin") (name nd) = true).

(** Every operation created since [g0] is a swap operation. *)
Definition new_ops_ok (g : Graph) : Prop :=
  forall c, (List.length g0 <= c < List.length g)%nat -> swap_op (node g c).

(** An operation that passes the two tests at the head of
    [_insert_swap_nodes] has [P]. *)
Definition checks_ok (o : LMS) : Prop :=
  forall x, mem x (_excl_ops o) = false ->
            nonempty (_incl_ops o) && negb (mem x (_incl_ops o)) = false ->
            P x.

(** The state of a rewrite, with [d] swap-out operations created and not
    yet counted in [_incpu_count]: the graph is well formed (if it was),
    [_n_tensors] is [n], the swap-out operations are counted, and the limit
    [n], when there is one, is kept. *)
Definition counted (d : Z) (s : St) : Prop :=
  (W -> well_formed (fst s))
  /\ _n_tensors (snd s) = n
  /\ Z.of_nat (count_swapout (fst s)) = K + _incpu_count (snd s) + d
  /\ (0 < n -> _incpu_count (snd s) + d <= n)
  /\ (V -> swap_sources_ok (fst s) /\ checks_ok (snd s))
  /\ new_ops_ok (fst s).

(** The invariant of the rewrite; the tensors of [T] are tensors of the
    graph. *)
Definition Cnt (T : list Tensor) (s : St) : Prop :=
  counted 0 s /\ (W -> forall t, In t T -> valid_tensor (fst s) t).

(** What a stopped rewrite still guarantees. *)
Definition CntStop (s : St) : Prop := counted 0 s \/ counted 1 s.

End Counting.

End ExtraDefs.


(** A configuration without starting scope and starting names, and its
    object once the backward operations of [ex_graph] are known. *)
Definition ex_args_auto : Args :=
  mkArgs ["grad"] None None None [] [] [] [] 1 10000 (-1) false "chain_rule"
         false 0 "/cpu:0".

Definition ex_lms_auto : LMS := set_grad_ops [2%nat; 3%nat] (lms_of ex_args_auto).

(** [ex_graph] with a swap-out operation for the output of [A]. *)
Definition ex_graph_swapout : Graph :=
  ex_graph ++ [mkNode "lms/swapout" "Identity" [(0, 0)%nat] [] 1 "/device:CPU:0"].

(** [ex_graph_fuse] with a swap-out operation for the output of [A]. *)
Definition ex_graph_fuse_swapout : Graph :=
  ex_graph_fuse
  ++ [mkNode "lms/swapout" "Identity" [(0, 0)%nat] [] 1 "/device:CPU:0"].

(** The configuration of [ex_args] with a limit: one tensor may be
    swapped. *)
Definition ex_args_one : Args :=
  mkArgs ["grad"] None None (Some ["A"]) [] [] [] [] 1 10000 1 false
         "chain_rule" false 0 "/cpu:0".

(** The configuration of [ex_args] with the name scope [B] excluded. *)
Definition ex_args_excl : Args :=
  mkArgs ["grad"] None None (Some ["A"]) ["B"] [] [] [] 1 10000 (-1) false
         "chain_rule" false 0 "/cpu:0".
(* ================================================================== *)
(** ** Basic facts on the monad and on sets *)

Unset Implicit Arguments.

Section Basic.

Context {env : Env}.

Lemma nonempty_app {A} (a b : list A) :
  nonempty (a ++ b) = nonempty a || nonempty b.
Proof. destruct a, b; reflexivity. Qed.

Lemma mem_In x l : mem x l = true <-> In x l.
Proof.
  unfold mem. rewrite existsb_exists. split.
  - intros [y [Hy E]]. apply Nat.eqb_eq in E. now subst.
  - intros H. exists x. split; [assumption | apply Nat.eqb_refl].
Qed.

Lemma mem_false x l : mem x l = false <-> ~ In x l.
Proof.
  rewrite <- mem_In. destruct (mem x l); split; congruence.
Qed.

Lemma In_set_add x y l : In x (set_add y l) <-> In x l \/ x = y.
Proof.
  unfold set_add. destruct (mem y l) eqn:E.
  - apply mem_In in E. split; [now left | intros [H | ->]; assumption].
  - rewrite in_app_iff. simpl. intuition.
Qed.

Lemma In_set_union x a b : In x (set_union a b) <-> In x a \/ In x b.
Proof.
  unfold set_union. revert a.
  induction b as [| y b IH]; intros a; simpl.
  - tauto.
  - rewrite IH, In_set_add. intuition.
Qed.

Lemma In_to_set x l : In x (to_set l) <-> In x l.
Proof. unfold to_set. rewrite In_set_union. simpl. tauto. Qed.

Lemma In_set_inter x a b : In x (set_inter a b) <-> In x a /\ In x b.
Proof. unfold set_inter. rewrite filter_In, mem_In. tauto. Qed.

Lemma In_set_diff x a b : In x (set_diff a b) <-> In x a /\ ~ In x b.
Proof.
  unfold set_diff. rewrite filter_In, negb_true_iff, mem_false. tauto.
Qed.

Lemma nonempty_In {A} (l : list A) : nonempty l = true <-> exists x, In x l.
Proof.
  destruct l as [| a l]; simpl; split; try discriminate.
  - intros [x []].
  - intros _. exists a. now left.
  - reflexivity.
Qed.

Lemma nonempty_false {A} (l : list A) : nonempty l = false <-> l = [].
Proof. destruct l; simpl; split; congruence. Qed.

Lemma nonempty_to_set l : nonempty (to_set l) = nonempty l.
Proof.
  destruct (nonempty l) eqn:E.
  - apply nonempty_In in E. destruct E as [x Hx].
    apply nonempty_In. exists x. now apply In_to_set.
  - apply nonempty_false in E. now subst.
Qed.

Lemma set_grad_ops_idem v w o : set_grad_ops v (set_grad_ops w o) = set_grad_ops v o.
Proof. reflexivity. Qed.

Lemma set_grad_ops_same o : set_grad_ops (_grad_ops o) o = o.
Proof. now destruct o. Qed.

Lemma set_ops_dict_same o : set_ops_dict (_ops_dict o) o = o.
Proof. now destruct o. Qed.

Lemma mem_str_In x l : mem_str x l = true <-> In x l.
Proof.
  unfold mem_str. rewrite existsb_exists. split.
  - intros [y [Hy E]]. apply String.eqb_eq in E. now subst.
  - intros H. exists x. split; [assumption | apply String.eqb_refl].
Qed.

Lemma mem_str_false x l : mem_str x l = false <-> ~ In x l.
Proof.
  rewrite <- mem_str_In. destruct (mem_str x l); split; congruence.
Qed.

Lemma In_str_add x y l : In x (str_add y l) <-> In x l \/ x = y.
Proof.
  unfold str_add. destruct (mem_str y l) eqn:E.
  - apply mem_str_In in E. split; [now left | intros [H | ->]; assumption].
  - rewrite in_app_iff. simpl. intuition.
Qed.

Lemma In_str_union x a b : In x (str_union a b) <-> In x a \/ In x b.
Proof.
  unfold str_union. revert a.
  induction b as [| y b IH]; intros a; simpl.
  - tauto.
  - rewrite IH, In_str_add. intuition.
Qed.

Lemma In_str_diff x a b : In x (str_diff a b) <-> In x a /\ ~ In x b.
Proof.
  unfold str_diff. rewrite filter_In, negb_true_iff, mem_str_false. tauto.
Qed.

Lemma In_make_list_of_op g op : In op (ge.make_list_of_op g) <-> valid g op.
Proof. unfold ge.make_list_of_op, valid. rewrite in_seq. lia. Qed.

Lemma get_consuming_ops_valid g t op :
  In op (ge.get_consuming_ops g t) -> valid g op.
Proof.
  unfold ge.get_consuming_ops. rewrite filter_In.
  intros [H _]. now apply In_make_list_of_op.
Qed.

Lemma successors_valid g w op x : In x (ge.successors g w op) -> valid g x.
Proof.
  unfold ge.successors. rewrite filter_In, in_flat_map.
  intros [[t [_ H]] _]. eapply get_consuming_ops_valid; eauto.
Qed.

Lemma walk_valid g w n : forall acc,
  (forall x, In x acc -> valid g x) ->
  forall x, In x (ge.walk g w n acc) -> valid g x.
Proof.
  induction n as [| n IH]; intros acc Hacc x Hx; cbn [ge.walk] in Hx.
  - now apply Hacc.
  - eapply IH; [| exact Hx]. intros y Hy.
    apply In_set_union in Hy. destruct Hy as [Hy | Hy].
    + now apply Hacc.
    + apply in_flat_map in Hy. destruct Hy as [z [_ Hz]].
      eapply successors_valid; eauto.
Qed.

Lemma get_forward_walk_ops_valid g op x :
  valid g op -> In x (ge.get_forward_walk_ops g op) -> valid g x.
Proof.
  intros Hop. unfold ge.get_forward_walk_ops. apply walk_valid.
  intros y [<- | []]. exact Hop.
Qed.

Lemma new_reachable_from_valid g seeds x :
  (forall s, In s seeds -> valid g s) ->
  In x (new_reachable_from g seeds) -> valid g x.
Proof.
  unfold new_reachable_from.
  assert (H : forall acc, (forall y, In y acc -> valid g y) ->
            (forall s, In s seeds -> valid g s) ->
            In x (fold_left (fun acc seed_op =>
                    set_union acc (to_set (ge.get_forward_walk_ops g seed_op)))
                    seeds acc) -> valid g x).
  { induction seeds as [| s seeds IH]; intros acc Hacc Hs Hx; cbn in Hx.
    - now apply Hacc.
    - eapply IH; [| | exact Hx].
      + intros y Hy. apply In_set_union in Hy. destruct Hy as [Hy | Hy].
        * now apply Hacc.
        * apply -> In_to_set in Hy.
          eapply get_forward_walk_ops_valid; [| exact Hy].
          apply Hs. now left.
      + intros s' Hs'. apply Hs. now right. }
  intros Hs Hx. eapply H; [| exact Hs | exact Hx]. intros y [].
Qed.

Lemma auto_seed_ops_valid g grad x : In x (auto_seed_ops g grad) -> valid g x.
Proof.
  unfold auto_seed_ops. intros H.
  apply in_map_iff in H. destruct H as [[op n] [E H]]. cbn in E. subst op.
  apply filter_In in H. destruct H as [H _].
  apply filter_In in H. destruct H as [H _].
  apply in_map_iff in H. destruct H as [op [E H]].
  injection E as -> _.
  apply filter_In in H. destruct H as [H _].
  apply filter_In in H. destruct H as [H _].
  now apply In_make_list_of_op.
Qed.

Lemma In_regex_ops g ops regex x :
  In x (regex_ops g ops regex)
  <-> In x ops /\ re_search regex (op_name g x) = true.
Proof.
  unfold regex_ops, ge.filter_ops_from_regex, re_search.
  destruct (re_compile regex) as [search |].
  - apply filter_In.
  - split; [intros [] | intros [_ H]; discriminate].
Qed.

Lemma regex_ops_Some g ops regex l :
  ge.filter_ops_from_regex g ops regex = Some l -> regex_ops g ops regex = l.
Proof. unfold regex_ops. now intros ->. Qed.

Lemma regex_ops_None g ops regex :
  ge.filter_ops_from_regex g ops regex = None ->
  is_regex regex = false /\ regex_ops g ops regex = [].
Proof.
  unfold regex_ops, is_regex, ge.filter_ops_from_regex.
  destruct (re_compile regex); [discriminate | now split].
Qed.

Lemma filter_ops_from_regex_cases g ops regex :
  ge.filter_ops_from_regex g ops regex
  = if is_regex regex then Some (regex_ops g ops regex) else None.
Proof.
  unfold regex_ops, is_regex, ge.filter_ops_from_regex.
  now destruct (re_compile regex).
Qed.

Lemma fold_exact_valid g names : forall acc x,
  (forall y, In y acc -> valid g y) ->
  In x (fold_left (fun acc nm =>
          set_union acc (to_set (filter_ops_exact g (ge.make_list_of_op g) nm)))
          names acc) ->
  valid g x.
Proof.
  induction names as [| nm names IH]; intros acc x Hacc Hx; cbn in Hx.
  - now apply Hacc.
  - eapply IH; [| exact Hx]. intros y Hy.
    apply In_set_union in Hy. destruct Hy as [Hy | Hy]; [now apply Hacc |].
    apply -> In_to_set in Hy. unfold filter_ops_exact in Hy.
    apply In_regex_ops in Hy. now apply In_make_list_of_op.
Qed.

Lemma seed_ops_of_valid g o x : In x (seed_ops_of g o) -> valid g x.
Proof.
  unfold seed_ops_of.
  set (s1 := match _starting_scope o with
             | Some v => if truthy (_starting_scope o)
                         then set_union [] (to_set (filter_ops_prefix g (ge.make_list_of_op g) v))
                         else []
             | None => []
             end).
  assert (H1 : forall y, In y s1 -> valid g y).
  { subst s1. intros y Hy. destruct (_starting_scope o) as [v |]; [| destruct Hy].
    destruct (truthy (Some v)); [| destruct Hy].
    apply In_set_union in Hy. destruct Hy as [[] | Hy].
    apply -> In_to_set in Hy. unfold filter_ops_prefix in Hy.
    apply In_regex_ops in Hy. now apply In_make_list_of_op. }
  set (s2 := match _starting_op_names o with
             | Some l => fold_left _ l s1
             | None => s1
             end).
  assert (H2 : forall y, In y s2 -> valid g y).
  { subst s2. intros y Hy. destruct (_starting_op_names o) as [l |].
    - eapply fold_exact_valid; eauto.
    - now apply H1. }
  destruct (nonempty s2).
  - apply H2.
  - apply auto_seed_ops_valid.
Qed.

Lemma run_reachable_valid g o x :
  In x (new_reachable_from g (run_seed_ops g o)) -> valid g x.
Proof.
  apply new_reachable_from_valid. intros s. apply seed_ops_of_valid.
Qed.

(** Names of new operations. *)
Lemma prefix_app_same p : forall a b,
  String.prefix (p ++ a) (p ++ b) = String.prefix a b.
Proof.
  induction p as [| c p IH]; intros a b; [reflexivity |].
  cbn. destruct (Ascii.ascii_dec c c) as [_ | Hn]; [apply IH | congruence].
Qed.

Lemma prefix_app_self a : forall b, String.prefix a (a ++ b) = true.
Proof.
  induction a as [| c a IH]; intros b; cbn; [now destruct b |].
  destruct (Ascii.ascii_dec c c) as [_ | Hn]; [apply IH | congruence].
Qed.

Lemma string_app_assoc a : forall b c : string,
  ((a ++ b) ++ c = a ++ (b ++ c))%string.
Proof.
  induction a as [| x a IH]; intros b c; cbn; [reflexivity |].
  now rewrite IH.
Qed.

Lemma unique_name_suffix g base :
  exists suf, tf.unique_name g base = (base ++ suf)%string.
Proof.
  unfold tf.unique_name, tf.suffixed.
  destruct (tf.name_in_use g base).
  - destruct (find _ _); eexists; reflexivity.
  - exists ""%string. clear. induction base as [| c b IH]; cbn; congruence.
Qed.

Lemma prefix_unique_name g base :
  String.prefix base (tf.unique_name g base) = true.
Proof.
  destruct (unique_name_suffix g base) as [suf ->]. apply prefix_app_self.
Qed.

Lemma prefix_swapout g :
  String.prefix (tf.scoped "lms/swapout")
                (tf.unique_name g (tf.scoped "lms/swapout")) = true.
Proof. apply prefix_unique_name. Qed.

Lemma prefix_swapin g :
  String.prefix (tf.scoped "lms/swapin")
                (tf.unique_name g (tf.scoped "lms/swapin")) = true.
Proof. apply prefix_unique_name. Qed.

Lemma prefix_swapin_not_swapout g :
  String.prefix (tf.scoped "lms/swapout")
                (tf.unique_name g (tf.scoped "lms/swapin")) = false.
Proof.
  destruct (unique_name_suffix g (tf.scoped "lms/swapin")) as [suf ->].
  unfold tf.scoped. rewrite string_app_assoc, prefix_app_same. reflexivity.
Qed.

End Basic.

(* ================================================================== *)
(** ** The analysis phase reads the graph and never writes it *)

Lemma bind_Ret {A B} (m : M A) (k : A -> M B) s a s' :
  m s = (Ret a, s') -> bind m k s = k a s'.
Proof. intros H. unfold bind. now rewrite H. Qed.

Lemma bind_Raise {A B} (m : M A) (k : A -> M B) s e s' :
  m s = (Raise e, s') -> bind m k s = (Raise e, s').
Proof. intros H. unfold bind. now rewrite H. Qed.

Lemma bind_OutOfFuel {A B} (m : M A) (k : A -> M B) s s' :
  m s = (OutOfFuel, s') -> bind m k s = (OutOfFuel, s').
Proof. intros H. unfold bind. now rewrite H. Qed.

Ltac mret :=
  erewrite bind_Ret by (cbv beta; first [reflexivity | eassumption]);
  cbn [fst snd].
Ltac mraise :=
  erewrite bind_Raise by (cbv beta; first [reflexivity | eassumption]);
  cbn [fst snd].

Section Analysis.

Context {env : Env}.

Lemma lift_re_regex {A} g ops regex (k : list OpId -> M A) s :
  bind (lift_re (ge.filter_ops_from_regex g ops regex)) k s
  = if is_regex regex then k (regex_ops g ops regex) s
    else (Raise ReError, s).
Proof.
  unfold bind. rewrite filter_ops_from_regex_cases.
  destruct (is_regex regex); reflexivity.
Qed.

Lemma regex_ops_not_regex g ops regex :
  is_regex regex = false -> regex_ops g ops regex = [].
Proof.
  intros H. unfold regex_ops. now rewrite filter_ops_from_regex_cases, H.
Qed.

Lemma build_gradient_ops_body_spec g o sc :
  build_gradient_ops_body sc (g, o) =
  if prefix_matches g sc then
    (Ret Next,
     (g, set_grad_ops
           (set_union (_grad_ops o)
              (to_set (filter_ops_prefix g (ge.make_list_of_op g) sc))) o))
  else
    (Raise (if is_regex (scope_pattern sc)
            then ValueError
                   ("No operations were found with optimizer scope " ++ sc
                    ++ ".")
            else ReError),
     (g, o)).
Proof.
  unfold build_gradient_ops_body, prefix_matches, filter_ops_prefix.
  unfold bind at 1. unfold get_graph. cbn [fst snd].
  change ("^" ++ sc)%string with (scope_pattern sc).
  rewrite lift_re_regex.
  destruct (is_regex (scope_pattern sc)) eqn:Ere.
  - rewrite nonempty_to_set.
    destruct (nonempty (regex_ops g (ge.make_list_of_op g) (scope_pattern sc)));
      reflexivity.
  - now rewrite regex_ops_not_regex.
Qed.

Lemma build_gradient_ops_loop g scopes : forall o,
  if forallb (prefix_matches g) scopes then
    for_each scopes build_gradient_ops_body (g, o)
    = (Ret Next, (g, set_grad_ops (grad_ops_of g scopes (_grad_ops o)) o))
  else
    exists e o',
      for_each scopes build_gradient_ops_body (g, o) = (Raise e, (g, o'))
      /\ (scopes_compile scopes = true -> is_value_error e = true).
Proof.
  induction scopes as [| sc scopes IH]; intros o.
  - simpl. unfold ret. now rewrite set_grad_ops_same.
  - cbn [forallb for_each scopes_compile]. unfold bind.
    rewrite build_gradient_ops_body_spec.
    destruct (prefix_matches g sc); cbn [andb].
    + specialize (IH (set_grad_ops
                      (set_union (_grad_ops o)
                         (to_set (filter_ops_prefix g (ge.make_list_of_op g) sc))) o)).
      destruct (forallb (prefix_matches g) scopes).
      * rewrite IH. reflexivity.
      * destruct IH as [e [o' [IH Hv]]]. exists e, o'. split; [exact IH |].
        intros Hc. apply andb_prop in Hc. now apply Hv.
    + eexists. eexists. split; [reflexivity |].
      intros Hc. apply andb_prop in Hc. destruct Hc as [-> _]. reflexivity.
Qed.

Lemma build_gradient_ops_spec g o :
  if forallb (prefix_matches g) (_optimizer_scopes o) then
    _build_gradient_ops (g, o)
    = (Ret tt,
       (g, set_grad_ops (grad_ops_of g (_optimizer_scopes o) (_grad_ops o)) o))
  else
    exists e o',
      _build_gradient_ops (g, o) = (Raise e, (g, o'))
      /\ (scopes_compile (_optimizer_scopes o) = true ->
          is_value_error e = true).
Proof.
  unfold _build_gradient_ops.
  pose proof (build_gradient_ops_loop g (_optimizer_scopes o) o) as H.
  destruct (forallb (prefix_matches g) (_optimizer_scopes o)).
  - unfold bind at 1. unfold self. simpl.
    erewrite bind_Ret by exact H. reflexivity.
  - destruct H as [e [o' [H Hv]]]. exists e, o'. split; [| exact Hv].
    unfold bind at 1. unfold self. simpl.
    erewrite bind_Raise by exact H. reflexivity.
Qed.

Lemma if_ret {A} (b : bool) (x y : A) (s : St) :
  (if b then ret x else ret y) s = (Ret (if b then x else y), s).
Proof. destruct b; reflexivity. Qed.

Lemma seed_names_spec g ops names : forall acc s,
  if forallb (fun nm => nonempty (filter_ops_exact g ops nm)) names then
    seed_names g ops names acc s
    = (Ret (fold_left (fun acc nm =>
                         set_union acc (to_set (filter_ops_exact g ops nm)))
                      names acc), s)
  else exists e, seed_names g ops names acc s = (Raise e, s)
                 /\ (names_compile names = true -> is_value_error e = true).
Proof.
  induction names as [| nm names IH]; intros acc s.
  - reflexivity.
  - cbn [forallb seed_names fold_left names_compile].
    unfold filter_ops_exact at 1 3.
    change ("^" ++ nm ++ "$")%string with (name_pattern nm).
    rewrite lift_re_regex.
    destruct (is_regex (name_pattern nm)) eqn:Ere.
    + rewrite nonempty_to_set.
      destruct (nonempty (regex_ops g ops (name_pattern nm)));
        cbn [negb andb].
      * apply IH.
      * eexists. split; reflexivity.
    + rewrite regex_ops_not_regex by exact Ere. cbn [nonempty andb].
      eexists. split; [reflexivity | discriminate].
Qed.

Lemma start_names_spec g o acc :
  if start_names_match g (_starting_op_names o) then
    match _starting_op_names o with
    | Some names => seed_names g (ge.make_list_of_op g) names acc
    | None => ret acc
    end (g, o)
    = (Ret match _starting_op_names o with
           | Some l =>
               fold_left (fun acc nm =>
                 set_union acc
                   (to_set (filter_ops_exact g (ge.make_list_of_op g) nm)))
                 l acc
           | None => acc
           end, (g, o))
  else exists e,
    match _starting_op_names o with
    | Some names => seed_names g (ge.make_list_of_op g) names acc
    | None => ret acc
    end (g, o) = (Raise e, (g, o))
    /\ (match _starting_op_names o with
        | Some l => names_compile l
        | None => true
        end = true -> is_value_error e = true).
Proof.
  unfold start_names_match, name_matches.
  destruct (_starting_op_names o) as [names |].
  - apply seed_names_spec.
  - reflexivity.
Qed.

(** The first step of [_get_seed_ops]: the operations of the starting
    scope. *)
Lemma start_scope_spec {A} g o (k : list OpId -> M A) :
  bind (if truthy (_starting_scope o) then
          let scope := match _starting_scope o with
                       | Some v => v
                       | None => ""
                       end in
          found <- lift_re (ge.filter_ops_from_regex g (ge.make_list_of_op g)
                              ("^" ++ scope)) ;;
          let scope_ops := to_set found in
          if negb (nonempty scope_ops) then
            raise (ValueError
              ("No operations were found in starting scope " ++ scope ++ "."))
          else ret (set_union [] scope_ops)
        else ret []) k (g, o)
  = if start_scope_matches g (_starting_scope o) then
      k match _starting_scope o with
        | Some v => if truthy (_starting_scope o)
                    then set_union []
                           (to_set (filter_ops_prefix g (ge.make_list_of_op g) v))
                    else []
        | None => []
        end (g, o)
    else
      (Raise match _starting_scope o with
             | Some v =>
                 if is_regex (scope_pattern v)
                 then ValueError
                        ("No operations were found in starting scope " ++ v
                         ++ ".")
                 else ReError
             | None => ReError
             end, (g, o)).
Proof.
  unfold start_scope_matches, prefix_matches, filter_ops_prefix.
  destruct (_starting_scope o) as [v |]; [| reflexivity].
  destruct (truthy (Some v)); [| reflexivity].
  cbv zeta. change ("^" ++ v)%string with (scope_pattern v).
  unfold bind at 1. rewrite lift_re_regex.
  destruct (is_regex (scope_pattern v)) eqn:Ere.
  - rewrite nonempty_to_set.
    destruct (nonempty (regex_ops g (ge.make_list_of_op g) (scope_pattern v)));
      reflexivity.
  - now rewrite regex_ops_not_regex.
Qed.

Lemma get_seed_ops_ok g o :
  start_scope_matches g (_starting_scope o) = true ->
  start_names_match g (_starting_op_names o) = true ->
  _get_seed_ops (g, o) = (Ret (seed_ops_of g o), (g, o)).
Proof.
  intros Hs Hn. unfold _get_seed_ops, seed_ops_of.
  do 2 mret. rewrite start_scope_spec, Hs.
  match goal with
  | |- bind (match _ with Some _ => seed_names _ _ _ ?acc | None => _ end)
            _ _ = _ =>
      pose proof (start_names_spec g o acc) as H
  end.
  rewrite Hn in H. mret. apply if_ret.
Qed.

Lemma get_seed_ops_err g o :
  start_scope_matches g (_starting_scope o)
  && start_names_match g (_starting_op_names o) = false ->
  exists e, _get_seed_ops (g, o) = (Raise e, (g, o))
            /\ (start_compile (_starting_scope o) (_starting_op_names o) = true
                -> is_value_error e = true).
Proof.
  intros Hc. unfold _get_seed_ops. unfold start_compile.
  destruct (start_scope_matches g (_starting_scope o)) eqn:Hs.
  - cbn [andb] in Hc.
    assert (Hk : forall acc, exists e,
              match _starting_op_names o with
              | Some names => seed_names g (ge.make_list_of_op g) names acc
              | None => ret acc
              end (g, o) = (Raise e, (g, o))
              /\ (match _starting_op_names o with
                  | Some l => names_compile l
                  | None => true
                  end = true -> is_value_error e = true)).
    { intros acc. pose proof (start_names_spec g o acc) as H.
      now rewrite Hc in H. }
    destruct (Hk match _starting_scope o with
                 | Some v => if truthy (_starting_scope o)
                             then set_union []
                                    (to_set (filter_ops_prefix g
                                               (ge.make_list_of_op g) v))
                             else []
                 | None => []
                 end) as [e [He Hv]].
    exists e. split.
    + do 2 mret. rewrite start_scope_spec, Hs. mraise. reflexivity.
    + intros Hcomp. apply andb_prop in Hcomp. now apply Hv.
  - eexists. split.
    + do 2 mret. rewrite start_scope_spec, Hs. reflexivity.
    + intros Hcomp. apply andb_prop in Hcomp. destruct Hcomp as [Hcomp _].
      unfold start_scope_matches in Hs.
      destruct (_starting_scope o) as [v |]; [| discriminate].
      destruct (truthy (Some v)); [| discriminate].
      now rewrite Hcomp.
Qed.

Lemma get_forward_walk_ops_spec g o op inclusive :
  _get_forward_walk_ops op inclusive (g, o)
  = (Ret (if inclusive then memo_walk g o op
          else set_diff (to_set (memo_walk g o op)) [op]),
     (g, memo_store g o op)).
Proof.
  unfold _get_forward_walk_ops, memo_walk, memo_store.
  mret. destruct (lookup (_ops_dict o) op) as [l |].
  - reflexivity.
  - do 2 mret. reflexivity.
Qed.

Lemma memo_walk_store g o op op' :
  memo_walk g (memo_store g o op) op' = memo_walk g o op'.
Proof.
  unfold memo_walk, memo_store.
  destruct (lookup (_ops_dict o) op) as [l |] eqn:E; [reflexivity |].
  destruct o; cbn [_ops_dict set_ops_dict] in *.
  unfold lookup in *. cbn [find fst].
  destruct (Nat.eqb op op') eqn:E'.
  - apply Nat.eqb_eq in E'. subst op'. cbn [option_map snd].
    now rewrite E.
  - reflexivity.
Qed.

Lemma memo_walk_consistent g o op :
  memo_consistent g o -> memo_walk g o op = ge.get_forward_walk_ops g op.
Proof.
  intros H. unfold memo_walk.
  destruct (lookup (_ops_dict o) op) as [l |] eqn:E; [| reflexivity].
  now apply H.
Qed.

Lemma memo_store_consistent g o op :
  memo_consistent g o -> memo_consistent g (memo_store g o op).
Proof.
  intros H op' l Hl.
  pose proof (memo_walk_store g o op op') as E. unfold memo_walk at 1 in E.
  rewrite Hl in E. rewrite E. now apply memo_walk_consistent.
Qed.

Lemma fold_walk_ext (w1 w2 : OpId -> list OpId) seeds :
  (forall op, w1 op = w2 op) ->
  forall acc,
  fold_left (fun acc seed_op => set_union acc (to_set (w1 seed_op))) seeds acc
  = fold_left (fun acc seed_op => set_union acc (to_set (w2 seed_op))) seeds acc.
Proof.
  intros H. induction seeds as [| sd seeds IH]; intros acc.
  - reflexivity.
  - cbn [fold_left]. rewrite H. apply IH.
Qed.

Lemma reachable_from_spec g seeds : forall o acc,
  reachable_from seeds acc (g, o)
  = (Ret (fold_left (fun acc seed_op =>
                       set_union acc (to_set (memo_walk g o seed_op)))
                    seeds acc),
     (g, fold_left (memo_store g) seeds o)).
Proof.
  induction seeds as [| sd seeds IH]; intros o acc.
  - reflexivity.
  - cbn [reachable_from fold_left].
    erewrite bind_Ret by apply get_forward_walk_ops_spec.
    rewrite IH. f_equal. f_equal.
    apply fold_walk_ext. intros op. apply memo_walk_store.
Qed.

Lemma fold_memo_store_consistent g seeds : forall o,
  memo_consistent g o -> memo_consistent g (fold_left (memo_store g) seeds o).
Proof.
  induction seeds as [| sd seeds IH]; intros o H.
  - exact H.
  - cbn [fold_left]. apply IH. now apply memo_store_consistent.
Qed.

Lemma reachable_ops_of_consistent g o seeds :
  memo_consistent g o ->
  reachable_ops_of g o seeds = new_reachable_from g seeds.
Proof.
  intros H. unfold reachable_ops_of, new_reachable_from.
  apply fold_walk_ext. intros op. now apply memo_walk_consistent.
Qed.

(** [memo_store] only touches [_ops_dict]. *)
Lemma memo_store_fields g o op :
  exists d, memo_store g o op = set_ops_dict d o.
Proof.
  unfold memo_store. destruct (lookup (_ops_dict o) op).
  - exists (_ops_dict o). now rewrite set_ops_dict_same.
  - eexists. reflexivity.
Qed.

Lemma fold_memo_store_fields g seeds : forall o,
  exists d, fold_left (memo_store g) seeds o = set_ops_dict d o.
Proof.
  induction seeds as [| sd seeds IH]; intros o.
  - exists (_ops_dict o). cbn. now rewrite set_ops_dict_same.
  - cbn [fold_left]. destruct (memo_store_fields g o sd) as [d Hd].
    rewrite Hd. destruct (IH (set_ops_dict d o)) as [d' Hd'].
    exists d'. rewrite Hd'. reflexivity.
Qed.

Lemma scope_ops_spec g within scopes : forall acc s,
  if forallb (scope_matches g within) scopes then
    scope_ops g within scopes acc s
    = (Ret (fold_left (fun acc scope =>
                         set_union acc
                           (to_set (name_scope_ops g within scope)))
                      scopes acc), s)
  else exists e, scope_ops g within scopes acc s = (Raise e, s)
                 /\ (name_scopes_compile scopes = true ->
                     is_value_error e = true).
Proof.
  induction scopes as [| sc scopes IH]; intros acc s.
  - reflexivity.
  - cbn [forallb scope_ops fold_left name_scopes_compile].
    unfold scope_matches at 1. unfold name_scope_ops at 1 3.
    unfold ge.get_name_scope_ops.
    change (ge.name_scope_regex (ge.strip_slash sc))
      with (name_scope_pattern sc).
    rewrite lift_re_regex.
    destruct (is_regex (name_scope_pattern sc)) eqn:Ere.
    + rewrite nonempty_to_set.
      destruct (nonempty (regex_ops g within (name_scope_pattern sc)));
        cbn [negb andb].
      * apply IH.
      * eexists. split; reflexivity.
    + rewrite regex_ops_not_regex by exact Ere. cbn [nonempty andb].
      eexists. split; [reflexivity | discriminate].
Qed.

Lemma filter_scopes_and_types_ok g o within scopes types :
  forallb (scope_matches g within) scopes = true ->
  missing_types_of g within types = [] ->
  _filter_scopes_and_types within scopes types (g, o)
  = (Ret (filtered_ops_of g within scopes types), (g, o)).
Proof.
  intros Hs Hm. unfold _filter_scopes_and_types. mret.
  pose proof (scope_ops_spec g within scopes [] (g, o)) as H.
  rewrite Hs in H. mret.
  unfold missing_types_of in Hm. rewrite Hm. reflexivity.
Qed.

Lemma filter_scopes_and_types_err g o within scopes types :
  forallb (scope_matches g within) scopes = false
  \/ missing_types_of g within types <> [] ->
  exists e,
    _filter_scopes_and_types within scopes types (g, o) = (Raise e, (g, o))
    /\ (name_scopes_compile scopes = true -> is_value_error e = true).
Proof.
  intros Hc. unfold _filter_scopes_and_types.
  pose proof (scope_ops_spec g within scopes [] (g, o)) as H.
  destruct (forallb (scope_matches g within) scopes).
  - destruct Hc as [Hc | Hc]; [discriminate |].
    unfold missing_types_of in Hc.
    destruct (str_diff _ ATOMIC_TYPES) as [| ty tys] eqn:E in Hc;
      [congruence |].
    eexists. split; [do 2 mret; rewrite E; reflexivity | reflexivity].
  - destruct H as [e [H Hv]]. exists e. split; [| exact Hv].
    mret. mraise. reflexivity.
Qed.

(* ================================================================== *)
(** ** [run], phase by phase *)

Lemma run_entry_fields gr o :
  _optimizer_scopes (run_entry gr o) = _optimizer_scopes o /\
  _starting_scope (run_entry gr o) = _starting_scope o /\
  _starting_op_names (run_entry gr o) = _starting_op_names o /\
  _grad_ops (run_entry gr o) = _grad_ops o /\
  _ops_dict (run_entry gr o) = _ops_dict o /\
  _excl_scopes (run_entry gr o) = _excl_scopes o /\
  _excl_types (run_entry gr o) = _excl_types o /\
  _incl_scopes (run_entry gr o) = _incl_scopes o /\
  _incl_types (run_entry gr o) = _incl_types o.
Proof.
  unfold run_entry. destruct gr; cbn [set_graph _n_tensors];
    destruct (_n_tensors o <? 0); repeat split; reflexivity.
Qed.

Lemma run_entry_graph gr o :
  graph_given gr o = true -> _graph (run_entry gr o) <> None.
Proof.
  unfold run_entry, graph_given.
  destruct gr; cbn [set_graph _n_tensors _graph].
  - intros _. destruct (_n_tensors o <? 0); discriminate.
  - destruct (_graph o) eqn:E; [| discriminate]. intros _.
    destruct (_n_tensors o <? 0); cbn [set_n_tensors _graph]; rewrite E;
      discriminate.
Qed.

Lemma run_entry_no_graph o :
  graph_given None o = false -> _graph (run_entry None o) = None.
Proof.
  unfold graph_given, run_entry. destruct (_graph o) eqn:E; [discriminate |].
  intros _. destruct (_n_tensors o <? 0); cbn [set_n_tensors _graph]; exact E.
Qed.

Section RunLemmas.

Variable TOPOS_build : Graph -> list OpId -> list OpId -> TOPOS.
Variable fuel : nat.

(** The call returns at once when LMS is turned off. *)
Lemma run_disabled gr g o :
  _n_tensors o = 0 ->
  run TOPOS_build fuel gr (g, o)
  = (Ret None, (g, match gr with
                   | Some r => set_graph (Some r) o
                   | None => o
                   end)).
Proof.
  intros Hn. unfold run.
  destruct gr as [r |]; mret; mret; cbn [set_graph _n_tensors];
    rewrite Hn; reflexivity.
Qed.

Lemma run_enabled gr g o :
  _n_tensors o <> 0 ->
  run TOPOS_build fuel gr (g, o)
  = match _graph (run_entry gr o) with
    | None =>
        (Raise (ValueError
           "The dataflow graph is required but has not been provided."),
         (g, run_entry gr o))
    | Some _ =>
        (_build_gradient_ops ;;;
         seed_ops <- _get_seed_ops ;;
         reachable_ops <- reachable_from seed_ops [] ;;
         g <- get_graph ;;
         if existsb (fun op => contains "lms/swap" (op_name g op))
                    reachable_ops
         then ret None
         else run_rewrite TOPOS_build fuel g seed_ops reachable_ops)
          (g, run_entry gr o)
    end.
Proof.
  intros Hn. unfold run, run_entry.
  assert (E : forall o1, _n_tensors o1 = _n_tensors o ->
    (o0 <- self ;;
     (if _n_tensors o0 =? 0 then ret None
      else (if _n_tensors o0 <? 0 then modify (set_n_tensors 0) else ret tt) ;;;
           o2 <- self ;;
           match _graph o2 with
           | Some _ =>
               _build_gradient_ops ;;;
               seed_ops <- _get_seed_ops ;;
               reachable_ops <- reachable_from seed_ops [] ;;
               g0 <- get_graph ;;
               (if existsb (fun op => contains "lms/swap" (op_name g0 op))
                           reachable_ops
                then ret None
                else run_rewrite TOPOS_build fuel g0 seed_ops reachable_ops)
           | None =>
               raise (ValueError
                 "The dataflow graph is required but has not been provided.")
           end)) (g, o1)
    = match _graph (if _n_tensors o1 <? 0 then set_n_tensors 0 o1 else o1) with
      | None =>
          (Raise (ValueError
             "The dataflow graph is required but has not been provided."),
           (g, if _n_tensors o1 <? 0 then set_n_tensors 0 o1 else o1))
      | Some _ =>
          (_build_gradient_ops ;;;
           seed_ops <- _get_seed_ops ;;
           reachable_ops <- reachable_from seed_ops [] ;;
           g <- get_graph ;;
           if existsb (fun op => contains "lms/swap" (op_name g op))
                      reachable_ops
           then ret None
           else run_rewrite TOPOS_build fuel g seed_ops reachable_ops)
            (g, if _n_tensors o1 <? 0 then set_n_tensors 0 o1 else o1)
      end).
  { intros o1 H1. mret.
    destruct (_n_tensors o1 =? 0) eqn:E0; [apply Z.eqb_eq in E0; congruence |].
    destruct (_n_tensors o1 <? 0); mret; mret;
      cbn [set_n_tensors _graph]; destruct (_graph o1); reflexivity. }
  destruct gr as [r |]; mret.
  - apply E. reflexivity.
  - apply E. reflexivity.
Qed.

Lemma seed_ops_of_entry g gr G o :
  seed_ops_of g (set_grad_ops G (run_entry gr o))
  = seed_ops_of g (set_grad_ops G o).
Proof.
  unfold seed_ops_of.
  destruct (run_entry_fields gr o) as (_ & H2 & H3 & _).
  destruct (run_entry gr o); destruct o; cbn in *. now subst.
Qed.

Lemma memo_walk_ext g o o' op :
  _ops_dict o' = _ops_dict o -> memo_walk g o' op = memo_walk g o op.
Proof. intros H. unfold memo_walk. now rewrite H. Qed.

Lemma run_grad_err gr g o :
  _n_tensors o <> 0 ->
  graph_given gr o = true ->
  forallb (prefix_matches g) (_optimizer_scopes o) = false ->
  exists e o',
    run TOPOS_build fuel gr (g, o) = (Raise e, (g, o'))
    /\ (scopes_compile (_optimizer_scopes o) = true ->
        is_value_error e = true).
Proof.
  intros Hn Hg Hm. rewrite run_enabled by assumption.
  pose proof (run_entry_graph gr o Hg) as Hr.
  destruct (_graph (run_entry gr o)); [| congruence].
  pose proof (build_gradient_ops_spec g (run_entry gr o)) as H.
  destruct (run_entry_fields gr o) as (E1 & _). rewrite E1, Hm in H.
  destruct H as [e [o' [H Hv]]]. exists e, o'. split; [| exact Hv].
  mraise. reflexivity.
Qed.

Lemma run_seed_err gr g o :
  _n_tensors o <> 0 ->
  graph_given gr o = true ->
  forallb (prefix_matches g) (_optimizer_scopes o) = true ->
  start_scope_matches g (_starting_scope o)
  && start_names_match g (_starting_op_names o) = false ->
  exists e o',
    run TOPOS_build fuel gr (g, o) = (Raise e, (g, o'))
    /\ (start_compile (_starting_scope o) (_starting_op_names o) = true ->
        is_value_error e = true).
Proof.
  intros Hn Hg Hm Hs. rewrite run_enabled by assumption.
  pose proof (run_entry_graph gr o Hg) as Hr.
  destruct (_graph (run_entry gr o)); [| congruence].
  pose proof (build_gradient_ops_spec g (run_entry gr o)) as H.
  destruct (run_entry_fields gr o) as (E1 & E2 & E3 & E4 & _).
  rewrite E1, Hm in H. mret.
  destruct (get_seed_ops_err g
    (set_grad_ops (grad_ops_of g (_optimizer_scopes o)
                     (_grad_ops (run_entry gr o))) (run_entry gr o)))
    as [e [H' Hv]].
  { cbn [set_grad_ops _starting_scope _starting_op_names].
    now rewrite E2, E3. }
  exists e. eexists. split.
  - mraise. reflexivity.
  - cbn [set_grad_ops _starting_scope _starting_op_names] in Hv.
    now rewrite E2, E3 in Hv.
Qed.

Lemma run_analysis gr g o :
  _n_tensors o <> 0 ->
  graph_given gr o = true ->
  seeds_resolve g o = true ->
  run TOPOS_build fuel gr (g, o)
  = if already_rewritten g (run_reachable_ops g o)
    then (Ret None, (g, analysed gr g o))
    else run_rewrite TOPOS_build fuel g (run_seed_ops g o)
           (run_reachable_ops g o) (g, analysed gr g o).
Proof.
  intros Hn Hg Hs. rewrite run_enabled by assumption.
  pose proof (run_entry_graph gr o Hg) as Hr.
  destruct (_graph (run_entry gr o)); [| congruence].
  unfold seeds_resolve in Hs.
  apply andb_prop in Hs. destruct Hs as [Hs Hs3].
  apply andb_prop in Hs. destruct Hs as [Hs1 Hs2].
  pose proof (build_gradient_ops_spec g (run_entry gr o)) as H.
  destruct (run_entry_fields gr o) as (E1 & E2 & E3 & E4 & E5 & _).
  rewrite E1, Hs1, E4 in H. mret.
  erewrite bind_Ret.
  2:{ apply get_seed_ops_ok; cbn [set_grad_ops _starting_scope _starting_op_names].
      - now rewrite E2.
      - now rewrite E3. }
  fold (run_grad_ops g o). rewrite seed_ops_of_entry. fold (run_seed_ops g o).
  erewrite bind_Ret by apply reachable_from_spec.
  mret. fold (analysed gr g o).
  replace (fold_left _ (run_seed_ops g o) [])
    with (run_reachable_ops g o).
  2:{ unfold run_reachable_ops, reachable_ops_of. apply fold_walk_ext.
      intros op. symmetry. apply memo_walk_ext.
      cbn [set_grad_ops _ops_dict]. exact E5. }
  unfold already_rewritten.
  destruct (existsb _ (run_reachable_ops g o)); reflexivity.
Qed.

End RunLemmas.

(* ================================================================== *)
(** ** Scopes and types that match nothing *)

Lemma filter_nil_incl {A} (P : A -> bool) (l l' : list A) :
  (forall x, In x l' -> In x l) -> filter P l = [] -> filter P l' = [].
Proof.
  intros Hi Hn. destruct (filter P l') as [| x r] eqn:E; [reflexivity |].
  assert (Hx : In x (filter P l')) by (rewrite E; now left).
  apply filter_In in Hx. destruct Hx as [Hx HP].
  assert (Hx' : In x (filter P l)) by (apply filter_In; auto).
  rewrite Hn in Hx'. destruct Hx'.
Qed.

Lemma scope_matches_incl g within all sc :
  (forall x, In x within -> In x all) ->
  scope_matches g all sc = false -> scope_matches g within sc = false.
Proof.
  unfold scope_matches, name_scope_ops. intros Hi H.
  apply nonempty_false in H. apply nonempty_false.
  destruct (regex_ops g within (name_scope_pattern sc)) as [| x r] eqn:Ew;
    [reflexivity |].
  assert (Hx : In x (regex_ops g all (name_scope_pattern sc))).
  { apply In_regex_ops.
    assert (Hx : In x (regex_ops g within (name_scope_pattern sc)))
      by (rewrite Ew; now left).
    apply In_regex_ops in Hx. destruct Hx as [Hx Hm]. split; auto. }
  rewrite H in Hx. destruct Hx.
Qed.

Lemma forallb_false_In {A} (P : A -> bool) (l : list A) x :
  In x l -> P x = false -> forallb P l = false.
Proof.
  intros Hx HP. destruct (forallb P l) eqn:E; [| reflexivity].
  rewrite forallb_forall in E. rewrite (E x Hx) in HP. discriminate.
Qed.

Lemma missing_types_of_In g within all types ty :
  (forall x, In x within -> In x all) ->
  In ty types -> ~ In ty ATOMIC_TYPES ->
  type_matches g all ty = false ->
  In ty (missing_types_of g within types).
Proof.
  intros Hi Hty Hat Hm. unfold missing_types_of.
  apply In_str_diff. split; [| exact Hat].
  apply In_str_diff. split; [exact Hty |].
  intros Hf. apply In_str_union in Hf. destruct Hf as [[] | Hf].
  apply in_map_iff in Hf. destruct Hf as [op [E Hop]].
  apply -> In_to_set in Hop. apply filter_In in Hop. destruct Hop as [Hop _].
  unfold type_matches in Hm.
  assert (Ht : existsb (fun op => String.eqb ty (op_type g op)) all = true).
  { apply existsb_exists. exists op. split; [now apply Hi |].
    rewrite E. apply String.eqb_refl. }
  congruence.
Qed.

Section RunErrors.

Variable TOPOS_build : Graph -> list OpId -> list OpId -> TOPOS.
Variable fuel : nat.

Lemma run_rewrite_filter_err g seeds reach o :
  forallb (scope_matches g reach) (_excl_scopes o) = false
  \/ missing_types_of g reach (_excl_types o) <> []
  \/ forallb (scope_matches g reach) (_incl_scopes o) = false
  \/ missing_types_of g reach (_incl_types o) <> [] ->
  exists e o',
    run_rewrite TOPOS_build fuel g seeds reach (g, o) = (Raise e, (g, o'))
    /\ (name_scopes_compile (_excl_scopes o) = true ->
        name_scopes_compile (_incl_scopes o) = true ->
        is_value_error e = true).
Proof.
  intros H. unfold run_rewrite.
  destruct (forallb (scope_matches g reach) (_excl_scopes o)) eqn:E1.
  - destruct (missing_types_of g reach (_excl_types o)) as [| ty tys] eqn:E2.
    + destruct H as [H | [H | H]]; [discriminate | congruence |].
      destruct (filter_scopes_and_types_err g
                  (set_excl_ops (filtered_ops_of g reach (_excl_scopes o) (_excl_types o)) o)
                  reach (_incl_scopes o) (_incl_types o) H) as [e [Hm Hv]].
      exists e. eexists. split; [| intros _; exact Hv]. mret.
      erewrite bind_Ret by (apply filter_scopes_and_types_ok; assumption).
      mret. mraise. reflexivity.
    + destruct (filter_scopes_and_types_err g o reach (_excl_scopes o)
                  (_excl_types o)) as [e [Hm Hv]].
      { right. congruence. }
      exists e. eexists. split; [| intros Hc _; now apply Hv].
      mret. mraise. reflexivity.
  - destruct (filter_scopes_and_types_err g o reach (_excl_scopes o)
                (_excl_types o)) as [e [Hm Hv]].
    { now left. }
    exists e. eexists. split; [| intros Hc _; now apply Hv].
    mret. mraise. reflexivity.
Qed.

Lemma analysed_fields gr g o :
  _excl_scopes (analysed gr g o) = _excl_scopes o /\
  _excl_types (analysed gr g o) = _excl_types o /\
  _incl_scopes (analysed gr g o) = _incl_scopes o /\
  _incl_types (analysed gr g o) = _incl_types o /\
  _grad_ops (analysed gr g o) = run_grad_ops g o.
Proof.
  unfold analysed.
  destruct (fold_memo_store_fields g (run_seed_ops g o)
              (set_grad_ops (run_grad_ops g o) (run_entry gr o))) as [d ->].
  destruct (run_entry_fields gr o) as (_ & _ & _ & _ & _ & E1 & E2 & E3 & E4).
  cbn [set_ops_dict set_grad_ops _excl_scopes _excl_types _incl_scopes
       _incl_types _grad_ops].
  repeat split; assumption.
Qed.

End RunErrors.

End Analysis.


(* ================================================================== *)
(** ** The constructor *)

Section Constructor.

Context {env : Env}.

(** C10: a control-dependency strategy string other than "chain_rule" and
    "direct_order" raises nothing by itself: the constructor answers as it
    does for "chain_rule", it builds the very same object (with the
    chain-rule strategy) whenever an optimizer scope is given, and [run]
    cannot tell the two objects apart. *)
Theorem init_unknown_strategy_is_chain_rule (a : Args) (s : string) :
  s <> "chain_rule" -> s <> "direct_order" ->
  __init__ (with_strategy s a) = __init__ (with_strategy "chain_rule" a)
  /\ (optimizer_scopes a <> [] ->
      exists o, __init__ (with_strategy s a) = Ret o
                /\ _ctrld_strategy o = CHAIN_RULE)
  /\ (forall o1 o2 tb fuel gr g,
        __init__ (with_strategy s a) = Ret o1 ->
        __init__ (with_strategy "chain_rule" a) = Ret o2 ->
        run tb fuel gr (g, o1) = run tb fuel gr (g, o2)).
Proof.
  intros H1 H2.
  assert (E : __init__ (with_strategy s a)
              = __init__ (with_strategy "chain_rule" a)).
  { unfold __init__, with_strategy. cbn [optimizer_scopes ctrld_strategy].
    unfold parse_strategy.
    apply String.eqb_neq in H1, H2. rewrite H1, H2. reflexivity. }
  split; [exact E |]. split.
  - intros Hne. rewrite E. unfold __init__, with_strategy.
    cbn [optimizer_scopes]. destruct (optimizer_scopes a) eqn:Eo;
      [congruence |].
    cbn [nonempty negb]. eexists. split; reflexivity.
  - intros o1 o2 tb fuel gr g Ho1 Ho2. rewrite E in Ho1.
    rewrite Ho1 in Ho2. injection Ho2 as ->. reflexivity.
Qed.

End Constructor.

Lemma init_unknown_strategy_witness :
  __init__ (with_strategy "round_robin" ex_args)
  = __init__ (with_strategy "chain_rule" ex_args)
  /\ exists o, __init__ (with_strategy "round_robin" ex_args) = Ret o
               /\ _ctrld_strategy o = CHAIN_RULE.
Proof.
  destruct (@init_unknown_strategy_is_chain_rule ex_env ex_args "round_robin")
    as (H1 & H2 & _).
  - discriminate.
  - discriminate.
  - split; [exact H1 |]. apply H2. discriminate.
Defined.

(* ================================================================== *)
(** ** [run]: the calls that leave the graph alone *)

Section Disabled.

Context {env : Env}.

(** C4: with [_n_tensors] equal to 0, [run] returns at once: no error, and
    the caller's graph after the call is the graph before the call (so no
    swap operation was created). *)
Theorem run_disabled_leaves_graph tb fuel gr (g : Graph) (o : LMS) :
  _n_tensors o = 0 ->
  exists o', run tb fuel gr (g, o) = (Ret None, (g, o')).
Proof.
  intros Hn. eexists. apply run_disabled. exact Hn.
Qed.

End Disabled.

Lemma run_disabled_leaves_graph_witness :
  exists o', run ex_topos 10 (Some the_graph) (ex_graph, lms_of ex_args_off)
             = (Ret None, (ex_graph, o')).
Proof.
  apply (@run_disabled_leaves_graph ex_env ex_topos 10 (Some the_graph) ex_graph
           (lms_of ex_args_off)).
  reflexivity.
Defined.

Section AlreadyRewritten.

Context {env : Env}.


End AlreadyRewritten.


(** The two runs in sequence on [ex_graph]: the first one adds four
    operations, the second one, with a new object, adds none. *)
Example run_twice_example :
  List.length ex_graph_rewritten = 8%nat
  /\ fst (run ex_topos 10 (Some the_graph) (ex_graph_rewritten, ex_lms))
     = Ret None
  /\ fst (snd (run ex_topos 10 (Some the_graph) (ex_graph_rewritten, ex_lms)))
     = ex_graph_rewritten.
Proof. vm_compute. repeat split. Qed.


(** The order used for the second run respects the data dependencies of
    the rewritten graph, which has no control dependency, and knows its
    eight operations only. *)
Lemma ex_state_five_levels :
  levels_respect (fst ex_state_five)
    (ex_topos_both (fst ex_state_five) [0%nat] [2; 3]%nat)
  /\ levels_within (fst ex_state_five)
       (ex_topos_both (fst ex_state_five) [0%nat] [2; 3]%nat)
  /\ forallb (fun nd => negb (nonempty (control_inputs nd)))
             (fst ex_state_five) = true.
Proof.
  split; [| split; [| reflexivity]].
  - intros c t Hc Ht Hl1 Hl2. unfold valid in Hc. cbn in Hc.
    do 8 (destruct c as [| c];
          [cbn in Ht; intuition (subst; try discriminate;
                                 vm_compute; reflexivity) |]).
    lia.
  - intros op Hop. unfold valid in Hop.
    assert (L : List.length (fst ex_state_five) = 8%nat) by reflexivity.
    rewrite L in Hop. unfold ex_topos_both. rewrite L.
    cbn [Nat.eqb get_order]. rewrite nth_overflow by (cbn; lia). lia.
Qed.

(* ================================================================== *)
(** ** [run]: configuration errors *)

Section ConfigurationErrors.

Context {env : Env}.

(** C3, amended.  Scopes and names are regular expressions, searched in the
    names of the operations ([prefix_matches], [name_matches],
    [scope_matches]: the pattern compiles and finds an operation).  When
    LMS is on ([_n_tensors] is not 0), [run] raises an error and leaves the
    graph as it was if an optimizer scope, the starting scope or a starting
    name finds no operation; and also if an exclude or include scope, or an
    exclude or include type outside the atomic types, finds none of the
    operations that the run has found reachable from the seed operations,
    unless an operation with 'lms/swap' in its name is among them.  The
    error is a [ValueError] when all the patterns compile. *)
Theorem run_config_error tb fuel gr (g : Graph) (o : LMS) :
  _n_tensors o <> 0 ->
  (exists sc, In sc (_optimizer_scopes o) /\ prefix_matches g sc = false)
  \/ (exists sc, _starting_scope o = Some sc /\ sc <> ""
                 /\ prefix_matches g sc = false)
  \/ (exists names nm, _starting_op_names o = Some names /\ In nm names
                       /\ name_matches g nm = false)
  \/ (already_rewritten g (run_reachable_ops g o) = false
      /\ ((exists sc, In sc (_excl_scopes o ++ _incl_scopes o)
                      /\ scope_matches g (run_reachable_ops g o) sc = false)
          \/ (exists ty, In ty (_excl_types o ++ _incl_types o)
                         /\ ~ In ty ATOMIC_TYPES
                         /\ type_matches g (run_reachable_ops g o) ty
                            = false))) ->
  exists e o',
    run tb fuel gr (g, o) = (Raise e, (g, o'))
    /\ (patterns_compile o = true -> is_value_error e = true).
Proof.
  intros Hn H. unfold patterns_compile.
  destruct (graph_given gr o) eqn:Hg.
  2:{ rewrite run_enabled by exact Hn.
      destruct gr as [r |]; [destruct (_graph o); discriminate |].
      rewrite (run_entry_no_graph o Hg). do 2 eexists.
      split; reflexivity. }
  destruct (forallb (prefix_matches g) (_optimizer_scopes o)) eqn:E1.
  2:{ destruct (run_grad_err tb fuel gr g o Hn Hg E1) as [e [o' [E Hv]]].
      exists e, o'. split; [exact E |]. intros Hc.
      apply andb_prop in Hc. destruct Hc as [Hc _].
      apply andb_prop in Hc. destruct Hc as [Hc _].
      apply andb_prop in Hc. now apply Hv. }
  destruct (start_scope_matches g (_starting_scope o)
            && start_names_match g (_starting_op_names o)) eqn:E2.
  2:{ destruct (run_seed_err tb fuel gr g o Hn Hg E1 E2) as [e [o' [E Hv]]].
      exists e, o'. split; [exact E |]. intros Hc.
      apply andb_prop in Hc. destruct Hc as [Hc _].
      apply andb_prop in Hc. destruct Hc as [Hc _].
      apply andb_prop in Hc. now apply Hv. }
  assert (Hs : seeds_resolve g o = true).
  { unfold seeds_resolve. rewrite E1. exact E2. }
  apply andb_prop in E2. destruct E2 as [E2 E3].
  destruct H as [[sc [Hin Hsc]] | [[sc [Esc [Hne Hsc]]] | [[names [nm [En [Hin Hnm]]]] | [Hr H]]]].
  - rewrite forallb_forall in E1. rewrite (E1 sc Hin) in Hsc. discriminate.
  - unfold start_scope_matches in E2. rewrite Esc in E2. cbn [truthy] in E2.
    apply String.eqb_neq in Hne. rewrite Hne in E2. cbn [negb] in E2.
    congruence.
  - unfold start_names_match in E3. rewrite En in E3.
    rewrite forallb_forall in E3. rewrite (E3 nm Hin) in Hnm. discriminate.
  - rewrite run_analysis by assumption. rewrite Hr.
    set (reach := run_reachable_ops g o) in *.
    destruct (analysed_fields gr g o) as (F1 & F2 & F3 & F4 & _).
    destruct (run_rewrite_filter_err tb fuel g (run_seed_ops g o) reach
                (analysed gr g o)) as [e [o' [E Hv]]].
    { rewrite F1, F2, F3, F4.
      destruct H as [[sc [Hin Hsc]] | [ty [Hin [Hat Hty]]]].
      - apply in_app_or in Hin. destruct Hin as [Hin | Hin].
        + left. eapply forallb_false_In; eauto.
        + right. right. left. eapply forallb_false_In; eauto.
      - apply in_app_or in Hin. destruct Hin as [Hin | Hin].
        + right. left.
          pose proof (missing_types_of_In g reach reach (_excl_types o) ty
                        (fun x Hx => Hx) Hin Hat Hty) as Hi.
          intros En. rewrite En in Hi. destruct Hi.
        + right. right. right.
          pose proof (missing_types_of_In g reach reach (_incl_types o) ty
                        (fun x Hx => Hx) Hin Hat Hty) as Hi.
          intros En. rewrite En in Hi. destruct Hi. }
    exists e, o'. split; [exact E |]. intros Hc.
    apply andb_prop in Hc. destruct Hc as [Hc Hc4].
    apply andb_prop in Hc. destruct Hc as [_ Hc3].
    apply Hv; [now rewrite F1 | now rewrite F3].
Qed.

End ConfigurationErrors.

Lemma run_config_error_witness :
  exists e o',
    run ex_topos 10 (Some the_graph) (ex_graph, lms_of ex_args_nosuch)
    = (Raise e, (ex_graph, o'))
    /\ (patterns_compile (lms_of ex_args_nosuch) = true ->
        is_value_error e = true).
Proof.
  apply (@run_config_error ex_env ex_topos 10 (Some the_graph) ex_graph
           (lms_of ex_args_nosuch)).
  - discriminate.
  - left. exists "nosuch". split; [now left | vm_compute; reflexivity].
Defined.

(** C3, as stated, fails in three ways.  With LMS turned off
    ([n_tensors = 0]) the optimizer scope 'nosuch' finds no operation of
    [ex_graph], yet [run] raises nothing.  On the rewritten graph the
    exclude scope 'nosuch' finds no operation, yet [run] raises nothing: it
    returns when it sees the swap operations.  And the optimizer scope
    'gr.d' is the start of no operation name of [ex_graph], yet [run]
    raises nothing: as a regular expression it finds [grad/C] and [grad/D];
    the scope '(' is no regular expression, and the error raised for it is
    not a [ValueError]. *)
Lemma run_config_error_counterexample :
  (In "nosuch" (_optimizer_scopes (lms_of ex_args_off_nosuch))
   /\ prefix_matches ex_graph "nosuch" = false
   /\ fst (run ex_topos 10 (Some the_graph)
             (ex_graph, lms_of ex_args_off_nosuch)) = Ret None)
  /\ (In "nosuch" (_excl_scopes (lms_of ex_args_excl_nosuch))
      /\ scope_matches ex_graph_rewritten
           (ge.make_list_of_op ex_graph_rewritten) "nosuch" = false
      /\ fst (run ex_topos 10 (Some the_graph)
                (ex_graph_rewritten, lms_of ex_args_excl_nosuch)) = Ret None)
  /\ (In "gr.d" (_optimizer_scopes (lms_of ex_args_dot))
      /\ forallb (fun nd => negb (String.prefix "gr.d" (name nd))) ex_graph
         = true
      /\ fst (run ex_topos 10 (Some the_graph) (ex_graph, lms_of ex_args_dot))
         = Ret (Some [4; 6; 5; 7]%nat))
  /\ fst (run ex_topos 10 (Some the_graph) (ex_graph, lms_of ex_args_bracket))
     = Raise ReError.
Proof. vm_compute. repeat split; now left. Qed.

(* ================================================================== *)
(** ** The control-dependency resolver *)

Lemma filterM_pure {A} (p : A -> M bool) (f : LMS -> A -> bool)
      (step : LMS -> A -> LMS) (g : Graph) :
  (forall o x, p x (g, o) = (Ret (f o x), (g, step o x))) ->
  (forall o y x, f (step o y) x = f o x) ->
  forall l o,
    filterM p l (g, o) = (Ret (filter (f o) l), (g, fold_left step l o)).
Proof.
  intros Hp Hf. induction l as [| x l IH]; intros o.
  - reflexivity.
  - cbn [filterM filter fold_left].
    erewrite bind_Ret by apply Hp.
    erewrite bind_Ret by apply IH.
    unfold ret. f_equal. f_equal.
    assert (E : filter (f (step o x)) l = filter (f o) l).
    { apply filter_ext. intros a. apply Hf. }
    rewrite E. reflexivity.
Qed.

Lemma find_ext' {A} (f h : A -> bool) (l : list A) :
  (forall a, f a = h a) -> find f l = find h l.
Proof.
  intros E. induction l as [| a l IH]; [reflexivity |].
  cbn [find]. rewrite E, IH. reflexivity.
Qed.

Lemma memo_walk_fold_store g ops : forall o op,
  memo_walk g (fold_left (memo_store g) ops o) op = memo_walk g o op.
Proof.
  induction ops as [| x ops IH]; intros o op.
  - reflexivity.
  - cbn [fold_left]. rewrite IH. apply memo_walk_store.
Qed.

Lemma walk_test_spec g o src_op op :
  (l <- _get_forward_walk_ops op true ;; ret (mem src_op (to_set l))) (g, o)
  = (Ret (mem src_op (to_set (memo_walk g o op))), (g, memo_store g o op)).
Proof.
  erewrite bind_Ret by apply get_forward_walk_ops_spec. reflexivity.
Qed.

(** The scan returns the candidates of the first level of the list that has
    any; it only adds entries to [_ops_dict], and the answers of
    [_get_forward_walk_ops] stay the same. *)
Lemma direct_order_scan_spec topo src_op g levels : forall o,
  exists o',
    direct_order_scan topo src_op levels (g, o)
    = (Ret match find (fun i => nonempty (direct_candidates g o topo src_op i))
                      levels with
           | Some i => (set_union [] (direct_candidates g o topo src_op i), i)
           | None => ([], -1)
           end, (g, o'))
    /\ (forall op, memo_walk g o' op = memo_walk g o op)
    /\ (exists d, o' = set_ops_dict d o).
Proof.
  induction levels as [| i levels IH]; intros o.
  - exists o. split; [reflexivity |]. split; [reflexivity |].
    exists (_ops_dict o). now rewrite set_ops_dict_same.
  - cbn [direct_order_scan find]. 
    set (o1 := fold_left (memo_store g) (get_ops topo i) o).
    assert (E1 : forall op, memo_walk g o1 op = memo_walk g o op)
      by (intros op; apply memo_walk_fold_store).
    destruct (fold_memo_store_fields g (get_ops topo i) o) as [d1 Hd1].
    fold o1 in Hd1.
    destruct (nonempty (direct_candidates g o topo src_op i)) eqn:En.
    + exists o1. split; [| split; [exact E1 | now exists d1]].
      mret.
      erewrite bind_Ret.
      2:{ apply (filterM_pure _
                   (fun o op => mem src_op (to_set (memo_walk g o op)))
                   (memo_store g)).
          - intros o0 x. apply walk_test_spec.
          - intros o0 y x. now rewrite memo_walk_store. }
      fold o1. fold (direct_candidates g o topo src_op i). rewrite En.
      reflexivity.
    + destruct (IH o1) as [o' [H1 [H2 [d H3]]]].
      exists o'. split; [| split].
      * mret.
        erewrite bind_Ret.
        2:{ apply (filterM_pure _
                     (fun o op => mem src_op (to_set (memo_walk g o op)))
                     (memo_store g)).
            - intros o0 x. apply walk_test_spec.
            - intros o0 y x. now rewrite memo_walk_store. }
        fold o1. fold (direct_candidates g o topo src_op i). rewrite En.
        assert (Ef : forall j, direct_candidates g o1 topo src_op j
                               = direct_candidates g o topo src_op j).
        { intros j. unfold direct_candidates. f_equal.
          apply filter_ext. intros a. now rewrite E1. }
        rewrite (find_ext' _ _ levels (fun j => f_equal nonempty (Ef j))) in H1.
        rewrite H1. f_equal. f_equal.
        destruct (find (fun j => nonempty (direct_candidates g o topo src_op j))
                       levels) as [j |]; [| reflexivity].
        rewrite (Ef j). reflexivity.
      * intros op. now rewrite H2.
      * exists d. rewrite H3, Hd1. reflexivity.
Qed.

(** *** The levels scanned by the direct-order strategy *)

Lemma rev_zrange_seq n : forall lo,
  List.rev (map (fun k => lo + Z.of_nat k) (seq 0 n))
  = map (fun k => lo + Z.of_nat n - 1 - Z.of_nat k) (seq 0 n).
Proof.
  induction n as [| n IH]; intros lo.
  - reflexivity.
  - rewrite seq_S at 1. rewrite map_app, rev_app_distr. cbn [map List.rev].
    rewrite IH. rewrite app_nil_l. cbn [seq map]. rewrite <- app_comm_cons.
    rewrite app_nil_l. f_equal.
    + lia.
    + rewrite <- seq_shift, map_map. apply map_ext. intros k. lia.
Qed.

(** The scan starts just below [src_order - lower_b] and goes down one
    level at a time. *)
Lemma direct_order_levels_desc fw_order src_order lower_b upper_b :
  direct_order_levels fw_order src_order lower_b upper_b
  = map (fun k => src_order - lower_b - 1 - Z.of_nat k)
        (seq 0 (Z.to_nat (src_order - lower_b
                          - (Z.max (src_order - upper_b) fw_order + 1)))).
Proof.
  unfold direct_order_levels, zrange. rewrite rev_zrange_seq.
  apply map_ext_in. intros k Hk. apply in_seq in Hk. lia.
Qed.

Lemma In_direct_order_levels fw_order src_order lower_b upper_b i :
  In i (direct_order_levels fw_order src_order lower_b upper_b)
  <-> Z.max (src_order - upper_b) fw_order < i < src_order - lower_b.
Proof.
  unfold direct_order_levels, zrange. rewrite <- in_rev, in_map_iff.
  split.
  - intros [k [<- Hk]]. apply in_seq in Hk. lia.
  - intros H.
    exists (Z.to_nat (i - (Z.max (src_order - upper_b) fw_order + 1))).
    split; [lia |]. apply in_seq. lia.
Qed.

Lemma desc_sorted top n : forall s,
  StronglySorted Z.gt (map (fun k => top - Z.of_nat k) (seq s n)).
Proof.
  induction n as [| n IH]; intros s; cbn [seq map].
  - constructor.
  - constructor; [apply IH |].
    apply Forall_forall. intros x Hx. apply in_map_iff in Hx.
    destruct Hx as [k [<- Hk]]. apply in_seq in Hk. lia.
Qed.

Lemma direct_order_levels_sorted fw_order src_order lower_b upper_b :
  StronglySorted Z.gt (direct_order_levels fw_order src_order lower_b upper_b).
Proof. rewrite direct_order_levels_desc. apply desc_sorted. Qed.

Lemma find_first_desc (f : Z -> bool) (l : list Z) :
  StronglySorted Z.gt l ->
  match find f l with
  | Some i => In i l /\ f i = true /\ forall j, In j l -> i < j -> f j = false
  | None => forall j, In j l -> f j = false
  end.
Proof.
  induction 1 as [| a r Hs IH Hall]; cbn [find].
  - intros j [].
  - destruct (f a) eqn:Ea.
    + split; [now left |]. split; [exact Ea |].
      intros j [<- | Hj] Hlt; [lia |].
      rewrite Forall_forall in Hall. specialize (Hall j Hj). lia.
    + destruct (find f r) as [i |].
      * destruct IH as (Hi & Hfi & Hj). split; [now right |].
        split; [exact Hfi |]. intros j [<- | Hj'] Hlt; auto.
      * intros j [<- | Hj]; auto.
Qed.

(** The state after the scan: the forward walks were asked for the
    operations of the levels up to the first one with a candidate, and for
    no other. *)
Lemma direct_order_scan_state topo src_op g levels : forall o,
  snd (direct_order_scan topo src_op levels (g, o))
  = (g, walks_asked g topo
          (upto_first (fun i => nonempty (direct_candidates g o topo src_op i))
                      levels) o).
Proof.
  induction levels as [| i levels IH]; intros o.
  - reflexivity.
  - cbn [direct_order_scan upto_first].
    set (o1 := fold_left (memo_store g) (get_ops topo i) o).
    assert (E1 : forall op, memo_walk g o1 op = memo_walk g o op)
      by (intros op; apply memo_walk_fold_store).
    mret.
    erewrite bind_Ret.
    2:{ apply (filterM_pure _
                 (fun o op => mem src_op (to_set (memo_walk g o op)))
                 (memo_store g)).
        - intros o0 x. apply walk_test_spec.
        - intros o0 y x. now rewrite memo_walk_store. }
    fold o1. fold (direct_candidates g o topo src_op i).
    destruct (nonempty (direct_candidates g o topo src_op i)) eqn:En.
    + unfold walks_asked. cbn [flat_map]. rewrite app_nil_r. reflexivity.
    + rewrite IH. unfold walks_asked. cbn [flat_map].
      rewrite fold_left_app. fold o1. f_equal. f_equal. f_equal.
      clear IH. induction levels as [| j levels IHl]; [reflexivity |].
      cbn [upto_first].
      assert (Ef : direct_candidates g o1 topo src_op j
                   = direct_candidates g o topo src_op j).
      { unfold direct_candidates. f_equal.
        apply filter_ext. intros a. now rewrite E1. }
      rewrite Ef, IHl. reflexivity.
Qed.

Lemma levels_down_step top bottom :
  bottom <= top ->
  levels_down top bottom = top :: levels_down (top - 1) bottom.
Proof.
  intros H. unfold levels_down.
  replace (Z.to_nat (top - bottom + 1))
    with (S (Z.to_nat (top - 1 - bottom + 1))) by lia.
  cbn [seq map]. f_equal; [cbn; lia |].
  rewrite <- seq_shift, map_map. apply map_ext. intros k. lia.
Qed.

Lemma levels_down_nil top bottom : top < bottom -> levels_down top bottom = [].
Proof.
  intros H. unfold levels_down.
  replace (Z.to_nat (top - bottom + 1)) with 0%nat by lia. reflexivity.
Qed.

Lemma In_levels_down top bottom i :
  In i (levels_down top bottom) <-> bottom <= i <= top.
Proof.
  unfold levels_down. rewrite in_map_iff. split.
  - intros [k [<- Hk]]. apply in_seq in Hk. lia.
  - intros H. exists (Z.to_nat (top - i)). split; [lia |]. apply in_seq. lia.
Qed.

Lemma levels_down_sorted top bottom :
  StronglySorted Z.gt (levels_down top bottom).
Proof. apply desc_sorted. Qed.

(** The levels that [_do_direct_order] ranges over. *)
Lemma direct_order_levels_down fw_order src_order lower_b upper_b :
  direct_order_levels fw_order src_order lower_b upper_b
  = levels_down (src_order - lower_b - 1)
                (Z.max (src_order - upper_b) fw_order + 1).
Proof.
  rewrite direct_order_levels_desc. unfold levels_down.
  f_equal. f_equal. lia.
Qed.

(** On a list of levels going down, the levels up to the first one with
    [f] are the levels down to it. *)
Lemma upto_first_levels_down f bottom (n : nat) : forall top,
  top - bottom + 1 = Z.of_nat n ->
  match find f (levels_down top bottom) with
  | Some i => upto_first f (levels_down top bottom) = levels_down top i
  | None => upto_first f (levels_down top bottom) = levels_down top bottom
  end.
Proof.
  induction n as [| n IH]; intros top Hn.
  - rewrite levels_down_nil by lia. reflexivity.
  - rewrite levels_down_step by lia. cbn [find upto_first].
    destruct (f top) eqn:Ef.
    + rewrite (levels_down_step top top) by lia.
      now rewrite levels_down_nil by lia.
    + specialize (IH (top - 1) ltac:(lia)).
      pose proof (find_first_desc f (levels_down (top - 1) bottom)
                    (levels_down_sorted _ _)) as Hf.
      destruct (find f (levels_down (top - 1) bottom)) as [i |].
      * destruct Hf as [Hi _]. apply In_levels_down in Hi.
        rewrite IH. symmetry. apply levels_down_step. lia.
      * now rewrite IH.
Qed.

(** C6: the direct-order strategy examines the levels
    [top = bw - lower_b - 1], [top - 1], ... one after the other, down to
    [bottom = max (bw - upper_b) fw + 1] at most, which is above the level
    of [fw_op] and not below [bw - upper_b + 1].  It stops at the first
    level [i] that holds a candidate (an operation whose forward walk, as
    [_get_forward_walk_ops] answers it, contains [bw_op] and whose name has
    no '/cond/') and returns a candidate of this level with [i]; when no
    level from [top] down to [bottom] holds one, it returns [(None, -1)].
    The object afterwards shows which levels were examined: the forward
    walks were asked for the operations of the levels from [top] down to
    [i] (down to [bottom] when nothing is found), and for no other. *)
Theorem direct_order_scans_down topo fw_op bw_op lower_b upper_b
        (g : Graph) (o : LMS) :
  let fw := get_order topo fw_op in
  let bw := get_order topo bw_op in
  let top := bw - lower_b - 1 in
  let bottom := Z.max (bw - upper_b) fw + 1 in
  let candidates := direct_candidates g o topo bw_op in
  fw < bottom /\ bw - upper_b + 1 <= bottom
  /\ ((exists i op,
         bottom <= i <= top
         /\ (forall j, i < j <= top -> candidates j = [])
         /\ In op (candidates i)
         /\ In op (get_ops topo i)
         /\ In bw_op (memo_walk g o op)
         /\ contains "/cond/" (op_name g op) = false
         /\ _do_direct_order topo fw_op bw_op lower_b upper_b (g, o)
            = (Ret (Some op, i),
               (g, walks_asked g topo (levels_down top i) o)))
      \/ ((forall j, bottom <= j <= top -> candidates j = [])
          /\ _do_direct_order topo fw_op bw_op lower_b upper_b (g, o)
             = (Ret (None, -1),
                (g, walks_asked g topo (levels_down top bottom) o)))).
Proof.
  intros fw bw top bottom candidates.
  split; [lia |]. split; [lia |].
  set (f := fun i => nonempty (candidates i)).
  destruct (direct_order_scan_spec topo bw_op g (levels_down top bottom) o)
    as [o' [Hscan _]].
  pose proof (direct_order_scan_state topo bw_op g (levels_down top bottom) o)
    as Hstate.
  rewrite Hscan in Hstate. cbn [snd] in Hstate.
  injection Hstate as Hstate. fold candidates in Hstate, Hscan.
  fold f in Hstate, Hscan.
  pose proof (find_first_desc f (levels_down top bottom)
                (levels_down_sorted _ _)) as Hf.
  pose proof (upto_first_levels_down f bottom
                (Z.to_nat (top - bottom + 1))) as Hu.
  unfold _do_direct_order. fold fw bw.
  rewrite direct_order_levels_down. fold top bottom.
  destruct (Z_le_gt_dec bottom top) as [Hle | Hgt].
  2:{ right. rewrite levels_down_nil in * by lia. cbn [find] in Hscan.
      cbn [upto_first] in Hstate. split; [intros j Hj; lia |].
      erewrite bind_Ret by exact Hscan. cbn [fst snd]. now rewrite Hstate. }
  specialize (Hu top ltac:(lia)).
  destruct (find f (levels_down top bottom)) as [i |].
  - destruct Hf as (Hi & Hne & Hfirst). left.
    apply In_levels_down in Hi. unfold f in Hne.
    destruct (to_set (candidates i)) as [| op r] eqn:Eo.
    { rewrite <- nonempty_to_set, Eo in Hne. discriminate. }
    assert (Hop : In op (candidates i)).
    { apply In_to_set. rewrite Eo. now left. }
    exists i, op. split; [exact Hi |]. split.
    { intros j Hj. apply nonempty_false. apply Hfirst; [| lia].
      apply In_levels_down. lia. }
    split; [exact Hop |].
    unfold candidates, direct_candidates in Hop.
    apply filter_In in Hop. destruct Hop as [Hop Hc].
    apply filter_In in Hop. destruct Hop as [Hop Hw].
    apply mem_In in Hw. apply -> In_to_set in Hw.
    apply negb_true_iff in Hc.
    repeat (split; [assumption |]).
    erewrite bind_Ret by exact Hscan. cbn [fst snd].
    unfold to_set in Eo. rewrite Eo. rewrite Hstate, Hu. reflexivity.
  - right. split.
    { intros j Hj. apply nonempty_false. apply Hf. now apply In_levels_down. }
    erewrite bind_Ret by exact Hscan. cbn [fst snd].
    rewrite Hstate, Hu. reflexivity.
Qed.

(** On [ex_graph], the gate of a reload into [grad/D] of a value of [A],
    searched at distance 1 to 2: level 2 is scanned first and holds
    [grad/C]. *)
Example direct_order_example :
  fst (_do_direct_order ex_order 0%nat 3%nat 0 2 (ex_graph, ex_lms_grad))
  = Ret (Some 2%nat, 2).
Proof. vm_compute. reflexivity. Qed.

(** C7: whenever the forward operation is itself a backward-phase
    operation, the resolver calls the direct-order strategy, whatever the
    configured strategy; and the chain-rule strategy, called with
    [bw_order - lower_b] below [bw_starting_order], returns what the
    direct-order strategy returns for the same arguments. *)
Theorem resolver_falls_back_to_direct_order fuel topo fw_op bw_op (s : St) :
  (mem fw_op (_grad_ops (snd s)) = true ->
   resolve_control_dependency fuel topo fw_op bw_op s
   = _do_direct_order topo fw_op bw_op
       (effective_lb topo (snd s) fw_op bw_op) (_ub (snd s)) s)
  /\ (forall lower_b upper_b,
        get_order topo bw_op - lower_b < bw_starting_order topo ->
        _do_chain_rule fuel topo fw_op bw_op lower_b upper_b s
        = _do_direct_order topo fw_op bw_op lower_b upper_b s).
Proof.
  split.
  - intros Hm. unfold resolve_control_dependency.
    erewrite bind_Ret by reflexivity. rewrite Hm. reflexivity.
  - intros lower_b upper_b H. unfold _do_chain_rule.
    apply Z.ltb_lt in H. rewrite H. reflexivity.
Qed.

Lemma resolver_falls_back_witness :
  resolve_control_dependency 10 ex_order 2%nat 3%nat (ex_graph, ex_lms_grad)
  = _do_direct_order ex_order 2%nat 3%nat
      (effective_lb ex_order ex_lms_grad 2%nat 3%nat) (_ub ex_lms_grad)
      (ex_graph, ex_lms_grad)
  /\ _do_chain_rule 10 ex_order 0%nat 2%nat 1 10000 (ex_graph, ex_lms_grad)
     = _do_direct_order ex_order 0%nat 2%nat 1 10000 (ex_graph, ex_lms_grad).
Proof.
  split.
  - apply (proj1 (resolver_falls_back_to_direct_order 10 ex_order 2%nat 3%nat
                    (ex_graph, ex_lms_grad))).
    reflexivity.
  - apply (proj2 (resolver_falls_back_to_direct_order 10 ex_order 0%nat 2%nat
                    (ex_graph, ex_lms_grad))).
    vm_compute. reflexivity.
Defined.

Lemma direct_order_levels_degenerate fw_order src_order lower_b upper_b :
  lower_b > upper_b ->
  direct_order_levels fw_order src_order lower_b upper_b = [].
Proof.
  intros H. rewrite direct_order_levels_desc.
  replace (Z.to_nat _) with 0%nat by lia. reflexivity.
Qed.

(** C8: for a degenerate window, [lower_b > upper_b], both strategies
    return [(None, -1)], for every pair of operations (and every amount of
    fuel); the state is left as it was. *)
Theorem degenerate_window_no_candidate fuel topo fw_op bw_op lower_b upper_b
        (s : St) :
  lower_b > upper_b ->
  _do_chain_rule fuel topo fw_op bw_op lower_b upper_b s = (Ret (None, -1), s)
  /\ _do_direct_order topo fw_op bw_op lower_b upper_b s
     = (Ret (None, -1), s).
Proof.
  intros H.
  assert (Hd : _do_direct_order topo fw_op bw_op lower_b upper_b s
               = (Ret (None, -1), s)).
  { unfold _do_direct_order.
    rewrite direct_order_levels_degenerate by exact H. reflexivity. }
  split; [| exact Hd].
  unfold _do_chain_rule.
  destruct (get_order topo bw_op - lower_b <? bw_starting_order topo);
    [exact Hd |].
  do 2 (erewrite bind_Ret by reflexivity).
  assert (E : (lower_b >? upper_b) = true) by (apply Z.gtb_lt; lia).
  destruct fuel; cbn [chain_rule_loop]; rewrite E, orb_true_r; reflexivity.
Qed.

Lemma degenerate_window_witness :
  _do_chain_rule 0 ex_order 0%nat 3%nat 5 2 (ex_graph, ex_lms_grad)
  = (Ret (None, -1), (ex_graph, ex_lms_grad))
  /\ _do_direct_order ex_order 0%nat 3%nat 5 2 (ex_graph, ex_lms_grad)
     = (Ret (None, -1), (ex_graph, ex_lms_grad)).
Proof.
  apply (degenerate_window_no_candidate 0 ex_order 0%nat 3%nat 5 2
           (ex_graph, ex_lms_grad)).
  reflexivity.
Defined.

(* ================================================================== *)
(** ** Rules of the program logic *)

Lemma triple_ret {A} (P : St -> Prop) (a : A) (Q : A -> St -> Prop) E :
  (forall s, P s -> Q a s) -> triple P (ret a) Q E.
Proof. intros H s Hs. cbn. now apply H. Qed.

Lemma triple_bind {A B} (P : St -> Prop) (m : M A) (k : A -> M B)
      (Rm : A -> St -> Prop) (Q : B -> St -> Prop) E :
  triple P m Rm E ->
  (forall a, triple (Rm a) (k a) Q E) ->
  triple P (bind m k) Q E.
Proof.
  intros Hm Hk s Hs. unfold bind. specialize (Hm s Hs).
  destruct (m s) as [[a | e |] s1]; try exact Hm.
  now apply Hk.
Qed.

Lemma triple_conseq {A} (P P' : St -> Prop) (m : M A)
      (Q Q' : A -> St -> Prop) E :
  triple P' m Q' E ->
  (forall s, P s -> P' s) ->
  (forall a s, Q' a s -> Q a s) ->
  triple P m Q E.
Proof.
  intros Hm HP HQ s Hs. specialize (Hm s (HP s Hs)).
  destruct (m s) as [[a | e |] s1]; auto.
Qed.

Lemma triple_raise {A} (P : St -> Prop) (e : exn) (Q : A -> St -> Prop)
      (E : St -> Prop) :
  (forall s, P s -> E s) -> triple P (raise e) Q E.
Proof. intros H s Hs. cbn. now apply H. Qed.

Lemma triple_out_of_fuel {A} (P : St -> Prop) (Q : A -> St -> Prop)
      (E : St -> Prop) :
  (forall s, P s -> E s) -> triple P out_of_fuel Q E.
Proof. intros H s Hs. cbn. now apply H. Qed.

Lemma triple_lift_ge {A} (P : St -> Prop) (x : option A)
      (Q : A -> St -> Prop) (E : St -> Prop) :
  (forall s, P s -> E s) ->
  (forall a s, x = Some a -> P s -> Q a s) ->
  triple P (lift_ge x) Q E.
Proof.
  intros HE HQ s Hs. destruct x as [a |]; cbn.
  - now apply HQ.
  - now apply HE.
Qed.

Lemma triple_self (P : St -> Prop) (Q : LMS -> St -> Prop) E :
  (forall s, P s -> Q (snd s) s) -> triple P self Q E.
Proof. intros H s Hs. cbn. now apply H. Qed.

Lemma triple_get_graph (P : St -> Prop) (Q : Graph -> St -> Prop) E :
  (forall s, P s -> Q (fst s) s) -> triple P get_graph Q E.
Proof. intros H s Hs. cbn. now apply H. Qed.

Lemma triple_put_graph (P : St -> Prop) g (Q : unit -> St -> Prop) E :
  (forall s, P s -> Q tt (g, snd s)) -> triple P (put_graph g) Q E.
Proof. intros H s Hs. cbn. now apply H. Qed.

Lemma triple_modify (P : St -> Prop) f (Q : unit -> St -> Prop) E :
  (forall s, P s -> Q tt (fst s, f (snd s))) -> triple P (modify f) Q E.
Proof. intros H s Hs. cbn. now apply H. Qed.

(** A fact that does not depend on the state can be used while proving a
    triple. *)
Lemma triple_pure {A} (F : Prop) (P : St -> Prop) (m : M A)
      (Q : A -> St -> Prop) E :
  (F -> triple P m Q E) -> triple (fun s => F /\ P s) m Q E.
Proof. intros H s [HF Hs]. now apply H. Qed.

Lemma triple_pure_pre {A} (F : Prop) (P : St -> Prop) (m : M A)
      (Q : A -> St -> Prop) E :
  (F -> triple P m Q E) -> triple (fun s => P s /\ F) m Q E.
Proof. intros H s [Hs HF]. now apply H. Qed.

(** The loop rule: [I] holds before and after every round. *)
Lemma triple_for_each {A} (I : St -> Prop) (l : list A) (body : A -> M ctl) E :
  (forall x, In x l -> triple I (body x) (fun _ => I) E) ->
  triple I (for_each l body) (fun _ => I) E.
Proof.
  induction l as [| x l IH]; intros Hb.
  - now apply triple_ret.
  - cbn [for_each]. eapply triple_bind.
    + apply Hb. now left.
    + intros [|].
      * apply IH. intros y Hy. apply Hb. now right.
      * now apply triple_ret.
Qed.

(** The rule for a comprehension: [I] holds throughout and the result is a
    part of the list. *)
Lemma triple_filterM {A} (I : St -> Prop) (p : A -> M bool) (l : list A) E :
  (forall x, In x l -> triple I (p x) (fun _ => I) E) ->
  triple I (filterM p l) (fun r s => I s /\ forall x, In x r -> In x l) E.
Proof.
  induction l as [| x l IH]; intros Hp.
  - apply triple_ret. intros s Hs. split; [exact Hs | intros x []].
  - cbn [filterM]. eapply triple_bind.
    + apply Hp. now left.
    + intros b. eapply triple_bind.
      * apply IH. intros y Hy. apply Hp. now right.
      * intros r. apply triple_ret. intros s [Hs Hr]. split; [exact Hs |].
        intros y Hy. destruct b.
        -- destruct Hy as [<- | Hy]; [now left | right; now apply Hr].
        -- right. now apply Hr.
Qed.

(* ================================================================== *)
(** ** The graph under mutation *)

Lemma node_app_old g n c :
  (c < List.length g)%nat -> node (g ++ [n]) c = node g c.
Proof. intros H. unfold node. now rewrite app_nth1. Qed.

Lemma node_app_new g n : node (g ++ [n]) (List.length g) = n.
Proof.
  unfold node. rewrite app_nth2 by lia. now rewrite Nat.sub_diag.
Qed.

Lemma length_update g : forall d f, List.length (ge.update g d f) = List.length g.
Proof.
  induction g as [| n g IH]; intros d f; [reflexivity |].
  destruct d; cbn [ge.update List.length]; [reflexivity | now rewrite IH].
Qed.

Lemma node_update_same g : forall d f,
  (d < List.length g)%nat -> node (ge.update g d f) d = f (node g d).
Proof.
  unfold node. induction g as [| n g IH]; intros d f H; cbn in H; [lia |].
  destruct d; cbn [ge.update nth]; [reflexivity |]. apply IH. lia.
Qed.

Lemma node_update_other g : forall d f c,
  c <> d -> node (ge.update g d f) c = node g c.
Proof.
  unfold node. induction g as [| n g IH]; intros d f c H; [reflexivity |].
  destruct d, c; cbn [ge.update nth]; try reflexivity; try congruence.
  apply IH. congruence.
Qed.

Lemma node_update_out g d f c :
  ~ (d < List.length g)%nat -> node (ge.update g d f) c = node g c.
Proof.
  intros H. destruct (Nat.eq_dec c d) as [-> | Hn].
  - unfold node. rewrite !nth_overflow; [reflexivity | lia |].
    rewrite length_update. lia.
  - now apply node_update_other.
Qed.

Lemma tensor_eqb_eq a b : tensor_eqb a b = true <-> a = b.
Proof.
  unfold tensor_eqb. rewrite andb_true_iff, !Nat.eqb_eq.
  destruct a, b; cbn. split; [intros [-> ->]; reflexivity |].
  intros E. injection E as -> ->. auto.
Qed.

Lemma mem_tensor_In t l : mem_tensor t l = true <-> In t l.
Proof.
  unfold mem_tensor. rewrite existsb_exists. split.
  - intros [x [Hx E]]. apply tensor_eqb_eq in E. now subst.
  - intros H. exists t. split; [exact H | now apply tensor_eqb_eq].
Qed.

Lemma In_get_consuming_ops g t c :
  In c (ge.get_consuming_ops g t) <-> valid g c /\ In t (inputs (node g c)).
Proof.
  unfold ge.get_consuming_ops.
  rewrite filter_In, In_make_list_of_op, mem_tensor_In. tauto.
Qed.

Lemma In_outputs g op t :
  In t (outputs g op) <-> fst t = op /\ (snd t < n_outputs (node g op))%nat.
Proof.
  unfold outputs. rewrite in_map_iff. split.
  - intros [k [<- Hk]]. apply in_seq in Hk. cbn. split; [reflexivity | lia].
  - intros [<- Hk]. exists (snd t). split; [now destruct t |].
    apply in_seq. lia.
Qed.

Lemma index_of_In t l i : ge.index_of t l = Some i -> nth_error l i = Some t.
Proof.
  revert i. induction l as [| x l IH]; intros i H; cbn in H; [discriminate |].
  destruct (tensor_eqb t x) eqn:E.
  - injection H as <-. apply tensor_eqb_eq in E. now subst.
  - destruct (ge.index_of t l) as [j |]; [| discriminate].
    injection H as <-. cbn. now apply IH.
Qed.

Lemma reroute_cases outs ins t :
  ge.reroute outs ins t = t \/ In (ge.reroute outs ins t) outs.
Proof.
  unfold ge.reroute. destruct (ge.index_of t ins) as [i |]; [| now left].
  destruct (nth_in_or_default i outs t); [now right | now left].
Qed.

Section GraphInvariant.

Context {env : Env}.

Variable g0 : Graph.
Variable R : list OpId.
Variable G : list OpId.
Hypothesis Hst : static g0 R G.

(** An operation that reads a value of a visitable operation is visitable
    itself. *)
Lemma visitable_consumer g c t :
  graph_inv g0 R g -> valid g c -> In t (inputs (node g c)) ->
  visitable g0 R (fst t) -> visitable g0 R c.
Proof.
  intros Hg Hc Ht Hv. unfold visitable, valid in *.
  destruct (le_lt_dec (List.length g0) c) as [Hl | Hl]; [right; lia |].
  left. destruct (in_dec Nat.eq_dec c R) as [Hin | Hnin]; [exact Hin |].
  exfalso. rewrite (gi_untouched Hg c Hl Hnin) in Ht.
  destruct (st_wf Hst c t Hl Ht) as [Hv1 _].
  destruct Hv as [Hv | Hv].
  - apply Hnin. eapply (st_R_closed Hst); eauto.
  - unfold valid in Hv1. lia.
Qed.

Lemma visitable_consuming_op g t c :
  graph_inv g0 R g -> visitable g0 R (fst t) ->
  In c (ge.get_consuming_ops g t) -> visitable g0 R c.
Proof.
  intros Hg Hop Hc. apply In_get_consuming_ops in Hc.
  destruct Hc as [Hv Hin]. eapply visitable_consumer; eauto.
Qed.

Lemma graph_inv_append g n :
  graph_inv g0 R g ->
  (String.prefix (tf.scoped "lms/swapout") (name n) = true ->
   forall t, In t (inputs n) -> In (fst t) R /\ atomic_type g0 (fst t) = false) ->
  graph_inv g0 R (g ++ [n]).
Proof.
  intros Hg Hn. pose proof (gi_length Hg) as Hl. constructor.
  - rewrite length_app. cbn. lia.
  - intros c Hc. rewrite node_app_old by (unfold valid in Hc; lia).
    now apply (gi_frame Hg).
  - intros c Hc Hnin. rewrite node_app_old by (unfold valid in Hc; lia).
    now apply (gi_untouched Hg).
  - intros so t Hnew Hname Ht. unfold is_new in Hnew.
    rewrite length_app in Hnew. cbn in Hnew.
    destruct (Nat.eq_dec so (List.length g)) as [-> | Hne].
    + unfold swapout_named, op_name in Hname.
      rewrite node_app_new in Hname, Ht. now apply Hn.
    + unfold swapout_named, op_name in Hname.
      rewrite node_app_old in Hname, Ht by lia.
      apply (gi_swapout Hg so t); auto. unfold is_new. lia.
Qed.

Lemma graph_inv_update g d f :
  graph_inv g0 R g ->
  (forall n, name (f n) = name n /\ type (f n) = type n
             /\ n_outputs (f n) = n_outputs n) ->
  visitable g0 R d ->
  (is_new g0 g d -> swapout_named g d = true ->
   forall t, In t (inputs (f (node g d))) ->
             In (fst t) R /\ atomic_type g0 (fst t) = false) ->
  graph_inv g0 R (ge.update g d f).
Proof.
  intros Hg Hf Hd Hsw. pose proof (gi_length Hg) as Hl.
  destruct (lt_dec d (List.length g)) as [Hlt | Hge].
  2:{ constructor.
      - now rewrite length_update.
      - intros c Hc. rewrite node_update_out by exact Hge.
        now apply (gi_frame Hg).
      - intros c Hc Hn. rewrite node_update_out by exact Hge.
        now apply (gi_untouched Hg).
      - intros so t Hnew Hname Ht. unfold swapout_named, op_name in Hname.
        unfold is_new in Hnew. rewrite length_update in Hnew.
        rewrite node_update_out in Hname, Ht by exact Hge.
        now apply (gi_swapout Hg so t). }
  constructor.
  - now rewrite length_update.
  - intros c Hc. destruct (Nat.eq_dec c d) as [-> | Hne].
    + rewrite node_update_same by exact Hlt.
      destruct (Hf (node g d)) as (E1 & E2 & E3). rewrite E1, E2, E3.
      now apply (gi_frame Hg).
    + rewrite node_update_other by exact Hne. now apply (gi_frame Hg).
  - intros c Hc Hn. destruct (Nat.eq_dec c d) as [-> | Hne].
    + exfalso. destruct Hd as [Hd | Hd]; [now apply Hn |].
      unfold valid in *. lia.
    + rewrite node_update_other by exact Hne. now apply (gi_untouched Hg).
  - intros so t Hnew Hname Ht. unfold swapout_named, op_name in Hname.
    unfold is_new in Hnew. rewrite length_update in Hnew.
    destruct (Nat.eq_dec so d) as [-> | Hne].
    + rewrite node_update_same in Hname, Ht by exact Hlt.
      destruct (Hf (node g d)) as (E1 & _). rewrite E1 in Hname.
      now apply Hsw.
    + rewrite node_update_other in Hname, Ht by exact Hne.
      now apply (gi_swapout Hg so t).
Qed.

End GraphInvariant.

(* ================================================================== *)
(** ** The insertion primitives keep the invariant *)

(** Step over a call whose effect is given by [H], a fact of the shape
    [match m s with (Ret a, s') => _ | (_, s') => _ end]. *)
Tactic Notation "mcall" constr(H) "as" ident(a) ident(g) ident(o) :=
  match goal with
  | |- match bind ?m ?k ?s with _ => _ end =>
      let E := fresh "Ecall" in
      let Hc := fresh "Hcall" in
      pose proof H as Hc;
      destruct (m s) as [[a | ? |] [g o]] eqn:E;
      [ rewrite (bind_Ret m k s _ _ E); cbn [fst snd] in *
      | rewrite (bind_Raise m k s _ _ E); exact Hc
      | rewrite (bind_OutOfFuel m k s _ E); exact Hc ]
  end.

Section Primitives.

Context {env : Env}.

Variable g0 : Graph.
Variable R : list OpId.
Variable G : list OpId.
Hypothesis Hst : static g0 R G.

Lemma Inv_Stopped pend s : Inv g0 R G pend s -> Stopped g0 R s.
Proof. now intros [H _]. Qed.

Lemma obj_inv_ops_dict pend g o d :
  obj_inv g0 R G pend g o -> obj_inv g0 R G pend g (set_ops_dict d o).
Proof. now destruct o. Qed.

Lemma obj_inv_incpu_count pend g o v :
  obj_inv g0 R G pend g o -> obj_inv g0 R G pend g (set_incpu_count v o).
Proof. now destruct o. Qed.

Lemma obj_inv_append g n o :
  obj_inv g0 R G None g o ->
  obj_inv g0 R G (Some (List.length g)) (g ++ [n]) o.
Proof.
  intros (H1 & H2 & H3). split; [| split; assumption].
  intros op Hop. unfold is_new in *. rewrite length_app in Hop. cbn in Hop.
  destruct (Nat.eq_dec op (List.length g)) as [-> | Hne]; [now right |].
  destruct (H1 op) as [H | H]; [lia | now left | discriminate].
Qed.

Lemma obj_inv_update pend g d f o :
  obj_inv g0 R G pend g o -> obj_inv g0 R G pend (ge.update g d f) o.
Proof.
  intros (H1 & H2 & H3). split; [| split; assumption].
  intros op Hop. unfold is_new in *. rewrite length_update in Hop. auto.
Qed.

Lemma obj_inv_excl_add x g o :
  obj_inv g0 R G (Some x) g o ->
  obj_inv g0 R G None g (set_excl_ops (set_add x (_excl_ops o)) o).
Proof.
  intros (H1 & H2 & H3). destruct o; cbn in *. split; [| split].
  - intros op Hop. left. apply In_set_add.
    destruct (H1 op Hop) as [H | H]; [now left |].
    injection H as ->. now right.
  - intros op Hop Hat. apply In_set_add. left. auto.
  - assumption.
Qed.

Lemma get_forward_walk_ops_inv pend op inclusive :
  triple (Inv g0 R G pend) (_get_forward_walk_ops op inclusive)
         (fun _ => Inv g0 R G pend) (Stopped g0 R).
Proof.
  intros [g o] [Hg Ho]. rewrite get_forward_walk_ops_spec.
  split; [exact Hg |]. cbn [fst snd].
  destruct (memo_store_fields g o op) as [d ->]. now apply obj_inv_ops_dict.
Qed.

Lemma graph_inv_reroute g dest outs ins src :
  graph_inv g0 R g ->
  visitable g0 R dest ->
  (forall t, In t outs -> fst t = src) ->
  (is_new g0 g dest -> swapout_named g dest = true ->
   In src R /\ atomic_type g0 src = false) ->
  graph_inv g0 R
    (ge.update g dest
       (fun n => ge.set_inputs n (map (ge.reroute outs ins) (inputs n)))).
Proof.
  intros Hg Hd Hout Hc. apply graph_inv_update; auto.
  intros Hnew Hname t Ht. cbn [ge.set_inputs inputs] in Ht.
  apply in_map_iff in Ht. destruct Ht as [t0 [<- Ht0]].
  destruct (reroute_cases outs ins t0) as [E | Hin].
  - rewrite E. now apply (gi_swapout Hg dest t0).
  - rewrite (Hout _ Hin). now apply Hc.
Qed.

(** [_connect_ops] either fails and leaves the state alone, or reroutes
    inputs of [dest_op] to outputs of [src_op]. *)
Lemma connect_ops_cases src dest ri ro idx g o :
  (exists outs ins,
     (forall t, In t outs -> fst t = src)
     /\ _connect_ops src dest ri ro idx (g, o)
        = (Ret tt,
           (ge.update g dest
              (fun n => ge.set_inputs n (map (ge.reroute outs ins) (inputs n))),
            o)))
  \/ _connect_ops src dest ri ro idx (g, o) = (Raise GraphEditorError, (g, o)).
Proof.
  unfold _connect_ops. mret.
  set (m0 := if ro then _ else _).
  assert (H0 : (exists v0, (forall t, In t (ge.sgv_outputs v0) -> fst t = src)
                           /\ m0 (g, o) = (Ret v0, (g, o)))
               \/ m0 (g, o) = (Raise GraphEditorError, (g, o))).
  { subst m0. destruct ro.
    - destruct idx as [i |]; [| now right].
      unfold ge.remap_outputs.
      destruct (nth_error (ge.sgv_outputs (ge.sgv g src)) i) as [t |] eqn:En;
        [| now right].
      left. eexists. split; [| reflexivity].
      cbn [ge.sgv_outputs]. intros t' [<- | []].
      apply nth_error_In in En. cbn [ge.sgv ge.sgv_outputs] in En.
      apply In_outputs in En. tauto.
    - left. eexists. split; [| reflexivity].
      cbn [ge.sgv ge.sgv_outputs]. intros t Ht. apply In_outputs in Ht. tauto. }
  destruct H0 as [(v0 & Hv0 & E0) | E0].
  2:{ right. rewrite (bind_Raise _ _ _ _ _ E0). reflexivity. }
  rewrite (bind_Ret _ _ _ _ _ E0).
  set (m1 := if ri then _ else _).
  assert (H1 : (exists v1, ge.sgv_op v1 = dest /\ m1 (g, o) = (Ret v1, (g, o)))
               \/ m1 (g, o) = (Raise GraphEditorError, (g, o))).
  { subst m1. destruct ri.
    - destruct idx as [i |]; [| now right].
      unfold ge.remap_inputs.
      destruct (nth_error (ge.sgv_inputs (ge.sgv g dest)) i) as [t |];
        [| now right].
      left. eexists. split; [| reflexivity]. reflexivity.
    - left. eexists. split; [| reflexivity]. reflexivity. }
  destruct H1 as [(v1 & Hv1 & E1) | E1].
  2:{ right. rewrite (bind_Raise _ _ _ _ _ E1). reflexivity. }
  rewrite (bind_Ret _ _ _ _ _ E1).
  unfold ge.connect.
  destruct (Nat.eqb _ _).
  - left. exists (ge.sgv_outputs v0), (ge.sgv_inputs v1).
    split; [exact Hv0 |]. mret. rewrite Hv1. reflexivity.
  - right. mraise. reflexivity.
Qed.

Lemma set_inputs_frame n ins :
  name (ge.set_inputs n ins) = name n
  /\ type (ge.set_inputs n ins) = type n
  /\ n_outputs (ge.set_inputs n ins) = n_outputs n.
Proof. now destruct n. Qed.

(** The effect of [_connect_ops] on a state with the invariant. *)
Lemma connect_ops_inv pend src dest ri ro idx g o :
  graph_inv g0 R g -> obj_inv g0 R G pend g o ->
  visitable g0 R dest ->
  (is_new g0 g dest -> swapout_named g dest = true ->
   In src R /\ atomic_type g0 src = false) ->
  match _connect_ops src dest ri ro idx (g, o) with
  | (Ret _, s') =>
      Inv g0 R G pend s' /\ snd s' = o
      /\ List.length (fst s') = List.length g
      /\ (forall c, name (node (fst s') c) = name (node g c))
  | (_, s') => Stopped g0 R s'
  end.
Proof.
  intros Hg Ho Hd Hc.
  destruct (connect_ops_cases src dest ri ro idx g o)
    as [(outs & ins & Hout & E) | E]; rewrite E.
  - cbn [fst snd]. split; [split |].
    + eapply graph_inv_reroute; eauto.
    + now apply obj_inv_update.
    + split; [reflexivity |]. split; [apply length_update |].
      intros c. destruct (Nat.eq_dec c dest) as [-> | Hne].
      * destruct (lt_dec dest (List.length g)).
        -- rewrite node_update_same by assumption. apply set_inputs_frame.
        -- now rewrite node_update_out.
      * now rewrite node_update_other.
  - exact Hg.
Qed.

Lemma add_swapout_inv src t :
  In src R -> atomic_type g0 src = false -> fst t = src ->
  triple (Inv g0 R G None) (_add_swapout src t)
         (fun so s => Inv g0 R G None s /\ (List.length g0 <= so)%nat)
         (Stopped g0 R).
Proof.
  intros HR Hat Ht [g o] [Hg Ho]. cbn [fst snd] in *.
  unfold _add_swapout. do 4 mret. unfold tf.identity. cbn [fst snd].
  set (n := mkNode (tf.unique_name g (tf.scoped "lms/swapout")) "Identity" [t] [] 1
                   (device_name (_cpu_device o))).
  assert (Hg1 : graph_inv g0 R (g ++ [n])).
  { apply graph_inv_append; [exact Hg |]. intros _ t' [<- | []].
    rewrite Ht. auto. }
  assert (Ho1 : obj_inv g0 R G (Some (List.length g)) (g ++ [n]) o)
    by now apply obj_inv_append.
  destruct (ge.output_index (ge.sgv (g ++ [n]) src) t) as [idx |].
  2:{ mraise. exact Hg1. }
  mret.
  mcall (connect_ops_inv (Some (List.length g)) src (List.length g)
           false true (Some idx) (g ++ [n]) o Hg1 Ho1
           (or_intror (gi_length Hg)) (fun _ _ => conj HR Hat)) as u g1 o1.
  destruct Hcall as ([Hg2 Ho2] & -> & Hlen & _).
  mret. unfold ret. split; [split |].
  - exact Hg2.
  - now apply obj_inv_excl_add.
  - apply (gi_length Hg).
Qed.

Lemma add_swapin_inv swapout_op dest t :
  visitable g0 R dest -> valid g0 dest ->
  triple (Inv g0 R G None) (_add_swapin swapout_op dest t)
         (fun si s => Inv g0 R G None s /\ (List.length g0 <= si)%nat)
         (Stopped g0 R).
Proof.
  intros Hv Hd [g o] [Hg Ho]. cbn [fst snd] in *.
  unfold _add_swapin. do 3 mret. unfold tf.identity. cbn [fst snd].
  set (n := mkNode (tf.unique_name g (tf.scoped "lms/swapin")) "Identity" [t] [] 1
                   (device_name (_cpu_device o))).
  assert (Hname : String.prefix (tf.scoped "lms/swapout") (name n) = false)
    by apply prefix_swapin_not_swapout.
  assert (Hg1 : graph_inv g0 R (g ++ [n])).
  { apply graph_inv_append; [exact Hg |]. intros Hp. congruence. }
  assert (Ho1 : obj_inv g0 R G (Some (List.length g)) (g ++ [n]) o)
    by now apply obj_inv_append.
  destruct swapout_op as [so |].
  2:{ mraise. exact Hg1. }
  mret.
  assert (Hns : swapout_named (g ++ [n]) (List.length g) = false).
  { unfold swapout_named, op_name. now rewrite node_app_new. }
  mcall (connect_ops_inv (Some (List.length g)) so (List.length g)
           false false None (g ++ [n]) o Hg1 Ho1
           (or_intror (gi_length Hg))
           (fun _ (H : swapout_named (g ++ [n]) (List.length g) = true) =>
              False_ind _ (eq_true_false_abs _ H Hns))) as u g1 o1.
  destruct Hcall as ([Hg2 Ho2] & -> & Hlen & Hnm).
  mret.
  destruct (ge.input_index (ge.sgv g1 dest) t) as [idx |].
  2:{ mraise. exact Hg2. }
  mret.
  mcall (connect_ops_inv (Some (List.length g)) (List.length g) dest
           true false (Some idx) g1 o Hg2 Ho2 Hv
           (fun (H : is_new g0 g1 dest) _ =>
              False_ind _ (Nat.lt_irrefl _ (Nat.lt_le_trans _ _ _ Hd (proj1 H)))))
    as u2 g2 o2.
  destruct Hcall as ([Hg3 Ho3] & -> & _).
  mret. unfold ret. split; [split |].
  - exact Hg3.
  - now apply obj_inv_excl_add.
  - apply (gi_length Hg).
Qed.

Lemma do_direct_order_inv pend topo fw_op src_op lower_b upper_b :
  triple (Inv g0 R G pend) (_do_direct_order topo fw_op src_op lower_b upper_b)
         (fun _ => Inv g0 R G pend) (Stopped g0 R).
Proof.
  intros [g o] [Hg Ho]. cbn [fst snd] in *. unfold _do_direct_order.
  destruct (direct_order_scan_spec topo src_op g
              (direct_order_levels (get_order topo fw_op)
                 (get_order topo src_op) lower_b upper_b) o)
    as [o' [E [_ [d ->]]]].
  rewrite (bind_Ret _ _ _ _ _ E).
  assert (Hi : Inv g0 R G pend (g, set_ops_dict d o)).
  { split; [exact Hg | now apply obj_inv_ops_dict]. }
  destruct (fst _); exact Hi.
Qed.

Lemma do_chain_rule_inv pend fuel topo fw_op bw_op lower_b upper_b :
  triple (Inv g0 R G pend) (_do_chain_rule fuel topo fw_op bw_op lower_b upper_b)
         (fun _ => Inv g0 R G pend) (Stopped g0 R).
Proof.
  unfold _do_chain_rule.
  destruct (get_order topo bw_op - lower_b <? bw_starting_order topo).
  - apply do_direct_order_inv.
  - intros [g o] Hi. do 2 mret.
    destruct (chain_rule_loop _ _ _ _ _ _ _ _ _ _ _ _) as [[| x l] |];
      cbn; try exact Hi. exact (Inv_Stopped _ _ Hi).
Qed.

Lemma resolve_control_dependency_inv pend fuel topo fw_op bw_op :
  triple (Inv g0 R G pend) (resolve_control_dependency fuel topo fw_op bw_op)
         (fun _ => Inv g0 R G pend) (Stopped g0 R).
Proof.
  intros [g o] Hi. unfold resolve_control_dependency. mret.
  destruct (mem fw_op (_grad_ops o)).
  - now apply do_direct_order_inv.
  - destruct (_ctrld_strategy o).
    + now apply do_chain_rule_inv.
    + now apply do_direct_order_inv.
Qed.

Lemma set_control_inputs_frame n cs :
  name (ge.set_control_inputs n cs) = name n
  /\ type (ge.set_control_inputs n cs) = type n
  /\ n_outputs (ge.set_control_inputs n cs) = n_outputs n.
Proof. now destruct n. Qed.

Lemma add_control_dependency_inv fuel topo fw_op bw_op swapin_op :
  visitable g0 R swapin_op ->
  triple (Inv g0 R G None)
         (_add_control_dependency fuel topo fw_op bw_op swapin_op)
         (fun _ => Inv g0 R G None) (Stopped g0 R).
Proof.
  intros Hv [g o] Hi. unfold _add_control_dependency.
  mcall (resolve_control_dependency_inv None fuel topo fw_op bw_op (g, o) Hi)
    as re g1 o1.
  destruct Hcall as [Hg Ho]. cbn [fst snd] in *.
  destruct (fst re) as [ctrld_op |]; [| split; assumption].
  mret. unfold ge.add_control_inputs.
  destruct (mem ctrld_op (control_inputs (node g1 swapin_op))).
  - mraise. exact Hg.
  - mret. unfold put_graph. cbn [fst snd]. split; cbn [fst snd].
    + apply graph_inv_update;
        [exact Hg | intros n; apply set_control_inputs_frame | exact Hv |].
      intros Hnew Hname t Ht.
      apply (gi_swapout Hg swapin_op t); auto.
    + now apply obj_inv_update.
Qed.

Lemma In_all_consuming_ops g op c :
  In c (all_consuming_ops g op) ->
  exists t, In t (outputs g op) /\ In c (ge.get_consuming_ops g t).
Proof.
  unfold all_consuming_ops.
  assert (H : forall l acc,
    In c (fold_left (fun acc t =>
            set_union acc (to_set (ge.get_consuming_ops g t))) l acc) ->
    In c acc \/ exists t, In t l /\ In c (ge.get_consuming_ops g t)).
  { induction l as [| t l IH]; intros acc Hc; cbn in Hc; [now left |].
    apply IH in Hc. destruct Hc as [Hc | [t' [Ht' Hc]]].
    - apply In_set_union in Hc. destruct Hc as [Hc | Hc]; [now left |].
      right. exists t. split; [now left | now apply In_to_set].
    - right. exists t'. split; [now right | exact Hc]. }
  intros Hc. apply H in Hc. destruct Hc as [[] | Hc]. exact Hc.
Qed.

Lemma In_enqueue_new closed_set next_ops : forall q x,
  In x (enqueue_new closed_set next_ops q) -> In x q \/ In x next_ops.
Proof.
  unfold enqueue_new. induction next_ops as [| y l IH]; intros q x Hx;
    cbn in Hx; [now left |].
  apply IH in Hx. destruct Hx as [Hx | Hx]; [| right; now right].
  destruct (mem y closed_set); [now left |].
  destruct (mem y q); [now left |].
  apply in_app_iff in Hx. destruct Hx as [Hx | [<- | []]];
    [now left | right; now left].
Qed.

Lemma visitable_all_consuming_ops g op c :
  graph_inv g0 R g -> visitable g0 R op ->
  In c (all_consuming_ops g op) -> visitable g0 R c.
Proof.
  intros Hg Hop Hc. apply In_all_consuming_ops in Hc.
  destruct Hc as [t [Ht Hc]]. apply In_outputs in Ht. destruct Ht as [Ht _].
  eapply visitable_consuming_op; eauto. now rewrite Ht.
Qed.

Lemma find_new_src_loop_visitable g topo fuel :
  graph_inv g0 R g ->
  forall open_set closed_set src_ops r,
    (forall x, In x open_set -> visitable g0 R x) ->
    (forall x, In x src_ops -> visitable g0 R x) ->
    find_new_src_loop fuel g topo open_set closed_set src_ops = Some r ->
    forall x, In x r -> visitable g0 R x.
Proof.
  intros Hg. induction fuel as [| fuel IH];
    intros open_set closed_set src_ops r Hopen Hsrc Hr x Hx.
  - destruct open_set; cbn in Hr; [| discriminate].
    injection Hr as <-. now apply Hsrc.
  - destruct open_set as [| src_op open_rest]; cbn [find_new_src_loop] in Hr.
    + injection Hr as <-. now apply Hsrc.
    + eapply IH; [| | exact Hr | exact Hx].
      * intros y Hy. apply In_enqueue_new in Hy.
        destruct Hy as [Hy | Hy]; [apply Hopen; now right |].
        apply In_set_diff in Hy. destruct Hy as [Hy _].
        eapply visitable_all_consuming_ops; eauto. apply Hopen. now left.
      * intros y Hy. destruct (nonempty _); [| now apply Hsrc].
        apply In_set_add in Hy. destruct Hy as [Hy | ->]; [now apply Hsrc |].
        apply Hopen. now left.
Qed.

Lemma find_new_src_op_inv fuel topo original_op :
  visitable g0 R original_op ->
  triple (Inv g0 R G None) (_find_new_src_op fuel topo original_op)
         (fun r s => Inv g0 R G None s /\ forall x, In x r -> visitable g0 R x)
         (Stopped g0 R).
Proof.
  intros Hv [g o] Hi. unfold _find_new_src_op. mret.
  destruct (find_new_src_loop fuel g topo [original_op] [] []) as [r |] eqn:E.
  - cbn. split; [exact Hi |].
    eapply find_new_src_loop_visitable; [apply Hi | | | exact E].
    + intros x [<- | []]. exact Hv.
    + intros x [].
  - exact (Inv_Stopped _ _ Hi).
Qed.

Variable topo : TOPOS.
Hypothesis Hlev : levels_within g0 topo.

Lemma leveled_valid op : 0 <= get_order topo op -> valid g0 op.
Proof.
  intros H. destruct (lt_dec op (List.length g0)) as [Hlt | Hge];
    [exact Hlt |]. specialize (Hlev op Hge). lia.
Qed.

Lemma fuse_swapin_ops_inv fuel src_op swapout_op bw_frontier_ops ts0 :
  (forall x, In x bw_frontier_ops -> visitable g0 R x) ->
  triple (Inv g0 R G None)
         (_fuse_swapin_ops fuel topo src_op swapout_op bw_frontier_ops ts0)
         (fun r s => Inv g0 R G None s /\ forall x, In x r -> In x bw_frontier_ops)
         (Stopped g0 R).
Proof.
  intros Hbw [g o] Hi. unfold _fuse_swapin_ops.
  set (fuse := filter (fun op => get_order topo op >? 0) bw_frontier_ops).
  destruct (2 <=? List.length fuse)%nat; [| split; [exact Hi | auto]].
  destruct Hi as [Hg Ho]. cbn [fst snd] in *.
  do 3 mret. unfold tf.identity. cbn [fst snd].
  set (n := mkNode (tf.unique_name g (tf.scoped "lms/swapin")) "Identity" [ts0] [] 1
                   (device_name (_cpu_device o))).
  assert (Hname : String.prefix (tf.scoped "lms/swapout") (name n) = false)
    by apply prefix_swapin_not_swapout.
  assert (Hg1 : graph_inv g0 R (g ++ [n])).
  { apply graph_inv_append; [exact Hg |]. intros Hp. congruence. }
  assert (Ho1 : obj_inv g0 R G (Some (List.length g)) (g ++ [n]) o)
    by now apply obj_inv_append.
  assert (Hns : swapout_named (g ++ [n]) (List.length g) = false).
  { unfold swapout_named, op_name. now rewrite node_app_new. }
  assert (Hvn : visitable g0 R (List.length g))
    by (right; apply (gi_length Hg)).
  mcall (connect_ops_inv (Some (List.length g)) swapout_op (List.length g)
           false false None (g ++ [n]) o Hg1 Ho1 Hvn
           (fun _ (H : swapout_named (g ++ [n]) (List.length g) = true) =>
              False_ind _ (eq_true_false_abs _ H Hns))) as u g1 o1.
  destruct Hcall as ([Hg2 Ho2] & -> & _).
  mret.
  assert (Hi2 : Inv g0 R G None
                  (g1, set_excl_ops (set_add (List.length g) (_excl_ops o)) o)).
  { split; [exact Hg2 | now apply obj_inv_excl_add]. }
  match goal with
  | |- match bind (for_each _ ?body) _ _ with _ => _ end =>
      assert (Hbody : forall op, In op fuse ->
                triple (Inv g0 R G None) (body op)
                       (fun _ => Inv g0 R G None) (Stopped g0 R))
  end.
  { intros op Hop [g2 o2] [Hg3 Ho3]. cbn [fst snd] in *. mret.
    destruct (ge.input_index (ge.sgv g2 op) ts0) as [idx |].
    2:{ mraise. exact Hg3. }
    mret.
    apply filter_In in Hop. destruct Hop as [Hop Hord].
    assert (Hval : valid g0 op) by (apply leveled_valid; lia).
    mcall (connect_ops_inv None (List.length g) op true false (Some idx)
             g2 o2 Hg3 Ho3 (Hbw op Hop)
             (fun (H : is_new g0 g2 op) _ =>
                False_ind _ (Nat.lt_irrefl _
                  (Nat.lt_le_trans _ _ _ Hval (proj1 H))))) as u3 g3 o3.
    destruct Hcall as (Hi3 & _). exact Hi3. }
  mcall (triple_for_each (Inv g0 R G None) fuse _ (Stopped g0 R) Hbody _ Hi2)
    as c g4 o4.
  assert (Hend : forall s, Inv g0 R G None s ->
    match (ret (set_diff bw_frontier_ops fuse) : M (list OpId)) s with
    | (Ret r, s') => Inv g0 R G None s'
                     /\ forall x, In x r -> In x bw_frontier_ops
    | (_, s') => Stopped g0 R s'
    end).
  { intros s Hs. cbn. split; [exact Hs |]. intros x Hx.
    apply In_set_diff in Hx. tauto. }
  destruct (earliest topo fuse) as [earliest_op |].
  - mcall (add_control_dependency_inv fuel topo src_op earliest_op
             (List.length g) Hvn (g4, o4) Hcall) as u5 g5 o5.
    now apply Hend.
  - mret. now apply Hend.
Qed.

Lemma outputs_out_of_range g op :
  ~ (op < List.length g)%nat -> outputs g op = [].
Proof.
  intros H. unfold outputs, node. rewrite nth_overflow by lia. reflexivity.
Qed.

(** An operation that passes the exclusion test of [_insert_swap_nodes] is
    an operation of [R] whose type is not atomic, or no operation at all. *)
Lemma not_excluded g o src_op :
  Inv g0 R G None (g, o) -> visitable g0 R src_op ->
  mem src_op (_excl_ops o) = false ->
  (In src_op R /\ atomic_type g0 src_op = false) \/ outputs g src_op = [].
Proof.
  intros [Hg (Hn & Ha & _)] Hv Hex. cbn [fst snd] in *.
  apply mem_false in Hex.
  destruct (lt_dec src_op (List.length g)) as [Hlt | Hge].
  2:{ right. now apply outputs_out_of_range. }
  left. destruct Hv as [Hv | Hv].
  - split; [exact Hv |].
    destruct (atomic_type g0 src_op) eqn:E; [| reflexivity].
    exfalso. apply Hex. now apply Ha.
  - exfalso. destruct (Hn src_op) as [H | H];
      [unfold is_new; lia | now apply Hex | discriminate].
Qed.

Lemma In_get_branch_ops within_ops threshold x :
  In x (_get_branch_ops topo within_ops threshold) -> In x within_ops.
Proof.
  unfold _get_branch_ops. destruct (map _ within_ops); [intros [] |].
  intros H. apply filter_In in H. tauto.
Qed.

Lemma insert_swap_nodes_inv fuel : forall src_op,
  visitable g0 R src_op ->
  triple (Inv g0 R G None) (_insert_swap_nodes fuel topo src_op)
         (fun _ => Inv g0 R G None) (Stopped g0 R).
Proof.
  induction fuel as [| fuel IH]; intros src_op Hv.
  - apply triple_out_of_fuel. apply Inv_Stopped.
  - intros [gA oA] HiA. cbn [_insert_swap_nodes]. mret.
    destruct (mem src_op (_excl_ops oA)) eqn:Eex; [exact HiA |].
    destruct (nonempty (_incl_ops oA) && negb (mem src_op (_incl_ops oA)));
      [exact HiA |].
    mret.
    destruct (not_excluded gA oA src_op HiA Hv Eex) as [[HR Hat] | Hnil].
    2:{ rewrite Hnil. cbn [for_each]. mret. exact HiA. }
    match goal with
    | |- match bind (for_each _ ?body) _ _ with _ => _ end =>
        assert (Hbody : forall t, In t (outputs gA src_op) ->
                  triple (Inv g0 R G None) (body t)
                         (fun _ => Inv g0 R G None) (Stopped g0 R))
    end.
    2:{ mcall (triple_for_each (Inv g0 R G None) (outputs gA src_op) _
                 (Stopped g0 R) Hbody _ HiA) as c g1 o1.
        exact Hcall. }
    intros t Ht [g o] Hi.
    apply In_outputs in Ht. destruct Ht as [Ht _]. mret.
    destruct (_swapped_max_tensors o); [exact Hi |].
    mret.
    set (frontier_ops := to_set (ge.get_consuming_ops g t)).
    assert (Hfr : forall x, In x frontier_ops -> visitable g0 R x).
    { intros x Hx. subst frontier_ops. apply -> In_to_set in Hx.
      eapply visitable_consuming_op; eauto; [apply Hi |].
      rewrite Ht. exact Hv. }
    set (bw0 := if _swap_branches o then _ else _).
    assert (Hbw0 : forall x, In x bw0 -> visitable g0 R x).
    { intros x Hx. apply Hfr. subst bw0.
      destruct (_swap_branches o).
      - apply In_set_union in Hx. destruct Hx as [Hx | Hx].
        + apply In_set_inter in Hx. tauto.
        + apply In_get_branch_ops in Hx. apply In_set_diff in Hx. tauto.
      - apply In_set_inter in Hx. tauto. }
    match goal with
    | |- match bind (filterM ?p _) _ _ with _ => _ end =>
        assert (Hp : forall x, In x bw0 ->
                  triple (Inv g0 R G None) (p x)
                         (fun _ => Inv g0 R G None) (Stopped g0 R))
    end.
    { intros x _. eapply triple_bind.
      - apply get_forward_walk_ops_inv.
      - intros l. now apply triple_ret. }
    mcall (triple_filterM (Inv g0 R G None) _ bw0 (Stopped g0 R) Hp _ Hi)
      as bw g1 o1.
    destruct Hcall as [Hi1 Hbw].
    destruct (negb (nonempty bw)); [exact Hi1 |].
    match goal with
    | |- match bind ?m _ _ with _ => _ end =>
        assert (Hso : triple (Inv g0 R G None) m
                        (fun _ => Inv g0 R G None) (Stopped g0 R))
    end.
    { destruct (existsb _ bw).
      - eapply triple_bind; [apply add_swapout_inv; auto |].
        intros so. cbv beta. eapply triple_bind.
        + apply triple_modify with (Q := fun _ => Inv g0 R G None).
          intros [g2 o2] [[Hg2 Ho2] _]. split; [exact Hg2 |].
          now apply obj_inv_incpu_count.
        + intros u. apply triple_ret. intros s Hs. exact Hs.
      - now apply triple_ret. }
    mcall (Hso _ Hi1) as swapout_op g2 o2.
    match goal with
    | |- match bind ?m _ _ with _ => _ end =>
        assert (Hfu : triple (Inv g0 R G None) m
                        (fun r s => Inv g0 R G None s
                                    /\ forall x, In x r -> In x bw)
                        (Stopped g0 R))
    end.
    { destruct swapout_op as [so |]; [| now apply triple_ret].
      destruct (_fuse_swapins o); [| now apply triple_ret].
      apply fuse_swapin_ops_inv. intros x Hx. auto. }
    mcall (Hfu _ Hcall) as bw' g3 o3.
    destruct Hcall0 as [Hi3 Hbw'].
    match goal with
    | |- match bind (for_each _ ?body) _ _ with _ => _ end =>
        assert (Hdest : forall dest_op, In dest_op bw' ->
                  triple (Inv g0 R G None) (body dest_op)
                         (fun _ => Inv g0 R G None) (Stopped g0 R))
    end.
    2:{ mcall (triple_for_each (Inv g0 R G None) bw' _ (Stopped g0 R)
                 Hdest _ Hi3) as c g4 o4.
        exact Hcall0. }
    intros dest_op Hdest. 
    assert (Hvd : visitable g0 R dest_op) by auto.
    destruct (get_order topo dest_op <? 0) eqn:Eord.
    + intros [g4 o4] Hi4. mret.
      destruct (mem src_op (_grad_ops o4)); [exact Hi4 |].
      mcall (find_new_src_op_inv (S fuel) topo dest_op Hvd _ Hi4)
        as new_src_ops g5 o5.
      destruct Hcall0 as [Hi5 Hns].
      apply (triple_for_each (Inv g0 R G None) new_src_ops _ (Stopped g0 R));
        [| exact Hi5].
      intros op Hop. eapply triple_bind; [apply IH; auto |].
      intros u. apply triple_ret. intros s Hs. exact Hs.
    + apply Z.ltb_ge in Eord.
      eapply triple_bind.
      * apply add_swapin_inv; [exact Hvd | now apply leveled_valid].
      * intros swapin_op. cbv beta. apply triple_pure_pre. intros Hn.
        eapply triple_bind; [now apply add_control_dependency_inv; right |].
        intros u. apply triple_ret. intros s Hs. exact Hs.
Qed.

Lemma In_next_ops g grad outs x :
  In x (fold_left (fun acc t =>
          set_union acc (set_diff (to_set (ge.get_consuming_ops g t)) grad))
          outs []) ->
  exists t, In t outs /\ In x (ge.get_consuming_ops g t).
Proof.
  assert (H : forall l acc,
    In x (fold_left (fun acc t =>
            set_union acc (set_diff (to_set (ge.get_consuming_ops g t)) grad))
            l acc) ->
    In x acc \/ exists t, In t l /\ In x (ge.get_consuming_ops g t)).
  { induction l as [| t l IH]; intros acc Hx; cbn in Hx; [now left |].
    apply IH in Hx. destruct Hx as [Hx | [t' [Ht' Hx]]].
    - apply In_set_union in Hx. destruct Hx as [Hx | Hx]; [now left |].
      apply In_set_diff in Hx. destruct Hx as [Hx _].
      right. exists t. split; [now left | now apply In_to_set].
    - right. exists t'. split; [now right | exact Hx]. }
  intros Hx. apply H in Hx. destruct Hx as [[] | Hx]. exact Hx.
Qed.

Lemma do_action_loop_inv fuel n : forall open_set closed_set,
  (forall x, In x open_set -> visitable g0 R x) ->
  triple (Inv g0 R G None) (do_action_loop n fuel topo open_set closed_set)
         (fun _ => Inv g0 R G None) (Stopped g0 R).
Proof.
  induction n as [| n IH]; intros open_set closed_set Hopen.
  - destruct open_set; cbn [do_action_loop].
    + now apply triple_ret.
    + apply triple_out_of_fuel. apply Inv_Stopped.
  - destruct open_set as [| src_op open_rest]; cbn [do_action_loop].
    + now apply triple_ret.
    + intros [g o] Hi. do 2 mret.
      set (next_ops := fold_left _ (outputs g src_op) []).
      assert (Hnext : forall x, In x next_ops -> visitable g0 R x).
      { intros x Hx. subst next_ops. apply In_next_ops in Hx.
        destruct Hx as [t [Ht Hx]]. apply In_outputs in Ht.
        destruct Ht as [Ht _].
        eapply visitable_consuming_op; eauto; [apply Hi |].
        rewrite Ht. apply Hopen. now left. }
      mcall (insert_swap_nodes_inv fuel src_op (Hopen src_op (or_introl eq_refl))
               _ Hi) as u g1 o1.
      mret. destruct (_swapped_max_tensors o1); [exact Hcall |].
      apply IH; [| exact Hcall].
      intros x Hx. apply In_enqueue_new in Hx.
      destruct Hx as [Hx | Hx]; [apply Hopen; now right | now apply Hnext].
Qed.

Lemma do_action_inv fuel src_ops :
  (forall x, In x src_ops -> visitable g0 R x) ->
  triple (Inv g0 R G None) (_do_action fuel topo src_ops)
         (fun _ => Inv g0 R G None) (Stopped g0 R).
Proof. intros H. unfold _do_action. now apply do_action_loop_inv. Qed.

End Primitives.

(* ================================================================== *)
(** ** The forward walk is closed under the consumer relation *)

Lemma set_union_subset acc l :
  (forall x, In x l -> In x acc) -> set_union acc l = acc.
Proof.
  unfold set_union. revert acc. induction l as [| y l IH]; intros acc H.
  - reflexivity.
  - cbn [fold_left]. unfold set_add at 2.
    assert (E : mem y acc = true) by (apply mem_In, H; now left).
    rewrite E. apply IH. intros x Hx. apply H. now right.
Qed.

Lemma filter_length_lt {A} (f h : A -> bool) (l : list A) x :
  (forall y, f y = true -> h y = true) ->
  In x l -> h x = true -> f x = false ->
  (List.length (filter f l) < List.length (filter h l))%nat.
Proof.
  intros Hfh. induction l as [| a l IH]; intros Hx Hh Hf; [destruct Hx |].
  assert (Hle : (List.length (filter f l) <= List.length (filter h l))%nat).
  { clear IH Hx Hh Hf. induction l as [| b l IHl]; [cbn; lia |].
    cbn [filter]. destruct (f b) eqn:Eb.
    - rewrite (Hfh b Eb). cbn. lia.
    - destruct (h b); cbn; lia. }
  cbn [filter]. destruct Hx as [-> | Hx].
  - rewrite Hh, Hf. cbn. lia.
  - specialize (IH Hx Hh Hf). destruct (f a) eqn:Ea.
    + rewrite (Hfh a Ea). cbn. lia.
    + destruct (h a); cbn; lia.
Qed.

Section WalkClosed.

Context {env : Env}.

Variable g : Graph.
Variable w : OpId -> bool.

Lemma walk_incl n : forall acc x, In x acc -> In x (ge.walk g w n acc).
Proof.
  induction n as [| n IH]; intros acc x Hx; cbn [ge.walk]; [exact Hx |].
  apply IH. apply In_set_union. now left.
Qed.

Lemma walk_stable n : forall acc, closed g w acc -> ge.walk g w n acc = acc.
Proof.
  induction n as [| n IH]; intros acc Hc; cbn [ge.walk]; [reflexivity |].
  rewrite set_union_subset.
  - now apply IH.
  - intros x Hx. apply in_flat_map in Hx. destruct Hx as [a [Ha Hx]].
    eapply Hc; eauto.
Qed.

Lemma walk_closed n : forall acc,
  (List.length (unreached g acc) <= n)%nat -> closed g w (ge.walk g w n acc).
Proof.
  induction n as [| n IH]; intros acc Hm.
  - cbn [ge.walk]. intros a x Ha Hx.
    apply successors_valid in Hx. apply In_make_list_of_op in Hx.
    destruct (mem x acc) eqn:E; [now apply mem_In |].
    exfalso.
    assert (Hin : In x (unreached g acc)).
    { unfold unreached. apply filter_In. split; [exact Hx |]. now rewrite E. }
    destruct (unreached g acc); [destruct Hin | cbn in Hm; lia].
  - cbn [ge.walk].
    destruct (forallb (fun x => mem x acc) (flat_map (ge.successors g w) acc))
      eqn:Ef.
    + rewrite forallb_forall in Ef.
      assert (Hc : closed g w acc).
      { intros a x Ha Hx. apply mem_In. apply Ef. apply in_flat_map. eauto. }
      rewrite set_union_subset.
      * rewrite walk_stable; assumption.
      * intros x Hx. apply mem_In. now apply Ef.
    + apply IH.
      assert (Hex : exists x, In x (flat_map (ge.successors g w) acc)
                              /\ mem x acc = false).
      { clear - Ef. induction (flat_map (ge.successors g w) acc) as [| y l IHl];
          [discriminate |].
        cbn [forallb] in Ef. destruct (mem y acc) eqn:Ey.
        - destruct (IHl Ef) as [x [Hx Hm]]. exists x. split; [now right | exact Hm].
        - exists y. split; [now left | exact Ey]. }
      destruct Hex as [x [Hx Hmx]].
      assert (Hv : In x (ge.make_list_of_op g)).
      { apply In_make_list_of_op. apply in_flat_map in Hx.
        destruct Hx as [a [_ Hx]]. eapply successors_valid; eauto. }
      assert (Hlt : (List.length (unreached g
                       (set_union acc (flat_map (ge.successors g w) acc)))
                     < List.length (unreached g acc))%nat).
      { unfold unreached. apply filter_length_lt with (x := x).
        - intros y Hy. apply negb_true_iff in Hy. apply negb_true_iff.
          apply mem_false in Hy. apply mem_false. intros Hin. apply Hy.
          apply In_set_union. now left.
        - exact Hv.
        - now rewrite Hmx.
        - apply negb_false_iff. apply mem_In. apply In_set_union. now right. }
      lia.
Qed.

End WalkClosed.

Lemma get_forward_walk_ops_closed g op :
  closed g (fun _ => true) (ge.get_forward_walk_ops g op).
Proof.
  unfold ge.get_forward_walk_ops. apply walk_closed.
  unfold unreached, ge.make_list_of_op.
  etransitivity; [apply filter_length_le |]. now rewrite length_seq.
Qed.

Lemma In_new_reachable_from g seeds x :
  In x (new_reachable_from g seeds) <->
  exists s, In s seeds /\ In x (ge.get_forward_walk_ops g s).
Proof.
  unfold new_reachable_from.
  assert (H : forall l acc,
    In x (fold_left (fun acc seed_op =>
            set_union acc (to_set (ge.get_forward_walk_ops g seed_op))) l acc)
    <-> In x acc \/ exists s, In s l /\ In x (ge.get_forward_walk_ops g s)).
  { induction l as [| s l IH]; intros acc; cbn [fold_left].
    - split; [now left | intros [H | [s [[] _]]]; exact H].
    - rewrite IH, In_set_union, In_to_set. split.
      + intros [[H | H] | [s' [Hs' H]]].
        * now left.
        * right. exists s. split; [now left | exact H].
        * right. exists s'. split; [now right | exact H].
      + intros [H | [s' [[<- | Hs'] H]]].
        * left. now left.
        * left. now right.
        * right. exists s'. split; assumption. }
  rewrite H. split; [intros [[] | Hx]; exact Hx | now right].
Qed.

(** In a well-formed graph, an operation that reads a value of a reachable
    operation is reachable. *)
Lemma new_reachable_from_closed g seeds c t :
  well_formed g -> valid g c -> In t (inputs (node g c)) ->
  In (fst t) (new_reachable_from g seeds) ->
  In c (new_reachable_from g seeds).
Proof.
  intros Hwf Hc Ht Hr. apply In_new_reachable_from in Hr.
  destruct Hr as [s [Hs Hr]]. apply In_new_reachable_from.
  exists s. split; [exact Hs |].
  apply (get_forward_walk_ops_closed g s (fst t) c Hr).
  unfold ge.successors. apply filter_In. split; [| reflexivity].
  apply in_flat_map. exists t. split.
  - apply In_outputs. split; [reflexivity |]. now apply (Hwf c t).
  - apply In_get_consuming_ops. split; assumption.
Qed.

(* ================================================================== *)
(** ** Outputs of atomic operations are never swapped out *)

Section AtomicOutputs.

Context {env : Env}.

Lemma graph_inv_refl g R : graph_inv g R g.
Proof.
  constructor.
  - lia.
  - intros c _. repeat split.
  - reflexivity.
  - intros so t Hn. unfold is_new in Hn. lia.
Qed.

Lemma grad_ops_of_valid g scopes : forall acc x,
  In x (grad_ops_of g scopes acc) -> In x acc \/ valid g x.
Proof.
  unfold grad_ops_of. induction scopes as [| sc scopes IH]; intros acc x Hx;
    cbn [fold_left] in Hx; [now left |].
  apply IH in Hx. destruct Hx as [Hx | Hx]; [| now right].
  apply In_set_union in Hx. destruct Hx as [Hx | Hx]; [now left |].
  right. apply -> In_to_set in Hx. unfold filter_ops_prefix in Hx.
  apply In_regex_ops in Hx. now apply In_make_list_of_op.
Qed.

Lemma seed_in_reachable g seeds x :
  In x seeds -> In x (new_reachable_from g seeds).
Proof.
  intros Hx. apply In_new_reachable_from. exists x. split; [exact Hx |].
  unfold ge.get_forward_walk_ops. apply walk_incl. now left.
Qed.

Lemma filter_scopes_and_types_cases g o within scopes types :
  _filter_scopes_and_types within scopes types (g, o)
  = (Ret (filtered_ops_of g within scopes types), (g, o))
  \/ exists e,
       _filter_scopes_and_types within scopes types (g, o)
       = (Raise e, (g, o)).
Proof.
  destruct (forallb (scope_matches g within) scopes) eqn:E1.
  - destruct (missing_types_of g within types) as [| ty tys] eqn:E2.
    + left. now apply filter_scopes_and_types_ok.
    + right.
      destruct (filter_scopes_and_types_err g o within scopes types)
        as [e [E _]]; [right; congruence |]. now exists e.
  - right.
    destruct (filter_scopes_and_types_err g o within scopes types)
      as [e [E _]]; [now left |]. now exists e.
Qed.

Lemma atomic_in_filtered g within scopes types op :
  (forall ty, In ty ATOMIC_TYPES -> In ty types) ->
  In op within -> atomic_type g op = true ->
  In op (filtered_ops_of g within scopes types).
Proof.
  intros Hty Hop Hat. unfold filtered_ops_of. apply In_set_union. right.
  apply In_to_set. apply filter_In. split; [exact Hop |].
  apply mem_str_In. apply Hty. now apply mem_str_In.
Qed.

Section RunInvariant.

Variable TOPOS_build : Graph -> list OpId -> list OpId -> TOPOS.
Variable fuel : nat.

(** The rewriting phase keeps the graph invariant, whatever its outcome;
    when it returns, it returns the difference of the two reachable sets,
    the backward operations taken out of both. *)
Lemma run_rewrite_post g seeds o :
  let R := new_reachable_from g seeds in
  static g R (_grad_ops o) ->
  (forall ty, In ty ATOMIC_TYPES -> In ty (_excl_types o)) ->
  levels_within g (TOPOS_build g seeds (_grad_ops o)) ->
  match run_rewrite TOPOS_build fuel g seeds R (g, o) with
  | (Ret r, (g', _)) =>
      graph_inv g R g'
      /\ r = Some (set_diff
                     (set_diff (new_reachable_from g' seeds) (_grad_ops o))
                     (set_diff R (_grad_ops o)))
  | (_, (g', _)) => graph_inv g R g'
  end.
Proof.
  intros R Hst Hty Hlev. unfold run_rewrite. mret.
  destruct (filter_scopes_and_types_cases g o R (_excl_scopes o) (_excl_types o))
    as [E | [msg E]].
  2:{ rewrite (bind_Raise _ _ _ _ _ E). apply graph_inv_refl. }
  rewrite (bind_Ret _ _ _ _ _ E). mret.
  set (o1 := set_excl_ops _ o).
  destruct (filter_scopes_and_types_cases g o1 R (_incl_scopes o) (_incl_types o))
    as [E' | [msg E']].
  2:{ rewrite (bind_Raise _ _ _ _ _ E'). apply graph_inv_refl. }
  rewrite (bind_Ret _ _ _ _ _ E'). do 2 mret.
  set (o2 := set_incl_ops _ o1).
  assert (Hi : Inv g R (_grad_ops o) None (g, o2)).
  { split; [apply graph_inv_refl |]. cbn [fst snd]. split; [| split].
    - intros op Hn. unfold is_new in Hn. lia.
    - intros op Hop Hat. subst o2 o1. destruct o; cbn in *.
      now apply atomic_in_filtered.
    - subst o2 o1. now destruct o. }
  assert (Hg : _grad_ops o2 = _grad_ops o) by (subst o2 o1; now destruct o).
  rewrite Hg.
  pose proof (do_action_inv g R (_grad_ops o) Hst
                (TOPOS_build g seeds (_grad_ops o)) Hlev fuel seeds
                (fun x Hx => or_introl (seed_in_reachable g seeds x Hx))
                (g, o2) Hi) as H.
  unfold bind at 1.
  destruct (_do_action fuel _ seeds (g, o2)) as [[u | e |] [g' o']].
  - do 2 mret. unfold ret. destruct H as [Hg' (_ & _ & Hgr)].
    cbn [fst snd] in *. split; [exact Hg' |]. now rewrite Hgr.
  - exact H.
  - exact H.
Qed.

Lemma run_rewrite_graph_inv g seeds o :
  let R := new_reachable_from g seeds in
  static g R (_grad_ops o) ->
  (forall ty, In ty ATOMIC_TYPES -> In ty (_excl_types o)) ->
  levels_within g (TOPOS_build g seeds (_grad_ops o)) ->
  graph_inv g R (fst (snd (run_rewrite TOPOS_build fuel g seeds R (g, o)))).
Proof.
  intros R Hst Hty Hlev.
  pose proof (run_rewrite_post g seeds o Hst Hty Hlev) as H.
  destruct (run_rewrite _ _ _ _ _ _) as [[r | e |] [g' o']]; cbn [fst snd];
    tauto.
Qed.

End RunInvariant.

Lemma static_run g o :
  well_formed g ->
  (forall x, In x (_grad_ops o) -> valid g x) ->
  static g (new_reachable_from g (run_seed_ops g o)) (run_grad_ops g o).
Proof.
  intros Hwf Hgr. constructor.
  - exact Hwf.
  - intros op. apply run_reachable_valid.
  - intros c t. now apply new_reachable_from_closed.
  - intros op Hop. apply grad_ops_of_valid in Hop.
    destruct Hop as [Hop | Hop]; auto.
Qed.

(** Whatever [run] does to the graph of a caller, the result is related to
    the original by [graph_inv]. *)
Lemma run_graph_inv tb fuel gr g o :
  well_formed g ->
  memo_consistent g o ->
  (forall x, In x (_grad_ops o) -> valid g x) ->
  (forall ty, In ty ATOMIC_TYPES -> In ty (_excl_types o)) ->
  (forall seeds grad, levels_within g (tb g seeds grad)) ->
  graph_inv g (new_reachable_from g (run_seed_ops g o))
            (fst (snd (run tb fuel gr (g, o)))).
Proof.
  intros Hwf Hm Hgr Hty Hlev.
  destruct (Z.eq_dec (_n_tensors o) 0) as [Hn | Hn].
  { rewrite run_disabled by exact Hn. apply graph_inv_refl. }
  destruct (graph_given gr o) eqn:Hg.
  2:{ rewrite run_enabled by exact Hn.
      destruct gr as [r |]; [destruct (_graph o); discriminate |].
      rewrite (run_entry_no_graph o Hg). apply graph_inv_refl. }
  destruct (seeds_resolve g o) eqn:Hs.
  2:{ unfold seeds_resolve in Hs.
      destruct (forallb (prefix_matches g) (_optimizer_scopes o)) eqn:E1.
      - destruct (run_seed_err tb fuel gr g o Hn Hg E1 Hs) as [e [o' [E _]]].
        rewrite E. apply graph_inv_refl.
      - destruct (run_grad_err tb fuel gr g o Hn Hg E1) as [e [o' [E _]]].
        rewrite E. apply graph_inv_refl. }
  rewrite run_analysis by assumption.
  unfold run_reachable_ops. rewrite reachable_ops_of_consistent by exact Hm.
  destruct (already_rewritten g _); [apply graph_inv_refl |].
  destruct (analysed_fields gr g o) as (_ & F2 & _ & _ & F5).
  apply run_rewrite_graph_inv.
  - rewrite F5. now apply static_run.
  - now rewrite F2.
  - apply Hlev.
Qed.

Lemma init_fresh a o :
  __init__ a = Ret o ->
  _ops_dict o = [] /\ _grad_ops o = []
  /\ forall ty, In ty ATOMIC_TYPES -> In ty (_excl_types o).
Proof.
  unfold __init__. destruct (negb _); [discriminate |].
  intros E. injection E as <-.
  split; [reflexivity | split; [reflexivity |]].
  intros ty Hty.
  apply (proj2 (In_str_union ty (excl_types a) ATOMIC_TYPES)). now right.
Qed.


End AtomicOutputs.

Lemma ex_graph_atomic_well_formed : well_formed ex_graph_atomic.
Proof.
  intros c t Hc Ht. unfold valid in *. cbn in Hc.
  do 4 (destruct c as [| c];
        [cbn in Ht; intuition (subst; cbn; lia) |]).
  lia.
Qed.

Lemma ex_topos_levels_within g seeds grad :
  levels_within ex_graph_atomic (ex_topos g seeds grad).
Proof.
  intros op Hop. unfold valid in Hop. cbn in Hop. cbn [ex_topos get_order].
  destruct (op <? 4)%nat eqn:E; [apply Nat.ltb_lt in E; lia | lia].
Qed.

(** In [ex_graph_atomic] the run swaps the output of [A] (operations 4 and
    5) and leaves the output of the [Add] operation [B] alone. *)
Example atomic_example :
  map name ex_graph_atomic_rewritten
  = ["A"; "B"; "grad/C"; "grad/D"; "lms/swapout"; "lms/swapin"]
  /\ inputs (node ex_graph_atomic_rewritten 4) = [(0, 0)%nat]
  /\ inputs (node ex_graph_atomic_rewritten 2) = [(5, 0)%nat; (1, 0)%nat].
Proof. vm_compute. repeat split. Qed.




(* ================================================================== *)
(** ** The operations returned by a rewriting run *)

Section Result.

Context {env : Env}.

Lemma walk_within g w (P : OpId -> Prop) n :
  (forall a x, P a -> In x (ge.successors g w a) -> P x) ->
  forall acc, (forall a, In a acc -> P a) ->
  forall x, In x (ge.walk g w n acc) -> P x.
Proof.
  intros Hs. induction n as [| n IH]; intros acc Hacc x Hx;
    cbn [ge.walk] in Hx; [now apply Hacc |].
  eapply IH; [| exact Hx]. intros a Ha.
  apply In_set_union in Ha. destruct Ha as [Ha | Ha]; [now apply Hacc |].
  apply in_flat_map in Ha. destruct Ha as [b [Hb Ha]].
  eapply Hs; [| exact Ha]. now apply Hacc.
Qed.

(** After the rewrite, everything reachable from the seed operations was
    reachable before or is new. *)
Lemma new_reachable_visitable g0 R G g seeds x :
  static g0 R G -> graph_inv g0 R g ->
  (forall s, In s seeds -> In s R) ->
  In x (new_reachable_from g seeds) -> visitable g0 R x.
Proof.
  intros Hst Hg Hseeds Hx. apply In_new_reachable_from in Hx.
  destruct Hx as [s [Hs Hx]]. unfold ge.get_forward_walk_ops in Hx.
  eapply (walk_within g (fun _ => true) (visitable g0 R)); [| | exact Hx].
  - intros a y Ha Hy. unfold ge.successors in Hy.
    apply filter_In in Hy. destruct Hy as [Hy _].
    apply in_flat_map in Hy. destruct Hy as [t [Ht Hy]].
    apply In_outputs in Ht. destruct Ht as [Ht _].
    eapply visitable_consuming_op; eauto. now rewrite Ht.
  - intros a [<- | []]. left. now apply Hseeds.
Qed.

Lemma filter_twice {A} (f h : A -> bool) (l : list A) :
  filter f (filter h l) = filter (fun x => h x && f x) l.
Proof.
  induction l as [| a l IH]; [reflexivity |].
  cbn [filter]. destruct (h a); cbn [andb filter]; rewrite IH; reflexivity.
Qed.

Lemma set_diff_ext a (f h : OpId -> bool) :
  (forall x, In x a -> f x = h x) -> filter f a = filter h a.
Proof.
  induction a as [| y a IH]; intros H; [reflexivity |].
  cbn [filter]. rewrite (H y (or_introl eq_refl)).
  rewrite IH; [reflexivity |]. intros x Hx. apply H. now right.
Qed.

(** X19: when [run] returns a set, it is the set of the operations
    reachable from the seed operations after the rewrite and not before,
    and all of them were created by the run. *)
Lemma run_returns_new_ops tb fuel gr g a o ops :
  __init__ a = Ret o ->
  well_formed g ->
  (forall seeds grad, levels_within g (tb g seeds grad)) ->
  fst (run tb fuel gr (g, o)) = Ret (Some ops) ->
  let g' := fst (snd (run tb fuel gr (g, o))) in
  let seeds := run_seed_ops g o in
  ops = set_diff (new_reachable_from g' seeds) (new_reachable_from g seeds)
  /\ forall op, In op ops -> (List.length g <= op < List.length g')%nat.
Proof.
  intros Hinit Hwf Hlev Hres g' seeds. subst g'.
  destruct (init_fresh a o Hinit) as (Hd & Hgr & Hty).
  assert (Hm : memo_consistent g o).
  { intros x l Hl. unfold lookup in Hl. rewrite Hd in Hl. discriminate. }
  destruct (Z.eq_dec (_n_tensors o) 0) as [Hn | Hn].
  { rewrite run_disabled in Hres by exact Hn. discriminate. }
  destruct (graph_given gr o) eqn:Hg.
  2:{ rewrite run_enabled in Hres by exact Hn.
      destruct gr as [r |]; [destruct (_graph o); discriminate |].
      rewrite (run_entry_no_graph o Hg) in Hres. discriminate. }
  destruct (seeds_resolve g o) eqn:Hs.
  2:{ unfold seeds_resolve in Hs.
      destruct (forallb (prefix_matches g) (_optimizer_scopes o)) eqn:E1.
      - destruct (run_seed_err tb fuel gr g o Hn Hg E1 Hs) as [msg [o' [E _]]].
        rewrite E in Hres. discriminate.
      - destruct (run_grad_err tb fuel gr g o Hn Hg E1) as [msg [o' [E _]]].
        rewrite E in Hres. discriminate. }
  rewrite run_analysis in Hres |- * by assumption.
  unfold run_reachable_ops in *.
  rewrite reachable_ops_of_consistent in Hres |- * by exact Hm.
  destruct (already_rewritten g _); [discriminate |].
  destruct (analysed_fields gr g o) as (_ & F2 & _ & _ & F5).
  assert (Hst : static g (new_reachable_from g seeds)
                       (_grad_ops (analysed gr g o))).
  { rewrite F5. apply static_run; [exact Hwf |]. rewrite Hgr. intros x []. }
  pose proof (run_rewrite_post tb fuel g seeds (analysed gr g o) Hst
                ltac:(now rewrite F2) (Hlev _ _)) as H.
  fold seeds in Hres |- *.
  destruct (run_rewrite tb fuel g seeds _ _) as [[r | e |] [g' o']];
    cbn [fst snd] in *; try discriminate.
  destruct H as [Hinv Hr]. injection Hres as ->. injection Hr as ->.
  set (G := _grad_ops (analysed gr g o)) in *.
  set (R := new_reachable_from g seeds) in *.
  set (A := new_reachable_from g' seeds).
  assert (Hnew : forall x, In x A -> ~ In x R ->
                 (List.length g <= x < List.length g')%nat /\ ~ In x G).
  { intros x Hx Hn'.
    assert (Hv : visitable g R x).
    { apply (new_reachable_visitable g R G g' seeds x Hst Hinv);
        [| exact Hx].
      intros s Hs'. now apply seed_in_reachable. }
    destruct Hv as [Hv | Hv]; [contradiction |].
    split.
    - split; [exact Hv |].
      eapply new_reachable_from_valid; [| exact Hx].
      intros s Hs'. pose proof (seed_ops_of_valid g _ s Hs') as Hv'.
      pose proof (gi_length Hinv). unfold valid in *. lia.
    - intros HG. pose proof (st_G_valid Hst x HG) as Hv'.
      unfold valid in Hv'. lia. }
  assert (E : set_diff (set_diff A G) (set_diff R G) = set_diff A R).
  { unfold set_diff at 1 2 4. rewrite filter_twice.
    apply set_diff_ext. intros x Hx.
    destruct (mem x R) eqn:ER; cbn [negb].
    - destruct (mem x G) eqn:EG; cbn [negb andb]; [reflexivity |].
      apply negb_false_iff. apply mem_In.
      apply In_set_diff. split; [now apply mem_In | now apply mem_false].
    - apply mem_false in ER. destruct (Hnew x Hx ER) as [_ HG].
      apply mem_false in HG. rewrite HG. cbn [negb andb].
      apply negb_true_iff. apply mem_false.
      intros Hin. apply In_set_diff in Hin. tauto. }
  split; [exact E |].
  intros op Hop. rewrite E in Hop. apply In_set_diff in Hop.
  destruct Hop as [Hop Hn']. now apply Hnew.
Qed.

End Result.

(* ================================================================== *)
(** ** What fusion does to the graph *)

Section Fusion.

Context {env : Env}.

Lemma update_ext g : forall d (f h : Node -> Node),
  (forall n, f n = h n) -> ge.update g d f = ge.update g d h.
Proof.
  induction g as [| n g IH]; intros d f h E; [reflexivity |].
  destruct d; cbn [ge.update]; [now rewrite E | now rewrite (IH d f h E)].
Qed.

Lemma index_of_complete t l : In t l -> exists i, ge.index_of t l = Some i.
Proof.
  induction l as [| x l IH]; intros H; [destruct H |].
  cbn [ge.index_of]. destruct (tensor_eqb t x) eqn:E; [eauto |].
  destruct H as [-> | H].
  - assert (tensor_eqb t t = true) by now apply tensor_eqb_eq. congruence.
  - destruct (IH H) as [i ->]. cbn. eauto.
Qed.

Lemma In_dedup t l : forall seen,
  In t l -> In t (ge.dedup l seen) \/ In t seen.
Proof.
  induction l as [| x l IH]; intros seen H; [destruct H |].
  cbn [ge.dedup]. destruct (mem_tensor x seen) eqn:E.
  - destruct H as [-> | H]; [right; now apply mem_tensor_In | now apply IH].
  - destruct H as [-> | H]; [left; now left |].
    destruct (IH (x :: seen) H) as [H' | [-> | H']].
    + left. now right.
    + left. now left.
    + now right.
Qed.

Lemma reroute_single si ts0 t :
  ge.reroute [(si, 0%nat)] [ts0] t = if tensor_eqb t ts0 then (si, 0%nat) else t.
Proof.
  unfold ge.reroute. cbn [ge.index_of].
  destruct (tensor_eqb t ts0); reflexivity.
Qed.

Lemma outputs_single g op :
  n_outputs (node g op) = 1%nat -> outputs g op = [(op, 0%nat)].
Proof. intros H. unfold outputs. now rewrite H. Qed.

(** Rewiring one consumer to the shared swap-in operation. *)
Lemma connect_ops_rewire g o si op ts0 :
  n_outputs (node g si) = 1%nat ->
  In ts0 (inputs (node g op)) ->
  exists idx,
    ge.input_index (ge.sgv g op) ts0 = Some idx
    /\ _connect_ops si op true false (Some idx) (g, o)
       = (Ret tt, (ge.update g op (rewire ts0 si), o)).
Proof.
  intros Hn Hin.
  destruct (In_dedup ts0 (inputs (node g op)) [] Hin) as [Hd | []].
  destruct (index_of_complete ts0 _ Hd) as [idx Hidx].
  exists idx. split; [exact Hidx |].
  unfold _connect_ops. do 2 mret.
  unfold ge.remap_inputs. cbn [ge.sgv ge.sgv_inputs ge.sgv_op ge.sgv_outputs].
  rewrite (index_of_In _ _ _ Hidx). cbn [option_map]. mret.
  unfold ge.connect. cbn [ge.sgv ge.sgv_inputs ge.sgv_op ge.sgv_outputs].
  rewrite (outputs_single g si Hn). cbn [List.length Nat.eqb]. mret.
  unfold put_graph. cbn [fst snd]. f_equal. f_equal.
  apply update_ext. intros n. unfold rewire. f_equal.
  apply map_ext. intros t. apply reroute_single.
Qed.

(** The loop of [_fuse_swapin_ops]: every operation of the list is rewired,
    nothing else changes. *)
Lemma fuse_loop si ts0 l : forall g o,
  NoDup l ->
  (forall op, In op l -> In ts0 (inputs (node g op)) /\ op <> si) ->
  n_outputs (node g si) = 1%nat ->
  exists g',
    for_each l (fun op =>
      g <- get_graph ;;
      input_idx <- lift_ge (ge.input_index (ge.sgv g op) ts0) ;;
      _connect_ops si op true false (Some input_idx) ;;;
      ret Next) (g, o) = (Ret Next, (g', o))
    /\ List.length g' = List.length g
    /\ forall c, node g' c = if mem c l then
                               (if (c <? List.length g)%nat
                                then rewire ts0 si (node g c) else node g c)
                             else node g c.
Proof.
  induction l as [| op l IH]; intros g o Hnd Hl Hsi.
  - exists g. repeat split.
  - inversion Hnd as [| x l' Hnotin Hnd']; subst.
    destruct (Hl op (or_introl eq_refl)) as [Hin Hne].
    destruct (connect_ops_rewire g o si op ts0 Hsi Hin) as [idx [Hidx Hc]].
    set (g1 := ge.update g op (rewire ts0 si)).
    assert (Hother : forall c, c <> op -> node g1 c = node g c).
    { intros c Hc'. subst g1. now apply node_update_other. }
    destruct (IH g1 o Hnd') as [g' [Hloop [Hlen Hnode]]].
    { intros op' Hop'. rewrite Hother.
      - apply Hl. now right.
      - intros ->. contradiction. }
    { rewrite Hother; [exact Hsi | congruence]. }
    exists g'. split; [| split].
    + cbn [for_each].
      match goal with
      | |- bind ?m ?k ?s = _ => assert (Hb : m s = (Ret Next, (g1, o)))
      end.
      { mret. rewrite Hidx. mret.
        erewrite bind_Ret by exact Hc. reflexivity. }
      rewrite (bind_Ret _ _ _ _ _ Hb). exact Hloop.
    + rewrite Hlen. subst g1. apply length_update.
    + intros c. rewrite Hnode. cbn [mem existsb].
      assert (Hlen1 : List.length g1 = List.length g)
        by (subst g1; apply length_update).
      rewrite Hlen1.
      destruct (Nat.eqb c op) eqn:Ec.
      * apply Nat.eqb_eq in Ec. subst c. cbn [orb].
        assert (Hm : mem op l = false) by now apply mem_false.
        fold (mem op l). rewrite Hm.
        destruct (op <? List.length g)%nat eqn:Elt.
        -- apply Nat.ltb_lt in Elt. subst g1. now apply node_update_same.
        -- apply Nat.ltb_ge in Elt. subst g1. apply node_update_out. lia.
      * cbn [orb]. fold (mem c l). apply Nat.eqb_neq in Ec.
        rewrite (Hother c Ec). reflexivity.
Qed.

(** Connecting the swap-out operation to a new swap-in operation. *)
Lemma connect_ops_plain g o so si ts0 :
  n_outputs (node g so) = 1%nat ->
  inputs (node g si) = [ts0] ->
  _connect_ops so si false false None (g, o)
  = (Ret tt, (ge.update g si (rewire ts0 so), o)).
Proof.
  intros Hn Hin. unfold _connect_ops. do 3 mret.
  unfold ge.connect. cbn [ge.sgv ge.sgv_inputs ge.sgv_op ge.sgv_outputs].
  rewrite (outputs_single g so Hn), Hin.
  cbn [ge.dedup mem_tensor existsb List.length Nat.eqb]. mret.
  unfold put_graph. cbn [fst snd]. f_equal. f_equal.
  apply update_ext. intros n. unfold rewire. f_equal.
  apply map_ext. intros t. apply reroute_single.
Qed.

(** The resolver reads the graph and never raises. *)
Lemma resolve_control_dependency_graph fuel topo fw_op bw_op g o :
  exists out o',
    resolve_control_dependency fuel topo fw_op bw_op (g, o) = (out, (g, o'))
    /\ forall e, out <> Raise e.
Proof.
  assert (Hd : forall lb ub, exists out o',
    _do_direct_order topo fw_op bw_op lb ub (g, o) = (out, (g, o'))
    /\ forall e, out <> Raise e).
  { intros lb ub. unfold _do_direct_order.
    destruct (direct_order_scan_spec topo bw_op g
                (direct_order_levels (get_order topo fw_op)
                   (get_order topo bw_op) lb ub) o) as [o' [E _]].
    rewrite (bind_Ret _ _ _ _ _ E).
    destruct (fst _); eexists; eexists; (split; [reflexivity | discriminate]). }
  assert (Hc : forall lb ub, exists out o',
    _do_chain_rule fuel topo fw_op bw_op lb ub (g, o) = (out, (g, o'))
    /\ forall e, out <> Raise e).
  { intros lb ub. unfold _do_chain_rule.
    destruct (_ <? _); [apply Hd |]. do 2 mret.
    destruct (chain_rule_loop _ _ _ _ _ _ _ _ _ _ _ _) as [[| x l] |];
      eexists; eexists; (split; [reflexivity | discriminate]). }
  unfold resolve_control_dependency. mret.
  destruct (mem fw_op (_grad_ops o)); [apply Hd |].
  destruct (_ctrld_strategy o); [apply Hc | apply Hd].
Qed.

(** The search of the earliest operation finds an operation of the lowest
    level. *)
Lemma earliest_lowest topo ops :
  ops <> [] ->
  (forall op, In op ops -> get_order topo op <= size topo) ->
  exists e, earliest topo ops = Some e /\ In e ops
            /\ forall op, In op ops -> get_order topo e <= get_order topo op.
Proof.
  intros Hne Hsz. unfold earliest.
  assert (H : forall l m e,
    (e = None -> m = size topo + 1) ->
    (forall x, e = Some x -> m = get_order topo x) ->
    (forall op, In op l -> get_order topo op <= size topo) ->
    let r := fold_left (fun me op =>
                          if get_order topo op <? fst me
                          then (get_order topo op, Some op) else me)
                       l (m, e) in
    (l <> [] \/ e <> None -> snd r <> None)
    /\ (forall x, snd r = Some x ->
          (In x l \/ e = Some x)
          /\ fst r = get_order topo x
          /\ fst r <= m
          /\ forall op, In op l -> get_order topo x <= get_order topo op)).
  { induction l as [| a l IH]; intros m e He1 He2 Hl r; subst r;
      cbn [fold_left].
    - split.
      + intros [H | H]; [congruence | exact H].
      + intros x Hx. cbn [snd fst] in *.
        split; [now right |]. split; [now apply He2 |]. split; [lia |].
        intros op [].
    - destruct (get_order topo a <? fst (m, e)) eqn:Ea; cbn [fst] in Ea.
      + apply Z.ltb_lt in Ea.
        destruct (IH (get_order topo a) (Some a)) as [I1 I2].
        * discriminate.
        * intros x E. now injection E as <-.
        * intros op Hop. apply Hl. now right.
        * split.
          -- intros _. apply I1. right. discriminate.
          -- intros x Hx. destruct (I2 x Hx) as (Hin & E1 & E2 & E3).
             split; [| split; [exact E1 | split; [lia |]]].
             ++ destruct Hin as [Hin | Hin]; [left; now right |].
                injection Hin as <-. left. now left.
             ++ intros op [<- | Hop]; [lia | auto].
      + apply Z.ltb_ge in Ea.
        destruct (IH m e He1 He2) as [I1 I2].
        * intros op Hop. apply Hl. now right.
        * split.
          -- intros _. apply I1. right. intros ->.
             specialize (He1 eq_refl). specialize (Hl a (or_introl eq_refl)). lia.
          -- intros x Hx. destruct (I2 x Hx) as (Hin & E1 & E2 & E3).
             split; [| split; [exact E1 | split; [exact E2 |]]].
             ++ destruct Hin; [left; now right | now right].
             ++ intros op [<- | Hop]; [lia | auto]. }
  destruct (H ops (size topo + 1) None) as [H1 H2]; auto; try discriminate.
  destruct (snd (fold_left _ ops (size topo + 1, None))) as [e |] eqn:E.
  - exists e. destruct (H2 e eq_refl) as ([Hin | Hin] & _ & _ & Hmin);
      [| discriminate].
    split; [reflexivity |]. split; assumption.
  - exfalso. apply H1; auto.
Qed.

(** A control dependency for an operation that has none yet. *)
Lemma add_control_dependency_fresh fuel topo fw_op bw_op si g o :
  control_inputs (node g si) = [] ->
  exists out g' o',
    _add_control_dependency fuel topo fw_op bw_op si (g, o) = (out, (g', o'))
    /\ (out = Ret tt \/ out = OutOfFuel)
    /\ List.length g' = List.length g
    /\ (forall c, c <> si -> node g' c = node g c)
    /\ name (node g' si) = name (node g si)
    /\ type (node g' si) = type (node g si)
    /\ inputs (node g' si) = inputs (node g si).
Proof.
  intros Hci. unfold _add_control_dependency.
  destruct (resolve_control_dependency_graph fuel topo fw_op bw_op g o)
    as [out [o' [Hres Hnr]]].
  destruct out as [re | e |].
  2:{ exfalso. now apply (Hnr e). }
  2:{ exists OutOfFuel, g, o'. split.
      - now rewrite (bind_OutOfFuel _ _ _ _ Hres).
      - split; [now right |]. repeat split. }
  rewrite (bind_Ret _ _ _ _ _ Hres).
  destruct (fst re) as [c |].
  2:{ exists (Ret tt), g, o'. split; [reflexivity |].
      split; [now left |]. repeat split. }
  mret. unfold ge.add_control_inputs. rewrite Hci. cbn [mem existsb].
  exists (Ret tt),
    (ge.update g si
       (fun n => ge.set_control_inputs n (control_inputs n ++ [c]))), o'.
  split; [mret; reflexivity |].
  split; [now left |].
  split; [apply length_update |].
  split; [intros c' Hc'; now apply node_update_other |].
  destruct (lt_dec si (List.length g)) as [Hlt | Hge].
  - rewrite node_update_same by exact Hlt.
    destruct (node g si) as [nm ty ins cs k dv].
    cbn [ge.set_control_inputs name type inputs]. repeat split.
  - rewrite node_update_out by exact Hge. repeat split.
Qed.

(** The first steps of fusion: the swap-in operation is created behind the
    swap-out operation and recorded in [_excl_ops], the fused consumers are
    rewired to it; what is left is the control dependency for the earliest
    of them. *)
Lemma fuse_swapin_ops_steps fuel topo src_op swapout_op bw ts0 (g : Graph) o :
  let fuse := filter (fun op => get_order topo op >? 0) bw in
  let si := List.length g in
  (2 <= List.length fuse)%nat ->
  NoDup bw ->
  (forall op, In op fuse -> valid g op /\ In ts0 (inputs (node g op))) ->
  valid g swapout_op -> n_outputs (node g swapout_op) = 1%nat ->
  exists g3 : Graph,
    List.length g3 = S (List.length g)
    /\ (forall c, valid g c ->
          node g3 c = if mem c fuse then rewire ts0 si (node g c)
                      else node g c)
    /\ node g3 si
       = mkNode (tf.unique_name g (tf.scoped "lms/swapin")) "Identity"
                [(swapout_op, 0%nat)] [] 1 (device_name (_cpu_device o))
    /\ _fuse_swapin_ops fuel topo src_op swapout_op bw ts0 (g, o)
       = (match earliest topo fuse with
          | Some earliest_op =>
              _add_control_dependency fuel topo src_op earliest_op si
          | None => ret tt
          end ;;;
          ret (set_diff bw fuse))
           (g3, set_excl_ops (set_add si (_excl_ops o)) o).
Proof.
  intros fuse si Hlen Hnd Hfuse Hso Hso1. unfold _fuse_swapin_ops. fold fuse.
  assert (El : (2 <=? List.length fuse)%nat = true) by now apply Nat.leb_le.
  rewrite El. do 3 mret. unfold tf.identity. cbn [fst snd]. fold si.
  set (n := mkNode (tf.unique_name g (tf.scoped "lms/swapin")) "Identity"
                   [ts0] [] 1 (device_name (_cpu_device o))).
  set (g1 := g ++ [n]).
  assert (Hold1 : forall c, valid g c -> node g1 c = node g c).
  { intros c Hc. subst g1. now apply node_app_old. }
  assert (Hsi1 : node g1 si = n) by (subst g1 si; apply node_app_new).
  erewrite bind_Ret.
  2:{ apply connect_ops_plain with (ts0 := ts0).
      - now rewrite Hold1.
      - now rewrite Hsi1. }
  mret.
  set (g2 := ge.update g1 si (rewire ts0 swapout_op)).
  assert (Hlen1 : List.length g1 = S (List.length g)).
  { subst g1. rewrite length_app. cbn. lia. }
  assert (Hsi2 : node g2 si = rewire ts0 swapout_op n).
  { subst g2. rewrite node_update_same by (subst si; lia). now rewrite Hsi1. }
  assert (Hold2 : forall c, valid g c -> node g2 c = node g c).
  { intros c Hc. subst g2. rewrite node_update_other.
    - now apply Hold1.
    - unfold valid in Hc. subst si. lia. }
  assert (Hlen2 : List.length g2 = S (List.length g)).
  { subst g2. now rewrite length_update. }
  assert (Hndf : NoDup fuse) by (subst fuse; now apply NoDup_filter).
  destruct (fuse_loop si ts0 fuse g2
              (set_excl_ops (set_add si (_excl_ops o)) o) Hndf)
    as [g3 [Hloop [Hlen3 Hnode3]]].
  { intros op Hop. destruct (Hfuse op Hop) as [Hv Hin]. split.
    - now rewrite Hold2.
    - unfold valid in Hv. subst si. lia. }
  { now rewrite Hsi2. }
  rewrite (bind_Ret _ _ _ _ _ Hloop).
  exists g3. split; [now rewrite Hlen3 |]. split; [| split; [| reflexivity]].
  - intros c Hc. rewrite Hnode3, Hlen2, (Hold2 c Hc).
    assert (Hlt : (c <? S (List.length g))%nat = true).
    { apply Nat.ltb_lt. unfold valid in Hc. lia. }
    now rewrite Hlt.
  - rewrite Hnode3.
    assert (Hm : mem si fuse = false).
    { apply mem_false. intros Hin. destruct (Hfuse si Hin) as [Hv _].
      unfold valid in Hv. subst si. lia. }
    rewrite Hm, Hsi2. unfold rewire, n. cbn [ge.set_inputs inputs map name
      type control_inputs n_outputs device].
    assert (E : tensor_eqb ts0 ts0 = true) by now apply tensor_eqb_eq.
    now rewrite E.
Qed.

(** What a call that fuses leaves behind. *)
Lemma fuse_swapin_ops_result fuel topo src_op swapout_op bw ts0 g o :
  let fuse := filter (fun op => get_order topo op >? 0) bw in
  (2 <= List.length fuse)%nat ->
  NoDup bw ->
  (forall op, In op fuse -> valid g op /\ In ts0 (inputs (node g op))) ->
  valid g swapout_op -> n_outputs (node g swapout_op) = 1%nat ->
  exists out g' o',
    _fuse_swapin_ops fuel topo src_op swapout_op bw ts0 (g, o)
    = (out, (g', o'))
    /\ (out = Ret (set_diff bw fuse) \/ out = OutOfFuel)
    /\ List.length g' = S (List.length g)
    /\ (forall c, valid g c ->
          node g' c = if mem c fuse then rewire ts0 (List.length g) (node g c)
                      else node g c)
    /\ name (node g' (List.length g)) = tf.unique_name g (tf.scoped "lms/swapin")
    /\ type (node g' (List.length g)) = "Identity"
    /\ inputs (node g' (List.length g)) = [(swapout_op, 0%nat)].
Proof.
  intros fuse Hlen Hnd Hfuse Hso Hso1.
  destruct (fuse_swapin_ops_steps fuel topo src_op swapout_op bw ts0 g o
              Hlen Hnd Hfuse Hso Hso1) as (g3 & Hlen3 & Hold3 & Hsi3 & E).
  fold fuse in E, Hold3.
  set (o3 := set_excl_ops _ o) in E.
  destruct (earliest topo fuse) as [e |].
  2:{ exists (Ret (set_diff bw fuse)), g3, o3.
      split; [exact E |]. split; [now left |].
      split; [exact Hlen3 |]. split; [exact Hold3 |].
      rewrite Hsi3. repeat split. }
  destruct (add_control_dependency_fresh fuel topo src_op e (List.length g)
              g3 o3) as (out & g' & o' & Ec & Hout & Hl & Hoth & Hn & Ht & Hi).
  { now rewrite Hsi3. }
  rewrite Hsi3 in Hn, Ht, Hi. cbn [name type inputs] in Hn, Ht, Hi.
  assert (Hold : forall c, valid g c ->
            node g' c = if mem c fuse then rewire ts0 (List.length g) (node g c)
                        else node g c).
  { intros c Hc. rewrite Hoth; [now apply Hold3 |].
    unfold valid in Hc. lia. }
  destruct Hout as [-> | ->].
  - exists (Ret (set_diff bw fuse)), g', o'. split.
    + rewrite E. now rewrite (bind_Ret _ _ _ _ _ Ec).
    + split; [now left |]. split; [lia |]. split; [exact Hold |].
      now repeat split.
  - exists OutOfFuel, g', o'. split.
    + rewrite E. now rewrite (bind_OutOfFuel _ _ _ _ Ec).
    + split; [now right |]. split; [lia |]. split; [exact Hold |].
      now repeat split.
Qed.

(** X17: fusion, when it applies: one operation is added to the graph, the
    swap-in operation, which reads the swap-out operation; the input slots
    of every fused consumer that read [ts0] now read the swap-in operation;
    no other operation of the graph changes.  The call returns the
    consumers it did not fuse, unless the search of a control dependency
    runs out of fuel; it raises nothing. *)
Lemma fuse_swapin_ops_fuses fuel topo src_op swapout_op bw ts0 g o :
  let fuse := filter (fun op => get_order topo op >? 0) bw in
  (2 <= List.length fuse)%nat ->
  NoDup bw ->
  (forall op, In op fuse -> valid g op /\ In ts0 (inputs (node g op))) ->
  valid g swapout_op -> n_outputs (node g swapout_op) = 1%nat ->
  exists out g' o',
    _fuse_swapin_ops fuel topo src_op swapout_op bw ts0 (g, o)
    = (out, (g', o'))
    /\ (out = Ret (set_diff bw fuse) \/ out = OutOfFuel)
    /\ List.length g' = S (List.length g)
    /\ (forall c, valid g c ->
          node g' c = if mem c fuse then rewire ts0 (List.length g) (node g c)
                      else node g c)
    /\ name (node g' (List.length g)) = tf.unique_name g (tf.scoped "lms/swapin")
    /\ type (node g' (List.length g)) = "Identity"
    /\ inputs (node g' (List.length g)) = [(swapout_op, 0%nat)].
Proof. apply fuse_swapin_ops_result. Qed.

End Fusion.

(* ================================================================== *)
(** ** What [run] returns *)

(** C1: the two early exits of [run] end in a bare [return]: the caller
    gets [None], not an empty set.  With LMS turned off, and on a graph
    that is already rewritten, the result is [None]; a run that rewrites
    returns the set of the operations reachable afterwards and not
    before (here the four swap operations). *)
Theorem run_early_exit_returns_none :
  fst (run ex_topos 10 (Some the_graph) (ex_graph, lms_of ex_args_off))
  = Ret None
  /\ fst (run ex_topos 10 (Some the_graph) (ex_graph_rewritten, ex_lms))
     = Ret None
  /\ fst (run ex_topos 10 (Some the_graph) (ex_graph, ex_lms))
     = Ret (Some [4; 6; 5; 7]%nat)
  /\ Ret (A := option (list OpId)) None <> Ret (Some []).
Proof.
  split; [vm_compute; reflexivity |].
  split; [vm_compute; reflexivity |].
  split; [vm_compute; reflexivity |].
  discriminate.
Qed.

(* ================================================================== *)
(** ** Fusion of swap-in operations *)

Section FusionClaims.

Context {env : Env}.

(** X18: the operation chosen as [earliest_op] has the lowest level of the
    fused operations, provided their levels do not exceed [size]. *)
Lemma earliest_is_lowest topo ops :
  ops <> [] ->
  (forall op, In op ops -> get_order topo op <= size topo) ->
  exists e, earliest topo ops = Some e /\ In e ops
            /\ forall op, In op ops -> get_order topo e <= get_order topo op.
Proof. apply earliest_lowest. Qed.



End FusionClaims.



(** A run with fusion on [ex_graph_fuse]: the two reloads of the output of
    [A] are fused into the one swap-in operation 5, read by both consumers;
    its control dependency is searched for [grad/C1], the consumer of the
    lowest level. *)
Example fusion_example :
  map name (fst (snd (run ex_topos_fuse 10 (Some the_graph)
                        (ex_graph_fuse, lms_of ex_args_fuse))))
  = ["A"; "grad/C1"; "grad/C2"; "grad/D"; "lms/swapout"; "lms/swapin"]
  /\ inputs (node (fst (snd (run ex_topos_fuse 10 (Some the_graph)
                               (ex_graph_fuse, lms_of ex_args_fuse)))) 1)
     = [(5, 0)%nat]
  /\ inputs (node (fst (snd (run ex_topos_fuse 10 (Some the_graph)
                               (ex_graph_fuse, lms_of ex_args_fuse)))) 2)
     = [(5, 0)%nat; (1, 0)%nat]
  /\ earliest (ex_topos_fuse ex_graph_fuse [0%nat] [1; 2; 3]%nat) [1; 2]%nat
     = Some 1%nat.
Proof. vm_compute. repeat split. Qed.
(* ================================================================== *)
(** ** The analysis methods, one by one *)

Section GradientOps.

Context {env : Env}.

Lemma prefix_matches_iff g sc :
  prefix_matches g sc = true
  <-> exists op, valid g op /\ scope_found g sc op = true.
Proof.
  unfold prefix_matches. rewrite nonempty_In. unfold filter_ops_prefix.
  split; intros [op H]; exists op.
  - apply In_regex_ops in H. now rewrite In_make_list_of_op in H.
  - apply In_regex_ops. now rewrite In_make_list_of_op.
Qed.

Lemma prefix_matches_false g sc :
  prefix_matches g sc = false
  <-> forall op, valid g op -> scope_found g sc op = false.
Proof.
  split.
  - intros H op Hv. destruct (scope_found g sc op) eqn:E; [| reflexivity].
    assert (Ht : prefix_matches g sc = true)
      by (apply prefix_matches_iff; now exists op).
    congruence.
  - intros H. destruct (prefix_matches g sc) eqn:E; [| reflexivity].
    apply prefix_matches_iff in E. destruct E as [op [Hv Hp]].
    rewrite (H op Hv) in Hp. discriminate.
Qed.

Lemma In_grad_ops_of g scopes : forall acc op,
  In op (grad_ops_of g scopes acc)
  <-> In op acc
      \/ (valid g op /\ exists sc, In sc scopes
                                  /\ scope_found g sc op = true).
Proof.
  induction scopes as [| sc scopes IH]; intros acc op.
  - cbn. split; [now left |]. intros [H | [_ [sc [[] _]]]]. exact H.
  - unfold grad_ops_of in *. cbn [fold_left]. rewrite IH.
    rewrite In_set_union, In_to_set. unfold filter_ops_prefix.
    rewrite In_regex_ops, In_make_list_of_op. split.
    + intros [[H | [Hv Hp]] | [Hv [s [Hs Hp]]]].
      * now left.
      * right. split; [exact Hv |]. exists sc. split; [now left | exact Hp].
      * right. split; [exact Hv |]. exists s. split; [now right | exact Hp].
    + intros [H | [Hv [s [[<- | Hs] Hp]]]].
      * left. now left.
      * left. right. now split.
      * right. split; [exact Hv |]. now exists s.
Qed.

Lemma forallb_prefix_matches g scopes :
  (forall sc, In sc scopes ->
     exists op, valid g op /\ scope_found g sc op = true) ->
  forallb (prefix_matches g) scopes = true.
Proof.
  intros H. apply forallb_forall. intros sc Hsc.
  apply prefix_matches_iff. now apply H.
Qed.

(** X1: an optimizer scope is searched as the regular expression
    ['^' + scope] in the names of the operations.  When the pattern of
    every optimizer scope finds some operation, [_build_gradient_ops]
    returns, leaves the graph alone, and changes the object in [_grad_ops]
    only: an operation is in [_grad_ops] afterwards exactly when it was
    there before, or it is an operation of the graph in whose name the
    pattern of one of the optimizer scopes is found. *)
Theorem build_gradient_ops_collects g o :
  (forall sc, In sc (_optimizer_scopes o) ->
     exists op, valid g op /\ scope_found g sc op = true) ->
  exists grad_ops,
    _build_gradient_ops (g, o) = (Ret tt, (g, set_grad_ops grad_ops o))
    /\ forall op,
         In op grad_ops
         <-> In op (_grad_ops o)
             \/ (valid g op
                 /\ exists sc, In sc (_optimizer_scopes o)
                               /\ scope_found g sc op = true).
Proof.
  intros H. exists (grad_ops_of g (_optimizer_scopes o) (_grad_ops o)).
  split.
  - pose proof (build_gradient_ops_spec g o) as Hs.
    now rewrite (forallb_prefix_matches g _ H) in Hs.
  - intros op. apply In_grad_ops_of.
Qed.

End GradientOps.

Lemma build_gradient_ops_collects_witness :
  exists grad_ops,
    _build_gradient_ops (ex_graph, ex_lms)
    = (Ret tt, (ex_graph, set_grad_ops grad_ops ex_lms))
    /\ forall op,
         In op grad_ops
         <-> In op (_grad_ops ex_lms)
             \/ (valid ex_graph op
                 /\ exists sc, In sc (_optimizer_scopes ex_lms)
                               /\ scope_found ex_graph sc op = true).
Proof.
  apply (build_gradient_ops_collects ex_graph ex_lms).
  intros sc [<- | []]. exists 2%nat.
  split; [unfold valid; simpl; lia | vm_compute; reflexivity].
Defined.

Section GradientOpsStop.

Context {env : Env}.

Lemma for_each_app {A} (l1 l2 : list A) (body : A -> M ctl) s s1 :
  for_each l1 body s = (Ret Next, s1) ->
  for_each (l1 ++ l2) body s = for_each l2 body s1.
Proof.
  revert s. induction l1 as [| x l1 IH]; intros s H.
  - cbn in H. injection H as <-. reflexivity.
  - simpl app. simpl for_each in *. unfold bind in *.
    destruct (body x s) as [[[| ] | e |] s2]; try discriminate.
    now apply IH.
Qed.

(** X2: [_build_gradient_ops] stops at the first optimizer scope whose
    pattern ['^' + scope] finds no operation name.  When the pattern is a
    regular expression, it raises the [ValueError] that names this scope;
    when it is not, the error is the one of [re.compile].  The graph is
    unchanged, and [_grad_ops] holds what the scopes before it have
    collected. *)
Theorem build_gradient_ops_first_unmatched g o pre sc post :
  _optimizer_scopes o = pre ++ sc :: post ->
  (forall s, In s pre ->
     exists op, valid g op /\ scope_found g s op = true) ->
  (forall op, valid g op -> scope_found g sc op = false) ->
  _build_gradient_ops (g, o)
  = (Raise (if is_regex (scope_pattern sc)
            then ValueError
                   ("No operations were found with optimizer scope " ++ sc
                    ++ ".")
            else ReError),
     (g, set_grad_ops (grad_ops_of g pre (_grad_ops o)) o)).
Proof.
  intros Hsc Hpre Hno. unfold _build_gradient_ops. mret. rewrite Hsc.
  pose proof (build_gradient_ops_loop g pre o) as Hl.
  rewrite (forallb_prefix_matches g pre Hpre) in Hl.
  erewrite bind_Raise; [reflexivity |].
  rewrite (for_each_app pre (sc :: post) build_gradient_ops_body (g, o) _ Hl).
  cbn [for_each]. erewrite bind_Raise; [reflexivity |].
  rewrite build_gradient_ops_body_spec.
  now rewrite (proj2 (prefix_matches_false g sc) Hno).
Qed.

End GradientOpsStop.

Lemma build_gradient_ops_first_unmatched_witness :
  _build_gradient_ops (ex_graph, lms_of ex_args_nosuch)
  = (Raise (ValueError
       "No operations were found with optimizer scope nosuch."),
     (ex_graph, lms_of ex_args_nosuch)).
Proof.
  apply (@build_gradient_ops_first_unmatched ex_env ex_graph
           (lms_of ex_args_nosuch) [] "nosuch" []).
  - reflexivity.
  - intros s [].
  - intros op Hv. unfold valid in Hv. simpl in Hv.
    do 4 (destruct op as [| op]; [vm_compute; reflexivity |]). lia.
Defined.

(** An optimizer scope that is no regular expression: the error is not a
    [ValueError]. *)
Example build_gradient_ops_bad_pattern :
  is_regex (scope_pattern "(") = false
  /\ _build_gradient_ops (ex_graph, lms_of ex_args_bracket)
     = (Raise ReError, (ex_graph, lms_of ex_args_bracket)).
Proof. vm_compute. split; reflexivity. Qed.

Section ExplicitSeeds.

Context {env : Env}.

Lemma name_matches_iff g nm :
  name_matches g nm = true
  <-> exists op, valid g op /\ name_found g nm op = true.
Proof.
  unfold name_matches. rewrite nonempty_In. unfold filter_ops_exact.
  split; intros [op H]; exists op.
  - apply In_regex_ops in H. now rewrite In_make_list_of_op in H.
  - apply In_regex_ops. now rewrite In_make_list_of_op.
Qed.

Lemma name_matches_false g nm :
  name_matches g nm = false
  <-> forall op, valid g op ->
                 name_found g nm op = false.
Proof.
  split.
  - intros H op Hv.
    destruct (name_found g nm op) eqn:E;
      [| reflexivity].
    assert (Ht : name_matches g nm = true)
      by (apply name_matches_iff; now exists op).
    congruence.
  - intros H. destruct (name_matches g nm) eqn:E; [| reflexivity].
    apply name_matches_iff in E. destruct E as [op [Hv Hp]].
    rewrite (H op Hv) in Hp. discriminate.
Qed.

Lemma In_fold_names g names : forall acc op,
  In op (fold_left (fun acc nm =>
           set_union acc
             (to_set (filter_ops_exact g (ge.make_list_of_op g) nm)))
           names acc)
  <-> In op acc
      \/ (valid g op
          /\ exists nm, In nm names
                        /\ name_found g nm op = true).
Proof.
  induction names as [| n names IH]; intros acc op.
  - cbn. split; [now left |]. intros [H | [_ [nm [[] _]]]]. exact H.
  - cbn [fold_left]. rewrite IH, In_set_union, In_to_set.
    unfold filter_ops_exact. rewrite In_regex_ops, In_make_list_of_op.
    split.
    + intros [[H | [Hv He]] | [Hv [s [Hs He]]]].
      * now left.
      * right. split; [exact Hv |]. exists n. split; [now left | exact He].
      * right. split; [exact Hv |]. exists s. split; [now right | exact He].
    + intros [H | [Hv [s [[<- | Hs] He]]]].
      * left. now left.
      * left. right. now split.
      * right. split; [exact Hv |]. now exists s.
Qed.

Lemma truthy_Some v : truthy (Some v) = true <-> v <> "".
Proof.
  cbn. destruct (String.eqb v "") eqn:E.
  - apply String.eqb_eq in E. split; [discriminate | congruence].
  - apply String.eqb_neq in E. split; [now intros _ | reflexivity].
Qed.

Lemma start_scope_matches_false g sc :
  start_scope_matches g sc = false
  <-> exists v, sc = Some v /\ v <> ""
                /\ forall op, valid g op -> scope_found g v op = false.
Proof.
  unfold start_scope_matches. split.
  - destruct sc as [v |]; [| discriminate].
    destruct (truthy (Some v)) eqn:Et; [| discriminate].
    intros H. exists v. split; [reflexivity |].
    split; [now apply truthy_Some | now apply prefix_matches_false].
  - intros [v [-> [Hv H]]]. apply truthy_Some in Hv. rewrite Hv.
    now apply prefix_matches_false.
Qed.

Lemma start_names_match_false g names :
  start_names_match g names = false
  <-> exists l nm, names = Some l /\ In nm l
                   /\ forall op, valid g op ->
                         name_found g nm op = false.
Proof.
  unfold start_names_match. split.
  - destruct names as [l |]; [| discriminate]. intros H.
    assert (Hex : exists nm, In nm l /\ name_matches g nm = false).
    { induction l as [| n l IH]; [discriminate |]. cbn in H.
      destruct (name_matches g n) eqn:En.
      - destruct (IH H) as [nm [Hin Hnm]]. exists nm. split; [now right | exact Hnm].
      - exists n. split; [now left | exact En]. }
    destruct Hex as [nm [Hin Hnm]]. exists l, nm.
    split; [reflexivity |]. split; [exact Hin |].
    now apply name_matches_false.
  - intros [l [nm [-> [Hin H]]]].
    apply forallb_false_In with (x := nm); [exact Hin |].
    now apply name_matches_false.
Qed.

(** X3: the starting scope is searched as the regular expression
    ['^' + scope], a starting name as ['^' + name + '$'].  With a starting
    scope or starting names, the seed operations that [_get_seed_ops]
    returns are the operations of the graph in whose name the pattern of
    the starting scope is found, together with those in whose name the
    pattern of one of the starting names is found; the call changes neither
    the graph nor the object. *)
Theorem get_seed_ops_explicit g o seeds s' :
  _get_seed_ops (g, o) = (Ret seeds, s') ->
  truthy (_starting_scope o) = true
  \/ (exists n l, _starting_op_names o = Some (n :: l)) ->
  s' = (g, o)
  /\ forall op,
       In op seeds
       <-> valid g op
           /\ ((exists sc, _starting_scope o = Some sc /\ sc <> ""
                           /\ scope_found g sc op = true)
               \/ (exists names nm, _starting_op_names o = Some names
                                    /\ In nm names /\ name_found g nm op = true)).
Proof.
  intros Hrun Hgiven.
  destruct (start_scope_matches g (_starting_scope o)
            && start_names_match g (_starting_op_names o)) eqn:Em.
  2:{ destruct (get_seed_ops_err g o Em) as [e [E _]]. congruence. }
  apply andb_prop in Em. destruct Em as [Hs Hn].
  rewrite (get_seed_ops_ok g o Hs Hn) in Hrun.
  injection Hrun as <- <-. split; [reflexivity |].
  unfold seed_ops_of.
  set (s1 := match _starting_scope o with
             | Some v => if truthy (_starting_scope o)
                         then set_union [] (to_set (filter_ops_prefix g (ge.make_list_of_op g) v))
                         else []
             | None => []
             end).
  set (s2 := match _starting_op_names o with
             | Some l => fold_left _ l s1
             | None => s1
             end).
  assert (H1 : forall op, In op s1 <->
            valid g op /\ exists sc, _starting_scope o = Some sc /\ sc <> ""
                                     /\ scope_found g sc op = true).
  { intros op. subst s1. destruct (_starting_scope o) as [v |] eqn:Ev.
    - destruct (truthy (Some v)) eqn:Et.
      + rewrite In_set_union, In_to_set. unfold filter_ops_prefix.
        rewrite In_regex_ops, In_make_list_of_op. apply truthy_Some in Et. split.
        * intros [[] | [Hv Hp]]. split; [exact Hv |]. now exists v.
        * intros [Hv [sc [E [_ Hp]]]]. injection E as <-. right. now split.
      + split; [intros [] |]. intros [_ [sc [E [Hne _]]]]. injection E as <-.
        apply truthy_Some in Hne. congruence.
    - split; [intros [] |]. intros [_ [sc [E _]]]. discriminate. }
  assert (H2 : forall op, In op s2 <->
            valid g op
            /\ ((exists sc, _starting_scope o = Some sc /\ sc <> ""
                            /\ scope_found g sc op = true)
                \/ (exists names nm, _starting_op_names o = Some names
                                     /\ In nm names /\ name_found g nm op = true))).
  { intros op. subst s2. destruct (_starting_op_names o) as [l |] eqn:El.
    - rewrite In_fold_names, H1. split.
      + intros [[Hv H] | [Hv [nm [Hin He]]]].
        * split; [exact Hv | now left].
        * split; [exact Hv |]. right. now exists l, nm.
      + intros [Hv [H | [names [nm [E [Hin He]]]]]].
        * left. now split.
        * injection E as <-. right. split; [exact Hv |]. now exists nm.
    - rewrite H1. split.
      + intros [Hv H]. split; [exact Hv | now left].
      + intros [Hv [H | [names [nm [E _]]]]]; [now split | discriminate]. }
  assert (Hne : nonempty s2 = true).
  { apply nonempty_In. destruct Hgiven as [Ht | [n [l El]]].
    - destruct (_starting_scope o) as [v |] eqn:Ev; [| discriminate].
      unfold start_scope_matches in Hs. rewrite Ht in Hs.
      apply prefix_matches_iff in Hs. destruct Hs as [op [Hv Hp]].
      exists op. apply H2. split; [exact Hv |]. left. exists v.
      split; [reflexivity |]. split; [now apply truthy_Some | exact Hp].
    - rewrite El in Hn. cbn in Hn. apply andb_prop in Hn. destruct Hn as [Hn _].
      apply name_matches_iff in Hn. destruct Hn as [op [Hv He]].
      exists op. apply H2. split; [exact Hv |]. right. exists (n :: l), n.
      split; [exact El |]. split; [now left | exact He]. }
  rewrite Hne. exact H2.
Qed.

End ExplicitSeeds.

Lemma get_seed_ops_explicit_witness :
  (ex_graph, ex_lms) = (ex_graph, ex_lms)
  /\ forall op,
    In op [0%nat]
    <-> valid ex_graph op
        /\ ((exists sc, _starting_scope ex_lms = Some sc /\ sc <> ""
                        /\ scope_found ex_graph sc op = true)
            \/ (exists names nm, _starting_op_names ex_lms = Some names
                                 /\ In nm names /\ name_found ex_graph nm op = true)).
Proof.
  apply (get_seed_ops_explicit ex_graph ex_lms [0%nat] (ex_graph, ex_lms)).
  - reflexivity.
  - right. exists "A", []. reflexivity.
Defined.

Section SeedErrors.

Context {env : Env}.

(** X4: [_get_seed_ops] raises exactly when a starting scope is given and
    its pattern ['^' + scope] is found in no operation name, or the pattern
    ['^' + name + '$'] of one of the starting names is found in none (a
    pattern that is no regular expression is found nowhere); the graph and
    the object are then as before, and the error is a [ValueError] when all
    these patterns are regular expressions. *)
Theorem get_seed_ops_raises_iff g o :
  ((exists e, _get_seed_ops (g, o) = (Raise e, (g, o)))
   <-> (exists sc, _starting_scope o = Some sc /\ sc <> ""
                   /\ forall op, valid g op ->
                         scope_found g sc op = false)
       \/ (exists names nm, _starting_op_names o = Some names /\ In nm names
                            /\ forall op, valid g op ->
                                  name_found g nm op
                                  = false))
  /\ (forall e s', _get_seed_ops (g, o) = (Raise e, s') ->
        s' = (g, o)
        /\ (start_compile (_starting_scope o) (_starting_op_names o) = true ->
            is_value_error e = true)).
Proof.
  split.
  2:{ intros e s' E.
      destruct (start_scope_matches g (_starting_scope o)
                && start_names_match g (_starting_op_names o)) eqn:Em.
      - apply andb_prop in Em. destruct Em as [Hs Hn].
        rewrite (get_seed_ops_ok g o Hs Hn) in E. discriminate.
      - destruct (get_seed_ops_err g o Em) as [e' [E' Hv]].
        rewrite E' in E. injection E as <- <-. now split. }
  split.
  - intros [msg E].
    destruct (start_scope_matches g (_starting_scope o)) eqn:Hs.
    + destruct (start_names_match g (_starting_op_names o)) eqn:Hn.
      * rewrite (get_seed_ops_ok g o Hs Hn) in E. discriminate.
      * right. now apply start_names_match_false.
    + left. now apply start_scope_matches_false.
  - intros H.
    destruct (get_seed_ops_err g o) as [e [E _]]; [| now exists e].
    apply andb_false_iff. destruct H as [H | H].
    + left. now apply start_scope_matches_false.
    + right. now apply start_names_match_false.
Qed.


Lemma In_seed_candidates g grad op :
  In op (seed_candidates g grad)
  <-> valid g op /\ ~ In op grad /\ exists c, In c grad /\ consumes g op c.
Proof.
  unfold seed_candidates, feeds_backward.
  rewrite !filter_In, In_make_list_of_op, negb_true_iff, mem_false, existsb_exists.
  split.
  - intros [[Hv Hn] [t [Ht Hc]]]. split; [exact Hv |]. split; [exact Hn |].
    apply nonempty_In in Hc. destruct Hc as [c Hc].
    apply In_set_inter in Hc. destruct Hc as [Hc Hg].
    apply -> In_to_set in Hc. apply In_get_consuming_ops in Hc.
    exists c. split; [exact Hg |]. exists t. tauto.
  - intros [Hv [Hn [c [Hg [t [Ht [Hc Hin]]]]]]]. split; [now split |].
    exists t. split; [exact Ht |]. apply nonempty_In. exists c.
    apply In_set_inter. split; [| exact Hg].
    apply In_to_set. apply In_get_consuming_ops. now split.
Qed.

Lemma fold_max_spec (l : list (OpId * Z)) : forall m0,
  let m := fold_left (fun m kv => if snd kv >? m then snd kv else m) l m0 in
  m0 <= m /\ (forall kv, In kv l -> snd kv <= m)
  /\ (m = m0 \/ exists kv, In kv l /\ snd kv = m).
Proof.
  induction l as [| x l IH]; intros m0; cbn [fold_left].
  - cbv zeta. split; [lia |]. split; [intros kv [] | now left].
  - specialize (IH (if snd x >? m0 then snd x else m0)).
    cbv zeta in *. destruct IH as [I1 [I2 I3]].
    destruct (snd x >? m0) eqn:E.
    + apply Z.gtb_lt in E. split; [lia |]. split.
      * intros kv [<- | H]; [lia | now apply I2].
      * right. destruct I3 as [I3 | [kv [Hin I3]]].
        -- exists x. split; [now left | now symmetry].
        -- exists kv. split; [now right | exact I3].
    + assert (snd x <= m0) by (rewrite Z.gtb_ltb in E; apply Z.ltb_ge in E; lia).
      split; [lia |]. split.
      * intros kv [<- | H']; [lia | now apply I2].
      * destruct I3 as [I3 | [kv [Hin I3]]]; [now left |].
        right. exists kv. split; [now right | exact I3].
Qed.

Lemma In_auto_seed_ops g grad op :
  In op (auto_seed_ops g grad)
  <-> In op (seed_candidates g grad)
      /\ 0 < seed_score g grad op
      /\ forall c, In c (seed_candidates g grad) ->
                   seed_score g grad c <= seed_score g grad op.
Proof.
  change (auto_seed_ops g grad) with
    (let tmp_dict :=
       filter (fun kv : OpId * Z => 0 <? snd kv)
              (map (fun c => (c, seed_score g grad c)) (seed_candidates g grad)) in
     map fst (filter (fun kv : OpId * Z =>
                snd kv =? fold_left (fun m kv => if snd kv >? m then snd kv else m)
                                    tmp_dict (-1))
              tmp_dict)).
  cbv zeta.
  set (tmp := filter (fun kv : OpId * Z => 0 <? snd kv) _).
  assert (Htmp : forall kv, In kv tmp <->
            In (fst kv) (seed_candidates g grad)
            /\ snd kv = seed_score g grad (fst kv) /\ 0 < snd kv).
  { intros [c v]. subst tmp. rewrite filter_In, in_map_iff, Z.ltb_lt. cbn [fst snd].
    split.
    - intros [[c' [E Hin]] Hpos]. injection E as -> <-. tauto.
    - intros [Hin [-> Hpos]]. split; [| exact Hpos]. now exists c. }
  destruct (fold_max_spec tmp (-1)) as [M1 [M2 M3]]. cbv zeta in M1, M2, M3.
  set (mx := fold_left _ tmp (-1)) in *.
  rewrite in_map_iff. split.
  - intros [[c v] [E Hin]]. cbn in E. subst c.
    apply filter_In in Hin. destruct Hin as [Hin Hmx]. cbn [snd] in Hmx.
    apply Z.eqb_eq in Hmx. apply Htmp in Hin. cbn [fst snd] in Hin.
    destruct Hin as [Hc [Hv Hpos]]. split; [exact Hc |]. split; [lia |].
    intros c Hcc. destruct (Z_lt_le_dec 0 (seed_score g grad c)) as [Hp | Hp].
    + assert (Hin : In (c, seed_score g grad c) tmp) by (apply Htmp; cbn; tauto).
      apply M2 in Hin. cbn [snd] in Hin. lia.
    + lia.
  - intros [Hc [Hpos Hmax]]. exists (op, seed_score g grad op).
    split; [reflexivity |]. apply filter_In.
    assert (Hin : In (op, seed_score g grad op) tmp) by (apply Htmp; cbn; tauto).
    split; [exact Hin |]. cbn [snd]. apply Z.eqb_eq.
    pose proof (M2 _ Hin) as Hle. cbn [snd] in Hle.
    destruct M3 as [M3 | [[c v] [Hcin M3]]]; [lia |].
    apply Htmp in Hcin. cbn [fst snd] in Hcin, M3.
    destruct Hcin as [Hcc [Hv _]]. specialize (Hmax c Hcc). lia.
Qed.

(** X5: without a starting scope and without starting names,
    [_get_seed_ops] searches the seed operations itself.  Its candidates
    are the operations outside the backward phase with an output read by a
    backward operation; it returns the candidates whose forward walk
    outside the backward phase covers at least one candidate and at least
    as many candidates as the walk of any other candidate. *)
Theorem get_seed_ops_automatic g o :
  truthy (_starting_scope o) = false ->
  _starting_op_names o = None \/ _starting_op_names o = Some [] ->
  exists seeds,
    _get_seed_ops (g, o) = (Ret seeds, (g, o))
    /\ (forall op,
          In op seeds
          <-> In op (seed_candidates g (_grad_ops o))
              /\ 0 < seed_score g (_grad_ops o) op
              /\ forall c, In c (seed_candidates g (_grad_ops o)) ->
                           seed_score g (_grad_ops o) c
                           <= seed_score g (_grad_ops o) op)
    /\ (forall op,
          In op (seed_candidates g (_grad_ops o))
          <-> valid g op /\ ~ In op (_grad_ops o)
              /\ exists c, In c (_grad_ops o) /\ consumes g op c).
Proof.
  intros Ht Hn. exists (auto_seed_ops g (_grad_ops o)).
  split; [| split; [apply In_auto_seed_ops | apply In_seed_candidates]].
  assert (Hs : start_scope_matches g (_starting_scope o) = true).
  { unfold start_scope_matches. destruct (_starting_scope o); [| reflexivity].
    now rewrite Ht. }
  assert (Hm : start_names_match g (_starting_op_names o) = true)
    by (destruct Hn as [-> | ->]; reflexivity).
  rewrite (get_seed_ops_ok g o Hs Hm). unfold seed_ops_of.
  assert (E : match _starting_scope o with
              | Some v => if truthy (_starting_scope o)
                          then set_union [] (to_set (filter_ops_prefix g (ge.make_list_of_op g) v))
                          else []
              | None => []
              end = []).
  { destruct (_starting_scope o); [now rewrite Ht | reflexivity]. }
  rewrite E. destruct Hn as [-> | ->]; reflexivity.
Qed.

End SeedErrors.
Lemma get_seed_ops_automatic_witness :
  exists seeds,
    _get_seed_ops (ex_graph, ex_lms_auto) = (Ret seeds, (ex_graph, ex_lms_auto))
    /\ (forall op,
          In op seeds
          <-> In op (seed_candidates ex_graph (_grad_ops ex_lms_auto))
              /\ 0 < seed_score ex_graph (_grad_ops ex_lms_auto) op
              /\ forall c, In c (seed_candidates ex_graph (_grad_ops ex_lms_auto)) ->
                           seed_score ex_graph (_grad_ops ex_lms_auto) c
                           <= seed_score ex_graph (_grad_ops ex_lms_auto) op)
    /\ (forall op,
          In op (seed_candidates ex_graph (_grad_ops ex_lms_auto))
          <-> valid ex_graph op /\ ~ In op (_grad_ops ex_lms_auto)
              /\ exists c, In c (_grad_ops ex_lms_auto) /\ consumes ex_graph op c).
Proof.
  apply (get_seed_ops_automatic ex_graph ex_lms_auto).
  - reflexivity.
  - left. reflexivity.
Defined.

(** The automatic search on [ex_graph]: [A] and [B] feed the backward
    phase, the walk of [A] covers [B], so [A] is the seed operation. *)
Example get_seed_ops_automatic_example :
  seed_candidates ex_graph [2; 3]%nat = [0; 1]%nat
  /\ fst (_get_seed_ops (ex_graph, ex_lms_auto)) = Ret [0%nat].
Proof. vm_compute. split; reflexivity. Qed.

Section FilterSelects.

Context {env : Env}.

Lemma In_scope_fold g within scopes : forall acc op,
  In op (fold_left (fun acc scope =>
           set_union acc (to_set (name_scope_ops g within scope)))
           scopes acc)
  <-> In op acc
      \/ (In op within
          /\ exists sc, In sc scopes /\ in_name_scope g sc op = true).
Proof.
  induction scopes as [| s scopes IH]; intros acc op.
  - cbn. split; [now left |]. intros [H | [_ [sc [[] _]]]]. exact H.
  - cbn [fold_left]. rewrite IH, In_set_union, In_to_set.
    unfold name_scope_ops. rewrite In_regex_ops.
    fold (in_name_scope g s op). split.
    + intros [[H | [Hw Hp]] | [Hw [sc [Hs Hp]]]].
      * now left.
      * right. split; [exact Hw |]. exists s. split; [now left | exact Hp].
      * right. split; [exact Hw |]. exists sc. split; [now right | exact Hp].
    + intros [H | [Hw [sc [[<- | Hs] Hp]]]].
      * left. now left.
      * left. right. now split.
      * right. split; [exact Hw |]. now exists sc.
Qed.

Lemma In_filtered_ops_of g within scopes types op :
  In op (filtered_ops_of g within scopes types)
  <-> In op within
      /\ ((exists sc, In sc scopes /\ in_name_scope g sc op = true)
          \/ In (op_type g op) types).
Proof.
  unfold filtered_ops_of.
  rewrite In_set_union, In_scope_fold, In_to_set, filter_In, mem_str_In.
  split.
  - intros [[[] | [Hw H]] | [Hw H]]; (split; [exact Hw |]); [now left | now right].
  - intros [Hw [H | H]]; [left; right | right]; now split.
Qed.

(** X6: a name scope is searched as a regular expression: the scope
    without its last slash at the start of the name, followed by the end of
    the name or by a slash ([name_scope_pattern], [in_name_scope]).  When
    [_filter_scopes_and_types] returns, it has changed nothing, and its
    result holds exactly the operations of [within_ops] in whose name the
    pattern of one of the scopes is found, or whose type is one of the
    types. *)
Theorem filter_scopes_and_types_selects g o within scopes types r s' :
  _filter_scopes_and_types within scopes types (g, o) = (Ret r, s') ->
  s' = (g, o)
  /\ forall op,
       In op r
       <-> In op within
           /\ ((exists sc, In sc scopes /\ in_name_scope g sc op = true)
               \/ In (op_type g op) types).
Proof.
  intros H.
  destruct (filter_scopes_and_types_cases g o within scopes types)
    as [E | [e E]]; rewrite E in H; [| discriminate].
  injection H as <- <-. split; [reflexivity |].
  intros op. apply In_filtered_ops_of.
Qed.

End FilterSelects.

Lemma filter_scopes_and_types_selects_witness :
  (ex_graph, ex_lms) = (ex_graph, ex_lms)
  /\ forall op,
    In op [1%nat]
    <-> In op [0; 1]%nat
        /\ ((exists sc, In sc [] /\ in_name_scope ex_graph sc op = true)
            \/ In (op_type ex_graph op) ["Relu"]).
Proof.
  apply (filter_scopes_and_types_selects ex_graph ex_lms [0; 1]%nat [] ["Relu"]
           [1%nat] (ex_graph, ex_lms)).
  reflexivity.
Defined.

Section FilterErrors.

Context {env : Env}.

Lemma scope_matches_false g within sc :
  scope_matches g within sc = false
  <-> forall op, In op within -> in_name_scope g sc op = false.
Proof.
  unfold scope_matches, name_scope_ops. rewrite nonempty_false. split.
  - intros H op Hw. destruct (in_name_scope g sc op) eqn:E; [| reflexivity].
    assert (Hin : In op (regex_ops g within (name_scope_pattern sc)))
      by (apply In_regex_ops; now split).
    rewrite H in Hin. destruct Hin.
  - intros H.
    destruct (regex_ops g within (name_scope_pattern sc)) as [| x l] eqn:E;
      [reflexivity |].
    assert (Hin : In x (x :: l)) by now left.
    rewrite <- E in Hin. apply In_regex_ops in Hin. destruct Hin as [Hw Hp].
    fold (in_name_scope g sc x) in Hp. rewrite (H x Hw) in Hp. discriminate.
Qed.

Lemma forallb_false_ex {A} (P : A -> bool) (l : list A) :
  forallb P l = false -> exists x, In x l /\ P x = false.
Proof.
  induction l as [| a l IH]; [discriminate |]. cbn.
  destruct (P a) eqn:E.
  - intros H. destruct (IH H) as [x [Hin Hx]]. exists x. split; [now right | exact Hx].
  - intros _. exists a. split; [now left | exact E].
Qed.

Lemma type_matches_false g within ty :
  type_matches g within ty = false
  <-> forall op, In op within -> op_type g op <> ty.
Proof.
  unfold type_matches. split.
  - intros H op Hw He.
    assert (Ht : existsb (fun op => String.eqb ty (op_type g op)) within = true).
    { apply existsb_exists. exists op. split; [exact Hw |]. now apply String.eqb_eq. }
    congruence.
  - intros H. destruct (existsb _ within) eqn:E; [| reflexivity].
    apply existsb_exists in E. destruct E as [op [Hw He]].
    apply String.eqb_eq in He. now destruct (H op Hw).
Qed.

(** X7: [_filter_scopes_and_types] raises exactly when the pattern of one
    of the scopes is found in the name of no operation of [within_ops] (a
    pattern that is no regular expression is found nowhere), or one of the
    types, not an atomic type, is the type of no operation of
    [within_ops]; the graph and the object are then as before, and the
    error is a [ValueError] when the patterns of all the scopes are regular
    expressions. *)
Theorem filter_scopes_and_types_raises_iff g o within scopes types :
  ((exists e, _filter_scopes_and_types within scopes types (g, o)
              = (Raise e, (g, o)))
   <-> (exists sc, In sc scopes
                   /\ forall op, In op within -> in_name_scope g sc op = false)
       \/ (exists ty, In ty types /\ ~ In ty ATOMIC_TYPES
                      /\ forall op, In op within -> op_type g op <> ty))
  /\ (forall e s', _filter_scopes_and_types within scopes types (g, o)
                   = (Raise e, s') ->
        s' = (g, o)
        /\ (name_scopes_compile scopes = true -> is_value_error e = true)).
Proof.
  split.
  2:{ intros e s' E.
      destruct (forallb (scope_matches g within) scopes) eqn:Hs.
      - destruct (missing_types_of g within types) as [| ty l] eqn:Hm.
        + rewrite (filter_scopes_and_types_ok g o within scopes types Hs Hm)
            in E. discriminate.
        + destruct (filter_scopes_and_types_err g o within scopes types)
            as [e' [E' Hv]]; [right; congruence |].
          rewrite E' in E. injection E as <- <-. now split.
      - destruct (filter_scopes_and_types_err g o within scopes types)
          as [e' [E' Hv]]; [now left |].
        rewrite E' in E. injection E as <- <-. now split. }
  split.
  - intros [msg E].
    destruct (forallb (scope_matches g within) scopes) eqn:Hs.
    + destruct (missing_types_of g within types) as [| ty l] eqn:Hm.
      * rewrite (filter_scopes_and_types_ok g o within scopes types Hs Hm) in E.
        discriminate.
      * right. exists ty.
        assert (Hin : In ty (missing_types_of g within types))
          by (rewrite Hm; now left).
        unfold missing_types_of in Hin.
        apply In_str_diff in Hin. destruct Hin as [Hin Hna].
        apply In_str_diff in Hin. destruct Hin as [Hty Hnf].
        split; [exact Hty |]. split; [exact Hna |].
        intros op Hw He. apply Hnf. apply In_str_union. right.
        apply in_map_iff. exists op. split; [exact He |].
        apply In_to_set. apply filter_In. split; [exact Hw |].
        apply mem_str_In. now rewrite He.
    + left. apply forallb_false_ex in Hs. destruct Hs as [sc [Hin Hsc]].
      exists sc. split; [exact Hin |]. now apply scope_matches_false.
  - intros H.
    destruct (filter_scopes_and_types_err g o within scopes types)
      as [e [E _]]; [| now exists e].
    destruct H as [[sc [Hin H]] | [ty [Hin [Hna H]]]].
    + left. apply forallb_false_In with (x := sc); [exact Hin |].
      now apply scope_matches_false.
    + right. intros Hm.
      assert (Hi : In ty (missing_types_of g within types)).
      { apply missing_types_of_In with (all := within); auto.
        now apply type_matches_false. }
      rewrite Hm in Hi. destruct Hi.
Qed.

End FilterErrors.

(* ================================================================== *)
(** ** The memo table of forward walks *)

Section MemoTable.

Context {env : Env}.

Lemma lookup_memo_store g o op :
  lookup (_ops_dict (memo_store g o op)) op = Some (memo_walk g o op).
Proof.
  unfold memo_store, memo_walk.
  destruct (lookup (_ops_dict o) op) as [l |] eqn:E; [exact E |].
  destruct o; cbn [_ops_dict set_ops_dict] in *.
  unfold lookup. cbn [find fst]. now rewrite Nat.eqb_refl.
Qed.

(** X8: [_get_forward_walk_ops] answers from its table once an operation
    was asked for: a later call for the same operation returns the walk of
    the first call whatever the graph has become, and leaves the object as
    it is; with [inclusive=False] it returns that walk without the
    operation itself. *)
Theorem forward_walk_is_memoised g g' o op :
  exists l o1,
    _get_forward_walk_ops op true (g, o) = (Ret l, (g, o1))
    /\ _get_forward_walk_ops op true (g', o1) = (Ret l, (g', o1))
    /\ exists l',
         _get_forward_walk_ops op false (g', o1) = (Ret l', (g', o1))
         /\ forall x, In x l' <-> In x l /\ x <> op.
Proof.
  exists (memo_walk g o op), (memo_store g o op).
  rewrite !get_forward_walk_ops_spec.
  pose proof (lookup_memo_store g o op) as Hl.
  assert (Hw : memo_walk g' (memo_store g o op) op = memo_walk g o op)
    by (unfold memo_walk at 1; now rewrite Hl).
  assert (Hs : memo_store g' (memo_store g o op) op = memo_store g o op)
    by (unfold memo_store at 1; now rewrite Hl).
  rewrite Hw, Hs. split; [reflexivity |]. split; [reflexivity |].
  eexists. split; [reflexivity |].
  intros x. rewrite In_set_diff, In_to_set. cbn [In]. intuition congruence.
Qed.

End MemoTable.

(** A table entry outlives a change of the graph: the walk of [A] taken in
    [ex_graph] is still the answer in the rewritten graph, where the walk
    of [A] is longer. *)
Example forward_walk_stale_example :
  let o1 := snd (snd (_get_forward_walk_ops 0%nat true (ex_graph, ex_lms))) in
  fst (_get_forward_walk_ops 0%nat true (ex_graph_rewritten, o1))
  = Ret [0; 1; 2; 3]%nat
  /\ List.length (ge.get_forward_walk_ops ex_graph_rewritten 0%nat) = 8%nat.
Proof. vm_compute. split; reflexivity. Qed.

Section ForwardWalk.

Context {env : Env}.

Lemma In_successors g a x :
  In x (ge.successors g (fun _ => true) a) <-> consumes g a x.
Proof.
  unfold ge.successors, consumes. rewrite filter_In, in_flat_map. split.
  - intros [[t [Ht Hx]] _]. exists t. apply In_get_consuming_ops in Hx. tauto.
  - intros [t [Ht [Hv Hin]]]. split; [| reflexivity].
    exists t. split; [exact Ht |]. apply In_get_consuming_ops. now split.
Qed.

Lemma In_get_forward_walk_ops g op x :
  In x (ge.get_forward_walk_ops g op) <-> reaches g op x.
Proof.
  split.
  - intros H. unfold ge.get_forward_walk_ops in H.
    eapply (walk_within g (fun _ => true) (reaches g op)); [| | exact H].
    + intros a y Ha Hy. apply In_successors in Hy.
      now apply reaches_step with (b := a).
    + intros a [<- | []]. apply reaches_refl.
  - intros H. induction H as [| b c Hb IH Hc].
    + unfold ge.get_forward_walk_ops. apply walk_incl. now left.
    + apply (get_forward_walk_ops_closed g op b c IH).
      now apply In_successors.
Qed.

(** X9: asked for an operation that its table does not hold,
    [_get_forward_walk_ops] returns exactly the operations reached from it
    through producer-consumer edges of the graph, the operation itself
    included, and the graph is unchanged. *)
Theorem forward_walk_reaches g o op :
  lookup (_ops_dict o) op = None ->
  exists l o',
    _get_forward_walk_ops op true (g, o) = (Ret l, (g, o'))
    /\ forall x, In x l <-> reaches g op x.
Proof.
  intros Hl. exists (memo_walk g o op), (memo_store g o op).
  split; [apply get_forward_walk_ops_spec |].
  intros x. unfold memo_walk. rewrite Hl. apply In_get_forward_walk_ops.
Qed.

End ForwardWalk.

Lemma forward_walk_reaches_witness :
  exists l o',
    _get_forward_walk_ops 0%nat true (ex_graph, ex_lms) = (Ret l, (ex_graph, o'))
    /\ forall x, In x l <-> reaches ex_graph 0%nat x.
Proof.
  apply (forward_walk_reaches ex_graph ex_lms 0%nat).
  reflexivity.
Defined.

(* ================================================================== *)
(** ** The insertion primitives, one by one *)

Section SwapOut.

Context {env : Env}.

(** [_connect_ops] either fails and leaves the state alone, or reroutes
    input slots of [dest_op] to outputs of [src_op]. *)
Lemma connect_ops_effect src dest ri ro idx g o :
  (exists outs ins,
     (forall t, In t outs -> In t (outputs g src))
     /\ _connect_ops src dest ri ro idx (g, o)
        = (Ret tt,
           (ge.update g dest
              (fun n => ge.set_inputs n (map (ge.reroute outs ins) (inputs n))),
            o)))
  \/ _connect_ops src dest ri ro idx (g, o) = (Raise GraphEditorError, (g, o)).
Proof.
  unfold _connect_ops. mret.
  set (m0 := if ro then _ else _).
  assert (H0 : (exists v0, (forall t, In t (ge.sgv_outputs v0) ->
                                      In t (outputs g src))
                           /\ m0 (g, o) = (Ret v0, (g, o)))
               \/ m0 (g, o) = (Raise GraphEditorError, (g, o))).
  { subst m0. destruct ro.
    - destruct idx as [i |]; [| now right].
      unfold ge.remap_outputs.
      destruct (nth_error (ge.sgv_outputs (ge.sgv g src)) i) as [t |] eqn:En;
        [| now right].
      left. eexists. split; [| reflexivity].
      cbn [ge.sgv_outputs]. intros t' [<- | []].
      apply nth_error_In in En. exact En.
    - left. eexists. split; [| reflexivity]. intros t Ht. exact Ht. }
  destruct H0 as [(v0 & Hv0 & E0) | E0].
  2:{ right. rewrite (bind_Raise _ _ _ _ _ E0). reflexivity. }
  rewrite (bind_Ret _ _ _ _ _ E0).
  set (m1 := if ri then _ else _).
  assert (H1 : (exists v1, ge.sgv_op v1 = dest /\ m1 (g, o) = (Ret v1, (g, o)))
               \/ m1 (g, o) = (Raise GraphEditorError, (g, o))).
  { subst m1. destruct ri.
    - destruct idx as [i |]; [| now right].
      unfold ge.remap_inputs.
      destruct (nth_error (ge.sgv_inputs (ge.sgv g dest)) i) as [t |];
        [| now right].
      left. eexists. split; [| reflexivity]. reflexivity.
    - left. eexists. split; [| reflexivity]. reflexivity. }
  destruct H1 as [(v1 & Hv1 & E1) | E1].
  2:{ right. rewrite (bind_Raise _ _ _ _ _ E1). reflexivity. }
  rewrite (bind_Ret _ _ _ _ _ E1).
  unfold ge.connect.
  destruct (Nat.eqb _ _).
  - left. exists (ge.sgv_outputs v0), (ge.sgv_inputs v1).
    split; [exact Hv0 |]. mret. rewrite Hv1. reflexivity.
  - right. mraise. reflexivity.
Qed.

Lemma Forall2_map_left {A} (P : A -> A -> Prop) (f : A -> A) (l : list A) :
  (forall x, P (f x) x) -> Forall2 P (map f l) l.
Proof.
  intros H. induction l as [| x l IH]; cbn; constructor; auto.
Qed.

(** X10: [_connect_ops] either raises an error of the graph editor and
    changes nothing, or returns with the object unchanged and a graph that
    differs from the old one in the inputs of [dest_op] only: every input
    slot of [dest_op] reads what it read before or an output of [src_op];
    no operation is added, and the name, type, control inputs, outputs and
    device of [dest_op] are as before. *)
Theorem connect_ops_frame src dest ri ro idx g o :
  _connect_ops src dest ri ro idx (g, o) = (Raise GraphEditorError, (g, o))
  \/ exists g',
       _connect_ops src dest ri ro idx (g, o) = (Ret tt, (g', o))
       /\ List.length g' = List.length g
       /\ (forall c, c <> dest -> node g' c = node g c)
       /\ name (node g' dest) = name (node g dest)
       /\ type (node g' dest) = type (node g dest)
       /\ control_inputs (node g' dest) = control_inputs (node g dest)
       /\ n_outputs (node g' dest) = n_outputs (node g dest)
       /\ device (node g' dest) = device (node g dest)
       /\ Forall2 (fun t' t => t' = t \/ In t' (outputs g src))
                  (inputs (node g' dest)) (inputs (node g dest)).
Proof.
  destruct (connect_ops_effect src dest ri ro idx g o)
    as [(outs & ins & Hout & E) | E]; [right | now left].
  eexists. split; [exact E |].
  split; [apply length_update |].
  split; [intros c Hc; now apply node_update_other |].
  destruct (lt_dec dest (List.length g)) as [Hlt | Hge].
  - rewrite node_update_same by exact Hlt.
    destruct (node g dest) as [nm ty ins0 cs k dv].
    cbn [ge.set_inputs name type control_inputs n_outputs device inputs].
    repeat (split; [reflexivity |]).
    apply Forall2_map_left. intros t.
    destruct (reroute_cases outs ins t) as [-> | Hin]; [now left |].
    right. now apply Hout.
  - rewrite node_update_out by exact Hge.
    repeat (split; [reflexivity |]).
    rewrite <- (map_id (inputs (node g dest))) at 1.
    apply Forall2_map_left. intros t. now left.
Qed.

Lemma index_of_map_seq op k n : forall a,
  (a <= k < a + n)%nat ->
  ge.index_of (op, k) (map (fun j => (op, j)) (seq a n)) = Some (k - a)%nat.
Proof.
  induction n as [| n IH]; intros a Hk; [lia |].
  cbn [seq map ge.index_of]. unfold tensor_eqb. cbn [fst snd].
  rewrite Nat.eqb_refl. cbn [andb].
  destruct (Nat.eqb k a) eqn:E.
  - apply Nat.eqb_eq in E. subst. now rewrite Nat.sub_diag.
  - apply Nat.eqb_neq in E. rewrite IH by lia. cbn [option_map].
    f_equal. lia.
Qed.

Lemma index_of_outputs g op k :
  (k < n_outputs (node g op))%nat ->
  ge.index_of (op, k) (outputs g op) = Some k.
Proof.
  intros H. unfold outputs. rewrite index_of_map_seq by lia.
  f_equal. lia.
Qed.

Lemma nth_error_outputs g op k :
  (k < n_outputs (node g op))%nat ->
  nth_error (outputs g op) k = Some (op, k).
Proof.
  intros H. apply index_of_In. now apply index_of_outputs.
Qed.

Lemma update_id g : forall d f,
  ((d < List.length g)%nat -> f (node g d) = node g d) ->
  ge.update g d f = g.
Proof.
  induction g as [| n g IH]; intros d f H; [now destruct d |].
  destruct d as [| d]; cbn [ge.update].
  - f_equal. apply H. cbn. lia.
  - f_equal. apply IH. intros Hd. apply H. cbn. lia.
Qed.

Lemma set_inputs_same n : ge.set_inputs n (inputs n) = n.
Proof. now destruct n. Qed.

Lemma tensor_eqb_refl t : tensor_eqb t t = true.
Proof. now apply tensor_eqb_eq. Qed.

(** Connecting an output of [src] to a swap-out operation that reads this
    output already: nothing changes. *)
Lemma connect_ops_swapout g o src so k :
  (k < n_outputs (node g src))%nat ->
  inputs (node g so) = [(src, k)] ->
  _connect_ops src so false true (Some k) (g, o) = (Ret tt, (g, o)).
Proof.
  intros Hk Hin. unfold _connect_ops. mret.
  unfold ge.remap_outputs. cbn [ge.sgv ge.sgv_inputs ge.sgv_op ge.sgv_outputs].
  rewrite (nth_error_outputs g src k Hk). cbn [option_map]. do 2 mret.
  unfold ge.connect. cbn [ge.sgv ge.sgv_inputs ge.sgv_op ge.sgv_outputs].
  rewrite Hin. cbn [ge.dedup mem_tensor existsb List.length Nat.eqb]. mret.
  unfold put_graph. cbn [fst snd]. f_equal. f_equal.
  apply update_id. intros _. rewrite Hin. cbn [map].
  unfold ge.reroute. cbn [ge.index_of]. rewrite tensor_eqb_refl. cbn [nth].
  rewrite <- Hin. apply set_inputs_same.
Qed.

(** X11: for an output of an operation of the graph, [_add_swapout] appends
    one operation to the graph and changes nothing else in it: an
    [Identity] on the CPU device (as TensorFlow records it), named by
    [unique_name] from 'lms/swapout' in the current name scope, that reads
    this output; it returns the new operation and records it in
    [_excl_ops]. *)
Theorem add_swapout_effect g o src k :
  valid g src -> (k < n_outputs (node g src))%nat ->
  _add_swapout src (src, k) (g, o)
  = (Ret (List.length g),
     (g ++ [mkNode (tf.unique_name g (tf.scoped "lms/swapout")) "Identity"
                   [(src, k)] [] 1 (device_name (_cpu_device o))],
      set_excl_ops (set_add (List.length g) (_excl_ops o)) o)).
Proof.
  intros Hv Hk. unfold _add_swapout. do 4 mret.
  unfold tf.identity. cbn [fst snd].
  set (n := mkNode (tf.unique_name g (tf.scoped "lms/swapout")) "Identity"
                   [(src, k)] [] 1 (device_name (_cpu_device o))).
  assert (Hsrc : node (g ++ [n]) src = node g src) by now apply node_app_old.
  unfold ge.output_index. cbn [ge.sgv ge.sgv_outputs].
  rewrite index_of_outputs by now rewrite Hsrc. mret.
  erewrite bind_Ret.
  2:{ apply connect_ops_swapout.
      - now rewrite Hsrc.
      - now rewrite node_app_new. }
  mret. reflexivity.
Qed.

End SwapOut.

Lemma add_swapout_effect_witness :
  _add_swapout 0%nat (0%nat, 0%nat) (ex_graph, ex_lms)
  = (Ret 4%nat,
     (ex_graph
      ++ [mkNode "lms/swapout" "Identity" [(0%nat, 0%nat)] [] 1
                 "/device:CPU:0"],
      set_excl_ops [4%nat] ex_lms)).
Proof.
  exact (@add_swapout_effect ex_env ex_graph ex_lms 0%nat 0%nat
           ltac:(unfold valid; simpl; lia) ltac:(simpl; lia)).
Defined.

Section SwapIn.

Context {env : Env}.

(** X12: [_add_swapin], for a swap-out operation and a consumer [dest_op]
    that reads [ts0], appends one operation to the graph: an [Identity] on
    the CPU device (as TensorFlow records it), named by [unique_name] from
    'lms/swapin' in the current name scope, that reads the output of the
    swap-out operation.  The input slots of [dest_op]
    that read [ts0] now read the new operation, no other operation of the
    graph changes; the new operation is returned and recorded in
    [_excl_ops]. *)
Theorem add_swapin_effect g o so dest ts0 :
  valid g so -> n_outputs (node g so) = 1%nat ->
  valid g dest -> In ts0 (inputs (node g dest)) ->
  exists g',
    _add_swapin (Some so) dest ts0 (g, o)
    = (Ret (List.length g),
       (g', set_excl_ops (set_add (List.length g) (_excl_ops o)) o))
    /\ List.length g' = S (List.length g)
    /\ node g' (List.length g)
       = mkNode (tf.unique_name g (tf.scoped "lms/swapin")) "Identity"
                [(so, 0%nat)] [] 1 (device_name (_cpu_device o))
    /\ node g' dest = rewire ts0 (List.length g) (node g dest)
    /\ forall c, valid g c -> c <> dest -> node g' c = node g c.
Proof.
  intros Hso Hso1 Hd Hin. unfold valid in *.
  set (si := List.length g).
  set (n := mkNode (tf.unique_name g (tf.scoped "lms/swapin")) "Identity"
                   [ts0] [] 1 (device_name (_cpu_device o))).
  set (g1 := g ++ [n]).
  set (g2 := ge.update g1 si (rewire ts0 so)).
  set (g3 := ge.update g2 dest (rewire ts0 si)).
  assert (Hold1 : forall c, (c < List.length g)%nat -> node g1 c = node g c)
    by (intros c Hc; subst g1; now apply node_app_old).
  assert (Hsi1 : node g1 si = n) by (subst g1 si; apply node_app_new).
  assert (Hlen1 : List.length g1 = S (List.length g))
    by (subst g1; rewrite length_app; cbn; lia).
  assert (Hsi2 : node g2 si = rewire ts0 so n).
  { subst g2. rewrite node_update_same by (subst si; lia). now rewrite Hsi1. }
  assert (Hold2 : forall c, (c < List.length g)%nat -> node g2 c = node g c).
  { intros c Hc. subst g2. rewrite node_update_other by (subst si; lia).
    now apply Hold1. }
  assert (Hlen2 : List.length g2 = S (List.length g))
    by (subst g2; now rewrite length_update).
  destruct (connect_ops_rewire g2 o si dest ts0) as [idx [Hidx Hc2]].
  { now rewrite Hsi2. }
  { now rewrite Hold2. }
  exists g3. split; [| split; [| split; [| split]]].
  - unfold _add_swapin. do 3 mret. unfold tf.identity. cbn [fst snd]. mret.
    fold n g1 si.
    erewrite bind_Ret.
    2:{ apply connect_ops_plain with (ts0 := ts0).
        - now rewrite Hold1.
        - now rewrite Hsi1. }
    fold g2. mret. rewrite Hidx. mret.
    erewrite bind_Ret by exact Hc2. mret. reflexivity.
  - subst g3. now rewrite length_update.
  - subst g3. fold si.
    rewrite node_update_other by (subst si; lia). rewrite Hsi2.
    unfold rewire, n. cbn [ge.set_inputs inputs map name type control_inputs
                              n_outputs device].
    now rewrite tensor_eqb_refl.
  - subst g3. rewrite node_update_same by lia. now rewrite Hold2.
  - intros c Hc Hne. subst g3. rewrite node_update_other by exact Hne.
    now apply Hold2.
Qed.

End SwapIn.
Lemma add_swapin_effect_witness :
  exists g',
    _add_swapin (Some 4%nat) 2%nat (0%nat, 0%nat) (ex_graph_swapout, ex_lms)
    = (Ret 5%nat, (g', set_excl_ops [5%nat] ex_lms))
    /\ List.length g' = 6%nat
    /\ node g' 5%nat
       = mkNode "lms/swapin" "Identity" [(4%nat, 0%nat)] [] 1 "/device:CPU:0"
    /\ node g' 2%nat = rewire (0%nat, 0%nat) 5%nat (node ex_graph_swapout 2%nat)
    /\ forall c, valid ex_graph_swapout c -> c <> 2%nat ->
                 node g' c = node ex_graph_swapout c.
Proof.
  exact (@add_swapin_effect ex_env ex_graph_swapout ex_lms 4%nat 2%nat
           (0%nat, 0%nat)
           ltac:(unfold valid; simpl; lia) eq_refl
           ltac:(unfold valid; simpl; lia) ltac:(simpl; now left)).
Defined.

Section ControlDependency.

Context {env : Env}.

(** X13: [_add_control_dependency] touches the graph in one place at most:
    it may append one operation, not yet among them, to the control inputs
    of [swapin_op].  No operation is added, no input is rewired, every
    other operation is as before; the only error it can raise comes from
    the graph editor, and then the graph is unchanged. *)
Theorem add_control_dependency_effect fuel topo fw_op bw_op swapin_op g o :
  exists out g' o',
    _add_control_dependency fuel topo fw_op bw_op swapin_op (g, o)
    = (out, (g', o'))
    /\ (forall e, out = Raise e -> e = GraphEditorError /\ g' = g)
    /\ List.length g' = List.length g
    /\ (forall c, c <> swapin_op -> node g' c = node g c)
    /\ name (node g' swapin_op) = name (node g swapin_op)
    /\ type (node g' swapin_op) = type (node g swapin_op)
    /\ inputs (node g' swapin_op) = inputs (node g swapin_op)
    /\ n_outputs (node g' swapin_op) = n_outputs (node g swapin_op)
    /\ device (node g' swapin_op) = device (node g swapin_op)
    /\ (control_inputs (node g' swapin_op) = control_inputs (node g swapin_op)
        \/ exists c,
             ~ In c (control_inputs (node g swapin_op))
             /\ control_inputs (node g' swapin_op)
                = control_inputs (node g swapin_op) ++ [c]).
Proof.
  unfold _add_control_dependency.
  destruct (resolve_control_dependency_graph fuel topo fw_op bw_op g o)
    as [out [o' [Hres Hnr]]].
  destruct out as [re | e |].
  2:{ exfalso. now apply (Hnr e). }
  2:{ exists OutOfFuel, g, o'. split.
      - now rewrite (bind_OutOfFuel _ _ _ _ Hres).
      - split; [intros e He; discriminate |].
        repeat (split; [reflexivity |]). now left. }
  rewrite (bind_Ret _ _ _ _ _ Hres).
  destruct (fst re) as [c |].
  2:{ exists (Ret tt), g, o'. split; [reflexivity |].
      split; [intros e He; discriminate |].
      repeat (split; [reflexivity |]). now left. }
  mret. unfold ge.add_control_inputs.
  destruct (mem c (control_inputs (node g swapin_op))) eqn:Em.
  - exists (Raise GraphEditorError), g, o'. split; [mraise; reflexivity |].
    split; [intros e He; injection He as <-; now split |].
    repeat (split; [reflexivity |]). now left.
  - exists (Ret tt),
      (ge.update g swapin_op
         (fun n => ge.set_control_inputs n (control_inputs n ++ [c]))), o'.
    split; [mret; reflexivity |].
    split; [intros e He; discriminate |].
    split; [apply length_update |].
    split; [intros c' Hc'; now apply node_update_other |].
    destruct (lt_dec swapin_op (List.length g)) as [Hlt | Hge].
    + rewrite node_update_same by exact Hlt.
      destruct (node g swapin_op) as [nm ty ins cs k dv] eqn:En.
      cbn [ge.set_control_inputs name type control_inputs n_outputs device
           inputs] in *.
      repeat (split; [reflexivity |]). right. exists c.
      split; [now apply mem_false | reflexivity].
    + rewrite node_update_out by exact Hge.
      repeat (split; [reflexivity |]). now left.
Qed.

Lemma fold_min_spec (l : list Z) : forall x,
  let m := fold_left Z.min l x in
  m <= x /\ (forall y, In y l -> m <= y) /\ (m = x \/ In m l).
Proof.
  induction l as [| a l IH]; intros x; cbn [fold_left]; cbv zeta.
  - split; [lia |]. split; [intros y [] | now left].
  - specialize (IH (Z.min x a)). cbv zeta in IH. destruct IH as [I1 [I2 I3]].
    split; [lia |]. split.
    + intros y [<- | Hy]; [lia | now apply I2].
    + destruct I3 as [I3 | I3]; [| right; now right].
      rewrite I3. destruct (Z.min_spec x a) as [[_ E] | [_ E]]; rewrite E.
      * now left.
      * right. now left.
Qed.

(** X14: [_get_branch_ops] returns the operations of [within_ops] whose
    level exceeds the lowest level found in [within_ops] by more than the
    threshold (so, with a threshold of 0 or more, never an operation of the
    lowest level, and nothing for an empty set). *)
Theorem get_branch_ops_above_minimum topo within threshold op :
  In op (_get_branch_ops topo within threshold)
  <-> In op within
      /\ exists low,
           In low within
           /\ (forall x, In x within -> get_order topo low <= get_order topo x)
           /\ get_order topo op > get_order topo low + threshold.
Proof.
  unfold _get_branch_ops. destruct within as [| w ws].
  - cbn. split; [intros [] | intros [[] _]].
  - cbn [map].
    destruct (fold_min_spec (map (get_order topo) ws) (get_order topo w))
      as [M1 [M2 M3]]. cbv zeta in M1, M2, M3.
    set (m := fold_left Z.min (map (get_order topo) ws) (get_order topo w)) in *.
    assert (Hlow : exists low, In low (w :: ws) /\ get_order topo low = m).
    { destruct M3 as [M3 | M3].
      - exists w. split; [now left | now symmetry].
      - apply in_map_iff in M3. destruct M3 as [low [E Hin]].
        exists low. split; [now right | exact E]. }
    assert (Hmin : forall x, In x (w :: ws) -> m <= get_order topo x).
    { intros x [<- | Hx]; [exact M1 |]. apply M2. now apply in_map. }
    rewrite filter_In, Z.gtb_lt. split.
    + intros [Hin Hgt]. split; [exact Hin |].
      destruct Hlow as [low [Hl El]]. exists low. split; [exact Hl |].
      split; [| lia]. intros x Hx. rewrite El. now apply Hmin.
    + intros [Hin [low [Hl [Hall Hgt]]]]. split; [exact Hin |].
      destruct Hlow as [low' [Hl' El']].
      pose proof (Hall low' Hl'). pose proof (Hmin low Hl). lia.
Qed.

End ControlDependency.

(* ================================================================== *)
(** ** What the two searches along consumers return *)

Section Search.

Context {env : Env}.

Lemma consumes_all_consuming_ops g op c :
  In c (all_consuming_ops g op) -> consumes g op c.
Proof.
  intros H. apply In_all_consuming_ops in H. destruct H as [t [Ht Hc]].
  apply In_get_consuming_ops in Hc. exists t. tauto.
Qed.

Section ChainRule.

Variable g : Graph.
Variable grad_ops : list OpId.
Variable topo : TOPOS.
Variable fw_op : OpId.
Variable fw_order bw_order : Z.

Local Abbreviation candidate :=
  (chain_candidate g grad_ops topo fw_op fw_order bw_order).

Lemma chain_rule_loop_result fuel :
  forall open_set1 open_set2 closed_set result_ops lower_b upper_b r,
    (forall x, In x open_set1 -> reaches g fw_op x) ->
    (forall x, In x open_set2 -> reaches g fw_op x) ->
    (forall c, In c result_ops -> candidate c) ->
    chain_rule_loop fuel g grad_ops topo fw_order bw_order
      open_set1 open_set2 closed_set result_ops lower_b upper_b = Some r ->
    forall c, In c r -> candidate c.
Proof.
  induction fuel as [| fuel IH];
    intros open_set1 open_set2 closed_set result_ops lower_b upper_b r
           H1 H2 Hres Hr.
  - destruct open_set1 as [| src_op open_rest]; cbn in Hr.
    + injection Hr as <-. exact Hres.
    + destruct ((upper_b =? 0) || (lower_b >? upper_b)); [| discriminate].
      injection Hr as <-. exact Hres.
  - destruct open_set1 as [| src_op open_rest]; cbn [chain_rule_loop] in Hr.
    + injection Hr as <-. exact Hres.
    + destruct ((upper_b =? 0) || (lower_b >? upper_b)).
      { injection Hr as <-. exact Hres. }
      assert (Hsrc : reaches g fw_op src_op) by (apply H1; now left).
      assert (Hcons : forall x, In x (all_consuming_ops g src_op) ->
                                reaches g fw_op x /\ valid g x).
      { intros x Hx. apply consumes_all_consuming_ops in Hx. split.
        - now apply reaches_step with (b := src_op).
        - destruct Hx as [t [_ [Hv _]]]. exact Hv. }
      set (res' := if lower_b <=? 0 then _ else result_ops) in Hr.
      assert (Hres' : forall c, In c res' -> candidate c).
      { intros c Hc. subst res'. destruct (lower_b <=? 0); [| now apply Hres].
        apply In_set_union in Hc. destruct Hc as [Hc | Hc]; [now apply Hres |].
        apply filter_In in Hc. destruct Hc as [Hc Hcond].
        apply filter_In in Hc. destruct Hc as [Hc Hlt].
        apply filter_In in Hc. destruct Hc as [Hc Hgt].
        apply In_set_inter in Hc. destruct Hc as [Hc Hg].
        destruct (Hcons c Hc) as [Hreach Hv].
        apply negb_true_iff in Hcond. apply Z.ltb_lt in Hlt.
        apply Z.gtb_lt in Hgt.
        split; [exact Hg |]. split; [exact Hv |]. split; [lia |].
        split; assumption. }
      set (os2 := enqueue_new closed_set _ open_set2) in Hr.
      assert (Hos2 : forall x, In x os2 -> reaches g fw_op x).
      { intros x Hx. subst os2. apply In_enqueue_new in Hx.
        destruct Hx as [Hx | Hx]; [now apply H2 |].
        apply In_set_diff in Hx. destruct Hx as [Hx _]. now apply Hcons. }
      destruct open_rest as [| y open_rest].
      * destruct (nonempty res').
        -- injection Hr as <-. exact Hres'.
        -- eapply IH; [| | | exact Hr]; auto. intros x [].
      * eapply IH; [| | | exact Hr]; auto.
        intros x Hx. apply H1. now right.
Qed.

End ChainRule.

(** X15: away from the boundary of the backward phase, an operation that
    [_do_chain_rule] returns is a backward operation of the graph, reached
    from [fw_op] along producer-consumer edges, whose level lies strictly
    between the levels of [fw_op] and [bw_op] and whose name has no
    '/cond/'; the level returned with it is its own; the call changes
    neither the graph nor the object. *)
Theorem do_chain_rule_result fuel topo fw_op bw_op lower_b upper_b g o c k s' :
  bw_starting_order topo <= get_order topo bw_op - lower_b ->
  _do_chain_rule fuel topo fw_op bw_op lower_b upper_b (g, o)
  = (Ret (Some c, k), s') ->
  s' = (g, o)
  /\ In c (_grad_ops o) /\ valid g c
  /\ get_order topo fw_op < get_order topo c < get_order topo bw_op
  /\ contains "/cond/" (op_name g c) = false
  /\ reaches g fw_op c
  /\ k = get_order topo c.
Proof.
  intros Hb. unfold _do_chain_rule.
  assert (E : (get_order topo bw_op - lower_b <? bw_starting_order topo) = false)
    by (apply Z.ltb_ge; lia).
  rewrite E. do 2 mret.
  destruct (chain_rule_loop fuel g (_grad_ops o) topo (get_order topo fw_op)
              (get_order topo bw_op) [fw_op] [] [] [] lower_b upper_b)
    as [[| x l] |] eqn:El; cbn; intros H; try discriminate.
  injection H as <- <- <-. split; [reflexivity |].
  assert (Hc : chain_candidate g (_grad_ops o) topo fw_op
                 (get_order topo fw_op) (get_order topo bw_op) x).
  { eapply chain_rule_loop_result; [| | | exact El | now left].
    - intros y [<- | []]. apply reaches_refl.
    - intros y [].
    - intros y []. }
  destruct Hc as (H1 & H2 & H3 & H4 & H5). repeat split; try assumption; lia.
Qed.

Section FindNewSrc.

Variable g : Graph.
Variable topo : TOPOS.
Variable original_op : OpId.

Local Abbreviation found := (new_src g topo original_op).

Lemma find_new_src_loop_result fuel :
  forall open_set closed_set src_ops r,
    (forall x, In x open_set -> reaches g original_op x) ->
    (forall x, In x src_ops -> found x) ->
    find_new_src_loop fuel g topo open_set closed_set src_ops = Some r ->
    forall x, In x r -> found x.
Proof.
  induction fuel as [| fuel IH]; intros open_set closed_set src_ops r Ho Hs Hr.
  - destruct open_set; cbn in Hr; [| discriminate].
    injection Hr as <-. exact Hs.
  - destruct open_set as [| src_op open_rest]; cbn [find_new_src_loop] in Hr.
    + injection Hr as <-. exact Hs.
    + assert (Hsrc : reaches g original_op src_op) by (apply Ho; now left).
      eapply IH; [| | exact Hr].
      * intros x Hx. apply In_enqueue_new in Hx.
        destruct Hx as [Hx | Hx]; [apply Ho; now right |].
        apply In_set_diff in Hx. destruct Hx as [Hx _].
        apply consumes_all_consuming_ops in Hx.
        now apply reaches_step with (b := src_op).
      * intros x Hx.
        destruct (nonempty (filter _ (all_consuming_ops g src_op))) eqn:En;
          [| now apply Hs].
        apply In_set_add in Hx. destruct Hx as [Hx | ->]; [now apply Hs |].
        split; [exact Hsrc |].
        apply nonempty_In in En. destruct En as [c Hc].
        apply filter_In in Hc. destruct Hc as [Hc Hord].
        exists c. split; [now apply consumes_all_consuming_ops |].
        apply Z.gtb_lt in Hord. lia.
Qed.

End FindNewSrc.

(** X16: every operation that [_find_new_src_op] returns is reached from
    [original_op] along producer-consumer edges and has an output read by
    an operation whose level is above the starting level of the backward
    phase; the call changes neither the graph nor the object. *)
Theorem find_new_src_op_result fuel topo original_op g o r s' :
  _find_new_src_op fuel topo original_op (g, o) = (Ret r, s') ->
  s' = (g, o)
  /\ forall x, In x r ->
       reaches g original_op x
       /\ exists c, consumes g x c
                    /\ get_order topo c > bw_starting_order topo.
Proof.
  unfold _find_new_src_op. mret.
  destruct (find_new_src_loop fuel g topo [original_op] [] []) as [r0 |] eqn:E;
    cbn; intros H; [| discriminate].
  injection H as <- <-. split; [reflexivity |].
  intros x Hx.
  apply (find_new_src_loop_result g topo original_op fuel [original_op] [] [] r0);
    auto.
  - intros y [<- | []]. apply reaches_refl.
  - intros y [].
Qed.

End Search.
Lemma do_chain_rule_result_witness :
  (ex_graph, ex_lms_grad) = (ex_graph, ex_lms_grad)
  /\ In 2%nat (_grad_ops ex_lms_grad) /\ valid ex_graph 2%nat
  /\ get_order ex_order 0%nat < get_order ex_order 2%nat
     < get_order ex_order 3%nat
  /\ contains "/cond/" (op_name ex_graph 2%nat) = false
  /\ reaches ex_graph 0%nat 2%nat
  /\ 2 = get_order ex_order 2%nat.
Proof.
  apply (do_chain_rule_result 10 ex_order 0%nat 3%nat 1 10000
           ex_graph ex_lms_grad 2%nat 2 (ex_graph, ex_lms_grad)).
  - vm_compute. discriminate.
  - vm_compute. reflexivity.
Defined.

Lemma find_new_src_op_result_witness :
  (ex_graph, ex_lms_grad) = (ex_graph, ex_lms_grad)
  /\ forall x, In x [2%nat] ->
       reaches ex_graph 0%nat x
       /\ exists c, consumes ex_graph x c
                    /\ get_order ex_order c > bw_starting_order ex_order.
Proof.
  apply (find_new_src_op_result 10 ex_order 0%nat ex_graph ex_lms_grad
           [2%nat] (ex_graph, ex_lms_grad)).
  vm_compute. reflexivity.
Defined.

Lemma earliest_is_lowest_witness :
  let topo := ex_topos_fuse ex_graph_fuse [0%nat] [1; 2; 3]%nat in
  exists e, earliest topo [1; 2]%nat = Some e /\ In e [1; 2]%nat
            /\ forall op, In op [1; 2]%nat ->
                          get_order topo e <= get_order topo op.
Proof.
  apply (earliest_is_lowest (ex_topos_fuse ex_graph_fuse [0%nat] [1; 2; 3]%nat)
           [1; 2]%nat).
  - discriminate.
  - intros op [<- | [<- | []]]; vm_compute; discriminate.
Defined.

Lemma fuse_swapin_ops_fuses_witness :
  let topo := ex_topos_fuse ex_graph_fuse [0%nat] [1; 2; 3]%nat in
  let g := ex_graph_fuse_swapout in
  exists out g' o',
    _fuse_swapin_ops 10 topo 0%nat 4%nat [1; 2]%nat (0%nat, 0%nat)
      (g, lms_of ex_args_fuse)
    = (out, (g', o'))
    /\ (out = Ret [] \/ out = OutOfFuel)
    /\ List.length g' = 6%nat
    /\ (forall c, valid g c ->
          node g' c = if mem c [1; 2]%nat
                      then rewire (0%nat, 0%nat) 5%nat (node g c)
                      else node g c)
    /\ name (node g' 5%nat) = "lms/swapin"
    /\ type (node g' 5%nat) = "Identity"
    /\ inputs (node g' 5%nat) = [(4%nat, 0%nat)].
Proof.
  exact (@fuse_swapin_ops_fuses ex_env 10
           (ex_topos_fuse ex_graph_fuse [0%nat] [1; 2; 3]%nat)
           0%nat 4%nat [1; 2]%nat (0%nat, 0%nat)
           ex_graph_fuse_swapout (lms_of ex_args_fuse)
           ltac:(vm_compute; lia)
           ltac:(repeat constructor; simpl; intuition lia)
           ltac:(intros op [<- | [<- | []]];
                 (split; [unfold valid; simpl; lia | simpl; tauto]))
           ltac:(unfold valid; simpl; lia)
           eq_refl).
Defined.

Lemma run_returns_new_ops_witness :
  let g' := fst (snd (run ex_topos 10 (Some the_graph) (ex_graph_atomic, ex_lms))) in
  let seeds := run_seed_ops ex_graph_atomic ex_lms in
  [4; 5]%nat
  = set_diff (new_reachable_from g' seeds)
             (new_reachable_from ex_graph_atomic seeds)
  /\ forall op, In op [4; 5]%nat ->
                (List.length ex_graph_atomic <= op < List.length g')%nat.
Proof.
  apply (run_returns_new_ops ex_topos 10 (Some the_graph) ex_graph_atomic
           ex_args ex_lms [4; 5]%nat).
  - reflexivity.
  - exact ex_graph_atomic_well_formed.
  - intros seeds grad. apply ex_topos_levels_within.
  - vm_compute. reflexivity.
Defined.

(* ================================================================== *)
(** ** [run] as a whole *)

Section RunGraphArgument.

Context {env : Env}.

(** X20: called without a graph on an object that has none, [run] returns
    [None] when LMS is turned off ([_n_tensors] is 0) and otherwise raises
    the [ValueError] that asks for the graph, before it looks at any scope;
    the graph of the caller is untouched, and a negative [_n_tensors] has
    already been replaced by 0. *)
Theorem run_requires_graph tb fuel g o :
  _graph o = None ->
  run tb fuel None (g, o)
  = if _n_tensors o =? 0 then (Ret None, (g, o))
    else (Raise (ValueError
            "The dataflow graph is required but has not been provided."),
          (g, if _n_tensors o <? 0 then set_n_tensors 0 o else o)).
Proof.
  intros Hg. unfold run. do 2 mret.
  destruct (_n_tensors o =? 0); [reflexivity |].
  destruct (_n_tensors o <? 0).
  - do 2 mret. cbn [_graph set_n_tensors]. rewrite Hg. reflexivity.
  - do 2 mret. rewrite Hg. reflexivity.
Qed.

End RunGraphArgument.

Lemma run_requires_graph_witness :
  run ex_topos 10 None (ex_graph, ex_lms)
  = (Raise (ValueError
       "The dataflow graph is required but has not been provided."),
     (ex_graph, set_n_tensors 0 ex_lms)).
Proof.
  apply (run_requires_graph ex_topos 10 ex_graph ex_lms).
  reflexivity.
Defined.

Section RunFrame.

Context {env : Env}.

(** X21: whatever way a run on a new object ends (a result, an exception,
    no fuel left), it has removed no operation of the graph; every
    operation that was there has its name, its type and its number of
    outputs; and an operation that no seed operation reaches is exactly as
    before.  The graph is assumed well formed, and the order to give no
    level to an operation outside the graph it was built for. *)
Theorem run_keeps_operations tb fuel gr (g : Graph) (a : Args) (o : LMS) :
  __init__ a = Ret o ->
  well_formed g ->
  (forall seeds grad, levels_within g (tb g seeds grad)) ->
  let g' := fst (snd (run tb fuel gr (g, o))) in
  (List.length g <= List.length g')%nat
  /\ (forall c, valid g c ->
        name (node g' c) = name (node g c)
        /\ type (node g' c) = type (node g c)
        /\ n_outputs (node g' c) = n_outputs (node g c))
  /\ (forall c, valid g c ->
        (forall s, In s (run_seed_ops g o) -> ~ reaches g s c) ->
        node g' c = node g c).
Proof.
  intros Hinit Hwf Hlev g'.
  destruct (init_fresh a o Hinit) as (Hd & Hgr & Hty).
  assert (Hm : memo_consistent g o).
  { intros x l Hl. unfold lookup in Hl. rewrite Hd in Hl. discriminate. }
  assert (Hinv : graph_inv g (new_reachable_from g (run_seed_ops g o)) g').
  { apply run_graph_inv; auto. rewrite Hgr. intros x []. }
  split; [apply (gi_length Hinv) |]. split.
  - intros c Hc. now apply (gi_frame Hinv).
  - intros c Hc Hno. apply (gi_untouched Hinv); [exact Hc |].
    intros Hin. apply In_new_reachable_from in Hin.
    destruct Hin as [s [Hs Hin]]. apply (Hno s Hs).
    now apply In_get_forward_walk_ops.
Qed.

End RunFrame.

Lemma run_keeps_operations_witness :
  let g' := fst (snd (run ex_topos 10 (Some the_graph) (ex_graph_atomic, ex_lms))) in
  (List.length ex_graph_atomic <= List.length g')%nat
  /\ (forall c, valid ex_graph_atomic c ->
        name (node g' c) = name (node ex_graph_atomic c)
        /\ type (node g' c) = type (node ex_graph_atomic c)
        /\ n_outputs (node g' c) = n_outputs (node ex_graph_atomic c))
  /\ (forall c, valid ex_graph_atomic c ->
        (forall s, In s (run_seed_ops ex_graph_atomic ex_lms) ->
                   ~ reaches ex_graph_atomic s c) ->
        node g' c = node ex_graph_atomic c).
Proof.
  apply (run_keeps_operations ex_topos 10 (Some the_graph) ex_graph_atomic
           ex_args ex_lms).
  - reflexivity.
  - exact ex_graph_atomic_well_formed.
  - intros seeds grad. apply ex_topos_levels_within.
Defined.

(* ================================================================== *)
(** ** Well-formedness and the count of swap-out operations *)

Section CountingLemmas.

Context {env : Env}.

Lemma valid_tensor_outputs g op t : In t (outputs g op) -> valid_tensor g t.
Proof.
  intros H. apply In_outputs in H. destruct H as [<- Hk].
  split; [| exact Hk]. unfold valid.
  destruct (lt_dec (fst t) (List.length g)) as [Hlt | Hge]; [exact Hlt |].
  unfold node in Hk. rewrite nth_overflow in Hk by lia. cbn in Hk. lia.
Qed.

Lemma valid_tensor_append g nd t :
  valid_tensor g t -> valid_tensor (g ++ [nd]) t.
Proof.
  intros [Hv Hk]. unfold valid in Hv. split.
  - unfold valid. rewrite length_app. lia.
  - now rewrite node_app_old.
Qed.

Lemma n_outputs_update g d f c :
  (forall x, n_outputs (f x) = n_outputs x) ->
  n_outputs (node (ge.update g d f) c) = n_outputs (node g c).
Proof.
  intros Hf. destruct (Nat.eq_dec c d) as [-> | Hne].
  - destruct (lt_dec d (List.length g)) as [Hlt | Hge].
    + rewrite node_update_same by exact Hlt. apply Hf.
    + now rewrite node_update_out.
  - now rewrite node_update_other.
Qed.

Lemma valid_tensor_update g d f t :
  (forall x, n_outputs (f x) = n_outputs x) ->
  valid_tensor g t -> valid_tensor (ge.update g d f) t.
Proof.
  intros Hf [Hv Hk]. split.
  - unfold valid in *. now rewrite length_update.
  - now rewrite n_outputs_update.
Qed.

Lemma well_formed_append g nd :
  well_formed g -> (forall t, In t (inputs nd) -> valid_tensor g t) ->
  well_formed (g ++ [nd]).
Proof.
  intros Hwf Hn c t Hc Ht. unfold valid in Hc. rewrite length_app in Hc.
  cbn in Hc. change (valid_tensor (g ++ [nd]) t). apply valid_tensor_append.
  destruct (Nat.eq_dec c (List.length g)) as [-> | Hne].
  - rewrite node_app_new in Ht. now apply Hn.
  - rewrite node_app_old in Ht by lia.
    apply (Hwf c t); [unfold valid; lia | exact Ht].
Qed.

Lemma well_formed_update g d f :
  well_formed g ->
  (forall x, n_outputs (f x) = n_outputs x) ->
  ((d < List.length g)%nat ->
   forall t, In t (inputs (f (node g d))) -> valid_tensor g t) ->
  well_formed (ge.update g d f).
Proof.
  intros Hwf Hf Hd c t Hc Ht. change (valid_tensor (ge.update g d f) t).
  apply valid_tensor_update; [exact Hf |].
  unfold valid in Hc. rewrite length_update in Hc.
  destruct (Nat.eq_dec c d) as [-> | Hne].
  - rewrite node_update_same in Ht by exact Hc. now apply Hd.
  - rewrite node_update_other in Ht by exact Hne. now apply (Hwf c t).
Qed.

Lemma count_swapout_append g nd :
  count_swapout (g ++ [nd])
  = (count_swapout g
     + (if String.prefix (tf.scoped "lms/swapout") (name nd) then 1 else 0))%nat.
Proof.
  unfold count_swapout. rewrite filter_app, length_app. cbn [filter].
  destruct (String.prefix (tf.scoped "lms/swapout") (name nd)); reflexivity.
Qed.

Lemma count_swapout_update g : forall d f,
  (forall x, name (f x) = name x) ->
  count_swapout (ge.update g d f) = count_swapout g.
Proof.
  unfold count_swapout.
  induction g as [| x g IH]; intros d f Hf; [now destruct d |].
  destruct d as [| d]; cbn [ge.update filter].
  - rewrite Hf. now destruct (String.prefix (tf.scoped "lms/swapout") (name x)).
  - specialize (IH d f Hf).
    destruct (String.prefix (tf.scoped "lms/swapout") (name x)); cbn [List.length];
      now rewrite IH.
Qed.

(** [resolve_control_dependency] reads the graph, raises nothing, and
    changes the object in its table of forward walks at most. *)
Lemma resolve_control_dependency_object fuel topo fw_op bw_op g o :
  exists out d,
    resolve_control_dependency fuel topo fw_op bw_op (g, o)
    = (out, (g, set_ops_dict d o))
    /\ forall e, out <> Raise e.
Proof.
  assert (Hd : forall lb ub, exists out d,
    _do_direct_order topo fw_op bw_op lb ub (g, o)
    = (out, (g, set_ops_dict d o))
    /\ forall e, out <> Raise e).
  { intros lb ub. unfold _do_direct_order.
    destruct (direct_order_scan_spec topo bw_op g
                (direct_order_levels (get_order topo fw_op)
                   (get_order topo bw_op) lb ub) o) as [o' [E [_ [d ->]]]].
    rewrite (bind_Ret _ _ _ _ _ E).
    destruct (fst _); eexists; exists d; (split; [reflexivity | discriminate]). }
  assert (Hc : forall lb ub, exists out d,
    _do_chain_rule fuel topo fw_op bw_op lb ub (g, o)
    = (out, (g, set_ops_dict d o))
    /\ forall e, out <> Raise e).
  { intros lb ub. unfold _do_chain_rule.
    destruct (_ <? _); [apply Hd |]. do 2 mret.
    destruct (chain_rule_loop _ _ _ _ _ _ _ _ _ _ _ _) as [[| x l] |];
      eexists; exists (_ops_dict o); rewrite set_ops_dict_same;
      (split; [reflexivity | discriminate]). }
  unfold resolve_control_dependency. mret.
  destruct (mem fw_op (_grad_ops o)); [apply Hd |].
  destruct (_ctrld_strategy o); [apply Hc | apply Hd].
Qed.

Lemma name_update g d f c :
  (forall x, name (f x) = name x) ->
  name (node (ge.update g d f) c) = name (node g c).
Proof.
  intros Hf. destruct (Nat.eq_dec c d) as [-> | Hne].
  - destruct (lt_dec d (List.length g)) as [Hlt | Hge].
    + rewrite node_update_same by exact Hlt. apply Hf.
    + now rewrite node_update_out.
  - now rewrite node_update_other.
Qed.

Lemma mem_set_add_false x y l : mem x (set_add y l) = false -> mem x l = false.
Proof.
  intros H. apply mem_false. intros Hin. apply mem_false in H.
  apply H. apply In_set_add. now left.
Qed.

Lemma new_ops_ok_refl g0 : new_ops_ok g0 g0.
Proof. intros c Hc. lia. Qed.

Lemma new_ops_ok_append g0 g nd :
  new_ops_ok g0 g -> swap_op nd -> new_ops_ok g0 (g ++ [nd]).
Proof.
  intros H Hn c Hc. rewrite length_app in Hc. cbn in Hc.
  destruct (Nat.eq_dec c (List.length g)) as [-> | Hne].
  - now rewrite node_app_new.
  - rewrite node_app_old by lia. apply H. lia.
Qed.

Lemma new_ops_ok_update g0 g d f :
  new_ops_ok g0 g ->
  (forall x, name (f x) = name x) ->
  (forall x, type (f x) = type x) ->
  (forall x, n_outputs (f x) = n_outputs x) ->
  (forall x, List.length (inputs (f x)) = List.length (inputs x)) ->
  new_ops_ok g0 (ge.update g d f).
Proof.
  intros H H1 H2 H3 H4 c Hc. rewrite length_update in Hc.
  specialize (H c Hc). unfold swap_op in *.
  destruct (Nat.eq_dec c d) as [-> | Hne].
  - rewrite node_update_same by lia. now rewrite H1, H2, H3, H4.
  - now rewrite node_update_other.
Qed.

Lemma levels_within_valid g topo op :
  levels_within g topo -> 0 <= get_order topo op -> valid g op.
Proof.
  intros H Ho. unfold valid. destruct (lt_dec op (List.length g)) as [Hlt | Hge];
    [exact Hlt |].
  specialize (H op Hge). lia.
Qed.

Section CountingPrimitives.

Variable W V : Prop.
Variable n K : Z.
Variable g0 : Graph.
Variable P : OpId -> Prop.

Local Abbreviation counted' := (counted W V n K g0 P).
Local Abbreviation Cnt' := (Cnt W V n K g0 P).
Local Abbreviation Stop' := (CntStop W V n K g0 P).
Local Abbreviation sources_ok := (swap_sources_ok g0 P).

Lemma sources_ok_append g nd :
  sources_ok g ->
  (String.prefix (tf.scoped "lms/swapout") (name nd) = true ->
   forall t, In t (inputs nd) -> P (fst t)) ->
  sources_ok (g ++ [nd]).
Proof.
  intros [Hlen Hs] Hn. split; [rewrite length_app; lia |].
  intros so t Hso Hnm Ht. rewrite length_app in Hso. cbn in Hso.
  unfold swapout_named, op_name in *.
  destruct (Nat.eq_dec so (List.length g)) as [-> | Hne].
  - rewrite node_app_new in *. now apply (Hn Hnm).
  - rewrite node_app_old in * by lia. apply (Hs so t); auto. lia.
Qed.

Lemma sources_ok_update g d f :
  sources_ok g ->
  (forall x, name (f x) = name x) ->
  ((List.length g0 <= d < List.length g)%nat -> swapout_named g d = true ->
   forall t, In t (inputs (f (node g d))) -> P (fst t)) ->
  sources_ok (ge.update g d f).
Proof.
  intros [Hlen Hs] Hf Hd. split; [now rewrite length_update |].
  intros so t Hso Hnm Ht. rewrite length_update in Hso.
  unfold swapout_named, op_name in Hnm. rewrite name_update in Hnm by exact Hf.
  destruct (Nat.eq_dec so d) as [-> | Hne].
  - rewrite node_update_same in Ht by lia. now apply Hd.
  - rewrite node_update_other in Ht by exact Hne. now apply (Hs so t).
Qed.

Lemma counted_object d g o o' :
  _n_tensors o' = _n_tensors o -> _incpu_count o' = _incpu_count o ->
  (V -> checks_ok P o -> checks_ok P o') ->
  counted' d (g, o) -> counted' d (g, o').
Proof.
  intros H1 H2 H3 (Hw & Hn & Hc & Hl & Hv & Hnw). cbn [fst snd] in *.
  unfold counted. cbn [fst snd]. rewrite H1, H2.
  repeat (split; [assumption |]). split; [| exact Hnw].
  intros HV. destruct (Hv HV) as [Hs Hk]. split; [exact Hs | now apply H3].
Qed.

(** A change of the object outside [_n_tensors], [_incpu_count],
    [_excl_ops] and [_incl_ops]. *)
Lemma counted_fields d g o o' :
  _n_tensors o' = _n_tensors o -> _incpu_count o' = _incpu_count o ->
  _excl_ops o' = _excl_ops o -> _incl_ops o' = _incl_ops o ->
  counted' d (g, o) -> counted' d (g, o').
Proof.
  intros H1 H2 H3 H4. apply counted_object; [exact H1 | exact H2 |].
  intros _ Hk x. rewrite H3, H4. apply Hk.
Qed.

Lemma counted_excl_add d g o x :
  counted' d (g, o) ->
  counted' d (g, set_excl_ops (set_add x (_excl_ops o)) o).
Proof.
  apply counted_object; [reflexivity | reflexivity |].
  intros _ Hk y Hy Hi. destruct o; cbn in *.
  apply Hk; [now apply mem_set_add_false with (y := x) | exact Hi].
Qed.

Lemma Cnt_fields T g o o' :
  _n_tensors o' = _n_tensors o -> _incpu_count o' = _incpu_count o ->
  _excl_ops o' = _excl_ops o -> _incl_ops o' = _incl_ops o ->
  Cnt' T (g, o) -> Cnt' T (g, o').
Proof.
  intros H1 H2 H3 H4 [Hc HT]. split; [| exact HT].
  now apply counted_fields with (o := o).
Qed.

Lemma Cnt_object T g o o' :
  _n_tensors o' = _n_tensors o -> _incpu_count o' = _incpu_count o ->
  (V -> checks_ok P o -> checks_ok P o') ->
  Cnt' T (g, o) -> Cnt' T (g, o').
Proof.
  intros H1 H2 H3 [Hc HT]. split; [| exact HT].
  now apply counted_object with (o := o).
Qed.

Lemma sources_ok_refl : sources_ok g0.
Proof. split; [lia |]. intros so t Hso. lia. Qed.

Lemma counted_stop d s : d = 0 \/ d = 1 -> counted' d s -> Stop' s.
Proof. intros [-> | ->] H; [now left | now right]. Qed.

Lemma Cnt_stop T s : Cnt' T s -> Stop' s.
Proof. intros [H _]. now left. Qed.

Lemma counted_update d g o dest f :
  (forall x, name (f x) = name x) ->
  (forall x, n_outputs (f x) = n_outputs x) ->
  (forall x, type (f x) = type x) ->
  (forall x, List.length (inputs (f x)) = List.length (inputs x)) ->
  (W -> (dest < List.length g)%nat ->
   forall t, In t (inputs (f (node g dest))) -> valid_tensor g t) ->
  (V -> (List.length g0 <= dest < List.length g)%nat ->
   swapout_named g dest = true ->
   forall t, In t (inputs (f (node g dest))) -> P (fst t)) ->
  counted' d (g, o) -> counted' d (ge.update g dest f, o).
Proof.
  intros Hnm Hno Hty Hlen Hin Hp (Hw & Hn & Hc & Hl & Hv & Hnw).
  cbn [fst snd] in *.
  unfold counted. cbn [fst snd].
  split; [intros HW; apply well_formed_update; auto |].
  split; [exact Hn |].
  split; [now rewrite count_swapout_update |].
  split; [exact Hl |].
  split; [| now apply new_ops_ok_update].
  intros HV. destruct (Hv HV) as [Hs Hk]. split; [| exact Hk].
  apply sources_ok_update; auto.
Qed.

Lemma counted_append d g o nd :
  String.prefix (tf.scoped "lms/swapout") (name nd) = false ->
  swap_op nd ->
  (W -> forall t, In t (inputs nd) -> valid_tensor g t) ->
  counted' d (g, o) -> counted' d (g ++ [nd], o).
Proof.
  intros Hp Hsw Hin (Hw & Hn & Hc & Hl & Hv & Hnw). cbn [fst snd] in *.
  unfold counted. cbn [fst snd].
  split; [intros HW; apply well_formed_append; auto |].
  split; [exact Hn |].
  split; [rewrite count_swapout_append, Hp; lia |].
  split; [exact Hl |].
  split; [| now apply new_ops_ok_append].
  intros HV. destruct (Hv HV) as [Hs Hk]. split; [| exact Hk].
  apply sources_ok_append; [exact Hs |]. intros Hp'. congruence.
Qed.

Lemma pins_append T g nd :
  (W -> forall t, In t T -> valid_tensor g t) ->
  W -> forall t, In t T -> valid_tensor (g ++ [nd]) t.
Proof. intros HT HW t Ht. apply valid_tensor_append. now apply HT. Qed.

(** The effect of [_connect_ops] on a counted state. *)
Lemma connect_ops_cnt d T src dest ri ro idx g o :
  d = 0 \/ d = 1 ->
  counted' d (g, o) -> (W -> forall t, In t T -> valid_tensor g t) ->
  (V -> (List.length g0 <= dest < List.length g)%nat ->
   swapout_named g dest = true -> P src) ->
  match _connect_ops src dest ri ro idx (g, o) with
  | (Ret _, s') =>
      counted' d s'
      /\ (W -> forall t, In t T -> valid_tensor (fst s') t)
      /\ snd s' = o
      /\ List.length (fst s') = List.length g
      /\ (forall c, name (node (fst s') c) = name (node g c))
  | (_, s') => Stop' s'
  end.
Proof.
  intros Hd Hc HT Hsrc.
  destruct (connect_ops_effect src dest ri ro idx g o)
    as [(outs & ins & Hout & E) | E]; rewrite E;
    [| now apply counted_stop with (d := d)].
  cbn [fst snd]. split; [| split; [| split; [reflexivity | split]]].
  - apply counted_update; [intros x; now destruct x
                          | intros x; now destruct x
                          | intros x; now destruct x
                          | intros x; destruct x; cbn; apply length_map
                          | | | exact Hc].
    + intros HW Hlt t Ht. cbn [ge.set_inputs inputs] in Ht.
      apply in_map_iff in Ht. destruct Ht as [t0 [<- Ht0]].
      destruct (reroute_cases outs ins t0) as [-> | Hin].
      * destruct Hc as [Hw _]. exact (Hw HW dest t0 Hlt Ht0).
      * apply valid_tensor_outputs with (op := src). now apply Hout.
    + intros HV Hnew Hnm t Ht. cbn [ge.set_inputs inputs] in Ht.
      apply in_map_iff in Ht. destruct Ht as [t0 [<- Ht0]].
      destruct (reroute_cases outs ins t0) as [-> | Hin].
      * destruct Hc as (_ & _ & _ & _ & Hv & _). destruct (Hv HV) as [[_ Hs] _].
        now apply (Hs dest t0).
      * apply Hout in Hin. apply In_outputs in Hin. destruct Hin as [-> _].
        now apply Hsrc.
  - intros HW t Ht. apply valid_tensor_update; [intros x; now destruct x |].
    now apply HT.
  - apply length_update.
  - intros c. apply name_update. intros x. now destruct x.
Qed.

Lemma add_swapout_cnt T src t :
  In t T -> fst t = src -> (V -> P src) ->
  triple (fun s => Cnt' T s /\ (0 < n -> _incpu_count (snd s) < n))
         (_add_swapout src t)
         (fun _ s => counted' 1 s
                     /\ (W -> forall t, In t T -> valid_tensor (fst s) t))
         Stop'.
Proof.
  intros Ht Hfst Hp [g o] [[Hc HT] Hlt]. cbn [fst snd] in *.
  unfold _add_swapout. do 4 mret. unfold tf.identity. cbn [fst snd].
  set (nd := mkNode (tf.unique_name g (tf.scoped "lms/swapout")) "Identity" [t] [] 1
                    (device_name (_cpu_device o))).
  assert (Hc1 : counted' 1 (g ++ [nd], o)).
  { destruct Hc as (Hw & Hn & Hk & Hl & Hv & Hnw). cbn [fst snd] in *.
    assert (Hpre : String.prefix (tf.scoped "lms/swapout") (name nd) = true)
      by apply prefix_swapout.
    unfold counted. cbn [fst snd].
    split; [| split; [exact Hn | split; [| split; [| split]]]].
    5:{ apply new_ops_ok_append; [exact Hnw |].
        repeat (split; [reflexivity |]). now left. }
    - intros HW. apply well_formed_append; [auto |].
      intros t' [<- | []]. now apply HT.
    - rewrite count_swapout_append, Hpre. lia.
    - intros Hpos. specialize (Hlt Hpos). lia.
    - intros HV. destruct (Hv HV) as [Hs Hck]. split; [| exact Hck].
      apply sources_ok_append; [exact Hs |].
      intros _ t' [<- | []]. rewrite Hfst. now apply Hp. }
  pose proof (pins_append T g nd HT) as HT1.
  destruct (ge.output_index (ge.sgv (g ++ [nd]) src) t) as [idx |].
  2:{ mraise. now right. }
  mret.
  mcall (connect_ops_cnt 1 T src (List.length g) false true (Some idx)
           (g ++ [nd]) o (or_intror eq_refl) Hc1 HT1
           (fun HV _ _ => Hp HV)) as u g1 o1.
  destruct Hcall as (Hc2 & HT2 & -> & _).
  mret. unfold ret. split; [| exact HT2].
  now apply counted_excl_add.
Qed.

Lemma add_swapin_cnt T swapout_op dest t :
  In t T -> (V -> valid g0 dest) ->
  triple (Cnt' T) (_add_swapin swapout_op dest t) (fun _ => Cnt' T) Stop'.
Proof.
  intros Ht Hdest [g o] [Hc HT]. cbn [fst snd] in *.
  unfold _add_swapin. do 3 mret. unfold tf.identity. cbn [fst snd].
  set (nd := mkNode (tf.unique_name g (tf.scoped "lms/swapin")) "Identity" [t] [] 1
                    (device_name (_cpu_device o))).
  assert (Hc1 : counted' 0 (g ++ [nd], o)).
  { apply counted_append; [apply prefix_swapin_not_swapout | | | exact Hc].
    - repeat (split; [reflexivity |]). right. apply prefix_swapin.
    - intros HW t' [<- | []]. now apply HT. }
  pose proof (pins_append T g nd HT) as HT1.
  destruct swapout_op as [so |].
  2:{ mraise. now left. }
  mret.
  assert (Hns : swapout_named (g ++ [nd]) (List.length g) = false).
  { unfold swapout_named, op_name. rewrite node_app_new.
    apply prefix_swapin_not_swapout. }
  mcall (connect_ops_cnt 0 T so (List.length g) false false None
           (g ++ [nd]) o (or_introl eq_refl) Hc1 HT1
           (fun _ _ (H : swapout_named (g ++ [nd]) (List.length g) = true) =>
              False_ind _ (eq_true_false_abs _ H Hns))) as u g1 o1.
  destruct Hcall as (Hc2 & HT2 & -> & Hlen & _).
  mret.
  destruct (ge.input_index (ge.sgv g1 dest) t) as [idx |].
  2:{ mraise. now left. }
  mret.
  mcall (connect_ops_cnt 0 T (List.length g) dest true false (Some idx)
           g1 o (or_introl eq_refl) Hc2 HT2
           (fun HV (H : (List.length g0 <= dest < List.length g1)%nat) _ =>
              False_ind _ (Nat.lt_irrefl _
                (Nat.lt_le_trans _ _ _ (Hdest HV) (proj1 H))))) as u2 g2 o2.
  destruct Hcall as (Hc3 & HT3 & -> & _).
  mret. unfold ret. split; [| exact HT3].
  now apply counted_excl_add.
Qed.

Lemma add_control_dependency_cnt T fuel topo fw_op bw_op swapin_op :
  triple (Cnt' T) (_add_control_dependency fuel topo fw_op bw_op swapin_op)
         (fun _ => Cnt' T) Stop'.
Proof.
  intros [g o] Hi. unfold _add_control_dependency.
  destruct (resolve_control_dependency_object fuel topo fw_op bw_op g o)
    as [out [d [Hres Hnr]]].
  assert (Hi1 : Cnt' T (g, set_ops_dict d o))
    by now apply Cnt_fields with (o := o).
  destruct out as [re | e |].
  2:{ exfalso. now apply (Hnr e). }
  2:{ rewrite (bind_OutOfFuel _ _ _ _ Hres). left. apply Hi1. }
  rewrite (bind_Ret _ _ _ _ _ Hres).
  destruct (fst re) as [c |]; [| exact Hi1].
  mret. unfold ge.add_control_inputs.
  destruct (mem c (control_inputs (node g swapin_op))).
  - mraise. left. apply Hi1.
  - mret. unfold put_graph. cbn [fst snd]. destruct Hi1 as [Hc HT]. split.
    + apply counted_update; [intros x; now destruct x
                            | intros x; now destruct x
                            | intros x; now destruct x
                            | intros x; now destruct x
                            | | | exact Hc].
      * intros HW Hlt t Ht. cbn [ge.set_control_inputs inputs] in Ht.
        destruct Hc as [Hw _]. exact (Hw HW swapin_op t Hlt Ht).
      * intros HV Hnew Hnm t Ht. cbn [ge.set_control_inputs inputs] in Ht.
        destruct Hc as (_ & _ & _ & _ & Hv & _). destruct (Hv HV) as [[_ Hs] _].
        now apply (Hs swapin_op t).
    + intros HW t Ht. apply valid_tensor_update; [intros x; now destruct x |].
      now apply HT.
Qed.

Lemma find_new_src_op_cnt T fuel topo original_op :
  triple (Cnt' T) (_find_new_src_op fuel topo original_op)
         (fun _ => Cnt' T) Stop'.
Proof.
  intros [g o] Hi. unfold _find_new_src_op. mret.
  destruct (find_new_src_loop fuel g topo [original_op] [] []); cbn.
  - exact Hi.
  - left. apply Hi.
Qed.

End CountingPrimitives.

End CountingLemmas.
(** Step over a call whose effect is given by [H]; the fact about the
    result is named [Hc]. *)
Tactic Notation "mstep" constr(H) "as" ident(a) ident(g) ident(o) ident(Hc) :=
  match goal with
  | |- match bind ?m ?k ?s with _ => _ end =>
      let E := fresh "Ecall" in
      pose proof H as Hc;
      destruct (m s) as [[a | ? |] [g o]] eqn:E;
      [ rewrite (bind_Ret m k s _ _ E); cbn [fst snd] in *
      | rewrite (bind_Raise m k s _ _ E); exact Hc
      | rewrite (bind_OutOfFuel m k s _ E); exact Hc ]
  end.

Section CountingPlanner.

Context {env : Env}.

Variable W V : Prop.
Variable n K : Z.
Variable g0 : Graph.
Variable P : OpId -> Prop.
Variable topo : TOPOS.
Hypothesis Hlev : V -> levels_within g0 topo.

Local Abbreviation counted' := (counted W V n K g0 P).
Local Abbreviation Cnt' := (Cnt W V n K g0 P).
Local Abbreviation Stop' := (CntStop W V n K g0 P).

Lemma not_new_of_level op (g : Graph) :
  V -> 0 <= get_order topo op -> (List.length g0 <= op < List.length g)%nat ->
  False.
Proof.
  intros HV Ho [Hle _].
  pose proof (levels_within_valid g0 topo op (Hlev HV) Ho) as Hv.
  unfold valid in Hv. lia.
Qed.

Lemma fuse_swapin_ops_cnt T fuel src_op swapout_op bw ts0 :
  In ts0 T ->
  triple (Cnt' T) (_fuse_swapin_ops fuel topo src_op swapout_op bw ts0)
         (fun _ => Cnt' T) (Stop').
Proof.
  intros Ht [g o] Hi. unfold _fuse_swapin_ops.
  set (fuse := filter (fun op => get_order topo op >? 0) bw).
  destruct (2 <=? List.length fuse)%nat; [| exact Hi].
  destruct Hi as [Hc HT]. cbn [fst snd] in *.
  do 3 mret. unfold tf.identity. cbn [fst snd].
  set (nd := mkNode (tf.unique_name g (tf.scoped "lms/swapin")) "Identity" [ts0] [] 1
                    (device_name (_cpu_device o))).
  assert (Hc1 : counted' 0 (g ++ [nd], o)).
  { apply counted_append; [apply prefix_swapin_not_swapout | | | exact Hc].
    - repeat (split; [reflexivity |]). right. apply prefix_swapin.
    - intros HW t' [<- | []]. now apply HT. }
  pose proof (pins_append W T g nd HT) as HT1.
  assert (Hns : swapout_named (g ++ [nd]) (List.length g) = false).
  { unfold swapout_named, op_name. rewrite node_app_new.
    apply prefix_swapin_not_swapout. }
  mstep (connect_ops_cnt W V n K g0 P 0 T swapout_op (List.length g)
           false false None (g ++ [nd]) o (or_introl eq_refl) Hc1 HT1
           (fun _ _ (H : swapout_named (g ++ [nd]) (List.length g) = true) =>
              False_ind _ (eq_true_false_abs _ H Hns))) as u g1 o1 H1.
  destruct H1 as (Hc2 & HT2 & -> & _).
  mret.
  assert (Hi2 : Cnt' T
                  (g1, set_excl_ops (set_add (List.length g) (_excl_ops o)) o)).
  { split; [| exact HT2]. now apply counted_excl_add. }
  match goal with
  | |- match bind (for_each _ ?body) _ _ with _ => _ end =>
      assert (Hbody : forall op, In op fuse ->
                triple (Cnt' T) (body op)
                       (fun _ => Cnt' T) (Stop'))
  end.
  { intros op Hop [g2 o2] [Hc3 HT3]. cbn [fst snd] in *. mret.
    destruct (ge.input_index (ge.sgv g2 op) ts0) as [idx |].
    2:{ mraise. now left. }
    mret.
    assert (Hold : V -> (List.length g0 <= op < List.length g2)%nat ->
                   swapout_named g2 op = true -> P (List.length g)).
    { intros HV Hnew _. exfalso. apply (not_new_of_level op g2 HV); [| exact Hnew].
      subst fuse. apply filter_In in Hop. destruct Hop as [_ Hop].
      rewrite Z.gtb_ltb in Hop. apply Z.ltb_lt in Hop. lia. }
    mstep (connect_ops_cnt W V n K g0 P 0 T (List.length g) op true false
             (Some idx) g2 o2 (or_introl eq_refl) Hc3 HT3 Hold) as u3 g3 o3 H3.
    destruct H3 as (Hc4 & HT4 & _). exact (conj Hc4 HT4). }
  mstep (triple_for_each (Cnt' T) fuse _ (Stop') Hbody _ Hi2)
    as c g4 o4 H4.
  destruct (earliest topo fuse) as [earliest_op |].
  - mstep (add_control_dependency_cnt W V n K g0 P T fuel topo src_op earliest_op
             (List.length g) (g4, o4) H4) as u5 g5 o5 H5.
    exact H5.
  - mret. exact H4.
Qed.

Lemma swapped_max_tensors_false o :
  _n_tensors o = n -> _swapped_max_tensors o = false ->
  0 < n -> _incpu_count o < n.
Proof.
  unfold _swapped_max_tensors. intros -> E Hpos.
  apply andb_false_iff in E. destruct E as [E | E].
  - rewrite Z.gtb_ltb in E. apply Z.ltb_ge in E. lia.
  - rewrite Z.geb_leb in E. apply Z.leb_gt in E. lia.
Qed.

Lemma insert_swap_nodes_cnt fuel : forall T src_op,
  triple (Cnt' T) (_insert_swap_nodes fuel topo src_op)
         (fun _ => Cnt' T) (Stop').
Proof.
  induction fuel as [| fuel IH]; intros T src_op.
  - apply triple_out_of_fuel. apply Cnt_stop.
  - intros [gA oA] HiA. cbn [_insert_swap_nodes]. mret.
    destruct (mem src_op (_excl_ops oA)) eqn:Eex; [exact HiA |].
    destruct (nonempty (_incl_ops oA) && negb (mem src_op (_incl_ops oA)))
      eqn:Ein; [exact HiA |].
    assert (Hsrc : V -> P src_op).
    { intros HV. destruct HiA as [(_ & _ & _ & _ & Hv & _) _].
      destruct (Hv HV) as [_ Hk]. now apply Hk. }
    mret.
    set (T' := outputs gA src_op ++ T).
    assert (HiA' : Cnt' T' (gA, oA)).
    { destruct HiA as [Hc HT]. split; [exact Hc |].
      intros HW t Ht. apply in_app_iff in Ht. destruct Ht as [Ht | Ht].
      - eapply valid_tensor_outputs; eauto.
      - now apply HT. }
    assert (Hweak : forall s, Cnt' T' s -> Cnt' T s).
    { intros s [Hc HT]. split; [exact Hc |].
      intros HW t Ht. apply HT; [exact HW |]. apply in_app_iff. now right. }
    match goal with
    | |- match bind (for_each _ ?body) _ _ with _ => _ end =>
        assert (Hbody : forall t, In t (outputs gA src_op) ->
                  triple (Cnt' T') (body t)
                         (fun _ => Cnt' T') (Stop'))
    end.
    2:{ mstep (triple_for_each (Cnt' T') (outputs gA src_op) _
                 (Stop') Hbody _ HiA') as c g1 o1 H1.
        apply Hweak. exact H1. }
    intros t Ht [g o] Hi.
    assert (HtT : In t T') by (apply in_app_iff; now left).
    mret.
    destruct (_swapped_max_tensors o) eqn:Emax; [exact Hi |].
    assert (Hlt : 0 < n -> _incpu_count o < n).
    { apply swapped_max_tensors_false; [| exact Emax]. apply Hi. }
    mret.
    set (bw0 := if _swap_branches o then _ else _).
    match goal with
    | |- match bind (filterM ?p _) _ _ with _ => _ end =>
        assert (Hp : forall x, In x bw0 ->
                  triple (fun s => Cnt' T' s
                                   /\ (0 < n -> _incpu_count (snd s) < n))
                         (p x)
                         (fun _ s => Cnt' T' s
                                     /\ (0 < n -> _incpu_count (snd s) < n))
                         (Stop'))
    end.
    { intros x _ [g1 o1] [Hi1 Hl1].
      rewrite (bind_Ret _ _ _ _ _ (get_forward_walk_ops_spec g1 o1 x false)).
      cbn [fst snd] in *. destruct (memo_store_fields g1 o1 x) as [d ->].
      split; [now apply Cnt_fields with (o := o1) | exact Hl1]. }
    mstep (triple_filterM _ _ bw0 (Stop') Hp _ (conj Hi Hlt))
      as bw g1 o1 H1.
    destruct H1 as [[Hi1 Hl1] Hbw].
    destruct (negb (nonempty bw)); [exact Hi1 |].
    match goal with
    | |- match bind ?m _ _ with _ => _ end =>
        assert (Hso : triple (fun s => Cnt' T' s
                                       /\ (0 < n -> _incpu_count (snd s) < n))
                             m (fun _ => Cnt' T') (Stop'))
    end.
    { destruct (existsb _ bw).
      - eapply triple_bind.
        { apply add_swapout_cnt; [exact HtT | | exact Hsrc].
          apply In_outputs in Ht. apply Ht. }
        intros so. cbv beta. eapply triple_bind.
        + apply triple_modify with (Q := fun _ => Cnt' T').
          intros [g2 o2] [Hc2 HT2]. cbn [fst snd] in *. split; [| exact HT2].
          destruct Hc2 as (Hw & Hn & Hk & Hl & Hv & Hnw). cbn [fst snd] in *.
          destruct o2. unfold counted.
          cbn [fst snd set_incpu_count _n_tensors _incpu_count] in *.
          split; [exact Hw |]. split; [exact Hn |].
          split; [lia |]. split; [intros Hpos; specialize (Hl Hpos); lia |].
          exact (conj Hv Hnw).
        + intros u. apply triple_ret. intros s Hs. exact Hs.
      - apply triple_ret. intros s [Hs _]. exact Hs. }
    mstep (Hso _ (conj Hi1 Hl1)) as swapout_op g2 o2 H2.
    match goal with
    | |- match bind ?m _ _ with _ => _ end =>
        assert (Hfu : triple (Cnt' T') m
                        (fun _ => Cnt' T') (Stop'))
    end.
    { destruct swapout_op as [so |]; [| now apply triple_ret].
      destruct (_fuse_swapins o); [| now apply triple_ret].
      apply fuse_swapin_ops_cnt. exact HtT. }
    mstep (Hfu _ H2) as bw' g3 o3 H3.
    match goal with
    | |- match bind (for_each _ ?body) _ _ with _ => _ end =>
        assert (Hdest : forall dest_op, In dest_op bw' ->
                  triple (Cnt' T') (body dest_op)
                         (fun _ => Cnt' T') (Stop'))
    end.
    2:{ mstep (triple_for_each (Cnt' T') bw' _ (Stop')
                 Hdest _ H3) as c g4 o4 H4.
        exact H4. }
    intros dest_op Hdest.
    destruct (get_order topo dest_op <? 0) eqn:Eord.
    + intros [g4 o4] Hi4. mret.
      destruct (mem src_op (_grad_ops o4)); [exact Hi4 |].
      mstep (find_new_src_op_cnt W V n K g0 P T' (S fuel) topo dest_op _ Hi4)
        as new_src_ops g5 o5 H5.
      apply (triple_for_each (Cnt' T') new_src_ops _ (Stop'));
        [| exact H5].
      intros op Hop. eapply triple_bind; [apply IH |].
      intros u. apply triple_ret. intros s Hs. exact Hs.
    + eapply triple_bind.
      { apply add_swapin_cnt; [exact HtT |].
        intros HV. apply levels_within_valid with (topo := topo);
          [now apply Hlev |].
        apply Z.ltb_ge in Eord. exact Eord. }
      intros swapin_op. cbv beta.
      eapply triple_bind; [apply add_control_dependency_cnt |].
      intros u. apply triple_ret. intros s Hs. exact Hs.
Qed.

Lemma do_action_loop_cnt fuel m : forall open_set closed_set,
  triple (Cnt' []) (do_action_loop m fuel topo open_set closed_set)
         (fun _ => Cnt' []) (Stop').
Proof.
  induction m as [| m IH]; intros open_set closed_set.
  - destruct open_set; cbn [do_action_loop].
    + now apply triple_ret.
    + apply triple_out_of_fuel. apply Cnt_stop.
  - destruct open_set as [| src_op open_rest]; cbn [do_action_loop].
    + now apply triple_ret.
    + intros [g o] Hi. do 2 mret.
      mstep (insert_swap_nodes_cnt fuel [] src_op _ Hi) as u g1 o1 H1.
      mret. destruct (_swapped_max_tensors o1); [exact H1 |].
      apply IH. exact H1.
Qed.

End CountingPlanner.

Section CountingTheorems.

Context {env : Env}.

(** [_build_gradient_ops] changes the object in [_grad_ops] only, however it
    ends, and leaves the graph alone. *)
Lemma build_gradient_ops_object g o :
  exists out grad_ops,
    _build_gradient_ops (g, o) = (out, (g, set_grad_ops grad_ops o)).
Proof.
  assert (H : forall scopes o0, exists out grad_ops,
    for_each scopes build_gradient_ops_body (g, o0)
    = (out, (g, set_grad_ops grad_ops o0))).
  { induction scopes as [| sc scopes IH]; intros o0.
    - exists (Ret Next), (_grad_ops o0). now rewrite set_grad_ops_same.
    - cbn [for_each]. unfold bind at 1. rewrite build_gradient_ops_body_spec.
      destruct (prefix_matches g sc).
      + destruct (IH (set_grad_ops
                        (set_union (_grad_ops o0)
                           (to_set (filter_ops_prefix g
                                      (ge.make_list_of_op g) sc))) o0))
          as [out [G' E]].
        exists out, G'. rewrite set_grad_ops_idem in E.
        destruct out as [[| ] | e |]; exact E.
      + eexists. exists (_grad_ops o0). now rewrite set_grad_ops_same. }
  unfold _build_gradient_ops. mret.
  destruct (H (_optimizer_scopes o) o) as [out [G' E]].
  destruct out as [c | e |].
  - exists (Ret tt), G'. now rewrite (bind_Ret _ _ _ _ _ E).
  - exists (Raise e), G'. now rewrite (bind_Raise _ _ _ _ _ E).
  - exists OutOfFuel, G'. now rewrite (bind_OutOfFuel _ _ _ _ E).
Qed.

(** [_get_seed_ops] changes nothing, however it ends. *)
Lemma get_seed_ops_state g o : snd (_get_seed_ops (g, o)) = (g, o).
Proof.
  destruct (start_scope_matches g (_starting_scope o)
            && start_names_match g (_starting_op_names o)) eqn:Em.
  - apply andb_prop in Em. destruct Em as [Hs Hn].
    now rewrite (get_seed_ops_ok g o Hs Hn).
  - destruct (get_seed_ops_err g o Em) as [e [E _]]. now rewrite E.
Qed.

Lemma analysed_counters gr g o :
  _n_tensors (analysed gr g o) = (if _n_tensors o <? 0 then 0 else _n_tensors o)
  /\ _incpu_count (analysed gr g o) = _incpu_count o.
Proof.
  unfold analysed.
  destruct (fold_memo_store_fields g (run_seed_ops g o)
              (set_grad_ops (run_grad_ops g o) (run_entry gr o))) as [d ->].
  cbn [set_ops_dict set_grad_ops _n_tensors _incpu_count].
  unfold run_entry. destruct gr; cbn [set_graph _n_tensors];
    destruct (_n_tensors o <? 0); split; reflexivity.
Qed.

Section CountingRun.

Variable W V : Prop.
Variable n K : Z.
Variable g0 : Graph.
Variable P : OpId -> Prop.

Local Abbreviation Cnt' := (Cnt W V n K g0 P).
Local Abbreviation Stop' := (CntStop W V n K g0 P).

Lemma build_gradient_ops_cnt T :
  triple (Cnt' T) _build_gradient_ops (fun _ => Cnt' T) Stop'.
Proof.
  intros [g o] Hi. destruct (build_gradient_ops_object g o) as [out [G' E]].
  rewrite E.
  assert (Hi' : Cnt' T (g, set_grad_ops G' o))
    by now apply Cnt_fields with (o := o).
  destruct out; [exact Hi' | | ]; now apply Cnt_stop with (T := T).
Qed.

Lemma get_seed_ops_cnt T :
  triple (Cnt' T) _get_seed_ops (fun _ => Cnt' T) Stop'.
Proof.
  intros [g o] Hi. pose proof (get_seed_ops_state g o) as E.
  destruct (_get_seed_ops (g, o)) as [[r | e |] s']; cbn [snd] in E; subst s';
    [exact Hi | |]; now apply Cnt_stop with (T := T).
Qed.

Lemma reachable_from_cnt T seeds acc :
  triple (Cnt' T) (reachable_from seeds acc) (fun _ => Cnt' T) Stop'.
Proof.
  intros [g o] Hi. rewrite reachable_from_spec.
  destruct (fold_memo_store_fields g seeds o) as [d ->].
  now apply Cnt_fields with (o := o).
Qed.

Lemma filter_scopes_and_types_cnt T within scopes types :
  triple (Cnt' T) (_filter_scopes_and_types within scopes types)
         (fun _ => Cnt' T) Stop'.
Proof.
  intros [g o] Hi.
  destruct (filter_scopes_and_types_cases g o within scopes types)
    as [E | [msg E]]; rewrite E; [exact Hi |].
  now apply Cnt_stop with (T := T).
Qed.

End CountingRun.

(** The counting part of the invariant through [run_rewrite]; the sources
    of the swap-out operations are not followed here. *)
Lemma run_rewrite_cnt (W : Prop) n K g0 P tb fuel g seeds reach :
  triple (Cnt W False n K g0 P []) (run_rewrite tb fuel g seeds reach)
         (fun _ => Cnt W False n K g0 P []) (CntStop W False n K g0 P).
Proof.
  intros [g1 o] Hi. unfold run_rewrite. mret.
  mstep (filter_scopes_and_types_cnt W False n K g0 P [] reach
           (_excl_scopes o) (_excl_types o) _ Hi) as excl g2 o2 H2.
  mret.
  assert (H2' : Cnt W False n K g0 P [] (g2, set_excl_ops excl o2)).
  { apply Cnt_object with (o := o2);
      [reflexivity | reflexivity | intros [] | exact H2]. }
  mstep (filter_scopes_and_types_cnt W False n K g0 P [] reach
           (_incl_scopes o) (_incl_types o) _ H2') as incl g3 o3 H3.
  do 2 mret.
  assert (H3' : Cnt W False n K g0 P [] (g3, set_incl_ops incl o3)).
  { apply Cnt_object with (o := o3);
      [reflexivity | reflexivity | intros [] | exact H3]. }
  unfold _do_action.
  match goal with
  | |- match bind (do_action_loop _ _ ?tp _ _) _ _ with _ => _ end =>
      mstep (do_action_loop_cnt W False n K g0 P tp
               (fun F : False => False_ind _ F) fuel fuel seeds [] _ H3')
        as u g4 o4 H4
  end.
  do 2 mret. exact H4.
Qed.

(** The sources of the swap-out operations created by [run_rewrite]: each
    one has passed the two tests of [_insert_swap_nodes] against the sets
    that [run_rewrite] computes. *)
Lemma run_rewrite_sources tb fuel g seeds reach o :
  (forall grad, levels_within g (tb g seeds grad)) ->
  (0 < _n_tensors o -> _incpu_count o <= _n_tensors o) ->
  let X := filtered_ops_of g reach (_excl_scopes o) (_excl_types o) in
  let I := filtered_ops_of g reach (_incl_scopes o) (_incl_types o) in
  swap_sources_ok g
    (fun x => mem x X = false /\ nonempty I && negb (mem x I) = false)
    (fst (snd (run_rewrite tb fuel g seeds reach (g, o)))).
Proof.
  intros Hlev Hlim X I.
  set (P := fun x => mem x X = false /\ nonempty I && negb (mem x I) = false).
  set (n := _n_tensors o).
  set (K := Z.of_nat (count_swapout g) - _incpu_count o).
  assert (Hstop : forall out s,
            match out : outcome (option (list OpId)) with
            | Ret _ => Cnt False True n K g P [] s
            | _ => CntStop False True n K g P s
            end -> swap_sources_ok g P (fst s)).
  { intros out s H. destruct out as [r | e |].
    - destruct H as [(_ & _ & _ & _ & Hv & _) _]. now apply Hv.
    - destruct H as [H | H]; destruct H as (_ & _ & _ & _ & Hv & _); now apply Hv.
    - destruct H as [H | H]; destruct H as (_ & _ & _ & _ & Hv & _); now apply Hv. }
  unfold run_rewrite. mret.
  destruct (filter_scopes_and_types_cases g o reach (_excl_scopes o)
              (_excl_types o)) as [E | [msg E]].
  2:{ rewrite (bind_Raise _ _ _ _ _ E). apply sources_ok_refl. }
  rewrite (bind_Ret _ _ _ _ _ E). fold X. mret.
  destruct (filter_scopes_and_types_cases g (set_excl_ops X o) reach
              (_incl_scopes o) (_incl_types o)) as [E' | [msg E']].
  2:{ rewrite (bind_Raise _ _ _ _ _ E'). apply sources_ok_refl. }
  rewrite (bind_Ret _ _ _ _ _ E'). fold I. do 2 mret.
  set (o3 := set_incl_ops I (set_excl_ops X o)).
  assert (H3 : Cnt False True n K g P [] (g, o3)).
  { split; [| intros []]. unfold counted. cbn [fst snd].
    split; [intros [] |]. split; [reflexivity |].
    split; [subst K o3; cbn; lia |].
    split; [subst o3 n; cbn; lia |].
    split; [| apply new_ops_ok_refl].
    intros _. split; [apply sources_ok_refl |].
    intros x Hx Hi. subst o3. cbn in Hx, Hi. split; assumption. }
  unfold _do_action.
  match goal with
  | |- context [bind (do_action_loop _ _ ?tp _ _) _ _] =>
      pose proof (do_action_loop_cnt False True n K g P tp
                    (fun _ => Hlev _) fuel fuel seeds [] _ H3) as H4
  end.
  unfold bind at 1.
  match type of H4 with
  | match ?x with _ => _ end => destruct x as [[u | e |] [g4 o4]]
  end.
  - do 2 mret. unfold ret. cbn [fst snd]. apply (Hstop (Ret None) _ H4).
  - cbn [fst snd]. apply (Hstop (Raise e) _ H4).
  - cbn [fst snd]. apply (Hstop OutOfFuel _ H4).
Qed.

(** The same for [run] as a whole, on an object that has not counted a
    swap-out yet. *)
Lemma run_sources tb fuel gr g o :
  memo_consistent g o -> _incpu_count o = 0 ->
  (forall seeds grad, levels_within g (tb g seeds grad)) ->
  let R := new_reachable_from g (run_seed_ops g o) in
  let X := filtered_ops_of g R (_excl_scopes o) (_excl_types o) in
  let I := filtered_ops_of g R (_incl_scopes o) (_incl_types o) in
  swap_sources_ok g
    (fun x => mem x X = false /\ nonempty I && negb (mem x I) = false)
    (fst (snd (run tb fuel gr (g, o)))).
Proof.
  intros Hm Hi0 Hlev R X I.
  destruct (Z.eq_dec (_n_tensors o) 0) as [Hn | Hn].
  { rewrite run_disabled by exact Hn. apply sources_ok_refl. }
  destruct (graph_given gr o) eqn:Hg.
  2:{ rewrite run_enabled by exact Hn.
      destruct gr as [r |]; [destruct (_graph o); discriminate |].
      rewrite (run_entry_no_graph o Hg). apply sources_ok_refl. }
  destruct (seeds_resolve g o) eqn:Hs.
  2:{ unfold seeds_resolve in Hs.
      destruct (forallb (prefix_matches g) (_optimizer_scopes o)) eqn:E1.
      - destruct (run_seed_err tb fuel gr g o Hn Hg E1 Hs) as [msg [o' [E _]]].
        rewrite E. apply sources_ok_refl.
      - destruct (run_grad_err tb fuel gr g o Hn Hg E1) as [msg [o' [E _]]].
        rewrite E. apply sources_ok_refl. }
  rewrite run_analysis by assumption.
  unfold run_reachable_ops. rewrite reachable_ops_of_consistent by exact Hm.
  destruct (already_rewritten g _); [apply sources_ok_refl |].
  destruct (analysed_fields gr g o) as (F1 & F2 & F3 & F4 & _).
  destruct (analysed_counters gr g o) as [C1 C2].
  pose proof (run_rewrite_sources tb fuel g (run_seed_ops g o) R
                (analysed gr g o) (Hlev _)) as H.
  cbv zeta in H. rewrite F1, F2, F3, F4 in H. apply H.
  rewrite C1, C2, Hi0. destruct (_n_tensors o <? 0); lia.
Qed.

(** The state in which [run] ends: the swap-out operations it has created
    are those counted in [_incpu_count], the limit is kept, [_n_tensors] is
    the value [run] gave it at its start, and a well-formed graph is still
    well formed. *)
Lemma run_counted (W : Prop) tb fuel gr g o :
  let nn := if _n_tensors o <? 0 then 0 else _n_tensors o in
  let K := Z.of_nat (count_swapout g) - _incpu_count o in
  let P := fun _ : OpId => True in
  (W -> well_formed g) ->
  (0 < nn -> _incpu_count o <= nn) ->
  match run tb fuel gr (g, o) with
  | (Ret _, s') => counted W False nn K g P 0 s'
  | (_, s') => CntStop W False nn K g P s'
  end.
Proof.
  intros nn K P Hw Hl. unfold run.
  set (o1 := match gr with Some r => set_graph (Some r) o | None => o end).
  assert (E1 : (match gr with
                | Some r => modify (set_graph (Some r))
                | None => ret tt
                end) (g, o) = (Ret tt, (g, o1)))
    by (subst o1; destruct gr; reflexivity).
  rewrite (bind_Ret _ _ _ _ _ E1). mret.
  assert (Hn1 : _n_tensors o1 = _n_tensors o)
    by (subst o1; destruct gr; reflexivity).
  assert (Hi1 : _incpu_count o1 = _incpu_count o)
    by (subst o1; destruct gr; reflexivity).
  assert (Hc : forall o', _n_tensors o' = nn -> _incpu_count o' = _incpu_count o ->
                          Cnt W False nn K g P [] (g, o')).
  { intros o' H1 H2. split; [| intros _ t []].
    unfold counted. cbn [fst snd]. rewrite H1, H2.
    split; [exact Hw |]. split; [reflexivity |]. split; [subst K; lia |].
    split; [intros Hpos; specialize (Hl Hpos); lia |].
    split; [intros [] | apply new_ops_ok_refl]. }
  destruct (_n_tensors o1 =? 0) eqn:E0.
  - apply Z.eqb_eq in E0. cbn. apply Hc; [| exact Hi1].
    subst nn. rewrite <- Hn1, E0. reflexivity.
  - set (o2 := if _n_tensors o1 <? 0 then set_n_tensors 0 o1 else o1).
    assert (E2 : (if _n_tensors o1 <? 0 then modify (set_n_tensors 0)
                  else ret tt) (g, o1) = (Ret tt, (g, o2)))
      by (subst o2; destruct (_n_tensors o1 <? 0); reflexivity).
    rewrite (bind_Ret _ _ _ _ _ E2). mret.
    assert (Hi2 : Cnt W False nn K g P [] (g, o2)).
    { apply Hc.
      - subst o2 nn. rewrite <- Hn1. now destruct (_n_tensors o1 <? 0).
      - subst o2. now destruct (_n_tensors o1 <? 0). }
    destruct (_graph o2).
    2:{ cbn. now apply Cnt_stop with (T := []). }
    mstep (build_gradient_ops_cnt W False nn K g P [] _ Hi2) as u g3 o3 H3.
    mstep (get_seed_ops_cnt W False nn K g P [] _ H3) as seed_ops g4 o4 H4.
    mstep (reachable_from_cnt W False nn K g P [] seed_ops [] _ H4)
      as reachable_ops g5 o5 H5.
    mret.
    destruct (existsb _ reachable_ops); [apply H5 |].
    pose proof (run_rewrite_cnt W nn K g P tb fuel g5 seed_ops reachable_ops
                  _ H5) as H6.
    unfold run_rewrite in H6.
    match goal with
    | |- match ?x with _ => _ end =>
        destruct x as [[r | e |] s']; [apply H6 | exact H6 | exact H6]
    end.
Qed.

Lemma init_counters a o :
  __init__ a = Ret o -> _n_tensors o = n_tensors a /\ _incpu_count o = 0.
Proof.
  unfold __init__. destruct (negb _); [discriminate |].
  intros E. injection E as <-. split; reflexivity.
Qed.

(** X22: a run on a new object keeps a well-formed graph well formed,
    however it ends (a result, an exception, no fuel left): every input of
    every operation, the swap operations included, is an output slot of an
    operation of the graph. *)
Theorem run_keeps_well_formed tb fuel gr (g : Graph) (a : Args) (o : LMS) :
  __init__ a = Ret o ->
  well_formed g ->
  well_formed (fst (snd (run tb fuel gr (g, o)))).
Proof.
  intros Hinit Hwf. destruct (init_counters a o Hinit) as [Hn Hi].
  pose proof (run_counted True tb fuel gr g o (fun _ => Hwf)) as H.
  cbv zeta in H. rewrite Hi in H.
  assert (Hl : 0 < (if _n_tensors o <? 0 then 0 else _n_tensors o) ->
               0 <= (if _n_tensors o <? 0 then 0 else _n_tensors o)) by lia.
  specialize (H Hl).
  destruct (run tb fuel gr (g, o)) as [[r | e |] s']; cbn [fst snd].
  - now apply H.
  - destruct H as [H | H]; now apply H.
  - destruct H as [H | H]; now apply H.
Qed.

End CountingTheorems.

Lemma run_keeps_well_formed_witness :
  well_formed (fst (snd (run ex_topos 10 (Some the_graph)
                           (ex_graph_atomic, ex_lms)))).
Proof.
  apply (run_keeps_well_formed ex_topos 10 (Some the_graph) ex_graph_atomic
           ex_args ex_lms).
  - reflexivity.
  - exact ex_graph_atomic_well_formed.
Defined.

Section SwapoutLimit.

Context {env : Env}.

(** X23: with a limit [n_tensors] above 0, a run on a new object creates at
    most [n_tensors] swap-out operations, however it ends: the graph has at
    most [n_tensors] more operations named 'lms/swapout...' than before. *)
Theorem run_swapout_limit tb fuel gr (g : Graph) (a : Args) (o : LMS) :
  __init__ a = Ret o ->
  0 < n_tensors a ->
  Z.of_nat (count_swapout (fst (snd (run tb fuel gr (g, o)))))
  <= Z.of_nat (count_swapout g) + n_tensors a.
Proof.
  intros Hinit Hpos. destruct (init_counters a o Hinit) as [Hn Hi].
  pose proof (run_counted False tb fuel gr g o (fun F => False_ind _ F)) as H.
  cbv zeta in H. rewrite Hi, Hn in H.
  assert (E : (n_tensors a <? 0) = false) by (apply Z.ltb_ge; lia).
  rewrite E in H. specialize (H ltac:(lia)).
  assert (Hd : forall d s, counted False False (n_tensors a)
                             (Z.of_nat (count_swapout g) - 0) g
                             (fun _ => True) d s ->
                           Z.of_nat (count_swapout (fst s))
                           <= Z.of_nat (count_swapout g) + n_tensors a).
  { intros d s (_ & _ & Hk & Hlim & _). specialize (Hlim Hpos). lia. }
  destruct (run tb fuel gr (g, o)) as [[r | e |] s']; cbn [fst snd].
  - now apply (Hd 0).
  - destruct H as [H | H]; [now apply (Hd 0) | now apply (Hd 1)].
  - destruct H as [H | H]; [now apply (Hd 0) | now apply (Hd 1)].
Qed.

End SwapoutLimit.

Lemma run_swapout_limit_witness :
  Z.of_nat (count_swapout (fst (snd (run ex_topos 10 (Some the_graph)
                                       (ex_graph, lms_of ex_args_one)))))
  <= Z.of_nat (count_swapout ex_graph) + 1.
Proof.
  apply (run_swapout_limit ex_topos 10 (Some the_graph) ex_graph
           ex_args_one (lms_of ex_args_one)).
  - reflexivity.
  - reflexivity.
Defined.

(** On [ex_graph] the outputs of [A] and of [B] both cross into the
    backward phase: without a limit two swap-out operations are created,
    with [n_tensors = 1] one. *)
Example run_swapout_limit_example :
  count_swapout (fst (snd (run ex_topos 10 (Some the_graph)
                             (ex_graph, ex_lms)))) = 2%nat
  /\ count_swapout (fst (snd (run ex_topos 10 (Some the_graph)
                                (ex_graph, lms_of ex_args_one)))) = 1%nat.
Proof. vm_compute. split; reflexivity. Qed.

Section SwapoutCount.

Context {env : Env}.

(** X24: when a run on a new object returns, the number of swap-out
    operations it has added to the graph is the value of [_incpu_count]
    (the number that [run] logs as the tensors swapped out). *)
Theorem run_counts_swapouts tb fuel gr (g : Graph) (a : Args) (o : LMS)
        r g' o' :
  __init__ a = Ret o ->
  run tb fuel gr (g, o) = (Ret r, (g', o')) ->
  Z.of_nat (count_swapout g') = Z.of_nat (count_swapout g) + _incpu_count o'.
Proof.
  intros Hinit Hrun. destruct (init_counters a o Hinit) as [Hn Hi].
  pose proof (run_counted False tb fuel gr g o (fun F => False_ind _ F)) as H.
  cbv zeta in H. rewrite Hi, Hrun in H.
  destruct H as (_ & _ & Hk & _).
  - lia.
  - cbn [fst snd] in Hk. lia.
Qed.

End SwapoutCount.

Lemma run_counts_swapouts_witness :
  let s := snd (run ex_topos 10 (Some the_graph) (ex_graph, ex_lms)) in
  Z.of_nat (count_swapout (fst s))
  = Z.of_nat (count_swapout ex_graph) + _incpu_count (snd s).
Proof.
  apply (run_counts_swapouts ex_topos 10 (Some the_graph) ex_graph ex_args
           ex_lms (Some [4; 6; 5; 7]%nat)).
  - reflexivity.
  - vm_compute. reflexivity.
Defined.

Section TurnsOff.

Context {env : Env}.

(** X25: [run] replaces a negative [_n_tensors] by 0 and nothing sets it
    back, so an object made with a negative [n_tensors] (the default, -1)
    serves for one run only: however that run ends, [_n_tensors] is 0
    afterwards, and every later [run] on the object returns [None] at once
    and leaves the graph as it is. *)
Theorem run_turns_itself_off tb fuel gr (g : Graph) (o : LMS) :
  _n_tensors o < 0 ->
  let s1 := snd (run tb fuel gr (g, o)) in
  _n_tensors (snd s1) = 0
  /\ forall fuel' gr',
       fst (run tb fuel' gr' s1) = Ret None
       /\ fst (snd (run tb fuel' gr' s1)) = fst s1.
Proof.
  intros Hneg s1.
  pose proof (run_counted False tb fuel gr g o (fun F => False_ind _ F)) as H.
  cbv zeta in H.
  assert (E : (_n_tensors o <? 0) = true) by (apply Z.ltb_lt; lia).
  rewrite E in H. specialize (H ltac:(lia)).
  assert (Hn : _n_tensors (snd s1) = 0).
  { subst s1. destruct (run tb fuel gr (g, o)) as [[r | e |] s']; cbn [snd].
    - apply H.
    - destruct H as [H | H]; apply H.
    - destruct H as [H | H]; apply H. }
  split; [exact Hn |].
  intros fuel' gr'. destruct s1 as [g1 o1]. cbn [fst snd] in *.
  rewrite run_disabled by exact Hn. split; reflexivity.
Qed.

End TurnsOff.

Lemma run_turns_itself_off_witness :
  let s1 := snd (run ex_topos 10 (Some the_graph) (ex_graph, ex_lms)) in
  _n_tensors (snd s1) = 0
  /\ forall fuel' gr',
       fst (run ex_topos fuel' gr' s1) = Ret None
       /\ fst (snd (run ex_topos fuel' gr' s1)) = fst s1.
Proof.
  apply (run_turns_itself_off ex_topos 10 (Some the_graph) ex_graph ex_lms).
  reflexivity.
Defined.

(* ================================================================== *)
(** ** What [run] swaps out *)

Section Exclusions.

Context {env : Env}.

Lemma init_filters a o :
  __init__ a = Ret o ->
  _excl_scopes o = excl_scopes a /\ _incl_scopes o = incl_scopes a
  /\ _excl_types o = str_union (excl_types a) ATOMIC_TYPES
  /\ _incl_types o = incl_types a.
Proof.
  unfold __init__. destruct (negb _); [discriminate |].
  intros E. injection E as <-. repeat split; reflexivity.
Qed.

(** X26: the exclusions and inclusions of the configuration are respected.
    An operation lies in a name scope when the regular expression of the
    scope, as [ge.get_name_scope_ops] builds it, is found in its name
    ([in_name_scope]).  A swap-out operation created by a run on a new
    object, however the run ends, reads only operations of the original
    graph that lie in none of the excluded name scopes and whose type is
    none of the excluded types; and when the include scopes and types
    select at least one operation that the seed operations reach, it reads
    only selected operations.  The graph is assumed well formed, and the
    order to give no level to an operation outside the graph it was built
    for. *)
Theorem run_respects_exclusions tb fuel gr (g : Graph) (a : Args) (o : LMS) :
  __init__ a = Ret o ->
  well_formed g ->
  (forall seeds grad, levels_within g (tb g seeds grad)) ->
  let g' := fst (snd (run tb fuel gr (g, o))) in
  let selected := fun y =>
    (exists sc, In sc (incl_scopes a) /\ in_name_scope g sc y = true)
    \/ In (op_type g y) (incl_types a) in
  forall so t,
    (List.length g <= so < List.length g')%nat ->
    swapout_named g' so = true ->
    In t (inputs (node g' so)) ->
    valid g (fst t)
    /\ (forall sc, In sc (excl_scopes a) -> in_name_scope g sc (fst t) = false)
    /\ ~ In (op_type g (fst t)) (excl_types a)
    /\ (forall s y, In s (run_seed_ops g o) -> reaches g s y -> selected y ->
                    selected (fst t)).
Proof.
  intros Hinit Hwf Hlev g' selected so t Hnew Hname Hin.
  destruct (init_fresh a o Hinit) as (Hd & Hgr & Hty).
  destruct (init_counters a o Hinit) as [_ Hi0].
  destruct (init_filters a o Hinit) as (F1 & F2 & F3 & F4).
  assert (Hm : memo_consistent g o).
  { intros x l Hl. unfold lookup in Hl. rewrite Hd in Hl. discriminate. }
  set (R := new_reachable_from g (run_seed_ops g o)).
  assert (Hinv : graph_inv g R g').
  { apply run_graph_inv; auto. rewrite Hgr. intros x []. }
  destruct (gi_swapout Hinv so t Hnew Hname Hin) as [HR _].
  pose proof (run_sources tb fuel gr g o Hm Hi0 Hlev) as [_ Hs].
  destruct (Hs so t Hnew Hname Hin) as [Hx Hi]. fold R in Hx, Hi.
  rewrite F1, F3 in Hx. rewrite F2, F4 in Hi.
  apply mem_false in Hx. rewrite In_filtered_ops_of in Hx.
  split; [now apply run_reachable_valid with (o := o) |].
  split; [| split].
  - intros sc Hsc. destruct (in_name_scope g sc (fst t)) eqn:E; [| reflexivity].
    exfalso. apply Hx. split; [exact HR |]. left. now exists sc.
  - intros Hty'. apply Hx. split; [exact HR |]. right.
    apply In_str_union. now left.
  - intros s y Hs' Hreach Hsel.
    assert (Hy : In y (filtered_ops_of g R (incl_scopes a) (incl_types a))).
    { apply In_filtered_ops_of. split; [| exact Hsel].
      apply In_new_reachable_from. exists s. split; [exact Hs' |].
      now apply In_get_forward_walk_ops. }
    apply andb_false_iff in Hi. destruct Hi as [Hi | Hi].
    + apply nonempty_false in Hi. rewrite Hi in Hy. destruct Hy.
    + apply negb_false_iff in Hi. apply mem_In in Hi.
      apply In_filtered_ops_of in Hi. apply Hi.
Qed.

End Exclusions.

Lemma ex_graph_well_formed : well_formed ex_graph.
Proof.
  intros c t Hc Ht. unfold valid in *. cbn in Hc.
  do 4 (destruct c as [| c];
        [cbn in Ht; intuition (subst; cbn; lia) |]).
  lia.
Qed.

Lemma ex_graph_levels_within g seeds grad :
  levels_within ex_graph (ex_topos g seeds grad).
Proof.
  intros op Hop. unfold valid in Hop. cbn in Hop. cbn [ex_topos get_order].
  destruct (op <? 4)%nat eqn:E; [apply Nat.ltb_lt in E; lia | lia].
Qed.

Lemma run_respects_exclusions_witness :
  let selected := fun y =>
    (exists sc, In sc [] /\ in_name_scope ex_graph sc y = true)
    \/ In (op_type ex_graph y) [] in
  valid ex_graph 0%nat
  /\ (forall sc, In sc ["B"] -> in_name_scope ex_graph sc 0%nat = false)
  /\ ~ In (op_type ex_graph 0%nat) []
  /\ (forall s y, In s (run_seed_ops ex_graph (lms_of ex_args_excl)) ->
                  reaches ex_graph s y -> selected y -> selected 0%nat).
Proof.
  apply (@run_respects_exclusions ex_env ex_topos 10 (Some the_graph) ex_graph
           ex_args_excl (lms_of ex_args_excl) eq_refl ex_graph_well_formed
           (ex_graph_levels_within ex_graph) 4%nat (0%nat, 0%nat)).
  - vm_compute. lia.
  - reflexivity.
  - vm_compute. now left.
Defined.

(** With the scope [B] excluded, the run on [ex_graph] swaps the output of
    [A] only; without the exclusion it swaps the output of [B] as well. *)
Example run_respects_exclusions_example :
  let g1 := fst (snd (run ex_topos 10 (Some the_graph)
                        (ex_graph, lms_of ex_args_excl))) in
  let g2 := fst (snd (run ex_topos 10 (Some the_graph) (ex_graph, ex_lms))) in
  map (fun nd => inputs nd)
      (filter (fun nd => String.prefix (tf.scoped "lms/swapout") (name nd)) g1)
  = [[(0, 0)%nat]]
  /\ map (fun nd => inputs nd)
         (filter (fun nd => String.prefix (tf.scoped "lms/swapout") (name nd)) g2)
     = [[(0, 0)%nat]; [(1, 0)%nat]].
Proof. vm_compute. split; reflexivity. Qed.

Section NewOperations.

Context {env : Env}.

(** X27: a run on a new object adds swap operations only, however it ends:
    every operation that is in the graph afterwards and was not there
    before has the type Identity, one output and one data input, and a name
    that starts, behind the prefix of the name scope in which [run] is
    called ([tf.scoped]), with 'lms/swapout' or with 'lms/swapin'. *)
Theorem run_adds_swap_operations_only tb fuel gr (g : Graph) (a : Args)
        (o : LMS) :
  __init__ a = Ret o ->
  let g' := fst (snd (run tb fuel gr (g, o))) in
  forall c, (List.length g <= c < List.length g')%nat ->
    type (node g' c) = "Identity"
    /\ n_outputs (node g' c) = 1%nat
    /\ List.length (inputs (node g' c)) = 1%nat
    /\ (String.prefix (tf.scoped "lms/swapout") (name (node g' c)) = true
        \/ String.prefix (tf.scoped "lms/swapin") (name (node g' c)) = true).
Proof.
  intros Hinit g'. destruct (init_counters a o Hinit) as [_ Hi].
  pose proof (run_counted False tb fuel gr g o (fun F => False_ind _ F)) as H.
  cbv zeta in H. rewrite Hi in H.
  assert (Hl : 0 < (if _n_tensors o <? 0 then 0 else _n_tensors o) ->
               0 <= (if _n_tensors o <? 0 then 0 else _n_tensors o)) by lia.
  specialize (H Hl). subst g'.
  destruct (run tb fuel gr (g, o)) as [[r | e |] s']; cbn [fst snd].
  - apply H.
  - destruct H as [H | H]; apply H.
  - destruct H as [H | H]; apply H.
Qed.

End NewOperations.

Lemma run_adds_swap_operations_only_witness :
  let g' := fst (snd (run ex_topos 10 (Some the_graph) (ex_graph, ex_lms))) in
  type (node g' 4%nat) = "Identity"
  /\ n_outputs (node g' 4%nat) = 1%nat
  /\ List.length (inputs (node g' 4%nat)) = 1%nat
  /\ (String.prefix (tf.scoped "lms/swapout") (name (node g' 4%nat)) = true
      \/ String.prefix (tf.scoped "lms/swapin") (name (node g' 4%nat)) = true).
Proof.
  apply (@run_adds_swap_operations_only ex_env ex_topos 10 (Some the_graph)
           ex_graph ex_args ex_lms eq_refl 4%nat).
  vm_compute. lia.
Defined.

(** Called inside the name scope 'outer', the run names its operations
    'outer/lms/swapout' and 'outer/lms/swapin'. *)
Example run_in_name_scope_example :
  map name (fst (snd (@run ex_env_outer ex_topos 10 (Some the_graph)
                        (ex_graph, ex_lms))))
  = ["A"; "B"; "grad/C"; "grad/D"; "outer/lms/swapout"; "outer/lms/swapin";
     "outer/lms/swapout_1"; "outer/lms/swapin_1"]
  /\ @tf.scoped ex_env_outer "lms/swapout" = "outer/lms/swapout".
Proof. vm_compute. split; reflexivity. Qed.
